(* ===== verification/_CoqProject ===== *)
-Q . S2P
Prelude.v
RustStr.v
Ascii.v
Json.v
SqlParser.v
Effects.v
Config.v
Net.v
WebState.v
HttpProtocol.v
Web.v
WebProofs.v
WebPool.v
Exposure.v
WebShared.v
WebEnds.v
WebFrames.v
Outbound.v
Dial.v
Transport.v
Extension.v
HostStats.v
Packaging.v
Idents.v
Worker.v
Exec.v
Policy.v
RuntimeWorker.v
Ledger.v
Turns.v
RpcSocket.v
HttpPool.v
Cancel.v
EndToEnd.v
