(* ===== verification/Prelude.v ===== *)
(** Verification of the Allgres agent runtime (the Rust crate under src/src).

    * The program

    Allgres is a PostgreSQL extension with two background workers. The
    _runtime worker_ holds the only database connection: it answers the
    dashboard's requests on a Unix socket, hands outbound HTTP calls to a pool
    of four threads and harvests their results, and runs the agents' SQL,
    functions and procedures itself, under roles it drops to. The _web worker_
    has no database access: it listens on a TCP port, starts a thread per
    connection, and forwards what passes its guards to the runtime worker's
    socket. The extension's own functions analyse agent SQL from PostgreSQL's
    parse tree, report status and start the workers.

    * How it is modelled

    Pure code is functions on byte strings. Rust code that can panic returns an
    [outcome] (Prelude). Code with effects is a program of type [io E A]
    (Effects): a tree of operations of [E], each answered by the environment
    as it likes, ending in a value or a raised error. PostgreSQL, clocks,
    sockets, threads and ureq are such environments: nothing is assumed of
    their answers. A property of every run is stated with a monitor, an
    automaton over the operations that says which are allowed when and what
    it learns from the answers; [wp] and [wpr] prove that a program's every
    run is accepted. Concurrency is a step relation on the shared state and
    the remaining programs (WebPool, WebShared, HttpPool, Cancel). Time is a
    clock the environment answers for; where a bound on it is stated, the
    monitor or the run says how long the operations may take (WebEnds, Turns,
    Transport). A 64-bit float is the one of the Standard Library (SpecFloat).

    Files, in dependency order, and the sources they translate:
    - Prelude: bytes, panics, results, tactics. RustStr: what the sources use
      of Rust's strings (UTF-8 validity, lossy decoding, trimming, splitting,
      searching, decimal and hexadecimal numbers) and [truncate_utf8] of
      lib.rs. Ascii: decimal texts read back, printable text. Json:
      [serde_json::Value] and its accessors.
    - SqlParser: sql_parser.rs.
    - Effects: programs, runs, monitors, weakest preconditions, loop rules.
    - Config: the constants of lib.rs, config.rs. Net: IP addresses.
    - WebState: the shared state of web.rs (tickets, rate windows). HttpProtocol:
      http_protocol.rs. Web: web.rs, one program per connection and the accept
      loop. WebProofs (one connection), WebPool (the accept loop beside the
      handlers), Exposure (what it binds), WebShared (the threads on their
      shared state), WebEnds (how a connection ends), WebFrames (what is
      written on it): its theorems.
    - Outbound, Transport: outbound.rs (address guard, [perform_http], sliced
      waits). Dial: the guarded resolver under [perform_http]. Extension, HostStats, Packaging: lib.rs (the entry points, the
      host statistics with their floating point, the declared SQL files).
    - Idents: the checks on values that reach statement texts (rpc.rs,
      sandbox.rs, function_exec.rs). Worker: statements and operations of the
      runtime worker's thread, [drop_privileges], transactions,
      subtransactions, the pinned role. Exec: sandbox.rs, function_exec.rs,
      procedure_exec.rs. RuntimeWorker: runtime_worker.rs and rpc.rs.
    - Policy, Ledger, Turns, RpcSocket, HttpPool, Cancel, EndToEnd: theorems
      about the runtime worker, the pool beside it with the cancellation flags
      they share (outbound.rs), and both workers together.
    Definitions keep the names of the functions they translate; where Rust code
    repeats itself (claims, completions, the four HTTP queues) the shape is one
    definition and each function an instance.

    * What is shown

    - Privileges: in every run of the whole runtime worker, agent code runs
      only under a pinned agent role with an empty search path and an armed
      timeout, everything else only after the drop ([runtime_keeps_policy]);
      spliced names are SQL words and bodies are quoted verbatim; calls that
      succeed leave the session clean and builds leave the guard in place.
    - The web worker: what reaches the runtime worker passed every guard
      ([rpc_guarded]); tickets and rate windows implement their specification
      over the history of operations ([ticket_redeems], [rate_check_exact]), and
      do so for threads that interleave in any way ([shared_state_linear],
      [tickets_single_use], [requests_bounded]); a request is read back exactly however it arrives
      ([read_any_chunking]); a connection comes to an end by itself, after at
      most thirty exchanges, unless the client stops taking its response
      ([handler_finishes]), and is answered with one well-framed response or
      event stream ([answers_well_framed]); handlers are bounded; without a
      token or a word from the operator only a host written as loopback is
      bound ([exposure_guarded]).
    - Both workers: the socket is closed to others before it is used, and a
      forwarded request gets the database's answer ([rpc_end_to_end]).
    - SQL analysis: relations, CTE names and functions are exactly those of
      the dump ([analyze_relations_exact], [analyze_functions_exact]); a reading
      SELECT is the only statement and holds no node that writes
      ([select_verdict_sound]); no readable dump panics; tokens read back.
    - Outbound HTTP: at most one application request, to its own URL, through
      the guarded resolver ([perform_http_accounted]), so that whatever names
      resolve to, no private address is dialed that the call does not admit
      ([dials_guarded]); the blocked networks ([blocked_ipv4_ranges]);
      the order of an MCP session ([mcp_session_order]).
    - The operator's stop: it reaches the call it is for and no other, through
      the flags the threads share ([stop_reaches_its_call]), and a thread that
      waits notices it within a slice ([stop_within_a_slice]).
    - The main loop: capacity, routing, one reply per connection
      ([runtime_keeps_books]); the order and the pace of its turns
      ([turns_in_order]); jobs are conserved across the pool
      ([pool_conserves_jobs]), whose threads, each in [perform_http], work off
      what they hold ([pool_works_off]).
    - lib.rs: the host statistics are the kernel's figures or null
      ([host_stats_exact]); the load orders of the SQL files ([load_orders]).
    - Behaviour that is not what it should be, proved of the code as it is:
      [plain_error_leaks_subtransaction], [raise_leaves_timer_armed],
      [builds_untimed], [non_object_body_panics], [panics_close_the_door],
      [stale_address_kept], [silent_wait_overstays], [dashboard_holds] (a
      response nobody takes), [loopback_by_name] (a name that begins with 127).

    * Bounds and fuel

    Loops take fuel, and [None] is a loop still running, never a result.
    Reading a request ends within [MAX_REQUEST_BYTES] + 1 rounds
    ([read_terminates]), an event stream within as many as the seconds it
    may take ([handler_finishes]), a wait that is stopped within as many as the
    milliseconds before the stop; the RPC and harvest loops are out of fuel only after
    that many connections or results ([inner_loops_drain]); the dump scanners
    and the dollar tag use the length of their input, which is shown enough
    ([after_matches_occurrences], [extend_tag_absent]). The main loops run for
    ever in the code: their theorems hold for every fuel, hence for every
    finite prefix of a run. [usize] addition wraps as in a release build;
    times are milliseconds in [Z]; decimal texts have at most 20 digits and
    hexadecimal ones 32, enough for [u64] and [u128].

    * Parameters and what is left out

    serde_json's printer and parser ([json_text], [json_parse]; [Codec] where
    the two must agree), the embedded dashboard page, and PostgreSQL's
    [raw_parser] and [nodeToString] ([parse_print]) are arguments. Not
    modelled: the SQL control plane and the browser code (not Rust), ureq's
    connections and TLS (in Dial its agent is an argument that connects only to
    what its resolver returned), memory contexts and resource owners, and
    poisoned locks. Setting a read or write timeout on a connection is an
    operation; what a timeout does is in the answers, where an operation may
    fail at any time, and in WebEnds, which says which operations have one.

    * Plan

    Next: the type of the runtime worker's statements and arguments (valid
    text without a NUL, numbers in range) under answers PostgreSQL can give;
    the sliced waits run inside a call of Cancel, so that the stop is followed
    from the worker's statement to the end of the wait on one clock. *)

From Stdlib Require Export Strings.Byte.
From Stdlib Require Export ZArith Lia.
From stdpp Require Export base strings numbers option gmap list.

#[export] Set Default Proof Using "Type".

(** * Bytes *)

Abbreviation bytes := (list byte).

#[export] Instance byte_eq_dec : EqDecision byte := Byte.byte_eq_dec.

#[export] Instance byte_inhabited : Inhabited byte := populate x00.

#[export] Instance byte_countable : Countable byte :=
  inj_countable Byte.to_N Byte.of_N Byte.of_to_N.

(** The value of a byte as an unsigned 8-bit integer. *)
Definition u8 (b : byte) : N := Byte.to_N b.

(** The byte of an 8-bit value; larger numbers wrap around. *)
Definition byte_of (n : N) : byte := default x00 (Byte.of_N (n mod 256)).

(** A literal of the source, as the bytes of its UTF-8 encoding. *)
Definition bs (s : string) : bytes := String.list_byte_of_string s.

(** The same, with every apostrophe read as a double quote: the JSON literals
    of the source contain double quotes and no apostrophe. *)
Definition jq (s : string) : bytes :=
  (λ b, if decide (b = x27) then x22 else b) <$> bs s.

(** [in_rng lo hi b]: the Rust pattern [lo..=hi] on a byte. *)
Definition in_rng (lo hi : N) (b : byte) : bool :=
  ((lo <=? u8 b) && (u8 b <=? hi))%N.

Arguments bs : simpl never.
Arguments jq : simpl never.

Lemma u8_bound b : (u8 b < 256)%N.
Proof. unfold u8. destruct b; vm_compute; reflexivity. Qed.

Lemma u8_inj a b : u8 a = u8 b → a = b.
Proof.
  unfold u8. intros H. apply (f_equal Byte.of_N) in H.
  rewrite !Byte.of_to_N in H. by simplify_eq.
Qed.

Lemma in_rng_true lo hi b : in_rng lo hi b = true ↔ (lo ≤ u8 b ≤ hi)%N.
Proof. unfold in_rng. rewrite andb_true_iff, !N.leb_le. done. Qed.

Lemma u8_byte_of n : (n < 256)%N → u8 (byte_of n) = n.
Proof.
  intros Hn. unfold byte_of, u8. rewrite N.mod_small by done.
  destruct (Byte.of_N n) as [b|] eqn:E; simpl.
  - by apply Byte.to_of_N.
  - apply Byte.of_N_None_iff in E. lia.
Qed.

(** * Panics

    Rust code that can panic (slicing a [str] off a character boundary,
    indexing a JSON value of the wrong shape) returns an [outcome]. *)

Inductive outcome (A : Type) : Type :=
| Val (a : A)
| Panic.
Arguments Val {A} a.
Arguments Panic {A}.

#[export] Instance outcome_ret : MRet outcome := λ A a, Val a.

#[export] Instance outcome_bind : MBind outcome := λ A B f m,
  match m with Val a => f a | Panic => Panic end.

#[export] Instance outcome_fmap : FMap outcome := λ A B f m,
  match m with Val a => Val (f a) | Panic => Panic end.

(** Left-to-right evaluation of a list of computations that may panic. *)
Fixpoint collect {A B} (f : A → outcome B) (l : list A) : outcome (list B) :=
  match l with
  | [] => Val []
  | a :: l' => b ← f a; bl ← collect f l'; Val (b :: bl)
  end.

Lemma collect_val {A B} (f : A → outcome B) (g : A → B) l :
  (∀ a, a ∈ l → f a = Val (g a)) → collect f l = Val (g <$> l).
Proof.
  induction l as [|a l IH]; intros H; [done|]. simpl.
  rewrite (H a) by set_solver. simpl. rewrite IH; [done|]. set_solver.
Qed.

Lemma collect_Val_inv {A B} (f : A → outcome B) l bl :
  collect f l = Val bl → Forall2 (λ a b, f a = Val b) l bl.
Proof.
  revert bl. induction l as [|a l IH]; intros bl H; simpl in H.
  - simplify_eq. constructor.
  - destruct (f a) eqn:Ea; simpl in H; [|done].
    destruct (collect f l) eqn:El; simpl in H; simplify_eq.
    constructor; auto.
Qed.

(** * Results *)

Inductive result (A E : Type) : Type :=
| Ok (a : A)
| Err (e : E).
Arguments Ok {A E} a.
Arguments Err {A E} e.

Definition is_ok {A E} (r : result A E) : bool :=
  match r with Ok _ => true | Err _ => false end.

(** * Lists *)

Lemma drop_app_length' {A} (l k : list A) n : n = length l → drop n (l ++ k) = k.
Proof. intros ->. by rewrite drop_app_length. Qed.

Lemma take_app_length' {A} (l k : list A) n : n = length l → take n (l ++ k) = l.
Proof. intros ->. by rewrite take_app_length. Qed.

Lemma take_drop_join {A} (l : list A) k n m :
  m = k + n → take n (drop k l) ++ drop m l = drop k l.
Proof. intros ->. rewrite <- drop_drop. apply take_drop. Qed.

(** Case analysis on the [if]s and [match]es of the goal. *)
Ltac cases := repeat (case_match; simplify_eq/=).

(** Prove a closed decidable proposition by evaluating its decision. *)
Ltac by_decide := refine (bool_decide_unpack _ _); vm_compute; exact I.
