(* ===== verification/RustStr.v ===== *)
(** The parts of Rust's [core::str] and [alloc::string] the sources use. *)
From S2P Require Import Prelude.

(** * UTF-8 *)

Definition is_ascii (b : byte) : bool := (u8 b <? 128)%N.

Definition is_cont (b : byte) : bool := in_rng 0x80 0xBF b.

(** The second bytes a three-byte and a four-byte lead accept. *)
Definition second3 (b0 b1 : byte) : bool :=
  (in_rng 0xE0 0xE0 b0 && in_rng 0xA0 0xBF b1)
  || (in_rng 0xE1 0xEC b0 && in_rng 0x80 0xBF b1)
  || (in_rng 0xED 0xED b0 && in_rng 0x80 0x9F b1)
  || (in_rng 0xEE 0xEF b0 && in_rng 0x80 0xBF b1).

Definition second4 (b0 b1 : byte) : bool :=
  (in_rng 0xF0 0xF0 b0 && in_rng 0x90 0xBF b1)
  || (in_rng 0xF1 0xF3 b0 && in_rng 0x80 0xBF b1)
  || (in_rng 0xF4 0xF4 b0 && in_rng 0x80 0x8F b1).

(** The width of the well-formed character [s] starts with; 0 when it starts
    with none. *)
Definition utf8_width (s : bytes) : nat :=
  match s with
  | [] => 0
  | b0 :: s1 =>
      if is_ascii b0 then 1
      else if in_rng 0xC2 0xDF b0 then
        match s1 with
        | b1 :: _ => if is_cont b1 then 2 else 0
        | _ => 0
        end
      else if in_rng 0xE0 0xEF b0 then
        match s1 with
        | b1 :: b2 :: _ => if second3 b0 b1 && is_cont b2 then 3 else 0
        | _ => 0
        end
      else if in_rng 0xF0 0xF4 b0 then
        match s1 with
        | b1 :: b2 :: b3 :: _ =>
            if second4 b0 b1 && is_cont b2 && is_cont b3 then 4 else 0
        | _ => 0
        end
      else 0
  end.

Fixpoint valid_utf8 (s : bytes) : bool :=
  match s with
  | [] => true
  | _ :: s1 =>
      match utf8_width s, s1 with
      | 1, _ => valid_utf8 s1
      | 2, _ :: s2 => valid_utf8 s2
      | 3, _ :: _ :: s3 => valid_utf8 s3
      | 4, _ :: _ :: _ :: s4 => valid_utf8 s4
      | _, _ => false
      end
  end.

(** How many bytes one replacement character of [String::from_utf8_lossy]
    stands for: the longest prefix that could start a character. *)
Definition utf8_bad (s : bytes) : nat :=
  match s with
  | b0 :: b1 :: s2 =>
      if second3 b0 b1 then 2
      else if second4 b0 b1 then
        match s2 with
        | b2 :: _ => if is_cont b2 then 3 else 2
        | [] => 2
        end
      else 1
  | _ => 1
  end.

Definition replacement : bytes := [xef; xbf; xbd].

(** [String::from_utf8_lossy]. *)
Fixpoint from_utf8_lossy (s : bytes) : bytes :=
  match s with
  | [] => []
  | b0 :: s1 =>
      match utf8_width s, s1 with
      | 1, _ => b0 :: from_utf8_lossy s1
      | 2, b1 :: s2 => b0 :: b1 :: from_utf8_lossy s2
      | 3, b1 :: b2 :: s3 => b0 :: b1 :: b2 :: from_utf8_lossy s3
      | 4, b1 :: b2 :: b3 :: s4 => b0 :: b1 :: b2 :: b3 :: from_utf8_lossy s4
      | _, _ =>
          match utf8_bad s, s1 with
          | 2, _ :: s2 => replacement ++ from_utf8_lossy s2
          | 3, _ :: _ :: s3 => replacement ++ from_utf8_lossy s3
          | _, _ => replacement ++ from_utf8_lossy s1
          end
      end
  end.

(** [str::chars], each character as its bytes. A byte that starts no
    character stands alone: no [str] has one. *)
Fixpoint chars (s : bytes) : list bytes :=
  match s with
  | [] => []
  | b0 :: s1 =>
      match utf8_width s, s1 with
      | 2, b1 :: s2 => [b0; b1] :: chars s2
      | 3, b1 :: b2 :: s3 => [b0; b1; b2] :: chars s3
      | 4, b1 :: b2 :: b3 :: s4 => [b0; b1; b2; b3] :: chars s4
      | _, _ => [b0] :: chars s1
      end
  end.

(** [b as char] pushed on a [String]: the character U+0000 to U+00FF. *)
Definition char_of_u8 (b : byte) : bytes :=
  if is_ascii b then [b]
  else [byte_of (0xC0 + u8 b / 64); byte_of (0x80 + u8 b mod 64)].

(** [str::is_char_boundary]. *)
Definition is_char_boundary (s : bytes) (i : nat) : bool :=
  if decide (i = 0) then true
  else match s !! i with
       | Some b => negb (is_cont b)
       | None => bool_decide (i = length s)
       end.

(** * ASCII classes and case *)

Definition is_ascii_digit (b : byte) : bool := in_rng 0x30 0x39 b.

Definition is_ascii_hexdigit (b : byte) : bool :=
  in_rng 0x30 0x39 b || in_rng 0x41 0x46 b || in_rng 0x61 0x66 b.

Definition is_ascii_alphanumeric (b : byte) : bool :=
  in_rng 0x30 0x39 b || in_rng 0x41 0x5A b || in_rng 0x61 0x7A b.

(** [u8::is_ascii_whitespace]: space, tab, LF, FF, CR. *)
Definition is_ascii_whitespace (b : byte) : bool :=
  bool_decide (b = x20) || bool_decide (b = x09) || bool_decide (b = x0a)
  || bool_decide (b = x0c) || bool_decide (b = x0d).

Definition ascii_lower (b : byte) : byte :=
  if in_rng 0x41 0x5A b then byte_of (u8 b + 32) else b.

Definition ascii_upper (b : byte) : byte :=
  if in_rng 0x61 0x7A b then byte_of (u8 b - 32) else b.

Definition to_ascii_lowercase (s : bytes) : bytes := ascii_lower <$> s.

Definition to_ascii_uppercase (s : bytes) : bytes := ascii_upper <$> s.

Definition eq_ignore_ascii_case (a b : bytes) : bool :=
  bool_decide (to_ascii_lowercase a = to_ascii_lowercase b).

(** * Searching *)

Fixpoint starts_with (p s : bytes) : bool :=
  match p, s with
  | [], _ => true
  | a :: p', b :: s' => bool_decide (a = b) && starts_with p' s'
  | _ :: _, [] => false
  end.

Definition strip_prefix (p s : bytes) : option bytes :=
  if starts_with p s then Some (drop (length p) s) else None.

(** [str::find] of a substring. *)
Fixpoint find_sub (p s : bytes) : option nat :=
  if starts_with p s then Some 0
  else match s with
       | [] => None
       | _ :: s' => S <$> find_sub p s'
       end.

Definition contains (p s : bytes) : bool := bool_decide (is_Some (find_sub p s)).

(** [str::rfind] of an ASCII character. *)
Fixpoint rfind_byte (c : byte) (s : bytes) : option nat :=
  match s with
  | [] => None
  | b :: s' =>
      match rfind_byte c s' with
      | Some i => Some (S i)
      | None => if decide (b = c) then Some 0 else None
      end
  end.

(** * Splitting *)

(** [str::split] at an ASCII character. *)
Fixpoint split_byte (c : byte) (s : bytes) : list bytes :=
  match s with
  | [] => [[]]
  | b :: s' =>
      if decide (b = c) then [] :: split_byte c s'
      else match split_byte c s' with
           | w :: ws => (b :: w) :: ws
           | [] => [[b]]
           end
  end.

(** [str::split_once] at an ASCII character. *)
Fixpoint split_once (c : byte) (s : bytes) : option (bytes * bytes) :=
  match s with
  | [] => None
  | b :: s' =>
      if decide (b = c) then Some ([], s')
      else match split_once c s' with
           | Some (k, v) => Some (b :: k, v)
           | None => None
           end
  end.

(** The second piece of [str::split] at a substring, [split(p).nth(1)]. *)
Definition split_nth1 (p s : bytes) : option bytes :=
  match find_sub p s with
  | None => None
  | Some i =>
      let rest := drop (i + length p) s in
      match find_sub p rest with
      | Some j => Some (take j rest)
      | None => Some rest
      end
  end.

(** One line of [str::lines] without its terminator, [\n] or [\r\n]. *)
Definition strip_cr (l : bytes) : bytes :=
  if decide (last l = Some x0d) then take (length l - 1) l else l.

Fixpoint lines_of (segs : list bytes) : list bytes :=
  match segs with
  | [] => []
  | [l] => if decide (l = []) then [] else [l]
  | l :: segs' => strip_cr l :: lines_of segs'
  end.

(** [str::lines]. *)
Definition lines (s : bytes) : list bytes := lines_of (split_byte x0a s).

(** * White space *)

(** [char::is_whitespace], the Unicode property White_Space. *)
Definition char_is_whitespace (c : bytes) : bool :=
  match c with
  | [b] => in_rng 0x09 0x0D b || bool_decide (b = x20)
  | [b0; b] => bool_decide (b0 = xc2) && (bool_decide (b = x85) || bool_decide (b = xa0))
  | [b0; b1; b] =>
      (bool_decide (b0 = xe1 ∧ b1 = x9a) && bool_decide (b = x80))
      || (bool_decide (b0 = xe2 ∧ b1 = x80)
          && (in_rng 0x80 0x8A b || bool_decide (b = xa8) || bool_decide (b = xa9)
              || bool_decide (b = xaf)))
      || (bool_decide (b0 = xe2 ∧ b1 = x81) && bool_decide (b = x9f))
      || (bool_decide (b0 = xe3 ∧ b1 = x80) && bool_decide (b = x80))
  | _ => false
  end.

Fixpoint drop_ws (cs : list bytes) : list bytes :=
  match cs with
  | [] => []
  | c :: cs' => if char_is_whitespace c then drop_ws cs' else cs
  end.

(** [str::trim]. *)
Definition trim (s : bytes) : bytes :=
  concat (reverse (drop_ws (reverse (drop_ws (chars s))))).

Fixpoint ws_words (cs : list bytes) (cur : bytes) : list bytes :=
  match cs with
  | [] => if decide (cur = []) then [] else [cur]
  | c :: cs' =>
      if char_is_whitespace c then
        if decide (cur = []) then ws_words cs' [] else cur :: ws_words cs' []
      else ws_words cs' (cur ++ c)
  end.

(** [str::split_whitespace]. *)
Definition split_whitespace (s : bytes) : list bytes := ws_words (chars s) [].

(** * Numbers *)

Definition digit_val (radix : N) (b : byte) : option N :=
  let d :=
    if in_rng 0x30 0x39 b then Some (u8 b - 0x30)%N
    else if in_rng 0x41 0x5A b then Some (u8 b - 0x41 + 10)%N
    else if in_rng 0x61 0x7A b then Some (u8 b - 0x61 + 10)%N
    else None in
  d ≫= λ v, if (v <? radix)%N then Some v else None.

Fixpoint digits_val (radix max : N) (s : bytes) (acc : N) : option N :=
  match s with
  | [] => Some acc
  | b :: s' =>
      match digit_val radix b with
      | None => None
      | Some d =>
          let acc' := (acc * radix + d)%N in
          if (acc' <=? max)%N then digits_val radix max s' acc' else None
      end
  end.

(** [from_str_radix] of an unsigned type whose largest value is [max]: one
    leading [+] is accepted, an empty digit string and an overflow are not. *)
Definition from_str_radix (radix max : N) (s : bytes) : option N :=
  match s with
  | [] => None
  | b :: s' =>
      if decide (b = x2b) then
        if decide (s' = []) then None else digits_val radix max s' 0
      else digits_val radix max s 0
  end.

Definition usize_max : N := 2 ^ 64 - 1.

Definition parse_usize (s : bytes) : option N := from_str_radix 10 usize_max s.

Definition parse_u8_hex (s : bytes) : option byte :=
  byte_of <$> from_str_radix 16 255 s.

(** Decimal digits; a 64-bit integer has at most twenty. *)
Fixpoint decimal_digits (fuel : nat) (n : N) (acc : bytes) : bytes :=
  match fuel with
  | 0 => acc
  | S f =>
      let acc' := byte_of (0x30 + n mod 10) :: acc in
      if (n / 10 =? 0)%N then acc' else decimal_digits f (n / 10) acc'
  end.

Definition decimal (n : N) : bytes := decimal_digits 20 n [].

(** * Replacing and trimming *)

(** [str::replace] of every occurrence of a non-empty [p], left to right. *)
Fixpoint replace_loop (fuel : nat) (p q s : bytes) : bytes :=
  match fuel with
  | 0 => s
  | S f =>
      match find_sub p s with
      | None => s
      | Some i => take i s ++ q ++ replace_loop f p q (drop (i + length p) s)
      end
  end.

Definition replace (p q s : bytes) : bytes := replace_loop (length s) p q s.

(** [str::trim_start_matches] of a non-empty pattern. *)
Fixpoint trim_start_loop (fuel : nat) (p s : bytes) : bytes :=
  match fuel with
  | 0 => s
  | S f =>
      match strip_prefix p s with
      | None => s
      | Some s' => trim_start_loop f p s'
      end
  end.

Definition trim_start_matches (p s : bytes) : bytes := trim_start_loop (length s) p s.

(** [str::trim_end_matches] of an ASCII character. *)
Definition trim_end_byte (c : byte) (s : bytes) : bytes :=
  reverse (trim_start_matches [c] (reverse s)).

(** * Characters of a valid string *)

Definition is_char (c : bytes) : Prop := c ≠ [] ∧ utf8_width c = length c.

Lemma utf8_width_le s : utf8_width s ≤ length s.
Proof. unfold utf8_width. cases; lia. Qed.

Lemma utf8_width_le4 s : utf8_width s ≤ 4.
Proof. unfold utf8_width. cases; lia. Qed.

Lemma utf8_width_app c r : is_char c → utf8_width (c ++ r) = length c.
Proof.
  intros [Hne Hw]. rewrite <- Hw. unfold utf8_width in *.
  destruct c as [|b0 [|b1 [|b2 [|b3 c]]]]; simpl in *; cases; try done.
  all: destruct r; simplify_eq/=; cases; try done.
Qed.

Lemma utf8_width_take s : utf8_width s ≠ 0 → is_char (take (utf8_width s) s).
Proof.
  intros Hw. pose proof (utf8_width_le s) as Hle.
  assert (Hl : length (take (utf8_width s) s) = utf8_width s)
    by (rewrite length_take; lia).
  split; [by intros E; rewrite E in Hl; simpl in Hl; lia|]. rewrite Hl.
  unfold utf8_width in *. destruct s as [|b0 [|b1 [|b2 [|b3 s]]]]; simpl in *; cases; try done.
Qed.

Lemma is_char_ascii b : is_ascii b = true → is_char [b].
Proof. intros Hb. split; [done|]. simpl. by rewrite Hb. Qed.

(** The bytes of a character: a first byte that is no continuation byte, then
    continuation bytes; a single byte is ASCII, and no other is. *)
Lemma is_char_inv c :
  is_char c → ∃ b t, c = b :: t ∧ is_cont b = false ∧ Forall (λ x, is_cont x = true) t
    ∧ (is_ascii b = true ↔ t = []) ∧ length t ≤ 3.
Proof.
  intros [Hne Hw]. destruct c as [|b t]; [done|]. exists b, t. split; [done|].
  assert (Hs : ∀ x, second3 b x = true ∨ second4 b x = true → is_cont x = true).
  { intros x. unfold second3, second4, is_cont.
    rewrite !orb_true_iff, !andb_true_iff, !in_rng_true. lia. }
  assert (Hb : is_ascii b = true ∨ in_rng 0xC2 0xDF b = true
               ∨ in_rng 0xE0 0xEF b = true ∨ in_rng 0xF0 0xF4 b = true → is_cont b = false).
  { unfold is_cont, is_ascii. rewrite N.ltb_lt, !in_rng_true.
    destruct (in_rng 128 191 b) eqn:E; [|done]. apply in_rng_true in E. lia. }
  unfold utf8_width in Hw. destruct (is_ascii b) eqn:Ea.
  - destruct t; [|simpl in Hw; lia]. repeat split; auto; simpl; lia.
  - destruct t as [|b1 [|b2 [|b3 [|b4 t]]]]; simpl in Hw; cases; try lia.
    all: repeat match goal with H : _ && _ = true |- _ => apply andb_true_iff in H as [??] end.
    all: split; [apply Hb; tauto|].
    all: split; [repeat apply Forall_cons_2; try apply Forall_nil_2;
                 first [assumption | apply Hs; tauto]|].
    all: split; [done|simpl; lia].
Qed.

Lemma is_ascii_cont b : is_ascii b = true → is_cont b = false.
Proof.
  unfold is_ascii, is_cont. rewrite N.ltb_lt. intros H.
  destruct (in_rng 128 191 b) eqn:E; [|done]. apply in_rng_true in E. lia.
Qed.

Lemma valid_utf8_char c r : is_char c → valid_utf8 (c ++ r) = valid_utf8 r.
Proof.
  intros Hc. pose proof (utf8_width_app c r Hc) as Hw.
  destruct (is_char_inv c Hc) as (b & t & -> & _ & _ & _ & Hl).
  change ((b :: t) ++ r) with (b :: (t ++ r)) in *.
  cbn [valid_utf8]. rewrite Hw.
  destruct t as [|b1 [|b2 [|b3 [|b4 t]]]]; simpl in *; try done; lia.
Qed.

Lemma valid_utf8_inv s :
  valid_utf8 s = true → s = [] ∨ ∃ c r, s = c ++ r ∧ is_char c ∧ valid_utf8 r = true.
Proof.
  intros Hv. destruct s as [|b s]; [by left|]. right.
  assert (utf8_width (b :: s) ≠ 0) as Hw.
  { intros E. cbn [valid_utf8] in Hv. rewrite E in Hv. by destruct s. }
  exists (take (utf8_width (b :: s)) (b :: s)), (drop (utf8_width (b :: s)) (b :: s)).
  pose proof (utf8_width_take _ Hw) as Hc. split; [by rewrite take_drop|]. split; [done|].
  rewrite <- (valid_utf8_char _ _ Hc). by rewrite take_drop.
Qed.

(** Induction over the characters of a valid string. *)
Lemma utf8_ind (P : bytes → Prop) :
  P [] →
  (∀ c r, is_char c → valid_utf8 r = true → P r → P (c ++ r)) →
  ∀ s, valid_utf8 s = true → P s.
Proof.
  intros H0 HS s. remember (length s) as n eqn:Hn. revert s Hn.
  induction n as [n IH] using lt_wf_ind. intros s -> Hv.
  destruct (valid_utf8_inv s Hv) as [->|(c & r & -> & Hc & Hr)]; [done|].
  apply HS; auto. apply (IH (length r)); auto. rewrite length_app.
  destruct Hc as [Hne _]. destruct c; simpl; [done|lia].
Qed.

Lemma valid_utf8_app a b : valid_utf8 a = true → valid_utf8 (a ++ b) = valid_utf8 b.
Proof.
  intros Ha. revert a Ha. apply utf8_ind; [done|]. intros c r Hc _ IH.
  rewrite <- app_assoc. by rewrite valid_utf8_char.
Qed.

Lemma valid_utf8_ascii s : Forall (λ b, is_ascii b = true) s → valid_utf8 s = true.
Proof.
  induction 1 as [|b s Hb _ IH]; [done|].
  change (b :: s) with ([b] ++ s). rewrite valid_utf8_char; [done|]. by apply is_char_ascii.
Qed.

(** Cutting a valid string at a character boundary gives two valid strings. *)
Lemma valid_utf8_cut s i :
  valid_utf8 s = true → is_char_boundary s i = true →
  valid_utf8 (take i s) = true ∧ valid_utf8 (drop i s) = true.
Proof.
  intros Hv. revert s Hv i. refine (utf8_ind _ _ _).
  - intros i _. by rewrite take_nil, drop_nil.
  - intros c r Hc Hr IH i Hi.
    destruct (decide (i = 0)) as [->|Hi0].
    { rewrite take_0, drop_0. by rewrite valid_utf8_char. }
    destruct (is_char_inv c Hc) as (b & t & Ec & _ & Ht & _ & _).
    destruct (decide (i < length c)) as [Hlt|Hge].
    + exfalso. unfold is_char_boundary in Hi. rewrite decide_False in Hi by done.
      rewrite lookup_app_l in Hi by done.
      destruct i as [|i]; [done|]. rewrite Ec in Hi, Hlt. simpl in Hi, Hlt.
      destruct (t !! i) as [x|] eqn:Ex.
      * rewrite Forall_lookup in Ht. rewrite (Ht _ _ Ex) in Hi. done.
      * apply lookup_ge_None in Ex. lia.
    + assert (is_char_boundary r (i - length c) = true) as Hb.
      { unfold is_char_boundary in *. rewrite decide_False in Hi by done.
        rewrite lookup_app_r in Hi by lia. destruct (decide (i - length c = 0)); [done|].
        destruct (r !! (i - length c)); [done|].
        apply bool_decide_eq_true in Hi. apply bool_decide_eq_true.
        rewrite length_app in Hi. lia. }
      destruct (IH _ Hb) as [H1 H2].
      rewrite take_app_ge, drop_app_ge by lia. split; [|done].
      by rewrite valid_utf8_char.
Qed.

Lemma boundary_ascii a b r : is_ascii b = true → is_char_boundary (a ++ b :: r) (length a) = true.
Proof.
  intros Hb. unfold is_char_boundary. destruct (decide (length a = 0)); [done|].
  rewrite list_lookup_middle by done. by rewrite is_ascii_cont.
Qed.

(** An ASCII byte is a character of its own: cutting before it is safe. *)
Lemma valid_utf8_cut_ascii a b r :
  is_ascii b = true → valid_utf8 (a ++ b :: r) = true →
  valid_utf8 a = true ∧ valid_utf8 r = true.
Proof.
  intros Hb Hv. destruct (valid_utf8_cut _ _ Hv (boundary_ascii a b r Hb)) as [H1 H2].
  rewrite take_app_length in H1. rewrite drop_app_length in H2. split; [done|].
  change (b :: r) with ([b] ++ r) in H2. rewrite valid_utf8_char in H2; [done|].
  by apply is_char_ascii.
Qed.

Lemma from_utf8_lossy_char c r : is_char c → from_utf8_lossy (c ++ r) = c ++ from_utf8_lossy r.
Proof.
  intros Hc. pose proof (utf8_width_app c r Hc) as Hw.
  destruct (is_char_inv c Hc) as (b & t & -> & _ & _ & _ & Hl).
  change ((b :: t) ++ r) with (b :: (t ++ r)) in *.
  cbn [from_utf8_lossy]. rewrite Hw.
  clear Hw. destruct t as [|b1 [|b2 [|b3 [|b4 t]]]]; cbn [length] in Hl; [reflexivity..|lia].
Qed.

Lemma from_utf8_lossy_valid_id s : valid_utf8 s = true → from_utf8_lossy s = s.
Proof.
  revert s. apply utf8_ind; [done|]. intros c r Hc _ IH.
  by rewrite from_utf8_lossy_char, IH.
Qed.

Lemma from_utf8_lossy_bad b s :
  utf8_width (b :: s) = 0 →
  ∃ k, from_utf8_lossy (b :: s) = replacement ++ from_utf8_lossy (drop k s).
Proof.
  intros Hw. cbn [from_utf8_lossy]. rewrite Hw.
  destruct (utf8_bad (b :: s)) as [|[|[|[|n]]]]; destruct s as [|b1 [|b2 s]].
  all: first [exists 0; reflexivity | exists 1; reflexivity | exists 2; reflexivity].
Qed.

Lemma is_char_replacement : is_char replacement.
Proof. by split. Qed.

Lemma from_utf8_lossy_valid s : valid_utf8 (from_utf8_lossy s) = true.
Proof.
  remember (length s) as n eqn:Hn. revert s Hn.
  induction n as [n IH] using lt_wf_ind. intros s ->. destruct s as [|b s]; [done|].
  destruct (decide (utf8_width (b :: s) = 0)) as [Hw|Hw].
  - destruct (from_utf8_lossy_bad b s Hw) as [k ->].
    rewrite (valid_utf8_char _ _ is_char_replacement).
    eapply IH; [|done]. rewrite length_drop. simpl. lia.
  - pose proof (utf8_width_take _ Hw) as Hc.
    rewrite <- (take_drop (utf8_width (b :: s)) (b :: s)).
    rewrite from_utf8_lossy_char, valid_utf8_char by done.
    eapply IH; [|done]. rewrite length_drop. cbn [length]. lia.
Qed.

Lemma chars_char c r : is_char c → chars (c ++ r) = c :: chars r.
Proof.
  intros Hc. pose proof (utf8_width_app c r Hc) as Hw.
  destruct (is_char_inv c Hc) as (b & t & -> & _ & _ & _ & Hl).
  change ((b :: t) ++ r) with (b :: (t ++ r)) in *.
  cbn [chars]. rewrite Hw. clear Hw.
  destruct t as [|b1 [|b2 [|b3 [|b4 t]]]]; cbn [length] in Hl; [reflexivity..|lia].
Qed.

Lemma chars_app a b : valid_utf8 a = true → chars (a ++ b) = chars a ++ chars b.
Proof.
  revert a. refine (utf8_ind _ _ _); [done|]. intros c r Hc _ IH.
  rewrite <- app_assoc, (chars_char c (r ++ b)), (chars_char c r), IH by done. done.
Qed.

Lemma concat_chars s : valid_utf8 s = true → concat (chars s) = s.
Proof.
  revert s. apply utf8_ind; [done|]. intros c r Hc _ IH.
  rewrite chars_char by done. simpl. by rewrite IH.
Qed.

Lemma chars_is_char s : valid_utf8 s = true → Forall is_char (chars s).
Proof.
  revert s. apply utf8_ind; [constructor|]. intros c r Hc _ IH.
  rewrite chars_char by done. by constructor.
Qed.

Lemma valid_utf8_concat cs : Forall is_char cs → valid_utf8 (concat cs) = true.
Proof.
  induction 1 as [|c cs Hc _ IH]; [done|]. simpl. by rewrite valid_utf8_char.
Qed.

(** * Searching: specifications *)

Lemma starts_with_spec p s : starts_with p s = true ↔ ∃ r, s = p ++ r.
Proof.
  revert s. induction p as [|a p IH]; intros s.
  { split; [intros _; by exists s|done]. }
  destruct s as [|b s]; simpl; [split; [done|by intros [r ?]]|].
  rewrite andb_true_iff, bool_decide_eq_true, IH. split.
  - intros [-> [r ->]]. by exists r.
  - intros [r ?]. simplify_eq. split; [done|by exists r].
Qed.

Lemma starts_with_app p r : starts_with p (p ++ r) = true.
Proof. apply starts_with_spec. by exists r. Qed.

Lemma strip_prefix_spec p s r : strip_prefix p s = Some r ↔ s = p ++ r.
Proof.
  unfold strip_prefix. destruct (starts_with p s) eqn:E.
  - apply starts_with_spec in E as [r' ->]. rewrite drop_app_length.
    split; [by intros [= ->]|by intros ->%app_inv_head].
  - split; [done|]. intros ->. by rewrite starts_with_app in E.
Qed.

(** [find_sub] returns the first occurrence. *)
Lemma find_sub_Some p s i :
  find_sub p s = Some i →
  ∃ r, s = take i s ++ p ++ r ∧ i ≤ length s
    ∧ ∀ j, j < i → starts_with p (drop j s) = false.
Proof.
  revert i. induction s as [|b s IH]; intros i H; simpl in H.
  - case_match eqn:E; simplify_eq/=. apply starts_with_spec in E as [r Hr].
    exists r. repeat split; [done|lia|]. intros j Hj. lia.
  - destruct (starts_with p (b :: s)) eqn:E; simplify_eq/=.
    + apply starts_with_spec in E as [r ->]. exists r. repeat split; [lia|]. intros j Hj. lia.
    + destruct (find_sub p s) as [k|] eqn:Ek; simplify_eq/=.
      destruct (IH k eq_refl) as (r & Hr & Hl & Hj). exists r. repeat split.
      * by f_equal.
      * lia.
      * intros [|j] Hlt; [done|]. apply Hj. lia.
Qed.

Lemma find_sub_None p s :
  find_sub p s = None → ∀ j, starts_with p (drop j s) = false.
Proof.
  induction s as [|b s IH]; intros H j; simpl in H.
  - case_match eqn:E; [done|]. by rewrite drop_nil.
  - destruct (starts_with p (b :: s)) eqn:E; [done|].
    destruct (find_sub p s) eqn:Ek; [done|]. destruct j as [|j]; [done|].
    by apply IH.
Qed.

Lemma find_sub_next p b s :
  starts_with p (b :: s) = false → find_sub p (b :: s) = S <$> find_sub p s.
Proof. intros H. cbn [find_sub]. by rewrite H. Qed.

Lemma find_sub_here p r : find_sub p (p ++ r) = Some 0.
Proof.
  pose proof (starts_with_app p r) as H. destruct (p ++ r); cbn [find_sub]; by rewrite H.
Qed.

Lemma contains_spec p s : contains p s = true ↔ ∃ a r, s = a ++ p ++ r.
Proof.
  unfold contains. rewrite bool_decide_eq_true. split.
  - intros [i H]. destruct (find_sub_Some _ _ _ H) as (r & Hr & _). by eexists _, _.
  - intros (a & r & ->). destruct (find_sub p (a ++ p ++ r)) eqn:E; [by eexists|].
    pose proof (find_sub_None _ _ E (length a)) as H.
    rewrite drop_app_length, starts_with_app in H. done.
Qed.

Lemma contains_false p s : contains p s = false ↔ ∀ a r, s ≠ a ++ p ++ r.
Proof.
  rewrite <- not_true_iff_false, contains_spec. naive_solver.
Qed.

(** * Cutting at a length: [truncate_utf8] of src/lib.rs

    The [while] loop walks back from [max] to the nearest boundary. *)

Fixpoint boundary_before (s : bytes) (i : nat) : nat :=
  match i with
  | 0 => 0
  | S i' => if is_char_boundary s i then i else boundary_before s i'
  end.

Definition truncate_utf8 (s : bytes) (max : nat) : bytes :=
  if decide (length s ≤ max) then s else take (boundary_before s max) s.

Lemma boundary_before_le s i : boundary_before s i ≤ i.
Proof. induction i; simpl; [lia|]. case_match; lia. Qed.

Lemma boundary_before_boundary s i : is_char_boundary s (boundary_before s i) = true.
Proof. induction i; simpl; [done|]. by case_match. Qed.

Lemma boundary_before_max s i j :
  j ≤ i → is_char_boundary s j = true → j ≤ boundary_before s i.
Proof.
  induction i as [|i IH]; intros Hj Hb; simpl; [lia|]. case_match; [lia|].
  apply IH; [|done]. destruct (decide (j = S i)); [congruence|lia].
Qed.

Lemma truncate_utf8_length s max : length (truncate_utf8 s max) ≤ max.
Proof.
  unfold truncate_utf8. case_decide; [done|]. rewrite length_take.
  pose proof (boundary_before_le s max). lia.
Qed.

Lemma truncate_utf8_prefix s max : ∃ r, s = truncate_utf8 s max ++ r.
Proof.
  unfold truncate_utf8. case_decide; [by exists []; rewrite app_nil_r|].
  eexists. by rewrite take_drop.
Qed.

Lemma truncate_utf8_valid s max : valid_utf8 s = true → valid_utf8 (truncate_utf8 s max) = true.
Proof.
  intros Hv. unfold truncate_utf8. case_decide; [done|].
  apply valid_utf8_cut; [done|]. apply boundary_before_boundary.
Qed.

(** A cut later than [truncate_utf8]'s, within the limit, is not on a
    character boundary. *)
Lemma truncate_utf8_max s max j :
  max < length s → length (truncate_utf8 s max) < j ≤ max → is_char_boundary s j = false.
Proof.
  intros Hlen Hj. unfold truncate_utf8 in Hj. rewrite decide_False in Hj by lia.
  rewrite length_take in Hj. pose proof (boundary_before_le s max).
  destruct (is_char_boundary s j) eqn:E; [|done].
  apply (boundary_before_max s max) in E; lia.
Qed.

(** Only an ASCII character holds a NUL byte. *)
Lemma is_char_nul c : is_char c → c = [x00] ∨ x00 ∉ c.
Proof.
  intros Hc. destruct (is_char_inv c Hc) as (b & t & -> & _ & Ht & Hb & _).
  destruct (decide (b = x00)) as [->|Hne].
  - left. f_equal. by apply Hb.
  - right. intros Hin. apply elem_of_cons in Hin as [<-|Hin]; [done|].
    rewrite Forall_forall in Ht. by apply Ht in Hin.
Qed.

(** [str::replace] of a string is a string. *)
Lemma valid_utf8_remove_nul s :
  valid_utf8 s = true → valid_utf8 (filter (λ b, b ≠ x00) s) = true.
Proof.
  revert s. apply utf8_ind; [done|]. intros c r Hc _ IH. rewrite filter_app.
  destruct (is_char_nul c Hc) as [->|Hn]; [done|].
  assert (filter (λ b, b ≠ x00) c = c) as ->; [|by rewrite valid_utf8_char].
  clear Hc. induction c as [|b c IHc]; [done|]. rewrite filter_cons, decide_True by set_solver.
  f_equal. apply IHc. set_solver.
Qed.
