(* ===== verification/Ascii.v ===== *)
(** Printable ASCII text: how the functions of [RustStr] read lines, words and
    decimal numbers of it. *)
From S2P Require Import Prelude RustStr.

Definition graphic (b : byte) : bool := in_rng 0x21 0x7E b.
Definition printable (b : byte) : bool := in_rng 0x20 0x7E b.

Lemma graphic_printable b : graphic b = true → printable b = true.
Proof. unfold graphic, printable. rewrite !in_rng_true. lia. Qed.

Lemma alnum_graphic b : is_ascii_alphanumeric b = true → graphic b = true ∧ b ≠ x3a.
Proof.
  unfold is_ascii_alphanumeric, graphic. rewrite !orb_true_iff, !in_rng_true. intros H.
  split; [lia|]. intros ->. change (u8 x3a) with 58%N in H. lia.
Qed.

Lemma printable_not_cr b : printable b = true → b ≠ x0d ∧ b ≠ x0a.
Proof.
  unfold printable. rewrite in_rng_true. intros H.
  split; intros ->; [change (u8 x0d) with 13%N in H|change (u8 x0a) with 10%N in H]; lia.
Qed.

Lemma printable_ascii b : printable b = true → is_ascii b = true.
Proof. unfold printable, is_ascii. rewrite in_rng_true, N.ltb_lt. lia. Qed.

(** * Lines *)

Lemma split_byte_cons c l rest :
  Forall (λ b, b ≠ c) l → split_byte c (l ++ c :: rest) = l :: split_byte c rest.
Proof.
  induction 1 as [|b l Hb _ IH]; simpl.
  - by rewrite decide_True.
  - rewrite decide_False by done. by rewrite IH.
Qed.

Lemma split_byte_nonempty c s : split_byte c s ≠ [].
Proof. destruct s; simpl; [done|]. repeat case_match; done. Qed.

Lemma strip_cr_line l : strip_cr (l ++ [x0d]) = l.
Proof.
  unfold strip_cr. rewrite last_snoc, decide_True by done.
  rewrite length_app, take_app_length'; [done|]. simpl. lia.
Qed.

Lemma split_once_here c k v : Forall (λ b, b ≠ c) k → split_once c (k ++ c :: v) = Some (k, v).
Proof.
  induction 1 as [|b k Hb _ IH]; simpl; [by rewrite decide_True|].
  rewrite decide_False by done. by rewrite IH.
Qed.

(** * Words and trimming *)

Lemma valid_printable s : Forall (λ b, printable b = true) s → valid_utf8 s = true.
Proof.
  intros H. apply valid_utf8_ascii. eapply Forall_impl; [exact H|]. apply printable_ascii.
Qed.

Lemma chars_printable s r :
  Forall (λ b, printable b = true) s → chars (s ++ r) = ((λ b, [b]) <$> s) ++ chars r.
Proof.
  induction 1 as [|b s Hb _ IH]; [done|]. change ((b :: s) ++ r) with ([b] ++ (s ++ r)).
  rewrite chars_char by (by apply is_char_ascii, printable_ascii). rewrite IH. done.
Qed.

Lemma graphic_not_ws b : graphic b = true → char_is_whitespace [b] = false.
Proof.
  unfold graphic. rewrite in_rng_true. intros H. simpl. apply orb_false_iff. split.
  - unfold in_rng. apply andb_false_iff. right. apply N.leb_gt. lia.
  - apply bool_decide_eq_false. intros ->. change (u8 x20) with 32%N in H. lia.
Qed.

Lemma ws_words_word w cs cur :
  Forall (λ b, graphic b = true) w →
  ws_words (((λ b, [b]) <$> w) ++ cs) cur = ws_words cs (cur ++ w).
Proof.
  intros H. revert cur. induction H as [|b w Hb _ IH]; intros cur; [by rewrite app_nil_r|].
  cbn [fmap list_fmap app ws_words]. rewrite graphic_not_ws by done. rewrite IH. by rewrite <- app_assoc.
Qed.

Lemma ws_words_space cs cur : cur ≠ [] → ws_words ([x20] :: cs) cur = cur :: ws_words cs [].
Proof. intros H. simpl. by rewrite decide_False. Qed.

Lemma drop_ws_graphic b cs : graphic b = true → drop_ws ([b] :: cs) = [b] :: cs.
Proof. intros Hb. cbn [drop_ws]. by rewrite graphic_not_ws. Qed.

Lemma concat_singletons (s : bytes) : concat ((λ b, [b]) <$> s) = s.
Proof. induction s as [|b s IH]; [done|]. exact (f_equal (cons b) IH). Qed.

Lemma trim_graphic s : Forall (λ b, graphic b = true) s → trim s = s.
Proof.
  intros H. unfold trim.
  assert (chars s = (λ b, [b]) <$> s) as ->.
  { rewrite <- (app_nil_r s) at 1. rewrite chars_printable.
    - by rewrite app_nil_r.
    - eapply Forall_impl; [exact H|]. apply graphic_printable. }
  assert (∀ s, Forall (λ b, graphic b = true) s → drop_ws ((λ b, [b]) <$> s) = (λ b, [b]) <$> s) as Hd.
  { intros [|b s'] Hs; [done|]. inversion Hs; subst. by apply drop_ws_graphic. }
  rewrite Hd by done. rewrite <- fmap_reverse, Hd by (by apply Forall_reverse).
  by rewrite <- fmap_reverse, reverse_involutive, concat_singletons.
Qed.

Lemma trim_space s : Forall (λ b, printable b = true) s → trim (x20 :: s) = trim s.
Proof.
  intros H. unfold trim. change (x20 :: s) with ([x20] ++ s).
  rewrite chars_char by by_decide. done.
Qed.

Lemma lower_id s : Forall (λ b, ascii_lower b = b) s → to_ascii_lowercase s = s.
Proof. induction 1 as [|b s Hb _ IH]; [done|]. unfold to_ascii_lowercase in *. cbn. by rewrite Hb, IH. Qed.

Lemma ws_words_spaces n cs : ws_words (replicate n [x20] ++ cs) [] = ws_words cs [].
Proof. by induction n. Qed.

Lemma drop_ws_spaces n cs : drop_ws (replicate n [x20] ++ cs) = drop_ws cs.
Proof. by induction n. Qed.

Lemma trim_spaces n s : trim (replicate n x20 ++ s) = trim s.
Proof.
  unfold trim.
  assert (drop_ws (chars (replicate n x20 ++ s)) = drop_ws (chars s)) as ->; [|done].
  induction n as [|n IH]; [done|]. change (replicate (S n) x20 ++ s) with ([x20] ++ (replicate n x20 ++ s)).
  rewrite chars_char by by_decide. exact IH.
Qed.

(** Words separated by one space. *)
Lemma split_whitespace_words w ws :
  w ≠ [] → Forall (λ b, graphic b = true) w → Forall (λ b, printable b = true) ws →
  split_whitespace (w ++ x20 :: ws) = w :: split_whitespace ws.
Proof.
  intros Hne Hw Hws. unfold split_whitespace.
  assert (Forall (λ b, printable b = true) w) as Hp
    by (eapply Forall_impl; [exact Hw|]; apply graphic_printable).
  rewrite chars_printable by done. change (x20 :: ws) with ([x20] ++ ws).
  rewrite chars_char by by_decide. rewrite ws_words_word by done. by rewrite ws_words_space.
Qed.

Lemma split_whitespace_word w :
  w ≠ [] → Forall (λ b, graphic b = true) w → split_whitespace w = [w].
Proof.
  intros Hne Hw. unfold split_whitespace. rewrite <- (app_nil_r w) at 1.
  rewrite chars_printable by (eapply Forall_impl; [exact Hw|]; apply graphic_printable).
  rewrite ws_words_word by done. simpl. by rewrite decide_False.
Qed.

(** Text that starts and ends in graphic characters is not trimmed. *)
Lemma trim_ends a m b :
  graphic a = true → graphic b = true → Forall (λ c, printable c = true) m →
  trim (a :: m ++ [b]) = a :: m ++ [b].
Proof.
  intros Ha Hb Hm. unfold trim.
  assert (chars (a :: m ++ [b]) = (λ c, [c]) <$> (a :: m ++ [b])) as ->.
  { rewrite <- (app_nil_r (a :: m ++ [b])) at 1. rewrite chars_printable; [by rewrite app_nil_r|].
    constructor; [by apply graphic_printable|]. apply Forall_app_2; [done|].
    repeat constructor. by apply graphic_printable. }
  cbn [fmap list_fmap]. rewrite drop_ws_graphic by done. rewrite fmap_app. cbn [fmap list_fmap].
  change ([a] :: ((λ c : byte, [c]) <$> m) ++ [[b]]) with (([a] :: ((λ c : byte, [c]) <$> m)) ++ [[b]]).
  rewrite reverse_app. change (reverse [[b]]) with [[b]]. cbn [app]. rewrite drop_ws_graphic by done.
  change ([b] :: reverse ([a] :: ((λ c : byte, [c]) <$> m)))
    with ([[b]] ++ reverse ([a] :: ((λ c : byte, [c]) <$> m))).
  rewrite reverse_app, reverse_involutive. change (reverse [[b]]) with [[b]].
  change ([a] :: ((λ c : byte, [c]) <$> m)) with ((λ c : byte, [c]) <$> (a :: m)).
  change [[b]] with ((λ c : byte, [c]) <$> [b]). rewrite <- fmap_app. apply concat_singletons.
Qed.

(** * Decimal numbers *)

Lemma digit_val_digit d : (d < 10)%N → digit_val 10 (byte_of (0x30 + d)) = Some d.
Proof.
  intros Hd. assert (d = 0 ∨ d = 1 ∨ d = 2 ∨ d = 3 ∨ d = 4 ∨ d = 5 ∨ d = 6 ∨ d = 7 ∨ d = 8 ∨ d = 9)%N
    as Hc by lia. by repeat destruct Hc as [->|Hc]; [..|subst].
Qed.

Lemma decimal_digits_read fuel max n acc :
  (n < 10 ^ N.of_nat fuel)%N → (n ≤ max)%N →
  digits_val 10 max (decimal_digits fuel n acc) 0 = digits_val 10 max acc n.
Proof.
  revert n acc. induction fuel as [|f IH]; intros n acc Hn Hmax.
  { change (10 ^ N.of_nat 0)%N with 1%N in Hn. by assert (n = 0%N) as -> by lia. }
  assert (n = 10 * (n / 10) + n mod 10)%N as Hdiv by (apply N.div_mod'; lia).
  assert (n mod 10 < 10)%N as Hmod by (apply N.mod_lt; lia).
  cbn [decimal_digits]. destruct (N.eqb_spec (n / 10) 0) as [H0|H0].
  - cbn [digits_val]. rewrite digit_val_digit by done.
    replace (0 * 10 + n mod 10)%N with n by lia. by rewrite (proj2 (N.leb_le n max)).
  - rewrite Nat2N.inj_succ, N.pow_succ_r' in Hn. set (P := (10 ^ N.of_nat f)%N) in *.
    set (q := (n / 10)%N) in *. set (r := (n mod 10)%N) in *. clearbody P q r. rewrite IH by lia.
    cbn [digits_val]. rewrite digit_val_digit by done.
    replace (q * 10 + r)%N with n by lia. by rewrite (proj2 (N.leb_le n max)).
Qed.

Lemma is_ascii_digit_of d : (d < 10)%N → is_ascii_digit (byte_of (0x30 + d)) = true.
Proof.
  intros Hd. unfold is_ascii_digit. rewrite in_rng_true, u8_byte_of by lia. lia.
Qed.

Lemma decimal_digits_ok fuel n acc :
  Forall (λ b, is_ascii_digit b = true) acc →
  Forall (λ b, is_ascii_digit b = true) (decimal_digits fuel n acc).
Proof.
  revert n acc. induction fuel as [|f IH]; intros n acc Hacc; [done|]. cbn [decimal_digits].
  assert (Forall (λ b, is_ascii_digit b = true) (byte_of (0x30 + n mod 10) :: acc)) as H.
  { constructor; [|done]. apply is_ascii_digit_of, N.mod_lt. lia. }
  case_match; [done|by apply IH].
Qed.

Lemma decimal_digits_nonempty fuel n acc : acc ≠ [] → decimal_digits fuel n acc ≠ [].
Proof.
  revert n acc. induction fuel as [|f IH]; intros n acc Hacc; [done|]. cbn [decimal_digits].
  case_match; [done|by apply IH].
Qed.

Lemma decimal_digit n : Forall (λ b, is_ascii_digit b = true) (decimal n).
Proof. by apply decimal_digits_ok. Qed.

Lemma decimal_nonempty n : decimal n ≠ [].
Proof.
  unfold decimal. generalize 19. intros f. cbn [decimal_digits].
  case_match; [done|]. by apply decimal_digits_nonempty.
Qed.

Lemma digit_graphic b : is_ascii_digit b = true → graphic b = true.
Proof. unfold is_ascii_digit, graphic. rewrite !in_rng_true. lia. Qed.

Lemma decimal_graphic n : Forall (λ b, graphic b = true) (decimal n).
Proof. eapply Forall_impl; [apply decimal_digit|]. apply digit_graphic. Qed.

(** A 64-bit number is read back from its decimal text. *)
Lemma decimal_read max n :
  (n ≤ max)%N → (max < 2 ^ 64)%N → from_str_radix 10 max (decimal n) = Some n.
Proof.
  intros Hn Hmax. assert (digits_val 10 max (decimal n) 0 = Some n) as Hd.
  { unfold decimal. rewrite decimal_digits_read; [done| |done].
    change (10 ^ N.of_nat 20)%N with 100000000000000000000%N. lia. }
  pose proof (decimal_digit n) as Hds. pose proof (decimal_nonempty n) as Hne.
  unfold from_str_radix. destruct (decimal n) as [|b s]; [done|].
  inversion Hds; subst. rewrite decide_False; [done|]. by intros ->.
Qed.
