(* ===== verification/Json.v ===== *)
(** JSON values as the sources handle them: the data type of
    [serde_json::Value], the accessors the code calls on it and the object
    literals of the [json!] macro. Reading and printing JSON text is not
    defined here: the definitions that use it take it as an argument. *)
From S2P Require Import Prelude.

(** A number is an unsigned or a negative 64-bit integer, or an IEEE double
    given by its bits. *)
Inductive number : Type :=
| PosInt (n : N)
| NegInt (z : Z)
| Float (bits : N).

Inductive Value : Type :=
| Null
| Bool (b : bool)
| Number (n : number)
| Str (s : bytes)
| Arr (l : list Value)
| Obj (m : list (bytes * Value)).

(** The lexicographic order of the bytes of two keys; objects keep their keys
    in this order. *)
Fixpoint key_lt (a b : bytes) : bool :=
  match a, b with
  | _, [] => false
  | [], _ :: _ => true
  | x :: a', y :: b' =>
      if decide (x = y) then key_lt a' b' else (u8 x <? u8 y)%N
  end.

Fixpoint obj_get (m : list (bytes * Value)) (k : bytes) : option Value :=
  match m with
  | [] => None
  | (k', v) :: m' => if decide (k = k') then Some v else obj_get m' k
  end.

Fixpoint obj_insert (m : list (bytes * Value)) (k : bytes) (v : Value) :
    list (bytes * Value) :=
  match m with
  | [] => [(k, v)]
  | (k', v') :: m' =>
      if decide (k = k') then (k, v) :: m'
      else if key_lt k k' then (k, v) :: m
      else (k', v') :: obj_insert m' k v
  end.

(** An object literal of [json!]. *)
Definition obj (fields : list (bytes * Value)) : Value :=
  Obj (foldl (λ m '(k, v), obj_insert m k v) [] fields).

(** [Value::get] with a string key. *)
Definition get (k : bytes) (v : Value) : option Value :=
  match v with Obj m => obj_get m k | _ => None end.

Definition as_str (v : Value) : option bytes :=
  match v with Str s => Some s | _ => None end.

Definition as_bool (v : Value) : option bool :=
  match v with Bool b => Some b | _ => None end.

Definition as_array (v : Value) : option (list Value) :=
  match v with Arr l => Some l | _ => None end.

Definition as_object (v : Value) : option (list (bytes * Value)) :=
  match v with Obj m => Some m | _ => None end.

Definition as_i64 (v : Value) : option Z :=
  match v with
  | Number (PosInt n) => if (n <? 2 ^ 63)%N then Some (Z.of_N n) else None
  | Number (NegInt z) => Some z
  | _ => None
  end.

(** [v.get(k).and_then(Value::as_str)] and its variants. *)
Definition get_str (k : bytes) (v : Value) : option bytes := get k v ≫= as_str.

Definition get_bool (k : bytes) (v : Value) : option bool := get k v ≫= as_bool.

Definition get_array (k : bytes) (v : Value) : option (list Value) := get k v ≫= as_array.

(** [v[k] = x]: an object is updated, [null] becomes an object, and any other
    value panics. *)
Definition index_set (k : bytes) (x : Value) (v : Value) : outcome Value :=
  match v with
  | Obj m => Val (Obj (obj_insert m k x))
  | Null => Val (Obj [(k, x)])
  | _ => Panic
  end.

(** [json!] of an [Option<&str>]. *)
Definition json_opt_str (o : option bytes) : Value :=
  match o with Some s => Str s | None => Null end.

(** A 64-bit integer cast to 32 bits. *)
Definition as_i32 (z : Z) : Z := ((z + 2 ^ 31) mod 2 ^ 32 - 2 ^ 31)%Z.

Lemma key_lt_irrefl a : key_lt a a = false.
Proof. induction a as [|x a IH]; [done|]. simpl. by rewrite decide_True. Qed.

Lemma obj_get_insert m k k' v :
  obj_get (obj_insert m k v) k' = if decide (k' = k) then Some v else obj_get m k'.
Proof.
  induction m as [|[k0 v0] m IH]; simpl.
  - by destruct (decide (k' = k)).
  - destruct (decide (k = k0)) as [->|]; simpl; [by destruct (decide (k' = k0))|].
    destruct (key_lt k k0); simpl; [by destruct (decide (k' = k))|].
    rewrite IH. destruct (decide (k' = k0)) as [->|]; [|done].
    by rewrite decide_False by congruence.
Qed.

Lemma as_i32_range z : (- 2 ^ 31 ≤ as_i32 z < 2 ^ 31)%Z.
Proof. unfold as_i32. pose proof (Z.mod_pos_bound (z + 2 ^ 31) (2 ^ 32)). lia. Qed.
