(* ===== verification/SqlParser.v ===== *)
(** The reader of PostgreSQL's node dumps, src/src/sql_parser.rs.

    [raw_parser] and [nodeToString] are PostgreSQL's: the dump is an argument
    of every definition here. *)
From S2P Require Import Prelude RustStr Json.

Module SqlParser.

(** * Definitions *)

Definition backslash : byte := x5c.
Definition quote : byte := x22.
Definition lbrace : byte := x7b.
Definition rbrace : byte := x7d.
Definition lparen : byte := x28.
Definition rparen : byte := x29.

(** The bytes that end a token. *)
Definition token_end (b : byte) : bool :=
  is_ascii_whitespace b || bool_decide (b = rbrace) || bool_decide (b = rparen)
  || bool_decide (b = lbrace) || bool_decide (b = lparen).

(** The [while] loop of [read_token]: [s] is what is left of the input at byte
    [i], and [out] the token so far. Slicing off a character boundary
    panics. *)
Fixpoint read_token_loop (s : bytes) (out : bytes) (i : nat) :
    outcome (bytes * nat) :=
  match s with
  | [] => Val (out, i)
  | b :: s1 =>
      if decide (b = backslash) then
        match s1 with
        | c :: s2 => read_token_loop s2 (out ++ char_of_u8 c) (i + 2)
        | [] => read_token_loop s1 out (i + 1)
        end
      else if token_end b then Val (out, i)
      else if is_ascii b then read_token_loop s1 (out ++ [b]) (i + 1)
      else
        match utf8_width s, s1 with
        | 2, _ :: s2 => read_token_loop s2 (out ++ take 2 s) (i + 2)
        | 3, _ :: _ :: s3 => read_token_loop s3 (out ++ take 3 s) (i + 3)
        | 4, _ :: _ :: _ :: s4 => read_token_loop s4 (out ++ take 4 s) (i + 4)
        | _, _ => Panic
        end
  end.

Definition read_token (s : bytes) : outcome (option bytes * nat) :=
  if starts_with (bs "<>") s then Val (None, 2)
  else if starts_with [quote; quote] s then Val (Some [], 2)
  else '(out, i) ← read_token_loop s [] 0; Val (Some out, i).

(** The index at which the scan of [node_body] and [paren_body] stops, when it
    stops before the end. *)
Fixpoint body_end (op cl : byte) (s : bytes) (depth i : nat) : option nat :=
  match s with
  | [] => None
  | b :: s1 =>
      if decide (b = backslash) then
        match s1 with
        | _ :: s2 => body_end op cl s2 depth (i + 2)
        | [] => None
        end
      else if decide (b = op) then body_end op cl s1 (S depth) (i + 1)
      else if decide (b = cl) then
        match depth with
        | 0 => Some i
        | S d => body_end op cl s1 d (i + 1)
        end
      else body_end op cl s1 depth (i + 1)
  end.

Definition body_of (op cl : byte) (s : bytes) : bytes :=
  match body_end op cl s 0 0 with
  | Some i => take i s
  | None => s
  end.

Definition node_body (s : bytes) : bytes := body_of lbrace rbrace s.

Definition paren_body (s : bytes) : bytes := body_of lparen rparen s.

(** The two nested loops of [quoted_strings]: [cur] is [None] between strings
    and [Some] of the text read so far inside one. *)
Fixpoint quoted_loop (s : bytes) (cur : option bytes) (out : list bytes) :
    outcome (list bytes) :=
  match s, cur with
  | [], None => Val out
  | [], Some t => Val (out ++ [t])
  | b :: s1, None =>
      if decide (b = quote) then quoted_loop s1 (Some []) out
      else quoted_loop s1 None out
  | b :: s1, Some t =>
      if decide (b = quote) then quoted_loop s1 None (out ++ [t])
      else if is_ascii b then
        match s1 with
        | c :: s2 =>
            if decide (b = backslash) then quoted_loop s2 (Some (t ++ char_of_u8 c)) out
            else quoted_loop s1 (Some (t ++ [b])) out
        | [] => quoted_loop s1 (Some (t ++ [b])) out
        end
      else
        match utf8_width s, s1 with
        | 2, _ :: s2 => quoted_loop s2 (Some (t ++ take 2 s)) out
        | 3, _ :: _ :: s3 => quoted_loop s3 (Some (t ++ take 3 s)) out
        | 4, _ :: _ :: _ :: s4 => quoted_loop s4 (Some (t ++ take 4 s)) out
        | _, _ => Panic
        end
  end.

Definition quoted_strings (body : bytes) : outcome (list bytes) :=
  quoted_loop body None [].

Definition field (body : bytes) (name : bytes) : outcome (option bytes) :=
  let needle := bs ":" ++ name ++ bs " " in
  match find_sub needle body with
  | None => Val None
  | Some p => '(v, _) ← read_token (drop (p + length needle) body); Val v
  end.

(** [take_while] over the characters of [s]; a character that is not ASCII
    ends it, so bytes do. *)
Fixpoint read_ident (s : bytes) : bytes :=
  match s with
  | b :: s' =>
      if is_ascii_alphanumeric b || bool_decide (b = x5f) then b :: read_ident s' else []
  | [] => []
  end.

(** The [while let Some(p) = dump[idx..].find(needle)] loops of [analyze_dump]:
    the texts that follow each match. [fuel] bounds the iterations; the length
    of the dump is enough ([after_matches_occurrences]). *)
Fixpoint after_matches (fuel : nat) (needle s : bytes) : list bytes :=
  match fuel with
  | 0 => []
  | S fuel' =>
      match find_sub needle s with
      | None => []
      | Some p =>
          let rest := drop (p + length needle) s in
          rest :: after_matches fuel' needle rest
      end
  end.

Definition matches (needle dump : bytes) : list bytes :=
  after_matches (length dump) needle dump.

(** The body of the first loop, on the text after one statement's opener. *)
Definition stmt_kind (rest : bytes) : option bytes :=
  let body := node_body rest in
  let needle := bs ":stmt {" in
  match find_sub needle body with
  | Some q => Some (read_ident (drop (q + length needle) body))
  | None => None
  end.

Definition stmt_kinds (dump : bytes) : list bytes :=
  omap (M:=list) stmt_kind (matches (bs "{RAWSTMT") dump).

Definition relation_at (rest : bytes) : outcome (option Value) :=
  let body := node_body rest in
  name ← field body (bs "relname");
  match name with
  | None => Val None
  | Some n =>
      sch ← field body (bs "schemaname");
      Val (Some (obj [(bs "schema", json_opt_str sch); (bs "name", Str n)]))
  end.

Definition relations (dump : bytes) : outcome (list Value) :=
  l ← collect relation_at (matches (bs "{RANGEVAR ") dump); Val (omap (M:=list) id l).

Definition ctes (dump : bytes) : outcome (list Value) :=
  l ← collect (λ rest, '(t, _) ← read_token rest; Val t) (matches (bs ":ctename ") dump);
  Val (Str <$> omap (M:=list) id l).

(** [parts.pop()] twice: the last string is the name, the one before it the
    schema. *)
Definition function_of (parts : list bytes) : option Value :=
  match reverse parts with
  | [] => None
  | n :: rest =>
      Some (obj [(bs "schema", json_opt_str (head rest)); (bs "name", Str n)])
  end.

Definition functions (dump : bytes) : outcome (list Value) :=
  l ← collect (λ rest, quoted_strings (paren_body rest)) (matches (bs ":funcname (") dump);
  Val (omap (M:=list) function_of l).

Definition dml_tags : list bytes :=
  [bs "{INSERTSTMT"; bs "{UPDATESTMT"; bs "{DELETESTMT"; bs "{MERGESTMT"].

Definition has_into (dump : bytes) : bool := contains (bs ":intoClause {") dump.

Definition has_dml (dump : bytes) : bool := existsb (λ tag, contains tag dump) dml_tags.

Definition dump_kind (kinds : list bytes) : bytes :=
  if decide (kinds = [bs "SELECTSTMT"]) then bs "select" else bs "other".

Definition analyze_dump (dump : bytes) : outcome Value :=
  if decide (dump = []) then
    Val (obj [(bs "ok", Bool false); (bs "error", Str (bs "unparseable"))])
  else
    let kinds := stmt_kinds dump in
    rels ← relations dump;
    cs ← ctes dump;
    funcs ← functions dump;
    Val (obj [(bs "ok", Bool true);
              (bs "statements", Number (PosInt (N.of_nat (length kinds))));
              (bs "kind", Str (dump_kind kinds));
              (bs "writes", Bool (has_into dump || has_dml dump));
              (bs "relations", Arr rels);
              (bs "functions", Arr funcs);
              (bs "ctes", Arr cs)]).

(** [raw_parse_dump], over PostgreSQL's parser and printer: a statement with
    a NUL byte never reaches them, and an empty parse has an empty dump. The
    printed tree is read with [to_string_lossy]. *)
Definition raw_parse_dump (parse_print : bytes → option bytes) (sql : bytes) : bytes :=
  if decide (x00 ∈ sql) then []
  else match parse_print sql with
       | None => []
       | Some out => from_utf8_lossy out
       end.

Definition analyze_sql (parse_print : bytes → option bytes) (sql : bytes) : outcome Value :=
  analyze_dump (raw_parse_dump parse_print sql).

(** * Tokens *)

(** A written token [e] and the text [s] it stands for: some bytes are escaped
    with a backslash, among them every delimiter and every backslash, and none
    of them outside ASCII. Which other bytes a writer escapes is its choice. *)
Inductive escaped : bytes → bytes → Prop :=
| escaped_nil : escaped [] []
| escaped_bs b e s : is_ascii b = true → escaped e s → escaped (backslash :: b :: e) (b :: s)
| escaped_raw b e s :
    b ≠ backslash → token_end b = false → escaped e s → escaped (b :: e) (b :: s).

(** The text can follow a token: it is empty or starts with a delimiter. *)
Definition delimited (r : bytes) : Prop :=
  match r with [] => True | b :: _ => token_end b = true end.

Lemma token_end_ascii b : token_end b = true → is_ascii b = true.
Proof.
  unfold token_end, is_ascii_whitespace. rewrite !orb_true_iff, !bool_decide_eq_true.
  intros H. destruct_or!; subst; done.
Qed.

Lemma not_ascii_plain b : is_ascii b = false → b ≠ backslash ∧ token_end b = false ∧ b ≠ quote.
Proof.
  intros H. split; [by intros ->|]. split; [|by intros ->].
  destruct (token_end b) eqn:E; [|done]. apply token_end_ascii in E. congruence.
Qed.

Lemma is_char_wide c : is_char c → length c ≠ 1 → ∃ b t, c = b :: t ∧ is_ascii b = false
  ∧ Forall (λ x, is_ascii x = false) c ∧ 1 ≤ length t ≤ 3.
Proof.
  intros Hc Hl. destruct (is_char_inv c Hc) as (b & t & -> & _ & Ht & Hb & Hl3).
  assert (is_ascii b = false) as Hb'.
  { destruct (is_ascii b); [|done]. destruct Hb as [Hb _]. by rewrite Hb in Hl. }
  exists b, t. split; [done|]. split; [done|]. split.
  - constructor; [done|]. eapply Forall_impl; [done|]. simpl. intros x Hx.
    destruct (is_ascii x) eqn:E; [|done]. apply is_ascii_cont in E. congruence.
  - split; [|done]. destruct t; simpl in *; [done|lia].
Qed.

Lemma is_char_narrow c : is_char c → length c = 1 → ∃ b, c = [b] ∧ is_ascii b = true.
Proof.
  intros Hc Hl. destruct (is_char_inv c Hc) as (b & t & -> & _ & _ & Hb & _).
  destruct t; [|done]. exists b. split; [done|]. by apply Hb.
Qed.

Lemma read_token_loop_wide c r out i :
  is_char c → length c ≠ 1 →
  read_token_loop (c ++ r) out i = read_token_loop r (out ++ c) (i + length c).
Proof.
  intros Hc Hl. pose proof (utf8_width_app c r Hc) as Hw.
  destruct (is_char_wide c Hc Hl) as (b & t & -> & Hb & _ & Hlt).
  destruct (not_ascii_plain b Hb) as (Hbs & Hte & _).
  change ((b :: t) ++ r) with (b :: (t ++ r)) in *.
  cbn [read_token_loop]. rewrite decide_False, Hte, Hb, Hw by done. clear Hw.
  destruct t as [|b1 [|b2 [|b3 [|b4 t]]]]; cbn [length] in Hlt; try lia; reflexivity.
Qed.

Lemma read_token_loop_ascii b r out i :
  is_ascii b = true → b ≠ backslash → token_end b = false →
  read_token_loop (b :: r) out i = read_token_loop r (out ++ [b]) (i + 1).
Proof. intros Hb Hbs Hte. cbn [read_token_loop]. by rewrite decide_False, Hte, Hb. Qed.

Lemma read_token_loop_bs b r out i :
  is_ascii b = true →
  read_token_loop (backslash :: b :: r) out i = read_token_loop r (out ++ [b]) (i + 2).
Proof. intros Hb. cbn. unfold char_of_u8. by rewrite Hb. Qed.

Lemma read_token_loop_end r out i : delimited r → read_token_loop r out i = Val (out, i).
Proof.
  destruct r as [|b r]; [done|]. simpl. intros H. rewrite decide_False, H; [done|].
  by intros ->.
Qed.

Lemma escaped_wide e c s :
  Forall (λ x, is_ascii x = false) c → escaped e (c ++ s) → ∃ e', e = c ++ e' ∧ escaped e' s.
Proof.
  intros Hc. revert e. induction Hc as [|b c Hb _ IH]; intros e He; [by exists e|].
  inversion He; simplify_eq/=; [congruence|].
  destruct (IH _ ltac:(eassumption)) as (e' & -> & ?). by exists e'.
Qed.

Lemma read_token_loop_escaped e s r :
  valid_utf8 s = true → escaped e s → delimited r → ∀ out i,
  read_token_loop (e ++ r) out i = Val (out ++ s, i + length e).
Proof.
  intros Hv He Hr. revert s Hv e He. refine (utf8_ind _ _ _).
  - intros e He out i. inversion He; subst. simpl. rewrite app_nil_r, Nat.add_0_r.
    by apply read_token_loop_end.
  - intros c s Hc Hv IH e He out i. destruct (decide (length c = 1)) as [Hl|Hl].
    + destruct (is_char_narrow c Hc Hl) as (b & -> & Hb). simpl in He.
      inversion He as [| ? e' ? Hb' He' | ? e' ? Hbs Hte He']; subst.
      * cbn [app]. rewrite read_token_loop_bs, (IH _ He') by done.
        rewrite <- app_assoc. do 2 f_equal. simpl. lia.
      * cbn [app]. rewrite read_token_loop_ascii, (IH _ He') by done.
        rewrite <- app_assoc. do 2 f_equal. simpl. lia.
    + destruct (is_char_wide c Hc Hl) as (_ & _ & _ & _ & Hna & _).
      destruct (escaped_wide _ _ _ Hna He) as (e' & -> & He').
      rewrite <- app_assoc, read_token_loop_wide, (IH _ He') by done.
      rewrite <- app_assoc, length_app. do 2 f_equal. lia.
Qed.

(** Reading back a written token gives its text and its length. *)
Lemma read_token_escaped e s r :
  valid_utf8 s = true → escaped e s → head e ≠ Some x3c → head e ≠ Some quote →
  delimited r → read_token (e ++ r) = Val (Some s, length e).
Proof.
  intros Hv He H1 H2 Hr.
  assert (∀ p, head p = Some x3c ∨ head p = Some quote → starts_with p (e ++ r) = false) as Hsw.
  { intros [|b p] Hp; [by destruct Hp|]. destruct e as [|b' e]; simpl in *.
    - destruct r as [|b' r]; [done|]. rewrite bool_decide_eq_false_2; [done|].
      intros ->. simpl in Hr. destruct Hp; simplify_eq; done.
    - rewrite bool_decide_eq_false_2; [done|]. intros ->. destruct Hp; congruence. }
  unfold read_token. rewrite !Hsw by auto.
  by rewrite (read_token_loop_escaped e s).
Qed.

(** * Scanning *)

(** All occurrences of [needle], as the texts that follow them. *)
Fixpoint occurrences (needle s : bytes) : list bytes :=
  (if starts_with needle s then [drop (length needle) s] else [])
  ++ match s with [] => [] | _ :: s' => occurrences needle s' end.

(** No proper suffix of [needle] is a prefix of it, so that two occurrences
    cannot overlap. *)
Definition unbordered (needle : bytes) : bool :=
  bool_decide (needle ≠ []) &&
  forallb (λ k, negb (starts_with (drop k needle) needle)) (seq 1 (length needle - 1)).

Lemma occurrences_spec needle s r :
  r ∈ occurrences needle s ↔ ∃ a, s = a ++ needle ++ r.
Proof.
  revert r. induction s as [|b s IH]; intros r; cbn [occurrences].
  - rewrite app_nil_r. split.
    + case_match eqn:E; [|by intros ?%not_elem_of_nil]. intros ->%list_elem_of_singleton.
      apply starts_with_spec in E as [r' E]. exists []. simpl. rewrite E at 1. f_equal.
      by rewrite E, drop_app_length.
    + intros [a Ha]. symmetry in Ha. apply app_eq_nil in Ha as [-> Ha].
      apply app_eq_nil in Ha as [-> ->]. simpl. set_solver.
  - rewrite elem_of_app, IH. split.
    + intros [H|[a ->]]; [|by exists (b :: a)].
      case_match eqn:E; [|by apply not_elem_of_nil in H]. apply list_elem_of_singleton in H as ->.
      apply starts_with_spec in E as [r' ->]. exists []. by rewrite drop_app_length.
    + intros [[|b' a] Ha].
      * left. rewrite Ha. simpl. rewrite starts_with_app, drop_app_length. set_solver.
      * right. simplify_eq/=. by exists a.
Qed.

(** Skipping bytes at which no match starts. *)
Lemma occurrences_skip needle s k :
  (∀ j, j < k → starts_with needle (drop j s) = false) → k ≤ length s →
  occurrences needle s = occurrences needle (drop k s).
Proof.
  revert s. induction k as [|k IH]; intros s Hj Hk; [done|].
  destruct s as [|b s]; [simpl in Hk; lia|]. cbn [occurrences drop].
  pose proof (Hj 0 ltac:(lia)) as H0. simpl drop in H0. rewrite H0. simpl.
  apply IH; [|simpl in Hk; lia]. intros j Hlt. apply (Hj (S j)). lia.
Qed.

Lemma unbordered_no_overlap needle r j :
  unbordered needle = true → 0 < j < length needle →
  starts_with needle (drop j (needle ++ r)) = false.
Proof.
  unfold unbordered. intros [_ Hu]%andb_true_iff Hj.
  destruct (starts_with needle (drop j (needle ++ r))) eqn:E; [|done]. exfalso.
  rewrite forallb_forall in Hu. specialize (Hu j).
  rewrite <- list_elem_of_In, elem_of_seq in Hu. specialize (Hu ltac:(lia)).
  apply negb_true_iff in Hu. apply not_true_iff_false in Hu. apply Hu.
  apply starts_with_spec in E as [r' E]. rewrite drop_app_le in E by lia.
  apply starts_with_spec. exists (drop (length (drop j needle)) needle).
  apply (f_equal (take (length (drop j needle)))) in E.
  rewrite take_app_length in E. rewrite E at 1. rewrite take_app_le.
  - by rewrite take_drop.
  - rewrite length_drop. lia.
Qed.

(** The loops of [analyze_dump] visit every occurrence. *)
Lemma after_matches_occurrences needle :
  unbordered needle = true → ∀ fuel s,
  length s ≤ fuel → after_matches fuel needle s = occurrences needle s.
Proof.
  intros Hu. assert (needle ≠ []) as Hne.
  { apply andb_true_iff in Hu as [Hu _]. by apply bool_decide_eq_true in Hu. }
  induction fuel as [|fuel IH]; intros s Hl; simpl.
  - destruct s; [|simpl in Hl; lia]. by destruct needle.
  - destruct (find_sub needle s) as [p|] eqn:E.
    + destruct (find_sub_Some _ _ _ E) as (r & Hs & Hp & Hj).
      rewrite (occurrences_skip needle s p) by done.
      assert (drop p s = needle ++ r) as Hd.
      { rewrite Hs at 1. apply drop_app_length'. rewrite length_take. lia. }
      rewrite <- drop_drop, Hd, drop_app_length, IH; last first.
      { apply (f_equal length) in Hd. rewrite length_app, length_drop in Hd.
        destruct needle; [done|]. simpl in Hd. lia. }
      destruct needle as [|b n]; [done|]. cbn [occurrences app].
      change (b :: n ++ r) with ((b :: n) ++ r).
      rewrite starts_with_app, drop_app_length. simpl. f_equal.
      rewrite (occurrences_skip (b :: n) (n ++ r) (length n)).
      * by rewrite drop_app_length.
      * intros j Hlt. apply (unbordered_no_overlap (b :: n) r (S j)); [done|simpl; lia].
      * rewrite length_app. lia.
    + symmetry. rewrite (occurrences_skip needle s (length s)); [| |done].
      * rewrite drop_all. by destruct needle.
      * intros j _. by apply find_sub_None.
Qed.

Lemma matches_spec needle dump r :
  unbordered needle = true →
  r ∈ matches needle dump ↔ ∃ a, dump = a ++ needle ++ r.
Proof.
  intros Hu. unfold matches. by rewrite after_matches_occurrences, occurrences_spec.
Qed.

(** The offsets at which [needle] occurs, in order. *)
Definition offsets (needle s : bytes) : list nat :=
  filter (λ p, starts_with needle (drop p s) = true) (seq 0 (length s)).

Lemma occurrences_seq needle s n :
  needle ≠ [] →
  occurrences needle s
  = (λ p, drop (p - n + length needle) s)
    <$> filter (λ p, starts_with needle (drop (p - n) s) = true) (seq n (length s)).
Proof.
  intros Hn. revert n. induction s as [|b s IH]; intros n; [by destruct needle|].
  cbn [length seq occurrences]. rewrite filter_cons, Nat.sub_diag. cbn [drop].
  assert ((λ p, drop (p - S n + length needle) s)
      <$> filter (λ p, starts_with needle (drop (p - S n) s) = true) (seq (S n) (length s))
    = (λ p, drop (p - n + length needle) (b :: s))
      <$> filter (λ p, starts_with needle (drop (p - n) (b :: s)) = true) (seq (S n) (length s))) as Heq.
  { assert (Forall (λ p, n < p) (seq (S n) (length s))) as HF.
    { apply Forall_forall. intros p Hp%elem_of_seq. lia. }
    induction HF as [|p l Hp _ IHl]; [done|]. rewrite !filter_cons.
    replace (p - n) with (S (p - S n)) by lia. cbn [drop Nat.add].
    case_decide; [|done]. cbn [fmap list_fmap]. replace (p - n) with (S (p - S n)) by lia.
    f_equal. apply IHl. }
  rewrite (IH (S n)), Heq. destruct (starts_with needle (b :: s)) eqn:E.
  - rewrite decide_True by done. cbn [fmap list_fmap app]. by rewrite Nat.sub_diag.
  - rewrite decide_False by done. done.
Qed.

Lemma occurrences_offsets needle s :
  needle ≠ [] → occurrences needle s = (λ p, drop (p + length needle) s) <$> offsets needle s.
Proof.
  intros Hn. rewrite (occurrences_seq needle s 0) by done. unfold offsets.
  rewrite (list_filter_iff _ (λ p, starts_with needle (drop p s) = true))
    by (intros p; by rewrite Nat.sub_0_r).
  apply list_fmap_ext. intros _ p _. by rewrite Nat.sub_0_r.
Qed.

Lemma matches_offsets needle dump :
  unbordered needle = true → needle ≠ [] →
  matches needle dump = (λ p, drop (p + length needle) dump) <$> offsets needle dump.
Proof.
  intros Hu Hn. unfold matches. rewrite after_matches_occurrences by done. by apply occurrences_offsets.
Qed.

(** * What the analysis reports *)

Definition relation_obj (sch : option bytes) (n : bytes) : Value :=
  obj [(bs "schema", json_opt_str sch); (bs "name", Str n)].

Lemma analyze_dump_fields dump v :
  dump ≠ [] → analyze_dump dump = Val v →
  ∃ rels cs funcs, relations dump = Val rels ∧ ctes dump = Val cs ∧ functions dump = Val funcs
    ∧ get (bs "relations") v = Some (Arr rels)
    ∧ get (bs "functions") v = Some (Arr funcs)
    ∧ get (bs "ctes") v = Some (Arr cs)
    ∧ get (bs "kind") v = Some (Str (dump_kind (stmt_kinds dump)))
    ∧ get (bs "statements") v = Some (Number (PosInt (N.of_nat (length (stmt_kinds dump)))))
    ∧ get (bs "writes") v = Some (Bool (has_into dump || has_dml dump)).
Proof.
  intros Hne H. unfold analyze_dump in H. rewrite decide_False in H by done.
  destruct (relations dump) as [rels|]; [|done].
  destruct (ctes dump) as [cs|]; [|done].
  destruct (functions dump) as [funcs|]; [|done]. simpl in H.
  injection H as <-. exists rels, cs, funcs. done.
Qed.

(** The results of a [collect] over the matches of a needle. *)
Lemma collect_matches {B} (f : bytes → outcome B) needle dump bl :
  unbordered needle = true → collect f (matches needle dump) = Val bl →
  ∀ b, b ∈ bl ↔ ∃ a rest, dump = a ++ needle ++ rest ∧ f rest = Val b.
Proof.
  intros Hu Hc b. apply collect_Val_inv in Hc. split.
  - intros [i Hi]%list_elem_of_lookup.
    destruct (Forall2_lookup_r _ _ _ _ _ Hc Hi) as (rest & Hr & Hf).
    apply list_elem_of_lookup_2, (matches_spec _ _ _ Hu) in Hr as [a ->]. by eexists _, _.
  - intros (a & rest & Hd & Hf).
    assert (rest ∈ matches needle dump) as [i Hi]%list_elem_of_lookup
      by (apply matches_spec; [done|by eexists]).
    destruct (Forall2_lookup_l _ _ _ _ _ Hc Hi) as (b' & Hb & Hf').
    rewrite Hf in Hf'. simplify_eq. by apply list_elem_of_lookup_2 in Hb.
Qed.

(** What one [RangeVar] node contributes: its name and schema, if it has a
    name; and what one [:ctename] does. *)
Definition relation_entry (rest : bytes) : option Value :=
  match field (node_body rest) (bs "relname"), field (node_body rest) (bs "schemaname") with
  | Val (Some n), Val sch => Some (relation_obj sch n)
  | _, _ => None
  end.

Definition cte_entry (rest : bytes) : option Value :=
  match read_token rest with Val (Some n, _) => Some (Str n) | _ => None end.

Lemma collect_omap {A B C} (f : A → outcome (option B)) (g : A → option C) (h : B → C) l bl :
  (∀ a o, f a = Val o → g a = h <$> o) → collect f l = Val bl →
  h <$> omap (M:=list) id bl = omap (M:=list) g l.
Proof.
  intros Hfg Hc%collect_Val_inv. induction Hc as [|a o l bl Ha _ IH]; [done|]. cbn [omap list_omap].
  rewrite (Hfg _ _ Ha). destruct o; simpl; [by f_equal|done].
Qed.

Lemma omap_fmap {A B C} (f : A → B) (g : B → option C) l :
  omap (M:=list) g (f <$> l) = omap (M:=list) (g ∘ f) l.
Proof.
  induction l as [|a l IH]; [done|]. cbn [fmap list_fmap omap list_omap compose].
  destruct (g (f a)); [f_equal|]; exact IH.
Qed.

Lemma relations_spec dump rels :
  relations dump = Val rels →
  rels = omap (λ p, relation_entry (drop (p + 10) dump)) (offsets (bs "{RANGEVAR ") dump).
Proof.
  unfold relations. intros H. destruct (collect relation_at _) as [l|] eqn:Hc; [|done].
  simpl in H. injection H as <-.
  transitivity (omap (M:=list) relation_entry (matches (bs "{RANGEVAR ") dump)).
  2: { by rewrite matches_offsets, omap_fmap. }
  rewrite <- (list_fmap_id (omap id l)). eapply collect_omap; [|exact Hc].
  - intros rest o Ho. unfold relation_at, relation_entry in *.
    destruct (field _ (bs "relname")) as [[n|]|]; simpl in Ho; simplify_eq; [|done].
    destruct (field _ (bs "schemaname")); simpl in Ho; by simplify_eq.
Qed.

Lemma ctes_spec dump cs :
  ctes dump = Val cs →
  cs = omap (λ p, cte_entry (drop (p + 9) dump)) (offsets (bs ":ctename ") dump).
Proof.
  unfold ctes. intros H. destruct (collect _ _) as [l|] eqn:Hc; [|done].
  simpl in H. injection H as <-.
  transitivity (omap (M:=list) cte_entry (matches (bs ":ctename ") dump)).
  2: { by rewrite matches_offsets, omap_fmap. }
  eapply collect_omap; [|exact Hc].
  - intros rest o. unfold cte_entry. destruct (read_token rest) as [[[t|] i]|]; intros [= <-]; done.
Qed.

Lemma functions_spec dump funcs :
  functions dump = Val funcs → ∀ x, x ∈ funcs ↔
  ∃ a rest parts, dump = a ++ bs ":funcname (" ++ rest
    ∧ quoted_strings (paren_body rest) = Val parts ∧ function_of parts = Some x.
Proof.
  unfold functions. intros H x.
  destruct (collect _ _) as [l|] eqn:Hc; [|done]. simpl in H. simplify_eq.
  rewrite list_elem_of_omap. setoid_rewrite (collect_matches _ (bs ":funcname (") _ _ eq_refl Hc). naive_solver.
Qed.

(** [function_of] of a qualified name. *)
Lemma function_of_snoc parts n :
  function_of (parts ++ [n]) =
  Some (obj [(bs "schema", json_opt_str (last parts)); (bs "name", Str n)]).
Proof.
  unfold function_of. rewrite reverse_snoc. do 4 f_equal.
  by rewrite head_reverse.
Qed.

Lemma has_dml_false dump :
  has_dml dump = false → ∀ tag, tag ∈ dml_tags → contains tag dump = false.
Proof.
  unfold has_dml. intros H tag Ht. destruct (contains tag dump) eqn:E; [|done].
  assert (existsb (λ tag, contains tag dump) dml_tags = true); [|congruence].
  apply existsb_exists. exists tag. split; [by apply list_elem_of_In|done].
Qed.

Lemma dump_kind_select kinds : dump_kind kinds = bs "select" → kinds = [bs "SELECTSTMT"].
Proof. unfold dump_kind. case_decide; done. Qed.

(** * The analysis returns *)

(** Read from the left, every backslash stands before an ASCII byte. *)
Fixpoint escapes_ascii (s : bytes) : bool :=
  match s with
  | [] => true
  | b :: s1 =>
      if decide (b = backslash) then
        match s1 with c :: s2 => is_ascii c && escapes_ascii s2 | [] => true end
      else escapes_ascii s1
  end.

Lemma escapes_ascii_cut a r :
  escapes_ascii (a ++ r) = true →
  escapes_ascii a = true ∧ (last a ≠ Some backslash → escapes_ascii r = true).
Proof.
  remember (length a) as n eqn:Hn. revert a Hn.
  induction n as [n IH] using lt_wf_ind. intros a -> H. destruct a as [|b a]; [done|].
  cbn [escapes_ascii app] in *. destruct (decide (b = backslash)) as [->|Hb].
  - destruct a as [|c a]; [done|]. simpl in H. apply andb_true_iff in H as [Hc H].
    destruct (IH (length a) ltac:(simpl; lia) a eq_refl H) as [H1 H2].
    rewrite Hc, H1. split; [done|]. intros Hl. apply H2. by destruct a.
  - destruct (IH (length a) ltac:(simpl; lia) a eq_refl H) as [H1 H2].
    split; [done|]. intros Hl. apply H2. by destruct a.
Qed.

(** Text the readers accept: well-formed UTF-8, with ASCII escapes. *)
Definition readable (s : bytes) : Prop := valid_utf8 s = true ∧ escapes_ascii s = true.

Lemma readable_after a b r :
  readable (a ++ b :: r) → is_ascii b = true → b ≠ backslash → readable r.
Proof.
  intros [Hv He] Hb Hbs. split; [by destruct (valid_utf8_cut_ascii _ _ _ Hb Hv)|].
  replace (a ++ b :: r) with ((a ++ [b]) ++ r) in He by by rewrite <- app_assoc.
  apply (escapes_ascii_cut _ _ He). rewrite last_snoc. congruence.
Qed.

Lemma readable_before a b r : readable (a ++ b :: r) → is_ascii b = true → readable a.
Proof.
  intros [Hv He] Hb. split; [by destruct (valid_utf8_cut_ascii _ _ _ Hb Hv)|].
  apply (escapes_ascii_cut _ _ He).
Qed.

Lemma readable_match needle n b dump rest :
  needle = n ++ [b] → is_ascii b = true → b ≠ backslash → unbordered needle = true →
  readable dump → rest ∈ matches needle dump → readable rest.
Proof.
  intros -> Hb Hbs Hu Hd [a Ha]%matches_spec; [|done].
  apply (readable_after (a ++ n) b); [|done..]. subst dump.
  by rewrite <- !app_assoc in *.
Qed.

Lemma body_end_Some op cl s d i j :
  body_end op cl s d i = Some j → ∃ a r, s = a ++ cl :: r ∧ j = i + length a.
Proof.
  remember (length s) as n eqn:Hn. revert s Hn d i.
  induction n as [n IH] using lt_wf_ind. intros s -> d i H. destruct s as [|b s]; [done|].
  assert (∀ k s' d' i', b :: s = k ++ s' → k ≠ [] → i' = i + length k →
    body_end op cl s' d' i' = Some j → ∃ a r, b :: s = a ++ cl :: r ∧ j = i + length a) as Hstep.
  { intros k s' d' i' E Hk -> H'.
    destruct (IH (length s') ltac:(rewrite E, length_app; destruct k; simpl; [done|lia])
                s' eq_refl _ _ H') as (a & r & -> & ->).
    exists (k ++ a), r. rewrite E, <- app_assoc, length_app. split; [done|lia]. }
  cbn [body_end] in H. destruct (decide (b = backslash)) as [->|].
  { destruct s as [|c s]; [done|]. by apply (Hstep [backslash; c] s _ _) in H. }
  destruct (decide (b = op)) as [->|]. { by apply (Hstep [op] s _ _) in H. }
  destruct (decide (b = cl)) as [->|]; [|by apply (Hstep [b] s _ _) in H].
  destruct d as [|d]; [|by apply (Hstep [cl] s _ _) in H].
  injection H as <-. exists [], s. simpl. split; [done|lia].
Qed.

Lemma readable_body op cl s : is_ascii cl = true → readable s → readable (body_of op cl s).
Proof.
  intros Hcl Hs. unfold body_of. destruct (body_end op cl s 0 0) as [j|] eqn:E; [|done].
  apply body_end_Some in E as (a & r & -> & ->). simpl. rewrite take_app_length.
  by apply readable_before in Hs.
Qed.

Lemma readable_char s :
  readable s → s = [] ∨ ∃ c r, s = c ++ r ∧ is_char c ∧ valid_utf8 r = true.
Proof. intros [Hv _]. by apply valid_utf8_inv. Qed.

Lemma read_token_loop_total s out i : readable s → ∃ r, read_token_loop s out i = Val r.
Proof.
  remember (length s) as n eqn:Hn. revert s Hn out i.
  induction n as [n IH] using lt_wf_ind. intros s -> out i [Hv He].
  destruct (valid_utf8_inv s Hv) as [->|(c & r & -> & Hc & Hr)]; [by eexists|].
  destruct (decide (length c = 1)) as [Hl|Hl].
  - destruct (is_char_narrow c Hc Hl) as (b & -> & Hb).
    cbn [app read_token_loop escapes_ascii] in *. destruct (decide (b = backslash)) as [->|Hbs].
    + destruct (valid_utf8_inv r Hr) as [->|(c' & r' & -> & Hc' & Hr')]; [by eexists|].
      destruct c' as [|b' t]; [by destruct Hc'|]. cbn [app] in *.
      apply andb_true_iff in He as [Hb' He].
      destruct (is_char_inv _ Hc') as (? & ? & [= <- <-] & _ & _ & Ht & _).
      destruct Ht as [Ht _]. rewrite (Ht Hb') in *. eapply IH; [|done|done]. simpl. lia.
    + destruct (token_end b); [by eexists|]. rewrite Hb. eapply IH; [|done|done]. simpl; lia.
  - destruct (is_char_wide c Hc Hl) as (b & t & Ec & Hb & Hna & Hlt).
    rewrite read_token_loop_wide by done. eapply IH; [|done|].
    + rewrite length_app, Ec. simpl. lia.
    + split; [done|]. apply (escapes_ascii_cut _ _ He). intros E.
      apply last_Some_elem_of in E.
      rewrite Forall_forall in Hna. apply Hna in E. done.
Qed.

Lemma read_token_total s : readable s → ∃ r, read_token s = Val r.
Proof.
  intros Hs. unfold read_token. repeat case_match; try by eexists.
  destruct (read_token_loop_total s [] 0 Hs) as [[o i] ->]. by eexists.
Qed.

Lemma quoted_loop_wide c r t out :
  is_char c → length c ≠ 1 →
  quoted_loop (c ++ r) (Some t) out = quoted_loop r (Some (t ++ c)) out.
Proof.
  intros Hc Hl. pose proof (utf8_width_app c r Hc) as Hw.
  destruct (is_char_wide c Hc Hl) as (b & u & -> & Hb & _ & Hlt).
  destruct (not_ascii_plain b Hb) as (Hbs & _ & Hq).
  change ((b :: u) ++ r) with (b :: (u ++ r)) in *.
  cbn [quoted_loop]. rewrite decide_False, Hb, Hw by done. clear Hw.
  destruct u as [|b1 [|b2 [|b3 [|b4 u]]]]; cbn [length] in Hlt; try lia; reflexivity.
Qed.

(** What the outer loop of [quoted_strings] needs of the rest of the body: the
    text behind every quote is readable. *)
Definition quotes_readable (s : bytes) : Prop :=
  ∀ a r, s = a ++ quote :: r → readable r.

Lemma readable_quotes s : readable s → quotes_readable s.
Proof. intros Hs a r ->. by apply readable_after in Hs. Qed.

Lemma readable_escape b r : readable (backslash :: b :: r) → is_ascii b = true ∧ readable r.
Proof.
  intros [Hv He]. simpl in He. apply andb_true_iff in He as [Hb He]. split; [done|].
  split; [|done]. by destruct (valid_utf8_cut_ascii [backslash] b r Hb Hv).
Qed.

Lemma quoted_loop_total s cur out :
  match cur with None => quotes_readable s | Some _ => readable s end →
  ∃ l, quoted_loop s cur out = Val l.
Proof.
  remember (length s) as n eqn:Hn. revert s Hn cur out.
  induction n as [n IH] using lt_wf_ind. intros s -> cur out Hs.
  destruct cur as [t|].
  - destruct (readable_char s Hs) as [->|(c & r & -> & Hc & Hr)]; [by eexists|].
    destruct (decide (length c = 1)) as [Hl|Hl].
    + destruct (is_char_narrow c Hc Hl) as (b & -> & Hb). cbn [app quoted_loop] in *.
      destruct (decide (b = quote)) as [->|Hq].
      { eapply IH; [|done|]; [simpl; lia|]. apply readable_quotes.
        by apply (readable_after [] quote). }
      rewrite Hb. destruct r as [|d r]; [by eexists|].
      destruct (decide (b = backslash)) as [->|Hbs].
      * eapply IH; [|done|]; [simpl; lia|]. by destruct (readable_escape _ _ Hs).
      * eapply IH; [|done|]; [simpl; lia|]. by apply (readable_after [] b) in Hs.
    + rewrite quoted_loop_wide by done.
      destruct (is_char_wide c Hc Hl) as (b & u & Ec & Hb & Hna & Hlt). eapply IH; [|done|].
      * rewrite length_app, Ec. simpl. lia.
      * split; [done|]. destruct Hs as [_ He]. apply (escapes_ascii_cut _ _ He). intros E.
        apply last_Some_elem_of in E. rewrite Forall_forall in Hna. apply Hna in E. done.
  - destruct s as [|b s]; [by eexists|]. cbn [quoted_loop].
    destruct (decide (b = quote)) as [->|Hq]; (eapply IH; [|done|]; [simpl; lia|]).
    + by apply (Hs []).
    + intros a r ->. by apply (Hs (b :: a)).
Qed.

Lemma find_sub_after p s i :
  find_sub p s = Some i → ∃ a r, s = a ++ p ++ r ∧ length a = i ∧ drop (i + length p) s = r.
Proof.
  intros H. destruct (find_sub_Some _ _ _ H) as (r & Hs & Hp & _).
  assert (length (take i s) = i) as Hl by (rewrite length_take; lia).
  exists (take i s), r. split; [done|]. split; [done|]. rewrite Hs.
  by rewrite <- drop_drop, drop_app_length', drop_app_length.
Qed.

Lemma field_total body name : readable body → ∃ o, field body name = Val o.
Proof.
  intros Hb. unfold field. destruct (find_sub _ body) as [p|] eqn:E; [|by eexists].
  apply find_sub_after in E as (a & r & Hs & _ & ->).
  destruct (read_token_total r) as [[v i] ->]; [|by eexists].
  apply (readable_after (a ++ bs ":" ++ name) x20); [|done..].
  rewrite Hs in Hb. by rewrite <- !app_assoc in *.
Qed.

Lemma collect_total {A B} (f : A → outcome B) l :
  (∀ a, a ∈ l → ∃ b, f a = Val b) → ∃ bl, collect f l = Val bl.
Proof.
  induction l as [|a l IH]; intros H; [by eexists|]. simpl.
  destruct (H a) as [b ->]; [set_solver|].
  destruct IH as [bl ->]; [set_solver|]. by eexists.
Qed.

Lemma relations_total dump : readable dump → ∃ l, relations dump = Val l.
Proof.
  intros Hd. unfold relations.
  destruct (collect_total relation_at (matches (bs "{RANGEVAR ") dump)) as [l ->]; [|by eexists].
  intros rest Hr. apply (readable_match _ (bs "{RANGEVAR") x20) in Hr; [|done..].
  assert (readable (node_body rest)) as Hb by by apply readable_body.
  unfold relation_at. destruct (field_total _ (bs "relname") Hb) as [[n|] ->]; [|by eexists].
  destruct (field_total _ (bs "schemaname") Hb) as [sch ->]. by eexists.
Qed.

Lemma ctes_total dump : readable dump → ∃ l, ctes dump = Val l.
Proof.
  intros Hd. unfold ctes.
  destruct (collect_total (λ rest, '(t, _) ← read_token rest; Val t)
    (matches (bs ":ctename ") dump)) as [l ->]; [|by eexists].
  intros rest Hr. apply (readable_match _ (bs ":ctename") x20) in Hr; [|done..].
  destruct (read_token_total rest Hr) as [[t i] ->]. by eexists.
Qed.

Lemma functions_total dump : readable dump → ∃ l, functions dump = Val l.
Proof.
  intros Hd. unfold functions.
  destruct (collect_total (λ rest, quoted_strings (paren_body rest))
    (matches (bs ":funcname (") dump)) as [l ->]; [|by eexists].
  intros rest Hr. apply (readable_match _ (bs ":funcname ") lparen) in Hr; [|done..].
  apply quoted_loop_total, readable_quotes. by apply readable_body.
Qed.

(** * Node bodies *)

(** Text with matching brackets, outside escapes. *)
Inductive balanced (op cl : byte) : bytes → Prop :=
| balanced_nil : balanced op cl []
| balanced_escape b s : balanced op cl s → balanced op cl (backslash :: b :: s)
| balanced_byte b s :
    b ≠ backslash → b ≠ op → b ≠ cl → balanced op cl s → balanced op cl (b :: s)
| balanced_node t s :
    balanced op cl t → balanced op cl s → balanced op cl (op :: t ++ cl :: s).

Section bodies.
Context (op cl : byte) (Hop : op ≠ backslash) (Hcl : cl ≠ backslash) (Hoc : op ≠ cl).

Lemma body_end_balanced s r d i :
  balanced op cl s → body_end op cl (s ++ r) d i = body_end op cl r d (i + length s).
Proof using Hop Hcl Hoc.
  intros Hs. revert r d i. induction Hs as [|b s _ IH|b s Hb Ho Hc _ IH|t s _ IHt _ IHs];
    intros r d i; cbn [app length].
  - by rewrite Nat.add_0_r.
  - cbn [body_end]. rewrite decide_True, IH by done. f_equal. lia.
  - cbn [body_end]. rewrite !decide_False, IH by done. f_equal. lia.
  - cbn [body_end]. rewrite decide_False, decide_True by done.
    rewrite <- app_assoc. cbn [app]. rewrite IHt. cbn [body_end].
    rewrite !decide_False, decide_True, IHs by congruence. f_equal.
    rewrite length_app. cbn [length]. lia.
Qed.

Lemma body_of_balanced s r : balanced op cl s → body_of op cl (s ++ cl :: r) = s.
Proof using Hop Hcl Hoc.
  intros Hs. unfold body_of. rewrite body_end_balanced by done. cbn [body_end].
  rewrite !decide_False, decide_True by congruence. by rewrite Nat.add_0_l, take_app_length.
Qed.

(** The shape of the scanned text when the scan stops at depth [d]: [d]
    pending closings, each behind a balanced text. *)
Fixpoint closes (d : nat) (a : bytes) : Prop :=
  match d with
  | 0 => balanced op cl a
  | S d' => ∃ t u, a = t ++ cl :: u ∧ balanced op cl t ∧ closes d' u
  end.

Lemma closes_cons_op d a : closes (S d) a → closes d (op :: a).
Proof using Hop Hcl Hoc.
  intros (t & u & -> & Ht & Hu). destruct d as [|d]; simpl in *.
  - by constructor.
  - destruct Hu as (t' & u' & -> & Ht' & Hu'). exists (op :: t ++ cl :: t'), u'.
    split; [by simpl; rewrite <- app_assoc|]. split; [by constructor|done].
Qed.

Lemma closes_cons_byte d a b :
  b ≠ backslash → b ≠ op → b ≠ cl → closes d a → closes d (b :: a).
Proof using Hop Hcl Hoc.
  intros Hb Ho Hc. destruct d as [|d]; simpl; [by constructor|].
  intros (t & u & -> & Ht & Hu). exists (b :: t), u. repeat split; [by constructor|done].
Qed.

Lemma closes_cons_escape d a b : closes d a → closes d (backslash :: b :: a).
Proof using Hop Hcl Hoc.
  destruct d as [|d]; simpl; [by constructor|].
  intros (t & u & -> & Ht & Hu). exists (backslash :: b :: t), u. repeat split; [by constructor|done].
Qed.

Lemma body_end_closes s d i j :
  body_end op cl s d i = Some j → ∃ a r, s = a ++ cl :: r ∧ j = i + length a ∧ closes d a.
Proof using Hop Hcl Hoc.
  remember (length s) as n eqn:Hn. revert s Hn d i.
  induction n as [n IH] using lt_wf_ind. intros s -> d i H.
  destruct s as [|b s]; [done|]. cbn [body_end] in H.
  destruct (decide (b = backslash)) as [->|Hb].
  { destruct s as [|c s]; [done|].
    destruct (IH (length s) ltac:(simpl; lia) s eq_refl _ _ H) as (a & r & -> & -> & Ha).
    exists (backslash :: c :: a), r. repeat split; [simpl; lia|by apply closes_cons_escape]. }
  destruct (decide (b = op)) as [->|Ho].
  { destruct (IH (length s) ltac:(simpl; lia) s eq_refl _ _ H) as (a & r & -> & -> & Ha).
    exists (op :: a), r. repeat split; [simpl; lia|by apply closes_cons_op]. }
  destruct (decide (b = cl)) as [->|Hc].
  - destruct d as [|d].
    + simplify_eq. exists [], s. repeat split; [simpl; lia|constructor].
    + destruct (IH (length s) ltac:(simpl; lia) s eq_refl _ _ H) as (a & r & -> & -> & Ha).
      exists (cl :: a), r. repeat split; [simpl; lia|]. exists [], a. repeat split; [constructor|done].
  - destruct (IH (length s) ltac:(simpl; lia) s eq_refl _ _ H) as (a & r & -> & -> & Ha).
    exists (b :: a), r. repeat split; [simpl; lia|by apply closes_cons_byte].
Qed.

Lemma body_of_cases s :
  (∃ r, s = body_of op cl s ++ cl :: r ∧ balanced op cl (body_of op cl s))
  ∨ (body_of op cl s = s ∧ ¬ ∃ t r, s = t ++ cl :: r ∧ balanced op cl t).
Proof using Hop Hcl Hoc.
  unfold body_of. destruct (body_end op cl s 0 0) as [j|] eqn:E.
  - left. apply body_end_closes in E as (a & r & -> & -> & Ha). simpl in *.
    exists r. rewrite take_app_length. done.
  - right. split; [done|]. intros (t & r & -> & Ht). rewrite body_end_balanced in E by done.
    cbn [body_end] in E. rewrite !decide_False, decide_True in E by congruence. done.
Qed.
End bodies.

(** * Dumps of a [SELECT] over named relations

    The node dumps the unit tests of src/src/tests.rs build: a single
    [SELECT] whose [FROM] list names relations, each with or without a
    schema. *)

Definition rangevar (schema rel : bytes) : bytes :=
  bs "{RANGEVAR :schemaname " ++ schema ++ bs " :relname " ++ rel
  ++ bs " :inh true :relpersistence p :alias <> :location 14}".

Definition select_dump (inner : bytes) : bytes :=
  bs "({RAWSTMT :stmt {SELECTSTMT :distinctClause <> :intoClause <> :targetList <> :fromClause ("
  ++ inner ++ bs ") } :stmt_location 0 :stmt_len 40})".

(** The [FROM] list, items separated by one space. *)
Fixpoint from_items (rels : list (option bytes * bytes)) : bytes :=
  match rels with
  | [] => []
  | [(sch, n)] => rangevar (default (bs "<>") sch) n
  | (sch, n) :: rels' => rangevar (default (bs "<>") sch) n ++ x20 :: from_items rels'
  end.

(** Letters, digits, underscores and everything outside ASCII. *)
Definition ident_byte (b : byte) : bool :=
  is_ascii_alphanumeric b || bool_decide (b = x5f) || negb (is_ascii b).

Definition ident (s : bytes) : Prop :=
  valid_utf8 s = true ∧ Forall (λ b, ident_byte b = true) s.

Definition named_relation (r : option bytes * bytes) : Prop :=
  ident r.2 ∧ match r.1 with Some s => ident s | None => True end.

Lemma ident_byte_plain b :
  ident_byte b = true →
  b ≠ backslash ∧ token_end b = false ∧ b ≠ x3a ∧ b ≠ x3c ∧ b ≠ quote ∧ b ≠ lbrace ∧ b ≠ rbrace.
Proof. destruct b; vm_compute; intros; try done; repeat split; done. Qed.

Lemma ident_escaped s : Forall (λ b, ident_byte b = true) s → escaped s s.
Proof.
  induction 1 as [|b s Hb _ IH]; constructor; [|by apply ident_byte_plain in Hb as (?&?&?)..|done].
  by destruct (ident_byte_plain b Hb).
Qed.

Lemma ident_not_in s b :
  Forall (λ b, ident_byte b = true) s → ident_byte b = false → b ∉ s.
Proof. rewrite Forall_forall. intros H Hb Hin. apply H in Hin. congruence. Qed.

Lemma read_token_ident s r :
  ident s → delimited r → read_token (s ++ r) = Val (Some s, length s).
Proof.
  intros [Hv Hs] Hr. apply read_token_escaped; [done|by apply ident_escaped| | |done].
  all: destruct s as [|b s]; [done|]; simpl; intros [= ->].
  all: apply Forall_cons in Hs as [Hb _]; done.
Qed.

Lemma find_sub_free c p a s :
  c ∉ a → find_sub (c :: p) (a ++ s) = (λ i, length a + i) <$> find_sub (c :: p) s.
Proof.
  induction a as [|b a IH]; intros Hc; simpl; [by destruct (find_sub (c :: p) s)|].
  rewrite bool_decide_eq_false_2 by set_solver. simpl. rewrite IH by set_solver.
  by destruct (find_sub (c :: p) s).
Qed.

Lemma occurrences_free c p a s :
  c ∉ a → occurrences (c :: p) (a ++ s) = occurrences (c :: p) s.
Proof.
  induction a as [|b a IH]; intros Hc; [done|]. cbn [app occurrences starts_with].
  rewrite bool_decide_eq_false_2 by set_solver. simpl. apply IH. set_solver.
Qed.

Lemma balanced_plain op cl a s :
  Forall (λ b, b ≠ backslash ∧ b ≠ op ∧ b ≠ cl) a → balanced op cl s → balanced op cl (a ++ s).
Proof. intros Ha Hs. induction Ha as [|b a (?&?&?) _ IH]; [done|]. by constructor. Qed.

Lemma balanced_ident a s :
  Forall (λ b, ident_byte b = true) a → balanced lbrace rbrace s → balanced lbrace rbrace (a ++ s).
Proof.
  intros Ha. apply balanced_plain. eapply Forall_impl; [done|]. intros b Hb.
  apply ident_byte_plain in Hb. naive_solver.
Qed.

Lemma balanced_app op cl a s : balanced op cl a → balanced op cl s → balanced op cl (a ++ s).
Proof.
  intros Ha Hs. induction Ha as [|b a _ IH|b a ? ? ? _ IH|t a Ht _ _ IH]; [done|by constructor..|].
  cbn [app]. rewrite <- app_assoc. by constructor.
Qed.

(** The fields of a written relation node. *)
Definition rangevar_fields (schema rel : bytes) : bytes :=
  bs ":schemaname " ++ schema ++ bs " :relname " ++ rel
  ++ bs " :inh true :relpersistence p :alias <> :location 14".

Lemma rangevar_eq schema rel r :
  rangevar schema rel ++ r
  = bs "{RANGEVAR " ++ rangevar_fields schema rel ++ rbrace :: r.
Proof. unfold rangevar, rangevar_fields. simpl. by rewrite <- !app_assoc; simpl; rewrite <- !app_assoc. Qed.

Definition schema_token (o : option bytes) : bytes := default (bs "<>") o.

Definition plain_byte (b : byte) : Prop := b ≠ backslash ∧ b ≠ lbrace ∧ b ≠ rbrace.

#[local] Instance plain_byte_dec b : Decision (plain_byte b).
Proof. unfold plain_byte. apply _. Defined.

Lemma balanced_literal a s :
  bool_decide (Forall plain_byte a) = true → balanced lbrace rbrace s →
  balanced lbrace rbrace (a ++ s).
Proof. intros Ha%bool_decide_eq_true. by apply balanced_plain. Qed.

Lemma schema_token_plain o :
  match o with Some s => ident s | None => True end → Forall plain_byte (schema_token o).
Proof.
  destruct o as [s|]; simpl; intros Hs.
  - destruct Hs as [_ Hs]. eapply Forall_impl; [done|]. intros b Hb.
    apply ident_byte_plain in Hb. unfold plain_byte. naive_solver.
  - by_decide.
Qed.

Lemma rangevar_fields_balanced o n :
  named_relation (o, n) → balanced lbrace rbrace (rangevar_fields (schema_token o) n).
Proof.
  intros [[_ Hn] Ho]. simpl in Hn, Ho. unfold rangevar_fields.
  apply balanced_literal; [done|]. apply balanced_plain; [by apply schema_token_plain|].
  apply balanced_literal; [done|]. apply balanced_ident; [done|].
  rewrite <- (app_nil_r (bs " :inh true :relpersistence p :alias <> :location 14")).
  apply balanced_literal; [done|]. constructor.
Qed.

Lemma read_schema_token o r :
  match o with Some s => ident s | None => True end → delimited r →
  ∃ k, read_token (schema_token o ++ r) = Val (o, k).
Proof.
  destruct o as [s|]; simpl; intros Hs Hr; [|by eexists].
  rewrite read_token_ident by done. by eexists.
Qed.

Lemma colon_schema_token o :
  match o with Some s => ident s | None => True end → x3a ∉ schema_token o.
Proof.
  destruct o as [s|]; simpl; [|intros _; by_decide].
  intros [_ Hs]. by apply (ident_not_in s).
Qed.

Lemma relation_at_rangevar o n r :
  named_relation (o, n) →
  relation_at (rangevar_fields (schema_token o) n ++ rbrace :: r) = Val (Some (relation_obj o n)).
Proof.
  intros Hon. pose proof Hon as [Hn Ho]. simpl in Hn, Ho. unfold relation_at, node_body.
  rewrite body_of_balanced; [|done..|by apply rangevar_fields_balanced].
  unfold field, rangevar_fields.
  set (tl := bs " :inh true :relpersistence p :alias <> :location 14").
  assert (find_sub (bs ":" ++ bs "relname" ++ bs " ")
    (bs ":schemaname " ++ schema_token o ++ bs " :relname " ++ n ++ tl)
    = Some (12 + length (schema_token o) + 1)) as ->.
  { change (bs ":" ++ bs "relname" ++ bs " ") with (x3a :: bs "relname ").
    change (bs ":schemaname ") with (x3a :: bs "schemaname ").
    cbn [app find_sub starts_with]. rewrite bool_decide_eq_true_2 by done.
    change (starts_with (bs "relname ") (bs "schemaname " ++ _)) with false. cbn [andb].
    rewrite app_assoc, find_sub_free; [|].
    - change (bs " :relname " ++ n ++ tl) with (x20 :: (x3a :: bs "relname ") ++ (n ++ tl)).
      cbn [find_sub starts_with]. rewrite bool_decide_eq_false_2 by done. cbn [andb].
      replace (find_sub (x3a :: bs "relname ") ((x3a :: bs "relname ") ++ n ++ tl)) with (Some 0).
      + simpl. by f_equal.
      + by destruct n.
    - rewrite not_elem_of_app. split; [by_decide|by apply colon_schema_token]. }
  match goal with |- context [drop ?k ?l] => replace (drop k l) with (n ++ tl) end; last first.
  { rewrite !app_assoc, <- (app_assoc _ n tl). symmetry. apply drop_app_length'.
    rewrite !length_app. simpl. lia. }
  rewrite read_token_ident by done. simpl mbind.
  change (find_sub (bs ":" ++ bs "schemaname" ++ bs " ") (bs ":schemaname " ++ _)) with (Some 0).
  rewrite drop_0.
  destruct (read_schema_token o (bs " :relname " ++ n ++ tl)) as [k Hk]; [done..|].
  by simpl in Hk; rewrite Hk.
Qed.

(** No match of [p] can start inside [a], whatever follows it. *)
Fixpoint compat (p u : bytes) : bool :=
  match p, u with
  | x :: p', y :: u' => bool_decide (x = y) && compat p' u'
  | _, _ => true
  end.

Fixpoint no_start (p a : bytes) : bool :=
  match a with [] => true | _ :: a' => negb (compat p a) && no_start p a' end.

Lemma compat_starts p u s : starts_with p (u ++ s) = true → compat p u = true.
Proof.
  revert u. induction p as [|x p IH]; intros [|y u]; simpl; try done.
  rewrite !andb_true_iff. intros [? ?]. auto.
Qed.

Lemma occurrences_no_start p a s :
  no_start p a = true → occurrences p (a ++ s) = occurrences p s.
Proof.
  induction a as [|b a IH]; [done|]. cbn [no_start]. intros [Hc Ha]%andb_true_iff.
  cbn [app occurrences]. destruct (starts_with p (b :: a ++ s)) eqn:E.
  - change (b :: a ++ s) with ((b :: a) ++ s) in E. apply compat_starts in E.
    by rewrite E in Hc.
  - simpl. by apply IH.
Qed.

Lemma no_start_free c p a : c ∉ a → no_start (c :: p) a = true.
Proof.
  induction a as [|b a IH]; intros Hc; [done|]. cbn [no_start compat].
  rewrite bool_decide_eq_false_2 by set_solver. apply IH. set_solver.
Qed.

Lemma contains_occurrences p s : occurrences p s = [] → contains p s = false.
Proof.
  intros H. apply contains_false. intros a r E.
  assert (r ∈ occurrences p s) as Hr by (apply occurrences_spec; by exists a).
  rewrite H in Hr. by apply not_elem_of_nil in Hr.
Qed.

(** A needle that matches none of the literals of a dump. *)
Definition off_literals (p : bytes) : bool :=
  no_start p (bs "{RANGEVAR :schemaname ") && no_start p (bs " :relname ") && no_start p (bs "<>")
  && no_start p (bs " :inh true :relpersistence p :alias <> :location 14}")
  && no_start p (bs " ") && no_start p (bs ") } :stmt_location 0 :stmt_len 40})").

Lemma occurrences_rangevar c p o n s :
  off_literals (c :: p) = true → ident_byte c = false → named_relation (o, n) →
  occurrences (c :: p) (rangevar (schema_token o) n ++ s) = occurrences (c :: p) s.
Proof.
  unfold off_literals. rewrite !andb_true_iff. intros [[[[[H1 H2] H3] H4] H5] H6] Hc [[_ Hn] Ho].
  simpl in Hn, Ho. unfold rangevar. rewrite <- !app_assoc.
  rewrite occurrences_no_start by done.
  rewrite (occurrences_no_start _ (schema_token o)).
  2: { destruct o as [sch|]; [|done]. destruct Ho as [_ Ho].
       by apply no_start_free, (ident_not_in sch). }
  rewrite occurrences_no_start by done. rewrite occurrences_no_start; [by rewrite occurrences_no_start|].
  by apply no_start_free, (ident_not_in n).
Qed.

Lemma from_items_cons o n rels s :
  from_items ((o, n) :: rels) ++ s
  = rangevar (schema_token o) n ++ match rels with [] => s | _ => x20 :: from_items rels ++ s end.
Proof. destruct rels; [done|]. cbn [from_items]. by rewrite <- app_assoc. Qed.

Lemma occurrences_from_items c p rels s :
  off_literals (c :: p) = true → ident_byte c = false → Forall named_relation rels →
  occurrences (c :: p) (from_items rels ++ s) = occurrences (c :: p) s.
Proof.
  intros Hp Hc. induction 1 as [|[o n] rels Hr Hrs IH]; [done|].
  rewrite from_items_cons, occurrences_rangevar by done. destruct rels; [done|].
  rewrite <- IH. apply (occurrences_no_start _ [x20]).
  unfold off_literals in Hp. rewrite !andb_true_iff in Hp. tauto.
Qed.

Lemma occurrences_select_dump c p rels :
  off_literals (c :: p) = true → ident_byte c = false → Forall named_relation rels →
  no_start (c :: p) (bs "({RAWSTMT :stmt {SELECTSTMT :distinctClause <> :intoClause <> :targetList <> :fromClause (") = true →
  occurrences (c :: p) (select_dump (from_items rels)) = [].
Proof.
  intros Hp Hc Hr Hh. unfold select_dump. rewrite occurrences_no_start by done.
  rewrite occurrences_from_items by done.
  rewrite <- (app_nil_r (bs ") } :stmt_location 0 :stmt_len 40})")).
  rewrite occurrences_no_start; [done|].
  unfold off_literals in Hp. rewrite !andb_true_iff in Hp. tauto.
Qed.

Lemma matches_occurrences needle dump :
  unbordered needle = true → matches needle dump = occurrences needle dump.
Proof. intros Hu. unfold matches. by apply after_matches_occurrences. Qed.

Lemma collect_relations_items rels s :
  Forall named_relation rels → occurrences (bs "{RANGEVAR ") s = [] →
  collect relation_at (occurrences (bs "{RANGEVAR ") (from_items rels ++ s))
  = Val ((λ '(o, n), Some (relation_obj o n)) <$> rels).
Proof.
  intros Hr Hs. induction Hr as [|[o n] rels Hon Hr IH].
  { change (from_items [] ++ s) with s. by rewrite Hs. }
  rewrite from_items_cons, rangevar_eq.
  set (r := match rels with [] => s | _ => _ end).
  assert (occurrences (bs "{RANGEVAR ") (bs "{RANGEVAR " ++ rangevar_fields (schema_token o) n ++ rbrace :: r)
    = (rangevar_fields (schema_token o) n ++ rbrace :: r) :: occurrences (bs "{RANGEVAR ") r) as ->.
  { change (bs "{RANGEVAR ") with (lbrace :: bs "RANGEVAR "). cbn [app occurrences].
    change (lbrace :: bs "RANGEVAR " ++ ?x) with ((lbrace :: bs "RANGEVAR ") ++ x).
    rewrite starts_with_app, drop_app_length. cbn [app]. f_equal.
    rewrite occurrences_no_start by done.
    rewrite occurrences_free; [by apply (occurrences_no_start _ [rbrace])|].
    intros Hin. destruct Hon as [[_ Hn] Ho]. simpl in Hn, Ho. unfold rangevar_fields in Hin.
    rewrite !elem_of_app in Hin. destruct_or!.
    - revert Hin. by_decide.
    - apply schema_token_plain in Ho. rewrite Forall_forall in Ho. by apply Ho in Hin as (?&?&?).
    - revert Hin. by_decide.
    - by apply (ident_not_in n) in Hin.
    - revert Hin. by_decide. }
  cbn [collect]. rewrite relation_at_rangevar by done. simpl.
  replace (occurrences (bs "{RANGEVAR ") r)
    with (occurrences (bs "{RANGEVAR ") (from_items rels ++ s)).
  - by rewrite IH.
  - subst r. destruct rels; [done|]. symmetry. by apply (occurrences_no_start _ [x20]).
Qed.

Lemma from_items_balanced rels :
  Forall named_relation rels → balanced lbrace rbrace (from_items rels).
Proof.
  induction 1 as [|[o n] rels Hon Hr IH]; [constructor|].
  rewrite <- (app_nil_r (from_items ((o, n) :: rels))).
  rewrite from_items_cons, rangevar_eq. change (bs "{RANGEVAR ") with (lbrace :: bs "RANGEVAR ").
  cbn [app]. rewrite app_assoc. apply balanced_node.
  - apply balanced_literal; [done|]. by apply rangevar_fields_balanced.
  - destruct rels; [constructor|]. rewrite app_nil_r.
    by apply (balanced_literal [x20]).
Qed.

(** The statement behind the opener of a [select_dump]. *)
Definition select_stmt (inner : bytes) : bytes :=
  bs " :stmt {SELECTSTMT :distinctClause <> :intoClause <> :targetList <> :fromClause ("
  ++ inner ++ bs ") } :stmt_location 0 :stmt_len 40".

Lemma select_stmt_balanced inner :
  balanced lbrace rbrace inner → balanced lbrace rbrace (select_stmt inner).
Proof.
  intros Hi. unfold select_stmt.
  change (bs " :stmt {SELECTSTMT :distinctClause <> :intoClause <> :targetList <> :fromClause (")
    with (bs " :stmt " ++ [lbrace]
          ++ bs "SELECTSTMT :distinctClause <> :intoClause <> :targetList <> :fromClause (").
  change (bs ") } :stmt_location 0 :stmt_len 40")
    with (bs ") " ++ rbrace :: bs " :stmt_location 0 :stmt_len 40").
  rewrite <- !app_assoc. apply balanced_literal; [done|]. cbn [app].
  rewrite (app_assoc inner), app_assoc. apply balanced_node.
  - apply balanced_literal; [done|]. apply balanced_app; [done|].
    rewrite <- (app_nil_r (bs ") ")). apply balanced_literal; [done|constructor].
  - rewrite <- (app_nil_r (bs _)). apply balanced_literal; [done|constructor].
Qed.

Lemma stmt_kind_select inner r :
  balanced lbrace rbrace inner →
  stmt_kind (select_stmt inner ++ rbrace :: r) = Some (bs "SELECTSTMT").
Proof.
  intros Hi. unfold stmt_kind, node_body.
  rewrite body_of_balanced; [|done..|by apply select_stmt_balanced]. reflexivity.
Qed.

Lemma stmt_kinds_select_dump rels :
  Forall named_relation rels →
  stmt_kinds (select_dump (from_items rels)) = [bs "SELECTSTMT"].
Proof.
  intros Hr. unfold stmt_kinds. rewrite matches_occurrences by done.
  replace (select_dump (from_items rels))
    with (lparen :: bs "{RAWSTMT" ++ select_stmt (from_items rels) ++ rbrace :: [rparen]).
  2: { unfold select_dump, select_stmt. rewrite <- !app_assoc. done. }
  change (bs "{RAWSTMT") with (lbrace :: bs "RAWSTMT"). cbn [occurrences starts_with].
  rewrite bool_decide_eq_false_2 by done. cbn [app occurrences andb].
  change (lbrace :: bs "RAWSTMT" ++ ?x) with ((lbrace :: bs "RAWSTMT") ++ x).
  rewrite starts_with_app, drop_app_length. cbn [app omap list_omap].
  rewrite stmt_kind_select by by apply from_items_balanced. f_equal.
  rewrite occurrences_no_start by done. unfold select_stmt. rewrite <- !app_assoc.
  rewrite occurrences_no_start by done. rewrite occurrences_from_items by done. reflexivity.
Qed.

Lemma relations_select_dump rels :
  Forall named_relation rels →
  relations (select_dump (from_items rels)) = Val ((λ '(o, n), relation_obj o n) <$> rels).
Proof.
  intros Hr. unfold relations. rewrite matches_occurrences by done. unfold select_dump.
  rewrite occurrences_no_start by done. rewrite collect_relations_items by done. simpl. f_equal.
  clear Hr. induction rels as [|[o n] rels IH]; [done|]. simpl. f_equal. apply IH.
Qed.

Lemma analyze_select_dump rels :
  Forall named_relation rels →
  analyze_dump (select_dump (from_items rels)) = Val
    (obj [(bs "ok", Bool true); (bs "statements", Number (PosInt 1));
          (bs "kind", Str (bs "select")); (bs "writes", Bool false);
          (bs "relations", Arr ((λ '(o, n), relation_obj o n) <$> rels));
          (bs "functions", Arr []); (bs "ctes", Arr [])]).
Proof.
  intros Hr. unfold analyze_dump. rewrite decide_False by done.
  rewrite relations_select_dump by done.
  assert (∀ c p, unbordered (c :: p) = true → off_literals (c :: p) = true →
    ident_byte c = false →
    no_start (c :: p) (bs "({RAWSTMT :stmt {SELECTSTMT :distinctClause <> :intoClause <> :targetList <> :fromClause (") = true →
    matches (c :: p) (select_dump (from_items rels)) = []) as Hm.
  { intros. rewrite matches_occurrences, occurrences_select_dump by done. done. }
  unfold ctes, functions. change (bs ":ctename ") with (x3a :: bs "ctename ").
  change (bs ":funcname (") with (x3a :: bs "funcname (").
  rewrite (Hm x3a (bs "ctename ")), (Hm x3a (bs "funcname (")) by done.
  assert (has_into (select_dump (from_items rels)) = false) as ->.
  { apply contains_occurrences. by apply (occurrences_select_dump x3a (bs "intoClause {")). }
  assert (has_dml (select_dump (from_items rels)) = false) as ->.
  { unfold has_dml, dml_tags. cbn [existsb].
    rewrite (contains_occurrences (bs "{INSERTSTMT")), (contains_occurrences (bs "{UPDATESTMT")),
      (contains_occurrences (bs "{DELETESTMT")), (contains_occurrences (bs "{MERGESTMT")); [done|..].
    all: by apply (occurrences_select_dump lbrace). }
  rewrite stmt_kinds_select_dump by done. reflexivity.
Qed.

(** * Properties *)

(** C3: the relations and the CTE names the analysis reports are exactly those
    of the dump, in its order and as often as they occur: one relation for
    each offset at which the text ["{RANGEVAR "] occurs and the node behind it
    has a [:relname], with that name and the node's schema; and one name for
    each [":ctename "] with a name behind it. No occurrence is skipped, merged
    with another or moved. For the dump of a plain [SELECT] over a list of named
    relations these are those relations, with their schemas. *)
Theorem analyze_relations_exact dump v :
  dump ≠ [] → analyze_dump dump = Val v →
  get (bs "relations") v
    = Some (Arr (omap (λ p, relation_entry (drop (p + 10) dump)) (offsets (bs "{RANGEVAR ") dump)))
  ∧ get (bs "ctes") v
    = Some (Arr (omap (λ p, cte_entry (drop (p + 9) dump)) (offsets (bs ":ctename ") dump)))
  ∧ ∀ rels, Forall named_relation rels → dump = select_dump (from_items rels) →
      get (bs "relations") v = Some (Arr ((λ '(sch, n), relation_obj sch n) <$> rels)).
Proof.
  intros Hne H. destruct (analyze_dump_fields dump v Hne H) as (rels & cs & _ & Hr & Hc & _ & Hg & _ & Hg' & _).
  split; [by rewrite Hg, <- (relations_spec _ _ Hr)|]. split; [by rewrite Hg', <- (ctes_spec _ _ Hc)|].
  intros rs Hrs ->. rewrite analyze_select_dump in H by done. injection H as <-. reflexivity.
Qed.

Definition two_tables : bytes :=
  select_dump (from_items [(Some (bs "allgres_public"), bs "v_sales"); (None, bs "매출")]).

Lemma analyze_relations_exact_witness :
  ∃ v, analyze_dump two_tables = Val v
    ∧ get (bs "relations") v
      = Some (Arr [relation_obj (Some (bs "allgres_public")) (bs "v_sales"); relation_obj None (bs "매출")]).
Proof.
  destruct (analyze_dump two_tables) as [v|] eqn:E; [|by vm_compute in E].
  exists v. split; [done|].
  rewrite (proj1 (analyze_relations_exact two_tables v ltac:(done) E)). vm_compute. reflexivity.
Defined.

(** C16: the functions the analysis reports are exactly the [:funcname] lists of
    the dump: the name is the last string of the list and the schema the one
    before it, if any. *)
Theorem analyze_functions_exact dump v :
  dump ≠ [] → analyze_dump dump = Val v →
  ∃ funcs, get (bs "functions") v = Some (Arr funcs) ∧
    ∀ x, x ∈ funcs ↔
      ∃ before rest parts n, dump = before ++ bs ":funcname (" ++ rest
        ∧ quoted_strings (paren_body rest) = Val (parts ++ [n])
        ∧ x = obj [(bs "schema", json_opt_str (last parts)); (bs "name", Str n)].
Proof.
  intros Hne H.
  destruct (analyze_dump_fields dump v Hne H) as (_ & _ & funcs & _ & _ & Hf & _ & Hg & _).
  exists funcs. split; [done|]. intros x. rewrite (functions_spec _ _ Hf). split.
  - intros (a & rest & parts & Hd & Hq & Hx). exists a, rest.
    destruct parts as [|n parts _] using rev_ind; [done|]. exists parts, n.
    rewrite function_of_snoc in Hx. by simplify_eq.
  - intros (a & rest & parts & n & Hd & Hq & ->). exists a, rest, (parts ++ [n]).
    by rewrite function_of_snoc.
Qed.

Definition series_dump : bytes :=
  jq "({RAWSTMT :stmt {SELECTSTMT :fromClause ({FUNCCALL :funcname ('pg_catalog' 'generate_series') :args <>})}})".

Lemma analyze_functions_exact_witness :
  ∃ v funcs, analyze_dump series_dump = Val v ∧ get (bs "functions") v = Some (Arr funcs)
    ∧ obj [(bs "schema", Str (bs "pg_catalog")); (bs "name", Str (bs "generate_series"))] ∈ funcs.
Proof.
  destruct (analyze_dump series_dump) as [v|] eqn:E; [|by vm_compute in E].
  destruct (analyze_functions_exact series_dump v ltac:(done) E) as (funcs & Hg & Hx).
  exists v, funcs. split; [done|]. split; [done|]. apply Hx.
  exists (take 51 series_dump), (drop 62 series_dump), [bs "pg_catalog"], (bs "generate_series").
  repeat split; vm_compute; reflexivity.
Defined.

(** A statement node with a statement in it begins at [p]. *)
Definition statement_at (dump : bytes) (p : nat) : Prop :=
  starts_with (bs "{RAWSTMT") (drop p dump) = true
  ∧ contains (bs ":stmt {") (node_body (drop (p + 8) dump)) = true.

(** Its first statement tag is [tag], a whole word. *)
Definition first_tag (body tag : bytes) : Prop :=
  ∃ a b, body = a ++ bs ":stmt {" ++ tag ++ b
    ∧ (∀ c d, body = c ++ bs ":stmt {" ++ d → length a ≤ length c)
    ∧ match b with
      | [] => True
      | x :: _ => (is_ascii_alphanumeric x || bool_decide (x = x5f)) = false
      end.

Lemma read_ident_split s :
  ∃ b, s = read_ident s ++ b
    ∧ match b with
      | [] => True
      | x :: _ => (is_ascii_alphanumeric x || bool_decide (x = x5f)) = false
      end.
Proof.
  induction s as [|x s (b & Hs & Hb)]; [by exists []|]. cbn [read_ident].
  destruct (_ || _) eqn:E; [|by exists (x :: s)]. exists b. split; [|done]. cbn [app]. by rewrite <- Hs.
Qed.

Lemma stmt_kind_tag rest :
  match stmt_kind rest with
  | Some tag => contains (bs ":stmt {") (node_body rest) = true ∧ first_tag (node_body rest) tag
  | None => contains (bs ":stmt {") (node_body rest) = false
  end.
Proof.
  unfold stmt_kind, contains. destruct (find_sub _ _) as [q|] eqn:Hq; [|done].
  split; [done|]. destruct (find_sub_Some _ _ _ Hq) as (d & Hb & Hl & Hfirst).
  assert (drop (q + length (bs ":stmt {")) (node_body rest) = d) as ->.
  { rewrite Hb at 1. rewrite app_assoc, drop_app_length'; [done|]. rewrite length_app, length_take. lia. }
  destruct (read_ident_split d) as (b & Hd & Hx). exists (take q (node_body rest)), b.
  split; [by rewrite <- Hd|]. split; [|done]. intros c e Hc. rewrite length_take_le by done.
  destruct (decide (length c < q)) as [Hlt|]; [|lia]. specialize (Hfirst _ Hlt).
  rewrite Hc, drop_app_length, starts_with_app in Hfirst. done.
Qed.

(** The tags of the statements, one for each offset of a statement. *)
Lemma stmt_kinds_offsets dump :
  Forall2 (λ p tag, first_tag (node_body (drop (p + 8) dump)) tag)
    (filter (λ p, contains (bs ":stmt {") (node_body (drop (p + 8) dump)) = true)
       (offsets (bs "{RAWSTMT") dump))
    (stmt_kinds dump).
Proof.
  unfold stmt_kinds. rewrite matches_offsets by done.
  induction (offsets (bs "{RAWSTMT") dump) as [|p ps IH]; [constructor|].
  rewrite filter_cons. cbn [fmap list_fmap omap list_omap].
  change (length (bs "{RAWSTMT")) with 8 in *.
  pose proof (stmt_kind_tag (drop (p + 8) dump)) as Hk. destruct (stmt_kind _) as [tag|].
  - destruct Hk as [Hc Ht]. rewrite decide_True by done. by constructor.
  - rewrite decide_False by congruence. exact IH.
Qed.

Lemma statement_at_offsets dump q :
  statement_at dump q ↔
  q ∈ filter (λ p, contains (bs ":stmt {") (node_body (drop (p + 8) dump)) = true)
        (offsets (bs "{RAWSTMT") dump).
Proof.
  unfold offsets, statement_at. rewrite !list_elem_of_filter, elem_of_seq. split; [|tauto].
  intros [Hs Hc]. split_and!; [done|done|lia|].
  destruct (decide (q < length dump)); [lia|]. rewrite drop_ge in Hs by lia. done.
Qed.

(** C4: a verdict of one non-writing [SELECT] is sound: then the dump holds
    exactly one statement, the word behind its tag is [SELECTSTMT], and no
    [INSERT], [UPDATE], [DELETE] or [MERGE] node and no [INTO] clause begins
    anywhere in the dump. *)
Theorem select_verdict_sound dump v :
  dump ≠ [] → analyze_dump dump = Val v →
  get (bs "kind") v = Some (Str (bs "select")) → get (bs "writes") v = Some (Bool false) →
  (∃ p, (∀ q, statement_at dump q ↔ q = p)
     ∧ first_tag (node_body (drop (p + 8) dump)) (bs "SELECTSTMT"))
  ∧ get (bs "statements") v = Some (Number (PosInt 1))
  ∧ ∀ tag, tag ∈ [bs "{INSERTSTMT"; bs "{UPDATESTMT"; bs "{DELETESTMT"; bs "{MERGESTMT"; bs ":intoClause {"] →
      ∀ before after, dump ≠ before ++ tag ++ after.
Proof.
  intros Hne H Hk Hw.
  destruct (analyze_dump_fields dump v Hne H) as (_ & _ & _ & _ & _ & _ & _ & _ & _ & Hk' & Hs & Hw').
  rewrite Hk in Hk'. injection Hk' as Hk'. symmetry in Hk'. apply dump_kind_select in Hk'.
  rewrite Hk' in Hs. split; [|split; [done|]].
  - pose proof (stmt_kinds_offsets dump) as Ho. rewrite Hk' in Ho.
    apply Forall2_cons_inv_r in Ho as (p & ps & Htag & Hnil%Forall2_nil_inv_r & Hps). subst ps.
    exists p. split; [|done]. intros q. rewrite statement_at_offsets, Hps. apply list_elem_of_singleton.
  - rewrite Hw in Hw'. injection Hw' as Hw'. symmetry in Hw'. apply orb_false_iff in Hw' as [Hi Hd].
    intros tag Ht. apply contains_false.
    repeat (apply elem_of_cons in Ht as [->|Ht]; [first [done|by apply has_dml_false; [|by_decide]]|]).
    by apply elem_of_nil in Ht.
Qed.

Lemma select_verdict_sound_witness :
  (∃ p, (∀ q, statement_at two_tables q ↔ q = p)
     ∧ first_tag (node_body (drop (p + 8) two_tables)) (bs "SELECTSTMT"))
  ∧ ∀ before after, two_tables ≠ before ++ bs "{DELETESTMT" ++ after.
Proof.
  destruct (analyze_dump two_tables) as [v|] eqn:E; [|by vm_compute in E].
  destruct (select_verdict_sound two_tables v) as (Hk & _ & Ht);
    [done|done|vm_compute in E; injection E as <-; reflexivity..|].
  split; [done|]. apply Ht. by_decide.
Defined.

(** C29: the analysis returns a verdict, and does not panic, on every dump that
    is well-formed UTF-8 and escapes only ASCII bytes. *)
Theorem analyze_dump_total dump :
  valid_utf8 dump = true → escapes_ascii dump = true → ∃ v, analyze_dump dump = Val v.
Proof.
  intros Hv He. assert (readable dump) as Hd by done.
  unfold analyze_dump. case_decide; [by eexists|].
  destruct (relations_total dump Hd) as [? ->], (ctes_total dump Hd) as [? ->],
    (functions_total dump Hd) as [? ->]. by eexists.
Qed.

Lemma analyze_dump_total_witness : ∃ v, analyze_dump (bs "({RAWSTMT :stmt {SELECTSTMT :fromClause ({RANGEVAR :relname caf\{é})}})") = Val v.
Proof. apply analyze_dump_total; vm_compute; reflexivity. Defined.

(** the analysis of the dump of a plain [SELECT] over any list of named
    relations gives back those relations, in order, with their schemas, and
    reports one reading statement, no function and no CTE. *)
Theorem select_dump_roundtrip rels :
  Forall named_relation rels →
  analyze_dump (select_dump (from_items rels)) = Val
    (obj [(bs "ok", Bool true); (bs "statements", Number (PosInt 1));
          (bs "kind", Str (bs "select")); (bs "writes", Bool false);
          (bs "relations", Arr ((λ '(o, n), relation_obj o n) <$> rels));
          (bs "functions", Arr []); (bs "ctes", Arr [])]).
Proof. apply analyze_select_dump. Qed.

Lemma select_dump_roundtrip_witness :
  (analyze_dump two_tables ≫= λ v, mret (get (bs "relations") v)) =
  Val (Some (Arr [relation_obj (Some (bs "allgres_public")) (bs "v_sales"); relation_obj None (bs "매출")])).
Proof.
  unfold two_tables. rewrite select_dump_roundtrip; [reflexivity|].
  repeat constructor; simpl; by_decide.
Defined.

(** C36: a token written with its delimiters and backslashes escaped (and any
    other ASCII bytes, never a leading [<] or double quote unescaped) is read
    back as the text it stands for, characters outside ASCII included, and the
    reader stops right behind it. *)
Theorem read_token_roundtrip e s r :
  valid_utf8 s = true → escaped e s → head e ≠ Some x3c → head e ≠ Some quote →
  delimited r → read_token (e ++ r) = Val (Some s, length e).
Proof. apply read_token_escaped. Qed.

Lemma read_token_roundtrip_witness :
  read_token (bs "caf\{é :x") = Val (Some (bs "caf{é"), 7).
Proof.
  apply (read_token_roundtrip (bs "caf\{é") (bs "caf{é") (bs " :x")); try done.
  do 3 (apply escaped_raw; [done|done|]). apply escaped_bs; [done|].
  repeat (apply escaped_raw; [done|done|]). apply escaped_nil.
Defined.

(** [node_body] and [paren_body] find the bracket that closes the text:
    what they return is balanced and stands before a closing bracket, or it is
    the whole text and the text has no balanced prefix before a closing
    bracket. Escaped brackets do not count. *)
Theorem bodies_balanced s :
  ((∃ r, s = node_body s ++ rbrace :: r ∧ balanced lbrace rbrace (node_body s))
   ∨ (node_body s = s ∧ ¬ ∃ t r, s = t ++ rbrace :: r ∧ balanced lbrace rbrace t))
  ∧ ((∃ r, s = paren_body s ++ rparen :: r ∧ balanced lparen rparen (paren_body s))
     ∨ (paren_body s = s ∧ ¬ ∃ t r, s = t ++ rparen :: r ∧ balanced lparen rparen t)).
Proof. split; by apply body_of_cases. Qed.

End SqlParser.
