(* ===== verification/Effects.v ===== *)
(** Programs that talk to an environment.

    A [prog E A] performs operations of [E] and ends in an [A]; the
    environment answers each operation as it likes. An [io E A] may also end
    in a raised error, as a PostgreSQL ERROR or a Rust panic that unwinds.
    Properties of every possible run are stated with [wp], the weakest
    precondition over a monitor that watches the operations, and transferred
    to runs by [wp_sound]. *)
From S2P Require Import Prelude.

Inductive prog (E : Type → Type) (A : Type) : Type :=
| Done (a : A)
| Do {X : Type} (e : E X) (k : X → prog E A).
Arguments Done {E A} a.
Arguments Do {E A X} e k.

Fixpoint prog_bind {E A B} (p : prog E A) (f : A → prog E B) : prog E B :=
  match p with
  | Done a => f a
  | Do e k => Do e (λ x, prog_bind (k x) f)
  end.

(** A computation that returned, or raised an error with a message. *)
Inductive exn (A : Type) : Type :=
| Returned (a : A)
| Raised (msg : bytes).
Arguments Returned {A} a.
Arguments Raised {A} msg.

Definition io (E : Type → Type) (A : Type) : Type := prog E (exn A).

#[export] Instance io_ret E : MRet (io E) := λ A a, Done (Returned a).

#[export] Instance io_bind E : MBind (io E) := λ A B f p,
  prog_bind p (λ r, match r with Returned a => f a | Raised m => Done (Raised m) end).

(** One operation whose answer is a plain value. *)
Definition op {E X} (e : E X) : io E X := Do e (λ x, Done (Returned x)).

(** One operation whose answer may be a raised error. *)
Definition op_exn {E X} (e : E (exn X)) : io E X := Do e Done.

Definition raise {E A} (msg : bytes) : io E A := Done (Raised msg).

(** Catch what [p] raises. *)
Definition try {E A} (p : io E A) : io E (exn A) := prog_bind p (λ r, Done (Returned r)).

(** A [for] loop over a list, in order. *)
Fixpoint for_each {E A B} (l : list A) (acc : B) (f : B → A → io E B) : io E B :=
  match l with
  | [] => mret acc
  | a :: l' => acc' ← f acc a; for_each l' acc' f
  end.

(** A loop: [body] says whether to go around again. [None] is a loop still
    running after [fuel] rounds. *)
Fixpoint loop {E S} (fuel : nat) (body : S → io E (S * bool)) (s : S) : io E (option S) :=
  match fuel with
  | 0 => mret None
  | Datatypes.S f => '(s', again) ← body s; if (again : bool) then loop f body s' else mret (Some s')
  end.

(** The same program over other operations. *)
Fixpoint translate {E F : Type → Type} (t : ∀ X, E X → F X) {A} (p : prog E A) : prog F A :=
  match p with
  | Done a => Done a
  | Do e k => Do (t _ e) (λ x, translate t (k x))
  end.

(** Each operation carried out by a program over operations one level below,
    with a state kept from one to the next. *)
Fixpoint interp {E F : Type → Type} {S A} (h : ∀ X, E X → S → prog F (S * X)) (p : prog E A) (s : S) :
    prog F (S * A) :=
  match p with
  | Done a => Done (s, a)
  | Do e k => prog_bind (h _ e s) (λ '(s', x), interp h (k x) s')
  end.

(** * Runs *)

(** An operation with the answer it got. *)
Record event (E : Type → Type) : Type := Event { ev_ans : Type; ev_op : E ev_ans; ev_val : ev_ans }.
Arguments Event {E} ev_ans ev_op ev_val.
Arguments ev_ans {E} e.
Arguments ev_op {E} e.
Arguments ev_val {E} e.

(** [runs p tr a]: with the answers of [tr], [p] performs the operations of
    [tr] and ends in [a]. *)
Inductive runs {E A} : prog E A → list (event E) → A → Prop :=
| runs_done a : runs (Done a) [] a
| runs_do X (e : E X) k x tr a : runs (k x) tr a → runs (Do e k) (Event X e x :: tr) a.

Lemma runs_inv {E A} (p : prog E A) tr a :
  runs p tr a →
  match p with
  | Done a' => tr = [] ∧ a = a'
  | Do e k => ∃ x tr', tr = Event _ e x :: tr' ∧ runs (k x) tr' a
  end.
Proof. intros []; eauto. Qed.

Lemma runs_prog_bind_inv {E A B} (p : prog E A) (f : A → prog E B) tr b :
  runs (prog_bind p f) tr b →
  ∃ tr1 tr2 a, tr = tr1 ++ tr2 ∧ runs p tr1 a ∧ runs (f a) tr2 b.
Proof.
  revert tr. induction p as [a|X e k IH]; intros tr Hr.
  - exists [], tr, a. by repeat constructor.
  - apply runs_inv in Hr as (x & tr' & -> & Hr). apply IH in Hr as (tr1 & tr2 & a & -> & H1 & H2).
    exists (Event X e x :: tr1), tr2, a. by repeat constructor.
Qed.

Lemma runs_bind_inv {E A B} (p : io E A) (f : A → io E B) tr b :
  runs (p ≫= f) tr b →
  ∃ tr1 tr2 r, tr = tr1 ++ tr2 ∧ runs p tr1 r
    ∧ match r with Returned a => runs (f a) tr2 b | Raised m => tr2 = [] ∧ b = Raised m end.
Proof.
  intros Hr. apply runs_prog_bind_inv in Hr as (tr1 & tr2 & [a|m] & -> & H1 & H2).
  - by exists tr1, tr2, (Returned a).
  - apply runs_inv in H2 as [-> ->]. by exists tr1, [], (Raised m).
Qed.

(** [reaches p tr q]: with the answers of [tr], [p] has performed the operations
    of [tr], and [q] is left of it. *)
Inductive reaches {E A} : prog E A → list (event E) → prog E A → Prop :=
| reaches_here p : reaches p [] p
| reaches_do X (e : E X) k x tr q : reaches (k x) tr q → reaches (Do e k) (Event X e x :: tr) q.

Lemma runs_reaches {E A} (p : prog E A) tr a : runs p tr a → reaches p tr (Done a).
Proof. induction 1; by constructor. Qed.

Lemma reaches_runs {E A} (p q : prog E A) tr1 tr2 a :
  reaches p tr1 q → runs q tr2 a → runs p (tr1 ++ tr2) a.
Proof. induction 1; [done|]. intros. constructor. auto. Qed.

(** Running against a concrete environment [h]: the events and the result. *)
Fixpoint run_with {E A S} (h : ∀ X, E X → S → X * S) (p : prog E A) (s : S) :
    list (event E) * A :=
  match p with
  | Done a => ([], a)
  | Do e k =>
      let '(x, s') := h _ e s in
      let '(tr, a) := run_with h (k x) s' in (Event _ e x :: tr, a)
  end.

Lemma run_with_runs {E A S} (h : ∀ X, E X → S → X * S) (p : prog E A) s :
  runs p (run_with h p s).1 (run_with h p s).2.
Proof.
  revert s. induction p as [a|X e k IH]; intros s; simpl; [constructor|].
  destruct (h X e s) as [x s']. specialize (IH x s').
  destruct (run_with h (k x) s') as [tr a]. by constructor.
Qed.

(** The result and the environment's last state. *)
Fixpoint exec {E A S} (h : ∀ X, E X → S → X * S) (p : prog E A) (s : S) : A * S :=
  match p with
  | Done a => (a, s)
  | Do e k => let '(x, s') := h _ e s in exec h (k x) s'
  end.

Lemma exec_prog_bind {E A B S} (h : ∀ X, E X → S → X * S) (p : prog E A) (f : A → prog E B) s :
  exec h (prog_bind p f) s = let '(a, s') := exec h p s in exec h (f a) s'.
Proof.
  revert s. induction p as [a|X e k IH]; intros s; simpl; [done|]. by destruct (h X e s).
Qed.

Lemma exec_bind {E A B S} (h : ∀ X, E X → S → X * S) (p : io E A) (f : A → io E B) s :
  exec h (p ≫= f) s
    = match exec h p s with
      | (Returned a, s') => exec h (f a) s'
      | (Raised m, s') => (Raised m, s')
      end.
Proof.
  unfold mbind, io_bind. rewrite exec_prog_bind. by destruct (exec h p s) as [[a|m] s'].
Qed.

(** * Monitors and weakest preconditions *)

Record monitor (E : Type → Type) : Type := Monitor {
  mstate : Type;
  allowed : mstate → ∀ X, E X → Prop;
  next : mstate → ∀ X, E X → X → mstate
}.
Arguments Monitor {E} mstate allowed next.
Arguments mstate {E} m.
Arguments allowed {E} m s {X} e.
Arguments next {E} m s {X} e x.

Section wp.
Context {E : Type → Type} (M : monitor E).

Fixpoint wp {A} (p : prog E A) (Q : mstate M → A → Prop) (s : mstate M) : Prop :=
  match p with
  | Done a => Q s a
  | Do e k => allowed M s e ∧ ∀ x, wp (k x) Q (next M s e x)
  end.

(** The monitor accepts a trace, and where it ends up. *)
Fixpoint accepts (s : mstate M) (tr : list (event E)) : Prop :=
  match tr with
  | [] => True
  | ev :: tr' => allowed M s (ev_op ev) ∧ accepts (next M s (ev_op ev) (ev_val ev)) tr'
  end.

Fixpoint after (s : mstate M) (tr : list (event E)) : mstate M :=
  match tr with
  | [] => s
  | ev :: tr' => after (next M s (ev_op ev) (ev_val ev)) tr'
  end.

Lemma wp_sound {A} (p : prog E A) Q s tr a :
  wp p Q s → runs p tr a → accepts s tr ∧ Q (after s tr) a.
Proof.
  intros Hw Hr. revert s Hw. induction Hr as [a|X e k x tr a _ IH]; intros s Hw; [done|].
  destruct Hw as [Ha Hw]. destruct (IH _ (Hw x)) as [H1 H2]. done.
Qed.

Lemma after_app s tr1 tr2 : after s (tr1 ++ tr2) = after (after s tr1) tr2.
Proof. revert s. induction tr1 as [|ev tr1 IH]; intros s; [done|]. apply IH. Qed.

(** The same for a run that is not over. *)
Lemma wp_reaches {A} (p q : prog E A) Q s tr :
  wp p Q s → reaches p tr q → accepts s tr ∧ wp q Q (after s tr).
Proof.
  intros Hw Hr. revert s Hw. induction Hr as [p|X e k x tr q _ IH]; intros s Hw; [done|].
  destruct Hw as [Ha Hw]. destruct (IH _ (Hw x)) as [H1 H2]. done.
Qed.

(** What every allowed operation satisfies holds along an accepted trace. *)
Lemma accepts_forall (P : ∀ X, E X → Prop) s tr :
  (∀ s X (e : E X), allowed M s e → P X e) → accepts s tr → Forall (λ ev, P _ (ev_op ev)) tr.
Proof.
  intros HP. revert s. induction tr as [|ev tr IH]; intros s; [constructor|].
  intros [Ha Hacc]. constructor; [by apply (HP s)|]. by eapply IH.
Qed.

Lemma wp_mono {A} (p : prog E A) (Q Q' : mstate M → A → Prop) s :
  (∀ s a, Q s a → Q' s a) → wp p Q s → wp p Q' s.
Proof.
  intros HQ. revert s. induction p as [a|X e k IH]; intros s; simpl; [auto|].
  intros [? H]. split; [done|]. intros x. by apply IH.
Qed.

Lemma wp_bind {A B} (p : prog E A) (f : A → prog E B) Q s :
  wp p (λ s a, wp (f a) Q s) s → wp (prog_bind p f) Q s.
Proof.
  revert s. induction p as [a|X e k IH]; intros s; simpl; [done|].
  intros [? H]. split; [done|]. intros x. by apply IH.
Qed.

(** The continuation of an [io] bind: only a returned value goes on. *)
Definition on_return {A B} (f : A → io E B) (Q : mstate M → exn B → Prop) :
    mstate M → exn A → Prop := λ s r,
  match r with Returned a => wp (f a) Q s | Raised m => Q s (Raised m) end.

Lemma wp_io_bind {A B} (p : io E A) (f : A → io E B) Q s :
  wp p (on_return f Q) s → wp (p ≫= f) Q s.
Proof.
  intros H. apply wp_bind. eapply wp_mono; [|exact H]. intros s' [a|m]; simpl; done.
Qed.

Lemma wp_try {A} (p : io E A) Q s :
  wp p (λ s r, Q s (Returned r)) s → wp (try p) Q s.
Proof. intros H. apply wp_bind. exact H. Qed.

(** A loop keeps an invariant of the monitor that its body keeps. *)
Lemma wp_for_each {A B} (I : mstate M → B → Prop) (l : list A) (acc : B) (f : B → A → io E B)
    (Q : mstate M → exn B → Prop) s :
  I s acc →
  (∀ s acc a, a ∈ l → I s acc →
     wp (f acc a) (λ s r, match r with Returned b => I s b | Raised m => Q s (Raised m) end) s) →
  (∀ s acc, I s acc → Q s (Returned acc)) →
  wp (for_each l acc f) Q s.
Proof.
  intros HI Hf HQ. revert s acc HI Hf. induction l as [|a l IH]; intros s acc HI Hf; simpl.
  - by apply HQ.
  - apply wp_io_bind. eapply wp_mono; [|apply Hf; [set_solver|exact HI]].
    intros s' [b|m] Hb; simpl in *; [|done]. apply IH; [done|].
    intros. apply Hf; [set_solver|done].
Qed.

Lemma wp_loop {S} (I : mstate M → S → Prop) fuel body (x : S) (Q : mstate M → exn (option S) → Prop) s :
  I s x →
  (∀ s x, I s x →
     wp (body x) (λ s r, match r with
                         | Returned (x', _) => I s x'
                         | Raised m => Q s (Raised m)
                         end) s) →
  (∀ s x, I s x → Q s (Returned (Some x))) → (∀ s x, I s x → Q s (Returned None)) →
  wp (loop fuel body x) Q s.
Proof.
  intros HI Hb Hend Hout. revert s x HI. induction fuel as [|f IH]; intros s x HI; simpl.
  - by eapply Hout.
  - apply wp_io_bind. eapply wp_mono; [|by apply Hb].
    intros s' [[x' []]|m] Hx; simpl; [by apply IH|by apply Hend|done].
Qed.

End wp.

(** A program over other operations is watched as the original is. *)
Definition pull {E F : Type → Type} (t : ∀ X, E X → F X) (M : monitor F) : monitor E :=
  Monitor (mstate M) (λ s X e, allowed M s (t X e)) (λ s X e, next M s (t X e)).

Lemma wp_translate {E F : Type → Type} (t : ∀ X, E X → F X) (M : monitor F) {A} (p : prog E A)
    (Q : mstate M → A → Prop) (s : mstate M) :
  wp (pull t M) p Q s → wp M (translate t p) Q s.
Proof.
  revert s. induction p as [a|X e k IH]; intros s; simpl; [done|].
  intros [Ha Hk]. split; [done|]. intros x. apply IH, Hk.
Qed.

(** What a program keeps, the program below keeps if each operation is carried
    out within what the monitor above allows of it; [R] relates the two
    monitors' states. *)
Lemma wp_interp {E F : Type → Type} {S A} (h : ∀ X, E X → S → prog F (S * X)) (M : monitor E)
    (N : monitor F) (R : mstate M → mstate N → Prop) (p : prog E A) (Q : mstate M → A → Prop) m n s :
  (∀ X (e : E X) m n s, allowed M m e → R m n →
     wp N (h X e s) (λ n' '(_, x), R (next M m e x) n') n) →
  wp M p Q m → R m n → wp N (interp h p s) (λ n' '(_, a), ∃ m', R m' n' ∧ Q m' a) n.
Proof.
  intros Hh. revert m n s. induction p as [a|X e k IH]; intros m n s Hp HR; [by exists m|].
  destruct Hp as [Ha Hk]. cbn [interp]. apply wp_bind. eapply wp_mono; [|by apply Hh].
  intros n' [s' x] HR'. by apply (IH x _ _ _ (Hk x)).
Qed.

(** * Programs that use only some operations *)

Fixpoint only {E A} (P : ∀ X, E X → Prop) (p : prog E A) : Prop :=
  match p with
  | Done _ => True
  | Do e k => P _ e ∧ ∀ x, only P (k x)
  end.

Section only.
Context {E : Type → Type} (P : ∀ X, E X → Prop).

Lemma only_prog_bind {A B} (p : prog E A) (f : A → prog E B) :
  only P p → (∀ a, only P (f a)) → only P (prog_bind p f).
Proof.
  intros Hp Hf. induction p as [a|X e k IH]; simpl in *; [done|]. destruct Hp as [He Hk]. auto.
Qed.

Lemma only_bind {A B} (p : io E A) (f : A → io E B) :
  only P p → (∀ a, only P (f a)) → only P (p ≫= f).
Proof. intros Hp Hf. apply only_prog_bind; [done|]. by intros [a|m]. Qed.

Lemma only_try {A} (p : io E A) : only P p → only P (try p).
Proof. intros Hp. by apply only_prog_bind. Qed.

Lemma only_for_each {A B} (l : list A) (acc : B) (f : B → A → io E B) :
  (∀ b a, only P (f b a)) → only P (for_each l acc f).
Proof.
  intros Hf. revert acc. induction l as [|a l IH]; intros acc; simpl; [done|].
  by apply only_bind.
Qed.

Lemma only_mono {A} (P' : ∀ X, E X → Prop) (p : prog E A) :
  (∀ X e, P X e → P' X e) → only P p → only P' p.
Proof.
  intros HP. induction p as [a|X e k IH]; simpl; [done|]. intros [He Hk]. auto.
Qed.

Lemma only_loop {S} fuel (body : S → io E (S * bool)) x :
  (∀ x, only P (body x)) → only P (loop fuel body x).
Proof.
  intros Hb. revert x. induction fuel as [|f IH]; intros x; simpl; [done|].
  apply only_bind; [done|]. intros [x' []]; [apply IH|done].
Qed.

Lemma only_all {A} (p : prog E A) : (∀ X e, P X e) → only P p.
Proof. intros HP. induction p as [a|X e k IH]; simpl; auto. Qed.

Lemma only_translate {F : Type → Type} (t : ∀ X, F X → E X) {A} (p : prog F A) :
  (∀ X e, P X (t X e)) → only P (translate t p).
Proof. intros Ht. induction p as [a|X e k IH]; simpl; auto. Qed.

(** A monitor that allows such operations and does not follow them. *)
Lemma only_wp {A} (M : monitor E) (p : prog E A) s :
  (∀ X (e : E X), P X e → allowed M s e ∧ ∀ x, next M s e x = s) →
  only P p → wp M p (λ s' _, s' = s) s.
Proof.
  intros HM. induction p as [a|X e k IH]; simpl; [done|]. intros [He Hk].
  destruct (HM X e He) as [Ha Hn]. split; [done|]. intros x. rewrite Hn. auto.
Qed.

(** Every event of a run is one of them. *)
Lemma only_runs {A} (p : prog E A) tr a :
  only P p → runs p tr a → Forall (λ ev, P _ (ev_op ev)) tr.
Proof.
  intros Hp Hr. induction Hr as [a|X e k x tr a _ IH]; [constructor|].
  destruct Hp as [He Hk]. constructor; [done|]. apply IH, Hk.
Qed.

End only.

(** Step through the operations of a program. *)
Ltac wp_step :=
  lazymatch goal with
  | |- wp _ (mbind _ _) _ _ => apply wp_io_bind
  | |- wp _ (prog_bind _ _) _ _ => apply wp_bind
  | |- wp _ (op _) _ _ => split; [|intros ?]
  | |- wp _ (op_exn _) _ _ => split; [|intros [?|?]]
  | |- wp _ (Done _) _ _ => simpl
  | |- wp _ (mret _) _ _ => simpl
  | |- on_return _ _ _ _ (Returned _) => simpl
  | |- on_return _ _ _ _ (Raised _) => simpl
  end.

(** * Partial correctness of computations that may raise *)

Definition post {E A} {M : monitor E} (Q : mstate M → A → Prop) : mstate M → exn A → Prop :=
  λ s r, match r with Returned a => Q s a | Raised _ => True end.

(** What holds when the program returns; nothing is claimed when it raises. *)
Definition wpr {E A} (M : monitor E) (p : io E A) (Q : mstate M → A → Prop) (s : mstate M) : Prop :=
  wp M p (post Q) s.

Section wpr.
Context {E : Type → Type} (M : monitor E).

Lemma wpr_ret {A} (a : A) (Q : mstate M → A → Prop) s : Q s a → wpr M (mret a) Q s.
Proof. done. Qed.

Lemma wpr_bind {A B} (p : io E A) (f : A → io E B) (Q : mstate M → B → Prop) s :
  wpr M p (λ s a, wpr M (f a) Q s) s → wpr M (p ≫= f) Q s.
Proof. intros H. apply wp_io_bind. eapply wp_mono; [|exact H]. by intros s' [a|m]. Qed.

Lemma wpr_mono {A} (p : io E A) (Q Q' : mstate M → A → Prop) s :
  wpr M p Q s → (∀ s a, Q s a → Q' s a) → wpr M p Q' s.
Proof. intros Hp HQ. eapply wp_mono; [|exact Hp]. intros s' [a|m]; simpl; auto. Qed.

Lemma wpr_op {X} (e : E X) (Q : mstate M → X → Prop) s :
  allowed M s e → (∀ x, Q (next M s e x) x) → wpr M (op e) Q s.
Proof. intros Ha Hk. split; [done|]. intros x. apply Hk. Qed.

Lemma wpr_op_exn {X} (e : E (exn X)) (Q : mstate M → X → Prop) s :
  allowed M s e → (∀ x, Q (next M s e (Returned x)) x) → wpr M (op_exn e) Q s.
Proof. intros Ha Hk. split; [done|]. intros [x|m]; [apply Hk|done]. Qed.

(** A program the monitor does not follow. *)
Lemma wpr_only {A} (P : ∀ X, E X → Prop) (p : io E A) (Q : mstate M → A → Prop) s :
  only P p → (∀ X (e : E X), P X e → allowed M s e ∧ ∀ x, next M s e x = s) →
  (∀ a, Q s a) → wpr M p Q s.
Proof.
  intros Hp HM HQ. eapply wp_mono; [|by apply (only_wp P)]. intros s' [a|m] ->; [apply HQ|done].
Qed.

(** Allowed operations, whatever the monitor learns. *)
Lemma only_wpr_true {A} (P : ∀ X, E X → Prop) (p : io E A) s :
  only P p → (∀ s X (e : E X), P X e → allowed M s e) → wpr M p (λ _ _, True) s.
Proof.
  intros Hp HM. revert s. induction p as [[a|m]|X e k IH]; intros s; [done..|].
  destruct Hp as [He Hk]. split; [by apply HM|]. intros x. by apply IH.
Qed.

Lemma wpr_loop {S} (I : mstate M → S → Prop) fuel body (x : S) (Q : mstate M → option S → Prop) s :
  I s x → (∀ s x, I s x → wpr M (body x) (λ s r, I s r.1) s) →
  (∀ s x, I s x → Q s (Some x)) → (∀ s x, I s x → Q s None) →
  wpr M (loop fuel body x) Q s.
Proof.
  intros HI Hb HS HN. apply (wp_loop _ I); [done| |done|done].
  intros s' x' Hx. eapply wp_mono; [|by apply Hb]. by intros s'' [[x'' b]|m].
Qed.

(** The same, when the round that ends the loop establishes more. *)
Lemma wpr_loop_exit {S} (I : mstate M → S → Prop) fuel body (x : S)
    (Q : mstate M → option S → Prop) s :
  I s x →
  (∀ s x, I s x → wpr M (body x) (λ s (r : S * bool), if r.2 then I s r.1 else Q s (Some r.1)) s) →
  (∀ s x, I s x → Q s None) →
  wpr M (loop fuel body x) Q s.
Proof.
  intros HI Hb HN. revert s x HI. induction fuel as [|f IH]; intros s x HI.
  - by eapply HN.
  - cbn [loop]. apply wpr_bind. eapply wpr_mono; [by apply Hb|].
    intros s' [x' []] Hx; [by apply IH|by apply wpr_ret].
Qed.

(** A loop whose rounds decrease a measure ends within its fuel. *)
Lemma wpr_loop_ends {S} (I : mstate M → S → Prop) (m : S → nat) fuel body (x : S)
    (Q : mstate M → option S → Prop) s :
  I s x → m x < fuel →
  (∀ s x, I s x →
     wpr M (body x) (λ s (r : S * bool), if r.2 then I s r.1 ∧ m r.1 < m x else Q s (Some r.1)) s) →
  wpr M (loop fuel body x) Q s.
Proof.
  intros HI Hm Hb. revert s x HI Hm. induction fuel as [|f IH]; intros s x HI Hm; [lia|].
  cbn [loop]. apply wpr_bind. eapply wpr_mono; [by apply Hb|].
  intros s' [x' []] Hx; [|by apply wpr_ret]. destruct Hx. apply IH; [done|]. simpl in *. lia.
Qed.

(** The same for a monitor that gives up when the environment breaks what is
    assumed of it: [broken] is final, and the measure may depend on what the
    monitor saw. *)
Lemma wpr_loop_relies {S} (broken : mstate M → Prop) (I : mstate M → S → Prop)
    (m : mstate M → S → nat) fuel body (x : S) (Q : mstate M → option S → Prop) s :
  (∀ s X (p : io E X), broken s → wpr M p (λ s _, broken s) s) →
  (∀ s o, broken s → Q s o) →
  I s x → m s x < fuel →
  (∀ s x, I s x →
     wpr M (body x) (λ s' (r : S * bool),
       broken s' ∨ if r.2 then I s' r.1 ∧ m s' r.1 < m s x else Q s' (Some r.1)) s) →
  wpr M (loop fuel body x) Q s.
Proof.
  intros Hbroken HQ HI Hm Hb. revert s x HI Hm. induction fuel as [|f IH]; intros s x HI Hm; [lia|].
  cbn [loop]. apply wpr_bind. eapply wpr_mono; [by apply Hb|]. intros s' [x' again] [Hd|Hx].
  - eapply wpr_mono; [by apply Hbroken|]. intros. by apply HQ.
  - destruct again; [|by apply wpr_ret]. destruct Hx. apply IH; [done|]. simpl in *. lia.
Qed.

Lemma wpr_runs {A} (p : io E A) (Q : mstate M → A → Prop) s tr r :
  wpr M p Q s → runs p tr r → accepts M s tr ∧ post Q (after M s tr) r.
Proof. apply wp_sound. Qed.

End wpr.

(** The monitor that allows everything and learns nothing. *)
Definition unwatched {E : Type → Type} : monitor E := Monitor unit (λ _ _ _, True) (λ _ _ _ _, tt).

(** * Programs that never raise *)

Fixpoint no_raise {E A} (p : io E A) : Prop :=
  match p with
  | Done (Returned _) => True
  | Done (Raised _) => False
  | Do e k => ∀ x, no_raise (k x)
  end.

Lemma no_raise_bind {E A B} (p : io E A) (f : A → io E B) :
  no_raise p → (∀ a, no_raise (f a)) → no_raise (p ≫= f).
Proof.
  intros Hp Hf. induction p as [[a|m]|X e k IH]; simpl in *; [apply Hf|done|].
  intros x. apply IH, Hp.
Qed.

Lemma no_raise_loop {E S} fuel (body : S → io E (S * bool)) x :
  (∀ x, no_raise (body x)) → no_raise (loop fuel body x).
Proof.
  intros Hb. revert x. induction fuel as [|f IH]; intros x; [done|]. cbn [loop].
  apply no_raise_bind; [done|]. intros [x' []]; [apply IH|done].
Qed.

Lemma wpr_total {E A} (M : monitor E) (p : io E A) (Q : mstate M → A → Prop) s :
  no_raise p → wpr M p Q s →
  wp M p (λ s r, match r with Returned a => Q s a | Raised _ => False end) s.
Proof.
  unfold wpr. revert s. induction p as [[a|m]|X e k IH]; intros s Hn Hw; simpl in *; [done..|].
  destruct Hw as [Ha Hk]. split; [done|]. intros x. apply IH; [apply Hn|apply Hk].
Qed.

Lemma no_raise_runs {E A} (p : io E A) tr r : no_raise p → runs p tr r → ∃ a, r = Returned a.
Proof.
  intros Hn Hr. induction Hr as [[a|m]|X e k x tr r _ IH]; [by exists a|done|]. apply IH, Hn.
Qed.

(** Walk a program whose operations answer with plain values. *)
Ltac no_raise_walk :=
  repeat lazymatch goal with
    | |- no_raise (mbind _ _) => apply no_raise_bind; [|intros ?]
    | |- no_raise (mret _) => exact I
    | |- no_raise (op _) => intros ?; exact I
    | |- no_raise (match ?x with _ => _ end) => destruct x
    end.
