(* ===== verification/Config.v ===== *)
(** The crate's constants (src/src/lib.rs) and its configuration
    (src/src/config.rs): the environment, the socket directory, and how the RPC
    socket is bound. *)
From S2P Require Import Prelude RustStr Effects.

(** * Constants *)

Definition DEFAULT_DB : bytes := bs "postgres".
Definition DEFAULT_HTTP_ADDR : bytes := bs "127.0.0.1:8088".

Definition HTTP_THREADS : nat := 4.
Definition HTTP_TIMEOUT_SECS : N := 45.
Definition MAX_RESPONSE_BYTES : nat := N.to_nat 200000.

(** Durations are in milliseconds. *)
Definition PUMP_BUSY : Z := 150.
Definition PUMP_IDLE_MIN : Z := 500.
Definition PUMP_IDLE_MAX : Z := 4000.

Definition SQL_CLAIM_LIMIT : N := 1.
Definition SQL_STATEMENT_TIMEOUT_MS : N := 5000.
Definition PROCEDURE_CALL_TIMEOUT_MS : N := 60000.

Definition MAX_WEB_THREADS : nat := 64.
Definition MAX_REQUEST_BYTES : nat := N.to_nat (N.shiftl 1 20).
Definition REQUEST_DEADLINE : Z := 5000.
Definition SSE_TOTAL : Z := 30000.
Definition SSE_INTERVAL : Z := 1000.
Definition SSE_TICKET_TTL : Z := 30000.

Lemma MAX_REQUEST_BYTES_N : N.of_nat MAX_REQUEST_BYTES = 1048576%N.
Proof. apply N2Nat.id. Qed.

(** The two large numbers are never unfolded by the proofs. *)
#[global] Opaque MAX_RESPONSE_BYTES MAX_REQUEST_BYTES.

(** * The environment *)

(** [env] is [std::env::var(..).ok()]. *)
Definition env_opt (env : bytes → option bytes) (key : bytes) : option bytes :=
  match env key with
  | Some v => if decide (v = []) then None else Some v
  | None => None
  end.

Definition configured_database (env : bytes → option bytes) : bytes :=
  default DEFAULT_DB (env_opt env (bs "ALLGRES_DATABASE")).

Definition configured_http_addr (env : bytes → option bytes) : bytes :=
  default DEFAULT_HTTP_ADDR (env_opt env (bs "ALLGRES_HTTP_ADDR")).

(** What a worker finds when it starts: its environment, the C string
    [DataDir] points to (if it is not null) and the directory of temporary
    files. *)
Record world : Type := World {
  env : bytes → option bytes;
  data_dir : option bytes;
  temp_dir : bytes
}.

(** * Paths *)

(** [Path::join] of a relative path. *)
Definition path_join (base p : bytes) : bytes :=
  if decide (base = [] ∨ last base = Some x2f) then base ++ p else base ++ [x2f] ++ p.

(** [raw] is the C string [DataDir] points to, if it is not null. *)
Definition data_directory (raw : option bytes) : option bytes :=
  match raw with
  | Some s => if valid_utf8 s then if decide (s = []) then None else Some s else None
  | None => None
  end.

Definition socket_dir (w : world) : bytes :=
  match env_opt (env w) (bs "ALLGRES_SOCKET_DIR") with
  | Some dir => dir
  | None =>
      match data_directory (data_dir w) with
      | Some base => path_join base (bs "allgres")
      | None => path_join (temp_dir w) (bs "allgres")
      end
  end.

Definition rpc_socket_path (w : world) : bytes := path_join (socket_dir w) (bs "runtime.sock").

(** * The socket *)

Inductive fsop : Type → Type :=
| PathExists (path : bytes) : fsop bool
| CreateDir (path : bytes) (mode : N) : fsop (result unit bytes)
| Metadata (path : bytes) : fsop (result (bool * N) bytes)     (* is it a directory; its mode *)
| SetPermissions (path : bytes) (mode : N) : fsop (result unit bytes)
| RemoveFile (path : bytes) : fsop unit
| BindUnix (path : bytes) : fsop (result unit bytes).

Abbreviation fs := (io fsop).

(** 0o700, 0o600 and 0o077. *)
Definition mode_700 : N := 448.
Definition mode_600 : N := 384.
Definition group_other : N := 63.

(** [?] on a [Result] of unit. *)
Definition and_then {A} (r : result unit bytes) (k : fs (result A bytes)) : fs (result A bytes) :=
  match r with Ok _ => k | Err e => mret (Err e) end.

Definition ensure_socket_dir (dir : bytes) : fs (result unit bytes) :=
  e ← op (PathExists dir);
  c ← (if (e : bool) then mret (Ok tt) else op (CreateDir dir mode_700));
  and_then c (
    m ← op (Metadata dir);
    match m with
    | Err e => mret (Err e)
    | Ok (is_dir, mode) =>
        if negb is_dir then mret (Err (dir ++ bs " exists and is not a directory"))
        else if decide (N.land mode group_other ≠ 0)%N then op (SetPermissions dir mode_700)
        else mret (Ok tt)
    end).

Definition bind_rpc_socket (dir : bytes) : fs (result unit bytes) :=
  d ← ensure_socket_dir dir;
  and_then d (
    let path := path_join dir (bs "runtime.sock") in
    _ ← op (RemoveFile path);
    b ← op (BindUnix path);
    and_then b (op (SetPermissions path mode_600))).

(** * Privacy of the socket *)

(** The mode last seen or set for each path. *)
Abbreviation modes := (gmap bytes N).

Definition fnext (m : modes) X (e : fsop X) : X → modes :=
  match e in fsop X return X → modes with
  | Metadata p => λ r, match r with Ok (_, mode) => <[p := mode]> m | Err _ => m end
  | SetPermissions p mode => λ r, match r with Ok _ => <[p := mode]> m | Err _ => m end
  | BindUnix p => λ r, match r with Ok _ => delete p m | Err _ => m end
  | _ => λ _, m
  end.

(** The mode of [p] is known and gives nothing to group or others. *)
Definition private (m : modes) (p : bytes) : Prop :=
  ∃ mode, m !! p = Some mode ∧ N.land mode group_other = 0%N.

(** The socket is only bound inside a directory that is already private. *)
Definition fallowed (dir : bytes) (m : modes) X (e : fsop X) : Prop :=
  match e with BindUnix _ => private m dir | _ => True end.

Definition privacy (dir : bytes) : monitor fsop := Monitor modes (fallowed dir) fnext.

Lemma private_dir (dir : bytes) (Q : modes → result unit bytes → Prop) (m : modes) :
  (∀ m', private m' dir → Q m' (Ok tt)) → (∀ m' e, Q m' (Err e)) →
  wpr (privacy dir) (ensure_socket_dir dir) Q m.
Proof.
  intros HO HE. unfold ensure_socket_dir. apply wpr_bind, wpr_op; [done|]. intros e.
  assert (∀ m, wpr (privacy dir) (
    x ← op (Metadata dir);
    match x with
    | Err e => mret (Err e)
    | Ok (is_dir, mode) =>
        if negb is_dir then mret (Err (dir ++ bs " exists and is not a directory"))
        else if decide (N.land mode group_other ≠ 0)%N then op (SetPermissions dir mode_700)
        else mret (Ok tt)
    end) Q m) as Hmeta.
  { intros m'. apply wpr_bind, wpr_op; [done|]. intros [[[] mode]|e']; [|apply wpr_ret, HE..].
    cbn [negb]. case_decide as Hmode.
    - apply wpr_op; [done|]. intros [[]|e']; [|apply HE]. apply HO. exists mode_700.
      split; [apply lookup_insert_eq|done].
    - apply wpr_ret, HO. exists mode. split; [apply lookup_insert_eq|].
      destruct (decide (N.land mode group_other = 0%N)); [done|]. by destruct Hmode. }
  apply wpr_bind. destruct e; [apply wpr_ret, Hmeta|].
  apply wpr_op; [done|]. intros [[]|e']; [apply Hmeta|apply wpr_ret, HE].
Qed.

Lemma path_join_ne dir name : name ≠ [] → path_join dir name ≠ dir.
Proof.
  intros Hn Heq. apply (f_equal length) in Heq. unfold path_join in Heq.
  case_decide; rewrite !length_app in Heq; destruct name; simpl in *; (done || lia).
Qed.

(** Binding the socket: it appears in a directory that is already private, and
    once binding succeeds the directory and the socket both are. *)
Lemma bind_private (dir : bytes) (m : modes) :
  wpr (privacy dir) (bind_rpc_socket dir) (λ (m : modes) r, r = Ok tt →
    private m dir ∧ m !! path_join dir (bs "runtime.sock") = Some mode_600) m.
Proof.
  unfold bind_rpc_socket. apply wpr_bind, private_dir; [|intros ? e; by apply wpr_ret].
  intros m1 H1. apply wpr_bind, wpr_op; [done|]. intros [].
  apply wpr_bind, wpr_op; [done|]. intros [[]|e]; [|by apply wpr_ret].
  assert (path_join dir (bs "runtime.sock") ≠ dir) as Hne by (by apply path_join_ne).
  apply wpr_op; [done|]. intros [[]|e]; [|done]. intros _. cbn [next privacy fnext].
  split; [|apply lookup_insert_eq].
  destruct H1 as (mode & Hm & Hp). exists mode. split; [|done].
  rewrite lookup_insert_ne by done. by rewrite lookup_delete_ne.
Qed.

(** A file system where the directory exists, open to everyone. *)
Definition open_dir X (e : fsop X) (s : unit) : X * unit :=
  match e in fsop X return X * unit with
  | PathExists _ => (true, s)
  | CreateDir _ _ => (Ok tt, s)
  | Metadata _ => (Ok (true, 511%N), s)
  | SetPermissions _ _ => (Ok tt, s)
  | RemoveFile _ => (tt, s)
  | BindUnix _ => (Ok tt, s)
  end.
