(* ===== verification/Net.v ===== *)
(** IP addresses ([std::net::IpAddr]). *)
From S2P Require Import Prelude.

(** The four octets of an IPv4 address; the eight 16-bit segments of an IPv6
    address. *)
Inductive IpAddr : Type :=
| V4 (a b c d : byte)
| V6 (s0 s1 s2 s3 s4 s5 s6 s7 : N).

#[export] Instance IpAddr_eq_dec : EqDecision IpAddr.
Proof. solve_decision. Defined.

Definition ip_encode (ip : IpAddr) : (byte * byte * byte * byte) + list N :=
  match ip with
  | V4 a b c d => inl (a, b, c, d)
  | V6 s0 s1 s2 s3 s4 s5 s6 s7 => inr [s0; s1; s2; s3; s4; s5; s6; s7]
  end.

Definition ip_decode (x : (byte * byte * byte * byte) + list N) : option IpAddr :=
  match x with
  | inl (a, b, c, d) => Some (V4 a b c d)
  | inr [s0; s1; s2; s3; s4; s5; s6; s7] => Some (V6 s0 s1 s2 s3 s4 s5 s6 s7)
  | inr _ => None
  end.

#[export] Instance IpAddr_countable : Countable IpAddr.
Proof. by apply (inj_countable ip_encode ip_decode); intros []. Defined.
