(* ===== verification/WebState.v ===== *)
(** The state the web worker's threads share behind mutexes (src/src/web.rs):
    the SSE tickets and the per-IP rate windows. Each operation is one critical
    section, a function of the state and of the clock it read.

    The theorems relate the state to the history of operations that built it:
    what a ticket redeems and when a request is refused are functions of the
    history alone. *)
From S2P Require Import Prelude Net Effects Config.

(** * Definitions *)

(** Instants and durations are in milliseconds; [duration_since] saturates. *)
Definition duration_since (now t : Z) : Z := Z.max 0 (now - t).

Definition RATE_GENERAL_LIMIT : nat := 120.
Definition RATE_GENERAL_WINDOW : Z := 60000.
Definition RATE_AUTH_FAIL_LIMIT : nat := 20.
Definition RATE_AUTH_FAIL_WINDOW : Z := 300000.

(** ** Tickets *)

Abbreviation tickets := (gmap bytes (Z * bytes)).

Definition live (now : Z) (e : Z * bytes) : Prop := (duration_since now e.1 < SSE_TICKET_TTL)%Z.

#[export] Instance live_dec now e : Decision (live now e).
Proof. unfold live. apply _. Defined.

(** [retain] of the tickets that have not expired. *)
Definition sweep (now : Z) (ts : tickets) : tickets := filter (λ p, live now p.2) ts.

Definition mint_sse_ticket (ticket : bytes) (now : Z) (session_token : bytes) (ts : tickets) :
    bytes * tickets :=
  (ticket, <[ticket := (now, session_token)]> (sweep now ts)).

Definition valid_sse_ticket (now : Z) (t : bytes) (ts : tickets) : bool * tickets :=
  let ts' := sweep now ts in (bool_decide (is_Some (ts' !! t)), ts').

Definition consume_sse_ticket (now : Z) (t : bytes) (ts : tickets) : option bytes * tickets :=
  let ts' := sweep now ts in (snd <$> ts' !! t, delete t ts').

(** ** Rate windows *)

Abbreviation windows := (gmap IpAddr (list Z)).

Definition recent (window now : Z) (hits : list Z) : list Z :=
  filter (λ t, (duration_since now t < window)%Z) hits.

Definition rate_check (m : windows) (ip : IpAddr) (now window : Z) (limit : nat) : bool * windows :=
  let hits := recent window now (default [] (m !! ip)) in
  if (limit <=? length hits)%nat then (false, <[ip := hits]> m)
  else (true, filter (λ p, p.2 ≠ []) (<[ip := hits ++ [now]]> m)).

Record RateWindows : Type := mkWindows { general : windows; auth_fail : windows }.

Definition rate_limited (ip : IpAddr) (now : Z) (w : RateWindows) : bool * RateWindows :=
  let '(ok, g) := rate_check (general w) ip now RATE_GENERAL_WINDOW RATE_GENERAL_LIMIT in
  (negb ok, mkWindows g (auth_fail w)).

Definition auth_failures_exceeded (ip : IpAddr) (now : Z) (w : RateWindows) : bool * RateWindows :=
  let hits := recent RATE_AUTH_FAIL_WINDOW now (default [] (auth_fail w !! ip)) in
  ((RATE_AUTH_FAIL_LIMIT <=? length hits)%nat,
   mkWindows (general w) (<[ip := hits]> (auth_fail w))).

Definition record_auth_failure (ip : IpAddr) (now : Z) (w : RateWindows) : RateWindows :=
  mkWindows (general w)
    (<[ip := default [] (auth_fail w !! ip) ++ [now]]> (auth_fail w)).

(** ** The shared state *)

Record web_state : Type := mkState { sse_tickets : tickets; rate_limit : RateWindows }.

Definition web_state0 : web_state := mkState ∅ (mkWindows ∅ ∅).

(** * Tickets: the history *)

Module Tickets.

(** Operations on the tickets, newest first in a history. *)
Inductive top : Type :=
| Mint (ticket : bytes) (session : bytes)
| Peek (ticket : bytes)
| Consume (ticket : bytes).

Definition step (now : Z) (o : top) (ts : tickets) : tickets :=
  match o with
  | Mint t s => (mint_sse_ticket t now s ts).2
  | Peek t => (valid_sse_ticket now t ts).2
  | Consume t => (consume_sse_ticket now t ts).2
  end.

Fixpoint replay (h : list (Z * top)) : tickets :=
  match h with
  | [] => ∅
  | (now, o) :: h' => step now o (replay h')
  end.

(** The clock does not go back, and [now] is not before the history. *)
Fixpoint in_order (now : Z) (h : list (Z * top)) : Prop :=
  match h with
  | [] => True
  | (t, _) :: h' => (t ≤ now)%Z ∧ in_order t h'
  end.

(** What a ticket stands for: the session of its last mint, unless it was
    consumed since. *)
Fixpoint issued (t : bytes) (h : list (Z * top)) : option (Z * bytes) :=
  match h with
  | [] => None
  | (now, Mint t' s) :: h' => if decide (t' = t) then Some (now, s) else issued t h'
  | (_, Peek _) :: h' => issued t h'
  | (_, Consume t') :: h' => if decide (t' = t) then None else issued t h'
  end.

Definition unexpired (now : Z) (o : option (Z * bytes)) : option (Z * bytes) :=
  o ≫= λ e, if decide (live now e) then Some e else None.

Lemma live_mono now now' e : (now ≤ now')%Z → live now' e → live now e.
Proof. unfold live, duration_since. lia. Qed.

Lemma lookup_sweep now ts t : sweep now ts !! t = unexpired now (ts !! t).
Proof.
  unfold sweep, unexpired. rewrite map_lookup_filter. destruct (ts !! t) as [e|]; [|done]. simpl.
  unfold guard. by destruct (decide (live now e)).
Qed.

Lemma unexpired_mono now now' o :
  (now ≤ now')%Z → unexpired now' (unexpired now o) = unexpired now' o.
Proof.
  intros Hle. destruct o as [e|]; [|done]. unfold unexpired. simpl.
  destruct (decide (live now e)) as [H|H]; [done|]. simpl. rewrite decide_False; [done|].
  intros H'. by eapply H, live_mono.
Qed.

(** The state answers as the history does, from the last operation on. *)
Lemma replay_issued h now t :
  in_order now h → unexpired now (replay h !! t) = unexpired now (issued t h).
Proof.
  revert now. induction h as [|[t0 o] h IH]; intros now Hin; [done|].
  destruct Hin as [Hle Hin]. specialize (IH now) as IHnow.
  assert (in_order now h) as Hin'.
  { destruct h as [|[t1 o1] h]; [done|]. destruct Hin. split; [lia|done]. }
  specialize (IHnow Hin').
  destruct o as [t' s|t'|t']; cbn [replay step issued mint_sse_ticket valid_sse_ticket
    consume_sse_ticket snd].
  - case_decide as Ht; subst.
    + by rewrite lookup_insert_eq.
    + rewrite lookup_insert_ne, lookup_sweep, unexpired_mono by done. done.
  - by rewrite lookup_sweep, unexpired_mono.
  - case_decide as Ht; subst.
    + by rewrite lookup_delete_eq.
    + rewrite lookup_delete_ne, lookup_sweep, unexpired_mono by done. done.
Qed.

End Tickets.

(** * Rate windows: the history *)

Module Rates.
Section rates.
Context (window : Z) (limit : nat).

(** Requests, newest first: when, and from which address. *)
Abbreviation requests := (list (Z * IpAddr)).

Fixpoint in_order (now : Z) (h : requests) : Prop :=
  match h with
  | [] => True
  | (t, _) :: h' => (t ≤ now)%Z ∧ in_order t h'
  end.

Fixpoint replay (h : requests) : windows :=
  match h with
  | [] => ∅
  | (now, ip) :: h' => (rate_check (replay h') ip now window limit).2
  end.

(** The times of the requests of [ip] that were let through: those that found
    fewer than [limit] such requests in the window before them. *)
Fixpoint passed (ip : IpAddr) (h : requests) : list Z :=
  match h with
  | [] => []
  | (now, ip') :: h' =>
      let before := passed ip h' in
      if decide (ip' = ip ∧ length (recent window now before) < limit) then now :: before else before
  end.

Definition allowed_now (ip : IpAddr) (now : Z) (h : requests) : bool :=
  (length (recent window now (passed ip h)) <? limit)%nat.

Lemma recent_recent now now' l :
  (now ≤ now')%Z → recent window now' (recent window now l) = recent window now' l.
Proof.
  intros Hle. unfold recent. rewrite list_filter_filter. apply list_filter_iff. intros t.
  unfold duration_since. lia.
Qed.

Lemma recent_app now l k : recent window now (l ++ k) = recent window now l ++ recent window now k.
Proof. apply filter_app. Qed.

Lemma lookup_nonempty (m : windows) ip : default [] (filter (λ p, p.2 ≠ []) m !! ip) = default [] (m !! ip).
Proof.
  rewrite map_lookup_filter. destruct (m !! ip) as [l|]; [|done]. simpl. unfold guard.
  destruct (decide _) as [?|H]; [done|]. simpl. by destruct l; [|destruct H].
Qed.

(** The recent hits of the state are those of the history, oldest first. *)
Lemma replay_passed h now ip :
  in_order now h →
  recent window now (default [] (replay h !! ip)) = recent window now (reverse (passed ip h)).
Proof.
  revert now ip. induction h as [|[t ip'] h IH]; intros now ip Hin; [done|].
  destruct Hin as [Hle Hin].
  assert (in_order now h) as Hin'.
  { destruct h as [|[t1 i1] h]; [done|]. destruct Hin. split; [lia|done]. }
  cbn [replay passed]. unfold rate_check.
  assert (length (recent window t (default [] (replay h !! ip')))
    = length (recent window t (passed ip' h))) as Hlen.
  { rewrite IH by done. unfold recent. by rewrite reverse_Permutation. }
  destruct (Nat.leb_spec limit (length (recent window t (default [] (replay h !! ip'))))) as [Hl|Hl];
    cbn [snd].
  - destruct (decide (ip' = ip ∧ _)) as [[-> H]|H]; [lia|]. destruct (decide (ip' = ip)) as [->|Hne].
    + rewrite lookup_insert_eq. cbn [from_option id]. rewrite recent_recent by done. by apply IH.
    + rewrite lookup_insert_ne by done. by apply IH.
  - rewrite lookup_nonempty. destruct (decide (ip' = ip)) as [->|Hne].
    + rewrite decide_True by (split; [done|lia]). rewrite lookup_insert_eq. cbn [from_option id].
      rewrite reverse_cons, !recent_app, recent_recent by done. f_equal. by apply IH.
    + rewrite decide_False by (by intros [? _]). rewrite lookup_insert_ne by done. by apply IH.
Qed.

Lemma rate_check_allowed h ip now :
  in_order now h → (rate_check (replay h) ip now window limit).1 = allowed_now ip now h.
Proof.
  intros Hin. unfold rate_check, allowed_now. rewrite replay_passed by done.
  assert (length (recent window now (reverse (passed ip h)))
    = length (recent window now (passed ip h))) as ->.
  { unfold recent. by rewrite reverse_Permutation. }
  destruct (Nat.leb_spec limit (length (recent window now (passed ip h)))); simpl; symmetry;
    [apply Nat.ltb_ge|apply Nat.ltb_lt]; done.
Qed.

(** Times in [passed] are not after the history. *)
Lemma passed_before ip h now : in_order now h → Forall (λ t, (t ≤ now)%Z) (passed ip h).
Proof.
  revert now. induction h as [|[t ip'] h IH]; intros now Hin; [constructor|].
  destruct Hin as [Hle Hin]. cbn [passed].
  assert (Forall (λ x, (x ≤ now)%Z) (passed ip h)).
  { eapply Forall_impl; [by apply IH|]. intros x Hx. simpl in *. lia. }
  case_decide; [by constructor|done].
Qed.

Definition within (from : Z) (t : Z) : Prop := (from ≤ t < from + window)%Z.

#[global] Instance within_dec from t : Decision (within from t).
Proof. unfold within. apply _. Defined.

(** In every window, wherever it starts, at most [limit] requests pass. *)
Lemma passed_bound ip h now from :
  in_order now h → length (filter (within from) (passed ip h)) ≤ limit.
Proof.
  revert now. induction h as [|[t ip'] h IH]; intros now Hin; [simpl; lia|].
  destruct Hin as [Hle Hin]. cbn [passed].
  destruct (decide (ip' = ip ∧ _)) as [[-> Hlt]|_]; [|by eapply IH].
  rewrite filter_cons. destruct (decide (within from t)) as [Hw|Hw]; [|by eapply IH].
  cbn [length]. enough (length (filter (within from) (passed ip h))
    ≤ length (recent window t (passed ip h))) by lia.
  unfold recent. pose proof (passed_before ip h t Hin) as Hb.
  clear Hlt IH. induction Hb as [|x l Hx _ IHl]; [simpl; lia|]. rewrite !filter_cons.
  destruct (decide (within from x)) as [Hwx|Hwx].
  - rewrite decide_True; [cbn [length]; lia|]. unfold within, duration_since in *. simpl in Hx. lia.
  - case_decide; cbn [length]; lia.
Qed.

End rates.
End Rates.

(** * Claims *)

(** C7: redeeming a ticket gives the session of its last mint exactly when it
    was minted less than the ticket's lifetime ago and not redeemed since, and
    nothing otherwise; checking a ticket answers the same without redeeming
    it. *)
Theorem ticket_redeems h now t :
  Tickets.in_order now h →
  (consume_sse_ticket now t (Tickets.replay h)).1
    = snd <$> Tickets.unexpired now (Tickets.issued t h)
  ∧ (valid_sse_ticket now t (Tickets.replay h)).1
    = bool_decide (is_Some (Tickets.unexpired now (Tickets.issued t h))).
Proof.
  intros Hin. unfold consume_sse_ticket, valid_sse_ticket. cbn [fst].
  by rewrite Tickets.lookup_sweep, Tickets.replay_issued.
Qed.

Lemma ticket_redeems_witness :
  let h := [(2000, Tickets.Peek (bs "k")); (1000, Tickets.Mint (bs "k") (bs "s"))]%Z in
  (consume_sse_ticket 30999 (bs "k") (Tickets.replay h)).1 = Some (bs "s")
  ∧ (consume_sse_ticket 31000 (bs "k") (Tickets.replay h)).1 = None.
Proof.
  split.
  - rewrite (proj1 (ticket_redeems [(2000, Tickets.Peek (bs "k")); (1000, Tickets.Mint (bs "k") (bs "s"))]%Z
      30999 (bs "k") ltac:(simpl; lia))). reflexivity.
  - rewrite (proj1 (ticket_redeems [(2000, Tickets.Peek (bs "k")); (1000, Tickets.Mint (bs "k") (bs "s"))]%Z
      31000 (bs "k") ltac:(simpl; lia))). reflexivity.
Defined.

(** A ticket is single use: once it was redeemed it is gone, and no later
    attempt redeems it, whatever the clocks of the threads say and whatever
    happens in between short of minting it anew. *)
Lemma ticket_single_use h later now0 now t :
  Forall (λ e, match e.2 with Tickets.Mint t' _ => t' ≠ t | _ => True end) later →
  (consume_sse_ticket now t (Tickets.replay (later ++ (now0, Tickets.Consume t) :: h))).1 = None.
Proof.
  intros Hlater. unfold consume_sse_ticket. cbn [fst]. rewrite Tickets.lookup_sweep.
  assert (Tickets.replay (later ++ (now0, Tickets.Consume t) :: h) !! t = None) as ->; [|done].
  induction Hlater as [|[t1 [t' s|t'|t']] later Hne _ IH];
    cbn [app Tickets.replay Tickets.step mint_sse_ticket valid_sse_ticket consume_sse_ticket fst snd] in *.
  - apply lookup_delete_eq.
  - by rewrite lookup_insert_ne, Tickets.lookup_sweep, IH.
  - by rewrite Tickets.lookup_sweep, IH.
  - rewrite lookup_delete_None. right. by rewrite Tickets.lookup_sweep, IH.
Qed.

(** C6: the rate limiter is an exact sliding window: a request is let through
    if and only if fewer than [limit] requests of its own address were let
    through in the window before it, whatever other addresses do. *)
Theorem rate_check_exact window limit h ip now :
  Rates.in_order now h →
  (rate_check (Rates.replay window limit h) ip now window limit).1
    = Rates.allowed_now window limit ip now h.
Proof. apply Rates.rate_check_allowed. Qed.

Lemma rate_check_exact_witness :
  let ip := V4 x7f x00 x00 x01 in
  (rate_check (Rates.replay 60 2 [(20, ip); (10, ip)]%Z) ip 69 60 2).1 = false
  ∧ (rate_check (Rates.replay 60 2 [(20, ip); (10, ip)]%Z) ip 70 60 2).1 = true.
Proof.
  split.
  - rewrite (rate_check_exact 60 2 [(20, V4 x7f x00 x00 x01); (10, V4 x7f x00 x00 x01)]%Z
      (V4 x7f x00 x00 x01) 69 ltac:(simpl; lia)). reflexivity.
  - rewrite (rate_check_exact 60 2 [(20, V4 x7f x00 x00 x01); (10, V4 x7f x00 x00 x01)]%Z
      (V4 x7f x00 x00 x01) 70 ltac:(simpl; lia)). reflexivity.
Defined.

(** the hits of an address that stopped sending requests are kept: a
    request of another address leaves them in the map, however old they
    are. *)
Theorem stale_address_kept m ip ip' now window limit hits :
  ip' ≠ ip → hits ≠ [] → m !! ip = Some hits →
  (rate_check m ip' now window limit).2 !! ip = Some hits.
Proof.
  intros Hne Hhits Hm. unfold rate_check. case_match; cbn [snd].
  - by rewrite lookup_insert_ne.
  - rewrite map_lookup_filter, lookup_insert_ne, Hm by done. simpl. unfold guard.
    by destruct (decide _).
Qed.

Lemma stale_address_kept_witness :
  (rate_check {[ V4 x0a x00 x00 x01 := [0%Z] ]} (V4 x7f x00 x00 x01) 1000000000 60000 120).2
    !! V4 x0a x00 x00 x01 = Some [0%Z].
Proof. apply stale_address_kept; [done|done|reflexivity]. Defined.

(** * The lockout after failed authentications *)

Module Lockout.

(** A failed authentication, or a check of the lockout; newest first. *)
Inductive lop : Type := Failure (ip : IpAddr) | Query (ip : IpAddr).

Fixpoint in_order (now : Z) (h : list (Z * lop)) : Prop :=
  match h with
  | [] => True
  | (t, _) :: h' => (t ≤ now)%Z ∧ in_order t h'
  end.

Fixpoint replay (h : list (Z * lop)) : RateWindows :=
  match h with
  | [] => mkWindows ∅ ∅
  | (now, Failure ip) :: h' => record_auth_failure ip now (replay h')
  | (now, Query ip) :: h' => (auth_failures_exceeded ip now (replay h')).2
  end.

Fixpoint failures (ip : IpAddr) (h : list (Z * lop)) : list Z :=
  match h with
  | [] => []
  | (now, Failure ip') :: h' => if decide (ip' = ip) then now :: failures ip h' else failures ip h'
  | (_, Query _) :: h' => failures ip h'
  end.

Lemma replay_failures h now ip :
  in_order now h →
  recent RATE_AUTH_FAIL_WINDOW now (default [] (auth_fail (replay h) !! ip))
    = recent RATE_AUTH_FAIL_WINDOW now (reverse (failures ip h)).
Proof.
  revert now ip. induction h as [|[t o] h IH]; intros now ip Hin; [done|].
  destruct Hin as [Hle Hin].
  assert (in_order now h) as Hin'.
  { destruct h as [|[t1 i1] h]; [done|]. destruct Hin. split; [lia|done]. }
  destruct o as [ip'|ip']; cbn [replay failures record_auth_failure auth_failures_exceeded auth_fail snd];
    destruct (decide (ip' = ip)) as [->|Hne].
  - rewrite lookup_insert_eq. cbn [from_option id]. rewrite reverse_cons, !Rates.recent_app.
    f_equal. by apply IH.
  - rewrite lookup_insert_ne by done. by apply IH.
  - rewrite lookup_insert_eq. cbn [from_option id]. rewrite Rates.recent_recent by done. by apply IH.
  - rewrite lookup_insert_ne by done. by apply IH.
Qed.

End Lockout.

(** An address is locked out exactly while it has at least twenty failed
    authentications in the last five minutes; checking does not change
    that, and neither do other addresses. *)
Lemma lockout_exact h ip now :
  Lockout.in_order now h →
  (auth_failures_exceeded ip now (Lockout.replay h)).1
    = (RATE_AUTH_FAIL_LIMIT <=?
         length (recent RATE_AUTH_FAIL_WINDOW now (Lockout.failures ip h)))%nat.
Proof.
  intros Hin. unfold auth_failures_exceeded. cbn [fst]. rewrite Lockout.replay_failures by done.
  f_equal. unfold recent. by rewrite reverse_Permutation.
Qed.
