(* ===== verification/HttpProtocol.v ===== *)
(** HTTP/1.1 request parsing (src/src/http_protocol.rs): the request record,
    the parser, the content length, form bodies, and the loop that reads one
    request off a connection as a function of the bytes received so far. *)
From S2P Require Import Prelude RustStr Ascii.

(** * Definitions *)

Record HttpRequest : Type := mkRequest {
  method : bytes; path : bytes; headers : list (bytes * bytes); body : bytes }.

#[export] Instance HttpRequest_eq_dec : EqDecision HttpRequest.
Proof. solve_decision. Defined.

Definition route (r : HttpRequest) : bytes :=
  default (path r) (head (split_byte x3f (path r))).

Definition query (r : HttpRequest) : bytes :=
  match split_once x3f (path r) with Some (_, q) => q | None => [] end.

Fixpoint find_header (name : bytes) (hs : list (bytes * bytes)) : option bytes :=
  match hs with
  | [] => None
  | (k, v) :: hs' => if eq_ignore_ascii_case k name then Some v else find_header name hs'
  end.

Definition header (r : HttpRequest) (name : bytes) : option bytes := find_header name (headers r).

Definition crlf : bytes := [x0d; x0a].
Definition blank_line : bytes := crlf ++ crlf.

Definition header_of (l : bytes) : option (bytes * bytes) :=
  match split_once x3a l with
  | Some (k, v) => Some (to_ascii_lowercase (trim k), trim v)
  | None => None
  end.

Definition parse_http_request (data : bytes) : option HttpRequest :=
  p ← find_sub blank_line data;
  let split := (p + 4)%nat in
  let text := from_utf8_lossy (take split data) in
  match lines text with
  | [] => None
  | first :: rest =>
      match split_whitespace first with
      | method :: path :: _ =>
          Some (mkRequest method path (omap header_of rest) (from_utf8_lossy (drop split data)))
      | _ => None
      end
  end.

Fixpoint first_content_length (ls : list bytes) : N :=
  match ls with
  | [] => 0
  | l :: ls' =>
      match split_once x3a l with
      | Some (k, v) =>
          if eq_ignore_ascii_case k (bs "content-length") then default 0%N (parse_usize (trim v))
          else first_content_length ls'
      | None => first_content_length ls'
      end
  end.

Definition content_length (data : bytes) (header_end : nat) : N :=
  first_content_length (lines (from_utf8_lossy (take header_end data))).

(** ** Form bodies *)

Fixpoint decode_bytes (s : bytes) : bytes :=
  match s with
  | [] => []
  | b :: s' =>
      if decide (b = x2b) then x20 :: decode_bytes s'
      else if decide (b = x25) then
        match s' with
        | h1 :: h2 :: rest =>
            match (if valid_utf8 [h1; h2] then parse_u8_hex [h1; h2] else None) with
            | Some v => v :: decode_bytes rest
            | None => b :: decode_bytes s'
            end
        | _ => b :: decode_bytes s'
        end
      else b :: decode_bytes s'
  end.

Definition decode (s : bytes) : bytes := from_utf8_lossy (decode_bytes s).

(** Collecting into a [HashMap]: a later pair replaces an earlier one. *)
Definition parse_form_body (s : bytes) : gmap bytes bytes :=
  foldl (λ m pair, match split_once x3d pair with
                   | Some (k, v) => <[decode k := decode v]> m
                   | None => m
                   end) ∅ (split_byte x26 s).

(** ** Reading a request *)

(** [usize] addition, as a release build computes it. *)
Definition usize_add (a b : N) : N := ((a + b) mod 2 ^ 64)%N.

(** The loop's variables [header_end] and [want], once they are set. *)
Definition frame : Type := option (nat * N).

(** What one round does with the data it has after a read. *)
Definition find_frame (fr : frame) (data : bytes) : frame :=
  match fr with
  | Some _ => fr
  | None =>
      match find_sub blank_line data with
      | Some p => Some ((p + 4)%nat, content_length data (p + 4))
      | None => None
      end
  end.

Definition frame_full (fr : frame) (data : bytes) : bool :=
  match fr with
  | Some (h, want) => (usize_add (N.of_nat h) want <=? N.of_nat (length data))%N
  | None => false
  end.

(** * The frame depends only on the bytes received *)

Definition frame_of (data : bytes) : frame := find_frame None data.
Definition complete (data : bytes) : bool := frame_full (frame_of data) data.

Lemma starts_with_app_l p a b : starts_with p a = true → starts_with p (a ++ b) = true.
Proof. rewrite !starts_with_spec. intros [r ->]. exists (r ++ b). by rewrite app_assoc. Qed.

Lemma starts_with_short p a b :
  length p ≤ length a → starts_with p (a ++ b) = starts_with p a.
Proof.
  revert a. induction p as [|x p IH]; intros a Hl; [done|].
  destruct a as [|y a]; simpl in *; [lia|]. rewrite IH by lia. done.
Qed.

Lemma find_sub_app p a b i : find_sub p a = Some i → find_sub p (a ++ b) = Some i.
Proof.
  revert i. induction a as [|x a IH]; intros i; cbn [find_sub app].
  - destruct (starts_with p []) eqn:E; [|done]. intros [= <-]. destruct p; [|done].
    by destruct b.
  - destruct (starts_with p (x :: a)) eqn:E.
    + intros [= <-]. change (x :: a ++ b) with ((x :: a) ++ b).
      by rewrite (starts_with_app_l p (x :: a) b E).
    + destruct (find_sub p a) as [k|] eqn:Ek; [|done]. intros [= <-].
      destruct (find_sub_Some _ _ _ Ek) as (r & Hr & _).
      assert (length p ≤ length a) as Hl by (rewrite Hr, !length_app; lia).
      change (x :: a ++ b) with ((x :: a) ++ b).
      rewrite starts_with_short, E by (simpl; lia). by rewrite (IH k eq_refl).
Qed.

(** The other direction: an occurrence that ends within [a] is found in [a]. *)
Lemma find_sub_app_inv p a b i :
  find_sub p (a ++ b) = Some i → i + length p ≤ length a → find_sub p a = Some i.
Proof.
  intros H Hl. destruct (find_sub_Some _ _ _ H) as (r & Hr & _ & Hbefore).
  destruct (find_sub p a) as [k|] eqn:Ek.
  - apply (find_sub_app _ _ b) in Ek. congruence.
  - pose proof (find_sub_None _ _ Ek i) as Hi.
    assert (starts_with p (drop i (a ++ b)) = true) as Hs.
    { rewrite Hr, drop_app_length'; [apply starts_with_app|]. rewrite length_take, length_app. lia. }
    rewrite drop_app_le, starts_with_short in Hs by (rewrite ?length_drop; lia). congruence.
Qed.

Lemma find_sub_bound p s i : find_sub p s = Some i → i + length p ≤ length s.
Proof.
  intros H. destruct (find_sub_Some _ _ _ H) as (r & Hr & Hl & _).
  rewrite Hr, !length_app, length_take. lia.
Qed.

Lemma frame_of_app a b f : frame_of a = Some f → frame_of (a ++ b) = Some f.
Proof.
  unfold frame_of, find_frame. destruct (find_sub blank_line a) as [p|] eqn:E; [|done].
  intros [= <-]. rewrite (find_sub_app _ _ b _ E). do 2 f_equal. unfold content_length.
  apply find_sub_bound in E. rewrite take_app_le; [done|]. simpl in E. lia.
Qed.

(** Finding the frame as chunks arrive finds the frame of the whole. *)
Lemma find_frame_incremental a c : find_frame (frame_of a) (a ++ c) = frame_of (a ++ c).
Proof.
  destruct (frame_of a) as [f|] eqn:E; [|done]. simpl. symmetry. by apply frame_of_app.
Qed.

Lemma frame_of_None a b : frame_of (a ++ b) = None → frame_of a = None.
Proof. destruct (frame_of a) eqn:E; [|done]. by rewrite (frame_of_app _ b _ E). Qed.

(** * Rendering a request *)

Definition header_line (h : bytes * bytes) : bytes := h.1 ++ bs ": " ++ h.2.
Definition start_line (r : HttpRequest) : bytes :=
  method r ++ [x20] ++ path r ++ [x20] ++ bs "HTTP/1.1".

Definition render_lines (ls : list bytes) : bytes := concat ((λ l, l ++ crlf) <$> ls).

Definition head_lines (r : HttpRequest) : list bytes := start_line r :: (header_line <$> headers r).

Definition render (r : HttpRequest) : bytes :=
  render_lines (head_lines r) ++ crlf ++ body r.

Definition header_ok (h : bytes * bytes) : Prop :=
  Forall (λ b, graphic b = true ∧ b ≠ x3a ∧ ascii_lower b = b) h.1
  ∧ Forall (λ b, printable b = true) h.2 ∧ trim h.2 = h.2.

Definition request_ok (r : HttpRequest) : Prop :=
  method r ≠ [] ∧ Forall (λ b, is_ascii_alphanumeric b = true) (method r)
  ∧ path r ≠ [] ∧ Forall (λ b, graphic b = true) (path r)
  ∧ Forall header_ok (headers r) ∧ valid_utf8 (body r) = true.

(** A line of the head: printable, so no CR or LF, and not empty. *)
Definition line_ok (l : bytes) : Prop := l ≠ [] ∧ Forall (λ b, printable b = true) l.

Lemma start_line_ok r : request_ok r → line_ok (start_line r).
Proof.
  intros (Hm & Hma & Hp & Hpa & _). unfold start_line. split.
  - destruct (method r); [done|]. done.
  - repeat apply Forall_app_2; try by_decide.
    + eapply Forall_impl; [exact Hma|]. intros b Hb. by apply graphic_printable, alnum_graphic.
    + eapply Forall_impl; [exact Hpa|]. intros b. apply graphic_printable.
Qed.

Lemma header_line_ok h : header_ok h → line_ok (header_line h).
Proof.
  intros (Hk & Hv & _). unfold header_line. split.
  - intros Hnil. apply (f_equal length) in Hnil. rewrite !length_app in Hnil. simpl in Hnil. lia.
  - repeat apply Forall_app_2; [|by_decide|done].
    eapply Forall_impl; [exact Hk|]. intros b (Hb & _). by apply graphic_printable.
Qed.

Lemma head_lines_ok r : request_ok r → Forall line_ok (head_lines r).
Proof.
  intros Hr. constructor; [by apply start_line_ok|]. destruct Hr as (_ & _ & _ & _ & Hh & _).
  apply Forall_fmap. eapply Forall_impl; [exact Hh|]. apply header_line_ok.
Qed.

(** ** Finding the end of the head *)

(** A blank line does not start inside a printable line. *)
Lemma find_blank_in_line l rest :
  Forall (λ b, printable b = true) l →
  find_sub blank_line (l ++ crlf ++ rest) = (λ i, length l + i) <$> find_sub blank_line (crlf ++ rest).
Proof.
  induction 1 as [|b l Hb _ IH].
  { change ([] ++ crlf ++ rest) with (crlf ++ rest). by destruct (find_sub blank_line (crlf ++ rest)). }
  change ((b :: l) ++ crlf ++ rest) with (b :: (l ++ crlf ++ rest)). rewrite find_sub_next, IH.
  - by destruct (find_sub blank_line (crlf ++ rest)).
  - destruct (starts_with _ _) eqn:E; [|done].
    apply starts_with_spec in E as [r [= -> _]]. by destruct (printable_not_cr _ Hb).
Qed.

Lemma find_blank_step b rest :
  b ≠ x0d → find_sub blank_line (crlf ++ b :: rest) = (λ i, 2 + i) <$> find_sub blank_line (b :: rest).
Proof.
  intros Hb. change (crlf ++ b :: rest) with (x0d :: x0a :: b :: rest).
  rewrite find_sub_next; [rewrite find_sub_next|].
  - by destruct (find_sub blank_line (b :: rest)).
  - done.
  - destruct (starts_with _ _) eqn:E; [|done]. apply starts_with_spec in E as [r [=]]. congruence.
Qed.

(** The blank line that ends the head is the first one. *)
Lemma find_blank_head l ls tail :
  line_ok l → Forall line_ok ls →
  find_sub blank_line (render_lines (l :: ls) ++ crlf ++ tail)
    = Some (length (render_lines (l :: ls)) - 2).
Proof.
  intros Hl Hls. revert l Hl. induction Hls as [|l' ls Hl' _ IH]; intros l [_ Hl].
  - unfold render_lines. cbn [fmap list_fmap concat]. rewrite app_nil_r, <- app_assoc.
    rewrite find_blank_in_line by done. change (crlf ++ crlf ++ tail) with (blank_line ++ tail).
    rewrite find_sub_here. simpl. rewrite length_app. simpl. f_equal. lia.
  - specialize (IH l' Hl'). unfold render_lines in *. cbn [fmap list_fmap concat] in *.
    rewrite <- !app_assoc in *. rewrite find_blank_in_line by done.
    destruct Hl' as [Hne Hp]. destruct l' as [|b l']; [done|]. inversion Hp as [|? ? Hb Hp']; subst.
    change (((b :: l') ++ crlf ++ ?x)) with (b :: (l' ++ crlf ++ x)) in *.
    rewrite find_blank_step by (by destruct (printable_not_cr b Hb)).
    rewrite IH. simpl. f_equal. rewrite !length_app. simpl. rewrite !length_app. simpl. lia.
Qed.

(** ** Lines *)

Lemma lines_cons l rest :
  Forall (λ b, printable b = true) l → lines (l ++ crlf ++ rest) = l :: lines rest.
Proof.
  intros Hl. unfold lines.
  replace (l ++ crlf ++ rest) with ((l ++ [x0d]) ++ x0a :: rest) by (by rewrite <- app_assoc).
  rewrite split_byte_cons.
  - pose proof (split_byte_nonempty x0a rest) as Hne.
    destruct (split_byte x0a rest) as [|seg segs] eqn:E; [done|].
    change (lines_of ((l ++ [x0d]) :: seg :: segs)) with (strip_cr (l ++ [x0d]) :: lines_of (seg :: segs)).
    by rewrite strip_cr_line.
  - apply Forall_app_2; [|by_decide]. eapply Forall_impl; [exact Hl|].
    intros b Hb. by apply printable_not_cr.
Qed.

Lemma lines_render ls rest :
  Forall line_ok ls → lines (render_lines ls ++ rest) = ls ++ lines rest.
Proof.
  induction 1 as [|l ls [_ Hl] _ IH]; [done|]. unfold render_lines in *.
  cbn [fmap list_fmap concat app]. rewrite <- !app_assoc, lines_cons by done. by rewrite IH.
Qed.

(** ** Words and trimming of printable text *)

Lemma split_start_line r :
  request_ok r → split_whitespace (start_line r) = [method r; path r; bs "HTTP/1.1"].
Proof.
  intros Hr. pose proof (start_line_ok r Hr) as [_ Hp]. destruct Hr as (Hm & Hma & Hne & Hpa & _).
  assert (Forall (λ b, graphic b = true) (method r)) as Hmg.
  { eapply Forall_impl; [exact Hma|]. intros b Hb. by apply alnum_graphic. }
  unfold split_whitespace. rewrite <- (app_nil_r (start_line r)), chars_printable by done.
  unfold start_line. rewrite !fmap_app, <- !app_assoc, ws_words_word by done.
  change (((λ b, [b]) <$> [x20]) ++ ?x) with ([x20] :: x).
  rewrite ws_words_space by done. rewrite ws_words_word by done.
  change (((λ b, [b]) <$> [x20]) ++ ?x) with ([x20] :: x).
  rewrite ws_words_space by done. do 2 f_equal.
Qed.

(** What the two readers of a header line get out of it. *)
Lemma split_header_line h :
  header_ok h → split_once x3a (header_line h) = Some (h.1, x20 :: h.2) ∧ trim (x20 :: h.2) = h.2.
Proof.
  intros (Hk & Hv & Ht). split; [|by rewrite trim_space].
  unfold header_line. change (bs ": " ++ h.2) with (x3a :: x20 :: h.2).
  apply split_once_here. eapply Forall_impl; [exact Hk|]. by intros b (_ & ? & _).
Qed.

Lemma header_of_line h : header_ok h → header_of (header_line h) = Some h.
Proof.
  intros Hh. unfold header_of. destruct (split_header_line h Hh) as [-> ->].
  destruct h as [k v], Hh as (Hk & _). simpl in *. rewrite trim_graphic, lower_id; [done| |].
  - eapply Forall_impl; [exact Hk|]. by intros b (_ & _ & ?).
  - eapply Forall_impl; [exact Hk|]. by intros b (? & _).
Qed.

Lemma headers_of_lines hs : Forall header_ok hs → omap header_of (header_line <$> hs) = hs.
Proof.
  induction 1 as [|h hs Hh _ IH]; [done|]. cbn. by rewrite header_of_line, IH.
Qed.

(** ** The head of a rendered request *)

Lemma render_head_length r : 2 ≤ length (render_lines (head_lines r)).
Proof.
  unfold render_lines, head_lines. cbn [fmap list_fmap concat]. rewrite !length_app. simpl. lia.
Qed.

Lemma render_split r :
  request_ok r →
  find_sub blank_line (render r) = Some (length (render_lines (head_lines r)) - 2)
  ∧ take (length (render_lines (head_lines r)) - 2 + 4) (render r)
      = render_lines (head_lines r) ++ crlf
  ∧ drop (length (render_lines (head_lines r)) - 2 + 4) (render r) = body r.
Proof.
  intros Hr. pose proof (head_lines_ok r Hr) as Hl. pose proof (render_head_length r) as Hlen.
  assert (length (render_lines (head_lines r)) - 2 + 4
    = length (render_lines (head_lines r) ++ crlf)) as Hn.
  { rewrite length_app. simpl. lia. }
  split.
  - unfold render. inversion Hl; subst. by apply find_blank_head.
  - unfold render. rewrite app_assoc.
    split; [by apply take_app_length'|by apply drop_app_length'].
Qed.

Lemma head_valid r : request_ok r → valid_utf8 (render_lines (head_lines r) ++ crlf) = true.
Proof.
  intros Hr. apply valid_utf8_ascii. apply Forall_app_2; [|by_decide].
  pose proof (head_lines_ok r Hr) as Hl. unfold render_lines.
  induction Hl as [|l ls [_ Hp] _ IH]; [constructor|]. cbn [fmap list_fmap concat].
  repeat apply Forall_app_2; [|by_decide|exact IH].
  eapply Forall_impl; [exact Hp|]. apply printable_ascii.
Qed.

Lemma head_text_lines r :
  request_ok r → lines (render_lines (head_lines r) ++ crlf) = head_lines r ++ [[]].
Proof. intros Hr. rewrite lines_render by (by apply head_lines_ok). done. Qed.

(** * Round trips *)

Lemma parse_render r : request_ok r → parse_http_request (render r) = Some r.
Proof.
  intros Hr. destruct (render_split r Hr) as (Hf & Ht & Hd).
  unfold parse_http_request. rewrite Hf. cbn [mbind option_bind]. rewrite Ht, Hd.
  rewrite (from_utf8_lossy_valid_id _ (head_valid r Hr)), head_text_lines by done.
  unfold head_lines. cbn [app]. rewrite split_start_line by done.
  destruct Hr as (_ & _ & _ & _ & Hh & Hb).
  rewrite omap_app, headers_of_lines, from_utf8_lossy_valid_id by done.
  rewrite app_nil_r. by destruct r.
Qed.

(** C32: parsing is the inverse of rendering: the method, path, headers in
    order and body of a well-formed request come back exactly as they were
    written. *)
Theorem request_roundtrip r : request_ok r → parse_http_request (render r) = Some r.
Proof. apply parse_render. Qed.

Definition sample_request : HttpRequest :=
  mkRequest (bs "POST") (bs "/api/v1/rpc?x=1")
    [(bs "host", bs "localhost:8088"); (bs "content-length", bs "2")] (bs "{}").

Lemma sample_request_ok : request_ok sample_request.
Proof. by_decide. Qed.

Lemma request_roundtrip_witness :
  request_ok sample_request ∧ parse_http_request (render sample_request) = Some sample_request.
Proof. split; [exact sample_request_ok|]. apply request_roundtrip, sample_request_ok. Defined.

(** ** The frame of a rendered request *)

(** What the request's headers declare as the body's length. *)
Definition declared_length (r : HttpRequest) : N :=
  match header r (bs "content-length") with
  | Some v => default 0%N (parse_usize v)
  | None => 0
  end.

Lemma first_content_length_headers hs :
  Forall header_ok hs →
  first_content_length ((header_line <$> hs) ++ [[]])
    = match find_header (bs "content-length") hs with
      | Some v => default 0%N (parse_usize v)
      | None => 0%N
      end.
Proof.
  induction 1 as [|h hs Hh _ IH]; [done|]. change ((header_line <$> h :: hs) ++ [[]]) with
    (header_line h :: ((header_line <$> hs) ++ [[]])).
  cbn [first_content_length]. destruct (split_header_line h Hh) as [-> ->].
  destruct h as [k v]. cbn [fst snd find_header]. rewrite IH.
  by destruct (eq_ignore_ascii_case k (bs "content-length")).
Qed.

(** The first line never declares a length: its part before a colon, if it
    has one, is a method, a space and more. *)
Lemma start_line_no_length r ls :
  request_ok r → first_content_length (start_line r :: ls) = first_content_length ls.
Proof.
  intros (Hm & Hma & _). cbn [first_content_length].
  destruct (split_once x3a (start_line r)) as [[k v]|] eqn:E; [|done].
  assert (∃ t, k = method r ++ x20 :: t) as [t ->].
  { unfold start_line in E. change ([x20] ++ ?x) with (x20 :: x) in E.
    revert k E. induction Hma as [|b m Hb _ IH]; [done|]. intros k. simpl.
    rewrite decide_False by (by apply alnum_graphic).
    destruct m as [|b' m].
    - clear IH. simpl. destruct (split_once x3a _) as [[k' v']|]; [|done].
      intros [= <- _]. by exists k'.
    - destruct (split_once x3a _) as [[k' v']|] eqn:E'; [|done]. intros [= <- <-].
      destruct (IH ltac:(done) k' eq_refl) as [t Ht]. exists t. by rewrite Ht. }
  assert (eq_ignore_ascii_case (method r ++ x20 :: t) (bs "content-length") = false) as ->; [|done].
  unfold eq_ignore_ascii_case. apply bool_decide_eq_false. intros Heq.
  assert (x20 ∈ to_ascii_lowercase (bs "content-length")) as Hin.
  { rewrite <- Heq. unfold to_ascii_lowercase. rewrite fmap_app. apply elem_of_app. right. left. }
  revert Hin. by_decide.
Qed.

Lemma content_length_render r :
  request_ok r →
  content_length (render r) (length (render_lines (head_lines r)) - 2 + 4) = declared_length r.
Proof.
  intros Hr. destruct (render_split r Hr) as (_ & Ht & _). unfold content_length. rewrite Ht.
  rewrite (from_utf8_lossy_valid_id _ (head_valid r Hr)), head_text_lines by done.
  unfold head_lines. cbn [app]. rewrite start_line_no_length by done.
  apply first_content_length_headers. by destruct Hr as (_ & _ & _ & _ & Hh & _).
Qed.

Lemma frame_of_render r :
  request_ok r →
  frame_of (render r) = Some (length (render_lines (head_lines r) ++ crlf), declared_length r).
Proof.
  intros Hr. unfold frame_of, find_frame. destruct (render_split r Hr) as (-> & _ & _).
  rewrite content_length_render by done. do 2 f_equal. pose proof (render_head_length r).
  rewrite length_app. simpl. lia.
Qed.

(** A request that declares its body's length is complete exactly when
    its last byte has arrived: the whole is complete and no proper prefix
    is. *)
Lemma request_frame_exact r n :
  request_ok r → declared_length r = N.of_nat (length (body r)) →
  (N.of_nat (length (render r)) < 2 ^ 64)%N →
  complete (render r) = true
  ∧ (n < length (render r) → complete (take n (render r)) = false).
Proof.
  intros Hr Hd Hlt. pose proof (frame_of_render r Hr) as Hf.
  assert (length (render r) = length (render_lines (head_lines r) ++ crlf) + length (body r)) as Hlen.
  { unfold render. by rewrite app_assoc, length_app. }
  assert (∀ data, frame_full (Some (length (render_lines (head_lines r) ++ crlf), declared_length r)) data
    = (N.of_nat (length (render r)) <=? N.of_nat (length data))%N) as Hfull.
  { intros data. simpl. rewrite Hd. unfold usize_add. rewrite N.mod_small by lia. f_equal. lia. }
  split.
  - unfold complete. rewrite Hf, Hfull. apply N.leb_refl.
  - intros Hn. unfold complete. destruct (frame_of (take n (render r))) as [f|] eqn:E; [|done].
    pose proof (frame_of_app _ (drop n (render r)) _ E) as E'. rewrite take_drop, Hf in E'.
    injection E' as <-. rewrite Hfull. apply N.leb_gt. rewrite length_take. lia.
Qed.

(** * Percent decoding *)

Definition hex_upper (n : N) : byte :=
  byte_of (if (n <? 10)%N then 0x30 + n else 0x41 + (n - 10))%N.

Definition unreserved (b : byte) : bool :=
  is_ascii_alphanumeric b || bool_decide (b = x2d ∨ b = x2e ∨ b = x5f ∨ b = x7e).

(** The encoding of RFC 3986: everything but the unreserved characters. *)
Definition encode_byte (b : byte) : bytes :=
  if unreserved b then [b] else [x25; hex_upper (u8 b / 16); hex_upper (u8 b mod 16)].

Definition percent_encode (s : bytes) : bytes := concat (encode_byte <$> s).

Lemma decode_encode_byte b s : decode_bytes (encode_byte b ++ s) = b :: decode_bytes s.
Proof. destruct b; reflexivity. Qed.

Lemma decode_encode s : decode_bytes (percent_encode s) = s.
Proof.
  induction s as [|b s IH]; [done|]. change (percent_encode (b :: s)) with (encode_byte b ++ percent_encode s).
  by rewrite decode_encode_byte, IH.
Qed.

(** Decoding undoes percent encoding: of a string, exactly; of arbitrary
    bytes, up to the replacement of invalid UTF-8. *)
Lemma decode_roundtrip s :
  decode (percent_encode s) = from_utf8_lossy s
  ∧ (valid_utf8 s = true → decode (percent_encode s) = s).
Proof.
  unfold decode. rewrite decode_encode. split; [done|]. apply from_utf8_lossy_valid_id.
Qed.

(** ** Form bodies *)

Definition encode_pair (kv : bytes * bytes) : bytes :=
  percent_encode kv.1 ++ x3d :: percent_encode kv.2.

Fixpoint encode_form (kvs : list (bytes * bytes)) : bytes :=
  match kvs with
  | [] => []
  | [kv] => encode_pair kv
  | kv :: kvs' => encode_pair kv ++ x26 :: encode_form kvs'
  end.

Lemma encode_byte_clean b : Forall (λ c, c ≠ x26 ∧ c ≠ x3d) (encode_byte b).
Proof. destruct b; by_decide. Qed.

Lemma percent_encode_clean s : Forall (λ c, c ≠ x26 ∧ c ≠ x3d) (percent_encode s).
Proof.
  induction s as [|b s IH]; [constructor|].
  change (percent_encode (b :: s)) with (encode_byte b ++ percent_encode s).
  apply Forall_app_2; [apply encode_byte_clean|exact IH].
Qed.

Lemma encode_pair_no_amp kv : Forall (λ c, c ≠ x26) (encode_pair kv).
Proof.
  unfold encode_pair. apply Forall_app_2; [|apply Forall_cons_2; [done|]];
    (eapply Forall_impl; [apply percent_encode_clean|]; by intros c []).
Qed.

Lemma split_byte_last c l : Forall (λ b, b ≠ c) l → split_byte c l = [l].
Proof. induction 1 as [|b l Hb _ IH]; [done|]. simpl. by rewrite decide_False, IH. Qed.

Lemma split_encode_form kv kvs :
  split_byte x26 (encode_form (kv :: kvs)) = encode_pair <$> (kv :: kvs).
Proof.
  revert kv. induction kvs as [|kv' kvs IH]; intros kv.
  - apply split_byte_last, encode_pair_no_amp.
  - change (encode_form (kv :: kv' :: kvs)) with (encode_pair kv ++ x26 :: encode_form (kv' :: kvs)).
    rewrite split_byte_cons by apply encode_pair_no_amp. by rewrite IH.
Qed.

Lemma split_encode_pair kv :
  split_once x3d (encode_pair kv) = Some (percent_encode kv.1, percent_encode kv.2).
Proof.
  apply split_once_here. eapply Forall_impl; [apply percent_encode_clean|]. by intros c [].
Qed.

(** Reading a form body gives back the pairs that were encoded, a later
    value of a key replacing an earlier one. *)
Lemma form_roundtrip kvs :
  kvs ≠ [] → Forall (λ kv, valid_utf8 kv.1 = true ∧ valid_utf8 kv.2 = true) kvs →
  parse_form_body (encode_form kvs) = foldl (λ m kv, <[kv.1 := kv.2]> m) ∅ kvs.
Proof.
  intros Hne Hv. destruct kvs as [|kv kvs]; [done|]. unfold parse_form_body.
  rewrite split_encode_form. generalize (∅ : gmap bytes bytes). clear Hne.
  induction Hv as [|kv' kvs' [Hk Hval] _ IH]; intros m; [done|]. cbn [fmap list_fmap foldl].
  rewrite split_encode_pair. unfold decode. rewrite !decode_encode, !from_utf8_lossy_valid_id by done.
  apply IH.
Qed.

