(* ===== verification/Web.v ===== *)
(** The web worker (src/src/web.rs): one program per connection, over the
    operations of its thread, and the accept loop. Operations on the shared
    state are atomic; [serve] gives them the meaning of [WebState]. *)
From S2P Require Import Prelude RustStr Json Net WebState HttpProtocol Effects Config.

(** * Operations *)

(** What one exchange over the runtime worker's socket gives. *)
Inductive rpc_io : Type :=
| ConnectFailed (e : bytes)
| WriteFailed
| ReadFailed
| Answer (text : bytes).

Inductive hop : Type → Type :=
| HNow : hop Z
| HPeer : hop (option IpAddr)
| HReadTimeout (ms : Z) : hop unit          (* how long a read, or a write, of the *)
| HWriteTimeout (ms : Z) : hop unit         (* connection may block from now on *)
| HRead : hop (option bytes)                (* at most 8192 bytes; none at the end *)
| HWrite (data : bytes) : hop bool          (* may block for ever without a timeout *)
| HSleep (ms : Z) : hop unit
| HRpc (socket request : bytes) : hop rpc_io
| HUrandom : hop (option bytes)             (* sixteen bytes *)
| HSeed : hop (N * N * N)                   (* clock, process id, address of the buffer *)
| RateLimited (ip : IpAddr) : hop (Z * bool)   (* these three read the clock under the lock *)
| LockedOut (ip : IpAddr) : hop (Z * bool)
| RecordFailure (ip : IpAddr) : hop Z
| MintTicket (ticket : bytes) (now : Z) (session : bytes) : hop unit
| ValidTicket (t : bytes) (now : Z) : hop bool
| ConsumeTicket (t : bytes) (now : Z) : hop (option bytes).

Abbreviation conn := (io hop).

(** The critical sections, at the time [clock]: [None] for operations that are
    not on the shared state. *)
Definition serve X (e : hop X) (clock : Z) (st : web_state) : option (X * web_state) :=
  match e in hop X return option (X * web_state) with
  | RateLimited ip =>
      let '(b, w) := rate_limited ip clock (rate_limit st) in
      Some ((clock, b), mkState (sse_tickets st) w)
  | LockedOut ip =>
      let '(b, w) := auth_failures_exceeded ip clock (rate_limit st) in
      Some ((clock, b), mkState (sse_tickets st) w)
  | RecordFailure ip =>
      Some (clock, mkState (sse_tickets st) (record_auth_failure ip clock (rate_limit st)))
  | MintTicket t now session =>
      Some (tt, mkState (mint_sse_ticket t now session (sse_tickets st)).2 (rate_limit st))
  | ValidTicket t now =>
      let '(b, ts) := WebState.valid_sse_ticket now t (sse_tickets st) in
      Some (b, mkState ts (rate_limit st))
  | ConsumeTicket t now =>
      let '(o, ts) := WebState.consume_sse_ticket now t (sse_tickets st) in
      Some (o, mkState ts (rate_limit st))
  | _ => None
  end.

(** * Definitions *)

Record WebConfig : Type := mkConfig { token : bytes; socket : bytes; mock_enabled : bool }.

(** ** Reading a request (http_protocol.rs) *)


(** One round of the loop, with the data so far, its frame and whether the
    loop ended with the data to parse. *)
Record reading : Type := Reading { data : bytes; fr : frame; ended : bool }.

Definition read_round (deadline : Z) (st : reading) : conn (reading * bool) :=
  now ← op HNow;
  if (deadline <? now)%Z then mret (st, false)
  else
    n ← op HRead;
    match n with
    | None => mret (st, false)
    | Some [] => mret (Reading (data st) (fr st) true, false)
    | Some chunk =>
        let all := data st ++ chunk in
        if (MAX_REQUEST_BYTES <? length all)%nat then mret (st, false)
        else
          let fr' := find_frame (fr st) all in
          if frame_full fr' all then mret (Reading all fr' true, false)
          else mret (Reading all fr' false, true)
    end.

(** [None] is a loop that is still reading after [fuel] rounds. *)
Definition read_http_request (fuel : nat) : conn (option (option HttpRequest)) :=
  _ ← op (HReadTimeout 2000);
  now ← op HNow;
  r ← loop fuel (read_round (now + REQUEST_DEADLINE)) (Reading [] None false);
  mret (match r with
        | None => None
        | Some st => Some (if ended st then parse_http_request (data st) else None)
        end).

(** ** Tickets and authorization *)

Definition hex2 (b : byte) : bytes :=
  let digit n := byte_of (if (n <? 10)%N then 0x30 + n else 0x61 + (n - 10))%N in
  [digit (u8 b / 16)%N; digit (u8 b mod 16)%N].

(** The low sixteen bytes of a 128-bit integer, little-endian. *)
Fixpoint le_bytes (n : nat) (v : N) : bytes :=
  match n with
  | 0 => []
  | S n' => byte_of (v mod 256) :: le_bytes n' (v / 256)
  end.

Definition nonce : conn bytes :=
  r ← op HUrandom;
  buf ← match r with
        | Some buf => mret buf
        | None =>
            '(nanos, pid, addr) ← op HSeed;
            mret (le_bytes 16 (N.lxor (N.lxor nanos ((N.shiftl pid 64) mod 2 ^ 128)) addr))
        end;
  mret (flat_map hex2 buf).

Definition mint_sse_ticket (session_token : bytes) : conn bytes :=
  ticket ← nonce;
  now ← op HNow;
  _ ← op (MintTicket ticket now session_token);
  mret ticket.

Definition valid_sse_ticket (t : bytes) : conn bool :=
  now ← op HNow; op (ValidTicket t now).

Definition consume_sse_ticket (t : bytes) : conn (option bytes) :=
  now ← op HNow; op (ConsumeTicket t now).

Fixpoint fold_diff (a b : bytes) (diff : N) : N :=
  match a, b with
  | x :: a', y :: b' => fold_diff a' b' (N.lor diff (N.lxor (u8 x) (u8 y)))
  | _, _ => diff
  end.

Definition constant_time_eq (a b : bytes) : bool :=
  if negb (length a =? length b)%nat then false else (fold_diff a b 0 =? 0)%N.

Fixpoint percent_bytes (s : bytes) : bytes :=
  match s with
  | [] => []
  | b :: s' =>
      if decide (b = x25) then
        match s' with
        | h1 :: h2 :: rest =>
            match (if valid_utf8 [h1; h2] then parse_u8_hex [h1; h2] else None) with
            | Some v => v :: percent_bytes rest
            | None => b :: percent_bytes s'
            end
        | _ => b :: percent_bytes s'
        end
      else if decide (b = x2b) then x20 :: percent_bytes s'
      else b :: percent_bytes s'
  end.

Definition percent_decode (s : bytes) : bytes := from_utf8_lossy (percent_bytes s).

Fixpoint find_param (pairs : list bytes) (key : bytes) : option bytes :=
  match pairs with
  | [] => None
  | kv :: pairs' =>
      match split_once x3d kv with
      | Some (k, v) => if decide (k = key) then Some (percent_decode v) else find_param pairs' key
      | None => find_param pairs' key
      end
  end.

Definition query_param (query key : bytes) : option bytes := find_param (split_byte x26 query) key.

Definition bearer_ok (r : HttpRequest) (cfg : WebConfig) : bool :=
  match header r (bs "authorization") with
  | Some v =>
      match strip_prefix (bs "Bearer ") v with
      | Some t => constant_time_eq t (token cfg)
      | None => false
      end
  | None => false
  end.

Definition authorized (r : HttpRequest) (cfg : WebConfig) : conn bool :=
  if decide (token cfg = []) then mret true
  else if bearer_ok r cfg then mret true
  else if decide (route r = bs "/api/v1/events") then
    match query_param (query r) (bs "ticket") with
    | Some t => valid_sse_ticket t
    | None => mret false
    end
  else mret false.

Definition same_origin (r : HttpRequest) : bool :=
  match header r (bs "origin") with
  | Some origin =>
      let host := default [] (header r (bs "host")) in
      let origin_host := default [] (split_nth1 (bs "://") origin) in
      negb (bool_decide (origin_host = []) || negb (eq_ignore_ascii_case origin_host host))
  | None => true
  end.

Definition csrf_ok (r : HttpRequest) : bool :=
  if negb (same_origin r) then false
  else if decide (route r = bs "/api/v1/events") then true
  else bool_decide (is_Some (header r (bs "x-allgres-client"))).

(** ** Responses *)

Definition security_headers : bytes :=
  bs "X-Content-Type-Options: nosniff" ++ crlf ++ bs "X-Frame-Options: DENY" ++ crlf
  ++ bs "Referrer-Policy: no-referrer" ++ crlf
  ++ bs "Cross-Origin-Resource-Policy: same-origin" ++ crlf.

Definition response_head (status content_type body extra : bytes) : bytes :=
  bs "HTTP/1.1 " ++ status ++ crlf
  ++ bs "Content-Type: " ++ content_type ++ crlf
  ++ bs "Content-Length: " ++ decimal (N.of_nat (length body)) ++ crlf
  ++ bs "Cache-Control: no-store" ++ crlf
  ++ bs "Connection: close" ++ crlf
  ++ security_headers ++ extra ++ crlf.

Definition respond (status content_type body extra : bytes) : conn unit :=
  _ ← op (HWrite (response_head status content_type body extra));
  _ ← op (HWrite body);
  mret tt.

Definition respond_json (status body : bytes) : conn unit :=
  respond status (bs "application/json") body [].

Definition error_body (e : bytes) : bytes := jq "{'ok':false,'error':'" ++ e ++ jq "'}".

Definition not_found : conn unit := respond_json (bs "404 Not Found") (error_body (bs "not_found")).

(** ** Requests to the runtime worker *)

Section web.
(** serde_json and the dashboard page. *)
Context (json_text : Value → bytes) (json_parse : bytes → option Value) (dashboard_html : bytes).
Context (fuel : nat).

Definition rpc_error (e : bytes) : Value := obj [(bs "ok", Bool false); (bs "error", Str e)].

Definition rpc (cfg : WebConfig) (req : Value) : conn Value :=
  a ← op (HRpc (socket cfg) (json_text req));
  mret (match a with
        | ConnectFailed e => rpc_error (bs "runtime unavailable: " ++ e)
        | WriteFailed => rpc_error (bs "rpc_write_failed")
        | ReadFailed => rpc_error (bs "rpc_read_failed")
        | Answer out =>
            (* [read_to_string] fails on text that is not UTF-8 *)
            if valid_utf8 out then
              default (rpc_error (bs "invalid_rpc_response")) (json_parse out)
            else rpc_error (bs "rpc_read_failed")
        end).

Definition body_json (r : HttpRequest) : Value := default (Obj []) (json_parse (body r)).

(** [b[k] = x] in a handler: a panic unwinds its thread. *)
Definition set_key (k : bytes) (x : Value) (b : Value) : conn Value :=
  match index_set k x b with
  | Val v => mret v
  | Panic => raise (bs "cannot access key in JSON value")
  end.

Definition session_request (action : bytes) (r : HttpRequest) (more : list (bytes * Value)) : Value :=
  obj ((bs "action", Str action) :: more
       ++ [(bs "session_token", json_opt_str (header r (bs "x-allgres-session")))]).

Definition with_action (cfg : WebConfig) (r : HttpRequest) (action : bytes) : conn (option Value) :=
  b ← set_key (bs "action") (Str action) (body_json r);
  v ← rpc cfg b; mret (Some v).

Definition agents_prefix : bytes := bs "/api/v1/agents/".

Definition api_route (cfg : WebConfig) (r : HttpRequest) : conn (option Value) :=
  let at_ m p := bool_decide (method r = bs m ∧ route r = bs p) in
  let forward req := (v ← rpc cfg req; mret (Some v)) in
  if at_ "GET" "/api/v1/status" then forward (session_request (bs "overview") r [])
  else if at_ "GET" "/api/v1/agents" then forward (session_request (bs "agents.list") r [])
  else if at_ "POST" "/api/v1/agents" then with_action cfg r (bs "agents.create")
  else if at_ "POST" "/api/v1/run" then with_action cfg r (bs "run")
  else if at_ "GET" "/api/v1/tasks" then
    forward (session_request (bs "tasks.list") r [(bs "limit", Number (PosInt 200))])
  else if at_ "GET" "/api/v1/logs" then
    forward (session_request (bs "logs.list") r [(bs "limit", Number (PosInt 250))])
  else if at_ "GET" "/api/v1/settings" then forward (session_request (bs "settings.get") r [])
  else if at_ "POST" "/api/v1/selftest" then forward (session_request (bs "selftest") r [])
  else if at_ "POST" "/api/v1/settings/provider" then with_action cfg r (bs "provider.update")
  else if bool_decide (method r = bs "PATCH") && starts_with agents_prefix (route r) then
    b ← set_key (bs "action") (Str (bs "agents.update")) (body_json r);
    b' ← set_key (bs "agent_id") (Str (trim_start_matches agents_prefix (route r))) b;
    forward b'
  else if at_ "POST" "/api/v1/rpc" then
    let b := body_json r in
    match get_str (bs "action") b with
    | None => mret (Some (rpc_error (bs "action_required")))
    | Some _ => forward b
    end
  else mret None.


Definition stream_head : bytes :=
  bs "HTTP/1.1 200 OK" ++ crlf
  ++ bs "Content-Type: text/event-stream; charset=utf-8" ++ crlf
  ++ bs "Cache-Control: no-store" ++ crlf
  ++ bs "Connection: close" ++ crlf
  ++ bs "X-Accel-Buffering: no" ++ crlf
  ++ security_headers ++ crlf.

Definition snapshot_frame (snapshot : Value) : bytes :=
  bs "event: snapshot" ++ [x0a] ++ bs "data: " ++ json_text snapshot ++ [x0a; x0a].

Definition stream_round (cfg : WebConfig) (deadline : Z) (session_token : bytes) (_ : unit) : conn (unit * bool) :=
  now ← op HNow;
  if (now <? deadline)%Z then
    snapshot ← rpc cfg (obj [(bs "action", Str (bs "events")); (bs "session_token", Str session_token)]);
    sent ← op (HWrite (snapshot_frame snapshot));
    if (sent : bool) then _ ← op (HSleep SSE_INTERVAL); mret (tt, true) else mret (tt, false)
  else mret (tt, false).

Definition stream_events (cfg : WebConfig) (session_token : bytes) : conn (option unit) :=
  _ ← op (HWriteTimeout 5000);
  sent ← op (HWrite stream_head);
  if (sent : bool) then
    now ← op HNow; loop fuel (stream_round cfg (now + SSE_TOTAL) session_token) tt
  else mret (Some tt).

(** ** The mock endpoints *)

Definition mock_models : bytes :=
  json_text (obj
    [(bs "object", Str (bs "list"));
     (bs "data", Arr
        [obj [(bs "id", Str (bs "allgres-mock")); (bs "object", Str (bs "model"))];
         obj [(bs "id", Str (bs "allgres-mock-embed")); (bs "object", Str (bs "model"))]])]).

Definition mock_completion : bytes :=
  json_text (obj
    [(bs "id", Str (bs "allgres-mock"));
     (bs "object", Str (bs "chat.completion"));
     (bs "choices", Arr
        [obj
           [(bs "index", Number (PosInt 0));
            (bs "message", obj
               [(bs "role", Str (bs "assistant"));
                (bs "content",
                   Str (jq "{'action':'final_answer','answer':'Allgres mock runtime OK'}"))]);
            (bs "finish_reason", Str (bs "stop"))]])]).

Definition mock_oauth (r : HttpRequest) : conn unit :=
  let form := parse_form_body (body r) in
  let code := default [] (form !! bs "code") in
  let secret := default [] (form !! bs "client_secret") in
  if decide (code = [] ∨ secret ≠ bs "allgres-mock-oauth-secret") then
    respond_json (bs "401 Unauthorized") (jq "{'error':'invalid_client'}")
  else
    respond_json (bs "200 OK") (json_text (obj
      [(bs "access_token", Str (bs "allgres-mock-access-" ++ code));
       (bs "refresh_token", Str (bs "allgres-mock-refresh"));
       (bs "expires_in", Number (PosInt 3600));
       (bs "token_type", Str (bs "bearer"))])).

Definition KEYWORDS : list bytes :=
  [bs "alpha"; bs "beta"; bs "gamma"; bs "delta"; bs "epsilon"; bs "zeta"; bs "eta"; bs "theta"].

(** The bits of the doubles 1.0 and 0.05. *)
Definition double_1 : number := Float 0x3FF0000000000000.
Definition double_005 : number := Float 0x3FA999999999999A.

Definition mock_embedding (r : HttpRequest) : bytes :=
  let input := to_ascii_lowercase (default [] (json_parse (body r) ≫= get_str (bs "input"))) in
  let embedding := map (λ k, Number (if contains k input then double_1 else double_005)) KEYWORDS in
  json_text (obj
    [(bs "data", Arr [obj [(bs "embedding", Arr embedding); (bs "index", Number (PosInt 0))]]);
     (bs "model", Str (bs "allgres-mock-embed"));
     (bs "object", Str (bs "list"))]).

Definition csp_header (n : bytes) : bytes :=
  bs "Content-Security-Policy: default-src 'none'; script-src 'nonce-" ++ n
  ++ bs "'; style-src 'nonce-" ++ n
  ++ bs "'; connect-src 'self'; img-src 'self' data:; base-uri 'none'; form-action 'none'; frame-ancestors 'none'"
  ++ crlf.

Definition dashboard : conn unit :=
  n ← nonce;
  respond (bs "200 OK") (bs "text/html; charset=utf-8")
    (replace (bs "__CSP_NONCE__") n dashboard_html) (csp_header n).

Definition if_mock (cfg : WebConfig) (p : conn unit) : conn unit :=
  if mock_enabled cfg then p else not_found.

(** ** One connection *)

(** Behind the guards: tickets, the event stream and the API. *)
Definition serve_api (cfg : WebConfig) (r : HttpRequest) : conn (option unit) :=
  let finish (p : conn unit) := (_ ← p; mret (Some tt)) in
  if decide (route r = bs "/api/v1/events/ticket") then
    if decide (method r ≠ bs "POST") then
      finish (respond (bs "405 Method Not Allowed") (bs "application/json")
                (error_body (bs "method_not_allowed")) (bs "Allow: POST" ++ crlf))
    else
      ticket ← mint_sse_ticket (default [] (header r (bs "x-allgres-session")));
      finish (respond_json (bs "200 OK") (json_text (obj
        [(bs "ok", Bool true); (bs "ticket", Str ticket);
         (bs "expires_in", Number (PosInt 30))])))
  else if decide (route r = bs "/api/v1/events") then
    session ← match query_param (query r) (bs "ticket") with
              | Some t => consume_sse_ticket t
              | None => mret None
              end;
    match session with
    | None => finish (respond_json (bs "401 Unauthorized") (error_body (bs "invalid_ticket")))
    | Some s => stream_events cfg s
    end
  else
    o ← api_route cfg r;
    match o with
    | Some v =>
        let status := if decide (get_bool (bs "ok") v = Some false) then bs "400 Bad Request"
                      else bs "200 OK" in
        finish (respond_json status (json_text v))
    | None => finish not_found
    end.

Definition too_many (retry : bytes) : conn unit :=
  respond (bs "429 Too Many Requests") (bs "application/json") (error_body (bs "rate_limited"))
    (bs "Retry-After: " ++ retry ++ crlf).

(** The guards of the API. *)
Definition guard_api (cfg : WebConfig) (peer_ip : option IpAddr) (r : HttpRequest) :
    conn (option unit) :=
  if negb (csrf_ok r) then
    _ ← respond_json (bs "403 Forbidden") (error_body (bs "cross_origin_request_rejected"));
    mret (Some tt)
  else
    locked ← match peer_ip with
             | Some ip => '(_, b) ← op (LockedOut ip); mret b
             | None => mret false
             end;
    if (locked : bool) then _ ← too_many (bs "300"); mret (Some tt)
    else
      auth ← authorized r cfg;
      if (auth : bool) then serve_api cfg r
      else
        _ ← match peer_ip with
            | Some ip => _ ← op (RecordFailure ip); mret tt
            | None => mret tt
            end;
        _ ← respond (bs "401 Unauthorized") (bs "application/json")
              (error_body (bs "unauthorized")) (bs "WWW-Authenticate: Bearer" ++ crlf);
        mret (Some tt).

Definition dispatch (cfg : WebConfig) (peer_ip : option IpAddr) (r : HttpRequest) :
    conn (option unit) :=
  let finish (p : conn unit) := (_ ← p; mret (Some tt)) in
  let at_ p := bool_decide (route r = bs p) in
  if decide (method r = bs "OPTIONS") then
    finish (respond (bs "405 Method Not Allowed") (bs "application/json")
              (error_body (bs "method_not_allowed")) (bs "Allow: GET, POST, PATCH" ++ crlf))
  else if at_ "/healthz" then finish (respond_json (bs "200 OK") (jq "{'ok':true}"))
  else if at_ "/mock/models" || at_ "/mock/v1/models" then
    finish (if_mock cfg (respond_json (bs "200 OK") mock_models))
  else if at_ "/mock/chat/completions" || at_ "/mock/slow/chat/completions" then
    finish (if_mock cfg (
      _ ← (if at_ "/mock/slow/chat/completions" then op (HSleep 15000) else mret tt);
      respond_json (bs "200 OK") mock_completion))
  else if at_ "/mock/oauth/token" then finish (if_mock cfg (mock_oauth r))
  else if at_ "/mock/embeddings" then
    finish (if_mock cfg (respond_json (bs "200 OK") (mock_embedding r)))
  else if at_ "/" then finish dashboard
  else if negb (starts_with (bs "/api/v1/") (route r)) then finish not_found
  else guard_api cfg peer_ip r.

(** [None] is a connection still reading or streaming after [fuel] rounds. *)
Definition handle_web_connection (cfg : WebConfig) : conn (option unit) :=
  peer_ip ← op HPeer;
  limited ← match peer_ip with
            | Some ip => '(_, b) ← op (RateLimited ip); mret b
            | None => mret false
            end;
  if (limited : bool) then _ ← too_many (bs "60"); mret (Some tt)
  else
    req ← read_http_request fuel;
    match req with
    | None => mret None
    | Some None => mret (Some tt)
    | Some (Some r) => dispatch cfg peer_ip r
    end.

End web.

(** ** Exposure and the accept loop *)

Definition is_loopback_addr (addr : bytes) : bool :=
  let host := match rfind_byte x3a addr with Some i => take i addr | None => addr end in
  let host := trim_end_byte x5d (trim_start_matches [x5b] host) in
  bool_decide (host = bs "127.0.0.1") || bool_decide (host = bs "::1")
  || bool_decide (host = bs "localhost") || starts_with (bs "127.") host.

(** [env] is [std::env::var(..).ok()]. *)
Definition check_exposure (env : bytes → option bytes) (addr token : bytes) : result unit bytes :=
  if is_loopback_addr addr || negb (bool_decide (token = [])) then Ok tt
  else if decide (env (bs "ALLGRES_ALLOW_INSECURE_HTTP") = Some (bs "1")) then Ok tt
  else Err (bs "refusing to bind " ++ addr
            ++ bs " with no ALLGRES_DASHBOARD_TOKEN. Set a token, bind to 127.0.0.1, or set ALLGRES_ALLOW_INSECURE_HTTP=1 if the port is already protected by the surrounding network.").

Inductive tcp_accept : Type := TcpConnection | TcpWouldBlock | TcpError (e : bytes).

(** The operations of the accept loop; [Spawn] starts a handler. *)
Inductive aop : Type → Type :=
| Warn (msg : bytes) : aop unit
| BindTcp (addr : bytes) : aop (result unit bytes)
| Nonblocking : aop (result unit bytes)
| Latch : aop bool
| Accept : aop tcp_accept
| LoadThreads : aop nat
| Reply (data : bytes) : aop unit
| AddThread : aop unit
| SubThread : aop unit
| Spawn (cfg : WebConfig) : aop bool.

Abbreviation listener := (io aop).


Definition busy_reply : bytes :=
  response_head (bs "503 Service Unavailable") (bs "application/json") (error_body (bs "busy")) []
  ++ error_body (bs "busy").

Definition web_accept_round (cfg : WebConfig) (_ : unit) : listener (unit * bool) :=
  a ← op Accept;
  match a with
  | TcpConnection =>
      n ← op LoadThreads;
      if (MAX_WEB_THREADS <=? n)%nat then _ ← op (Reply busy_reply); mret (tt, true)
      else
        _ ← op AddThread;
        spawned ← op (Spawn cfg);
        if (spawned : bool) then mret (tt, true) else _ ← op SubThread; mret (tt, true)
  | TcpWouldBlock => mret (tt, false)
  | TcpError e => _ ← op (Warn (bs "Allgres web accept: " ++ e)); mret (tt, false)
  end.

(** A turn that is still accepting after [fuel] rounds is the last one modelled. *)
Definition web_turn (fuel : nat) (cfg : WebConfig) (_ : unit) : listener (unit * bool) :=
  go ← op Latch;
  if (go : bool) then
    r ← loop fuel (web_accept_round cfg) tt; mret (tt, bool_decide (is_Some r))
  else mret (tt, false).

Definition web_config (w : world) : WebConfig :=
  mkConfig (default [] (env w (bs "ALLGRES_DASHBOARD_TOKEN")))
    (rpc_socket_path w)
    (bool_decide (env w (bs "ALLGRES_ENABLE_MOCK") = Some (bs "1"))).

Definition allgres_web_main (fuel : nat) (w : world) : listener unit :=
  let addr := configured_http_addr (env w) in
  let cfg := web_config w in
  match check_exposure (env w) addr (token cfg) with
  | Err msg => op (Warn (bs "Allgres web: " ++ msg))
  | Ok _ =>
      b ← op (BindTcp addr);
      match b with
      | Err e => op (Warn (bs "Allgres web bind " ++ addr ++ bs ": " ++ e))
      | Ok _ =>
          n ← op Nonblocking;
          match n with
          | Err e => op (Warn (bs "Allgres web nonblocking: " ++ e))
          | Ok _ => _ ← loop fuel (web_turn fuel cfg) tt; mret tt
          end
      end
  end.
