(* ===== verification/WebProofs.v ===== *)
(** Theorems about the web worker: what reaches the runtime worker and when,
    how a request is read off a connection, and how many handlers run. *)
From S2P Require Import Prelude RustStr Json Net WebState HttpProtocol Effects Config Web.

(** * Tokens *)

Lemma fold_diff_zero a b d :
  length a = length b → (fold_diff a b d = 0%N ↔ d = 0%N ∧ a = b).
Proof.
  revert b d. induction a as [|x a IH]; intros [|y b] d Hl; simpl in Hl; try lia.
  { simpl. naive_solver. }
  cbn [fold_diff]. rewrite IH by lia. rewrite N.lor_eq_0_iff, N.lxor_eq_0_iff. split.
  - intros [[-> Hxy] ->]. apply u8_inj in Hxy. by subst.
  - intros [-> [= -> ->]]. done.
Qed.

(** The constant-time comparison of tokens is equality. *)
Lemma constant_time_eq_spec a b : constant_time_eq a b = true ↔ a = b.
Proof.
  unfold constant_time_eq. destruct (Nat.eqb_spec (length a) (length b)) as [Hl|Hl]; cbn [negb].
  - rewrite N.eqb_eq, fold_diff_zero by done. naive_solver.
  - split; [done|]. intros ->. done.
Qed.

Lemma bearer_ok_spec r cfg :
  bearer_ok r cfg = true ↔ header r (bs "authorization") = Some (bs "Bearer " ++ token cfg).
Proof.
  unfold bearer_ok. destruct (header r (bs "authorization")) as [v|]; [|done].
  destruct (strip_prefix (bs "Bearer ") v) as [t|] eqn:E.
  - apply strip_prefix_spec in E as ->. rewrite constant_time_eq_spec. split; [by intros ->|].
    by intros [= ->].
  - split; [done|]. intros H. apply (inj Some) in H as ->. assert (strip_prefix (bs "Bearer ") (bs "Bearer " ++ token cfg)
      = Some (token cfg)) as E' by (by apply strip_prefix_spec). congruence.
Qed.

(** * The gate in front of the runtime worker *)

(** What a connection's thread has learnt so far. *)
Record gate : Type := Gate {
  received : bytes;              (* everything read off the socket *)
  peer : option IpAddr;
  admitted : bool;               (* not rate limited *)
  unlocked : bool;               (* not locked out *)
  checked : option bytes;        (* a ticket found valid *)
  session : option bytes         (* the session of a ticket redeemed *)
}.

Definition gate0 : gate := Gate [] None false false None None.

Definition gnext (g : gate) X (e : hop X) : X → gate :=
  match e in hop X return X → gate with
  | HPeer => λ ip, Gate (received g) ip (bool_decide (ip = None)) (bool_decide (ip = None)) None None
  | HRead => λ c, Gate (received g ++ default [] c) (peer g) (admitted g) (unlocked g) (checked g) (session g)
  | RateLimited _ => λ r, Gate (received g) (peer g) (negb r.2) (unlocked g) (checked g) (session g)
  | LockedOut _ => λ r, Gate (received g) (peer g) (admitted g) (negb r.2) (checked g) (session g)
  | ValidTicket t _ => λ b,
      Gate (received g) (peer g) (admitted g) (unlocked g) (if (b : bool) then Some t else None) (session g)
  | ConsumeTicket _ _ => λ o, Gate (received g) (peer g) (admitted g) (unlocked g) (checked g) o
  | _ => λ _, g
  end.

Section gate.
Context (json_text : Value → bytes) (cfg : WebConfig).

(** The request was read in full view of every guard, and passed them. *)
Definition passes (g : gate) (r : HttpRequest) : Prop :=
  parse_http_request (received g) = Some r ∧ admitted g = true
  ∧ starts_with (bs "/api/v1/") (route r) = true ∧ csrf_ok r = true ∧ unlocked g = true
  ∧ (token cfg = [] ∨ header r (bs "authorization") = Some (bs "Bearer " ++ token cfg)
     ∨ route r = bs "/api/v1/events"
       ∧ ∃ t, query_param (query r) (bs "ticket") = Some t ∧ checked g = Some t).

(** The request of the event stream. *)
Definition events_request (s : bytes) : bytes :=
  json_text (obj [(bs "action", Str (bs "events")); (bs "session_token", Str s)]).

Definition gallowed (g : gate) X (e : hop X) : Prop :=
  match e with
  | HRead => admitted g = true
  | RateLimited ip | LockedOut ip => peer g = Some ip
  | HRpc sock req =>
      sock = socket cfg ∧ ∃ r, passes g r
        ∧ (route r = bs "/api/v1/events" → ∃ s, session g = Some s ∧ req = events_request s)
  | MintTicket _ _ s =>
      ∃ r, passes g r ∧ s = default [] (header r (bs "x-allgres-session"))
        ∧ route r = bs "/api/v1/events/ticket" ∧ method r = bs "POST"
  | ConsumeTicket t _ =>
      ∃ r, passes g r ∧ route r = bs "/api/v1/events"
        ∧ query_param (query r) (bs "ticket") = Some t
  | _ => True
  end.

Definition gatekeeper : monitor hop := Monitor gate gallowed gnext.

Lemma gate_op {X} (e : hop X) (Q : gate → X → Prop) g :
  gallowed g X e → (∀ x, Q (gnext g X e x) x) → wpr gatekeeper (op e) Q g.
Proof. apply (wpr_op gatekeeper). Qed.

(** Operations the gate neither restricts nor follows. *)
Definition harmless X (e : hop X) : Prop :=
  match e with
  | HNow | HReadTimeout _ | HWriteTimeout _ | HWrite _ | HSleep _ | HUrandom | HSeed
  | RecordFailure _ => True
  | _ => False
  end.

Lemma gate_harmless {A} (p : conn A) (Q : gate → A → Prop) g :
  only harmless p → (∀ a, Q g a) → wpr gatekeeper p Q g.
Proof.
  intros Hp HQ. eapply (wpr_only gatekeeper harmless); [done| |done].
  intros X e He. by destruct e.
Qed.

End gate.

Ltac harmless_walk :=
  repeat lazymatch goal with
    | |- only _ (mbind _ _) => apply only_bind; [|intros ?]
    | |- only _ (mret _) => exact I
    | |- only _ (op _) => split; [exact I|intros ?; exact I]
    | |- only _ (match ?x with _ => _ end) => destruct x
    end.

Lemma harmless_nonce : only harmless nonce.
Proof. unfold nonce. harmless_walk. Qed.

Lemma harmless_respond a b c d : only harmless (respond a b c d).
Proof. unfold respond. harmless_walk. Qed.

Lemma harmless_finish (p : conn unit) :
  only harmless p → only harmless (p ≫= λ _, mret (Some tt)).
Proof. intros Hp. apply only_bind; [done|intros ?; exact I]. Qed.

Lemma harmless_too_many retry : only harmless (too_many retry).
Proof. unfold too_many. apply harmless_respond. Qed.

Lemma harmless_respond_json status body : only harmless (respond_json status body).
Proof. unfold respond_json. apply harmless_respond. Qed.

Lemma harmless_not_found : only harmless not_found.
Proof. unfold not_found. apply harmless_respond_json. Qed.

Create HintDb harmless discriminated.
#[export] Hint Constants Opaque : harmless.
#[export] Hint Resolve harmless_nonce harmless_respond harmless_respond_json harmless_too_many
  harmless_not_found harmless_finish : harmless.

(** ** Reading *)

Section reading.
Context (json_text : Value → bytes) (cfg : WebConfig).
Abbreviation M := (gatekeeper json_text cfg).

(** The data of the loop is what was received, and its frame is that of the
    data. *)
Definition reads (g0 g : gate) (st : reading) : Prop :=
  g = Gate (received g0 ++ data st) (peer g0) (admitted g0) (unlocked g0) (checked g0) (session g0)
  ∧ fr st = frame_of (data st) ∧ length (data st) ≤ MAX_REQUEST_BYTES ∧ ended st = false.

(** A round that goes on has more data. *)
Lemma read_round_spec g0 deadline st g :
  admitted g0 = true → received g0 = [] → reads g0 g st →
  wpr M (read_round deadline st)
    (λ g' (r : reading * bool), if r.2 then reads g0 g' r.1 ∧ length (data st) < length (data r.1)
             else ended r.1 = true → received g' = data r.1 ∧ admitted g' = true
                    ∧ peer g' = peer g0 ∧ unlocked g' = unlocked g0
                    ∧ length (data r.1) ≤ MAX_REQUEST_BYTES) g.
Proof.
  intros Ha Hr (Hg & Hfr & Hlen & Hend). unfold read_round. apply wpr_bind, gate_op; [done|].
  intros now. simpl. destruct (deadline <? now)%Z.
  { apply wpr_ret. simpl. by rewrite Hend. }
  apply wpr_bind, gate_op; [by subst|]. intros [[|b c]|].
  - apply wpr_ret. subst. simpl. by rewrite Hr, app_nil_r.
  - destruct (MAX_REQUEST_BYTES <? length (data st ++ b :: c))%nat eqn:Hmax.
    { apply wpr_ret. simpl. by rewrite Hend. }
    apply Nat.ltb_ge in Hmax. rewrite Hfr, find_frame_incremental.
    destruct (frame_full _ _) eqn:Hfull; apply wpr_ret; cbn [snd fst ended data].
    + intros _. subst g. simpl. by rewrite Hr.
    + split; [|rewrite length_app; simpl; lia].
      split_and!; [|done|done|done]. subst g. simpl. by rewrite <- app_assoc.
  - apply wpr_ret. simpl. by rewrite Hend.
Qed.

Lemma reads_start g0 : received g0 = [] → reads g0 g0 (Reading [] None false).
Proof.
  intros Hr. split_and!; try done; [|simpl; lia]. destruct g0; simpl in *. by rewrite app_nil_r.
Qed.

(** What a loop that ended leaves. *)
Definition read_done (g0 g : gate) (o : option reading) : Prop :=
  match o with
  | Some st =>
      ended st = true → received g = data st ∧ admitted g = true ∧ peer g = peer g0
        ∧ unlocked g = unlocked g0 ∧ length (data st) ≤ MAX_REQUEST_BYTES
  | None => True
  end.

(** A request that is read was received, in full and under the guards. *)
Lemma read_http_request_spec fuel g0 (Q : gate → option (option HttpRequest) → Prop) :
  admitted g0 = true → received g0 = [] → (∀ g, Q g None) → (∀ g, Q g (Some None)) →
  (∀ g r, parse_http_request (received g) = Some r → admitted g = true → peer g = peer g0 →
     unlocked g = unlocked g0 → Q g (Some (Some r))) →
  wpr M (read_http_request fuel) Q g0.
Proof.
  intros Ha Hr H0 HN HS. unfold read_http_request. apply wpr_bind, gate_op; [done|].
  intros []. apply wpr_bind, gate_op; [done|]. intros now. apply wpr_bind. eapply (wpr_mono M _ (read_done g0)).
  - apply (wpr_loop_exit M (reads g0)); [by apply reads_start| |done].
    intros g st Hreads. eapply wpr_mono; [by apply (read_round_spec g0)|].
    intros g' [st' []] H; [by destruct H|done].
  - intros g [st|] Hdone; apply wpr_ret; [|apply H0]. destruct (ended st) eqn:E; [|apply HN].
    destruct (Hdone E) as (H1 & H2 & H3 & H4 & _).
    destruct (parse_http_request (data st)) as [r|] eqn:Hp; [|apply HN].
    apply HS; [by rewrite H1|done..].
Qed.

Lemma no_raise_read fuel : no_raise (read_http_request fuel).
Proof.
  unfold read_http_request. do 2 (apply no_raise_bind; [intros ?; exact I|]; intros ?).
  apply no_raise_bind; [|done]. apply no_raise_loop. intros st. unfold read_round. no_raise_walk.
Qed.

End reading.

(** Reading ends, whatever the client does, within one round per byte: under
    any monitor that lets it read the clock and the socket. *)
Lemma read_http_request_ends (M : monitor hop) (I : mstate M → Prop) fuel s :
  (∀ s, I s → allowed M s HNow ∧ ∀ t, I (next M s HNow t)) →
  (∀ s, I s → allowed M s HRead ∧ ∀ c, I (next M s HRead c)) →
  allowed M s (HReadTimeout 2000) → I (next M s (HReadTimeout 2000) tt) → MAX_REQUEST_BYTES < fuel →
  wpr M (read_http_request fuel) (λ s o, I s ∧ o ≠ None) s.
Proof.
  intros Hnow Hread Hset HI Hfuel. unfold read_http_request. apply wpr_bind, wpr_op; [done|]. intros [].
  apply wpr_bind, wpr_op; [by apply Hnow|]. intros now. apply wpr_bind. eapply (wpr_mono M _ (λ s o, I s ∧ o ≠ None)).
  - apply (wpr_loop_ends M (λ s st, I s ∧ length (data st) ≤ MAX_REQUEST_BYTES)
      (λ st, MAX_REQUEST_BYTES - length (data st))).
    + split; [by apply Hnow|simpl; lia].
    + simpl. lia.
    + intros s1 st [H1 Hst]. unfold read_round. apply wpr_bind, wpr_op; [by apply Hnow|].
      intros t. apply (Hnow s1) in H1 as [_ H1]. specialize (H1 t).
      case_match; [by apply wpr_ret|]. apply wpr_bind, wpr_op; [by apply Hread|]. intros c.
      apply Hread in H1 as [_ H1]. specialize (H1 c).
      destruct c as [[|b c]|]; [by apply wpr_ret| |by apply wpr_ret].
      destruct (Nat.ltb_spec MAX_REQUEST_BYTES (length (data st ++ b :: c))); [by apply wpr_ret|].
      rewrite length_app in *. case_match; apply wpr_ret; [done|].
      split; [split; [done|]|]; cbn [fst data]; rewrite length_app; simpl in *; lia.
  - intros s1 [st|] [H1 Hne]; [by apply wpr_ret|done].
Qed.

(** ** Behind the guards *)

Section api.
Context (json_text : Value → bytes) (json_parse : bytes → option Value) (dashboard_html : bytes).
Context (fuel : nat) (cfg : WebConfig).
Abbreviation M := (gatekeeper json_text cfg).

Lemma gate_finish (p : conn unit) (Q : gate → option unit → Prop) g :
  only harmless p → Q g (Some tt) → wpr M (p ≫= λ _, mret (Some tt)) Q g.
Proof. intros Hp HQ. apply wpr_bind, gate_harmless; [done|]. intros []. by apply wpr_ret. Qed.

(** An exchange with the runtime worker for a request that is not the event
    stream's. *)
Lemma gate_rpc r req (Q : gate → Value → Prop) g :
  passes cfg g r → route r ≠ bs "/api/v1/events" → (∀ v, Q g v) →
  wpr M (rpc json_text json_parse cfg req) Q g.
Proof.
  intros Hp Hne HQ. unfold rpc. apply wpr_bind, gate_op; [by split; [|exists r]|].
  intros a. apply wpr_ret. apply HQ.
Qed.

Lemma gate_set_key k x b (Q : gate → Value → Prop) g : (∀ v, Q g v) → wpr M (set_key k x b) Q g.
Proof. intros HQ. unfold set_key. destruct (index_set k x b); [by apply wpr_ret|done]. Qed.

Lemma gate_api_route r (Q : gate → option Value → Prop) g :
  passes cfg g r → route r ≠ bs "/api/v1/events" → (∀ o, Q g o) →
  wpr M (api_route json_text json_parse cfg r) Q g.
Proof.
  intros Hp Hne HQ. unfold api_route, with_action.
  repeat (first [ apply wpr_ret; apply HQ
                | apply wpr_bind
                | apply (gate_rpc r); [done|done|intros ?]
                | apply gate_set_key; intros ?
                | case_match ]).
Qed.

Lemma gate_stream s r (Q : gate → option unit → Prop) g :
  passes cfg g r → session g = Some s → (∀ o, Q g o) →
  wpr M (stream_events json_text json_parse fuel cfg s) Q g.
Proof.
  intros Hp Hs HQ. unfold stream_events. apply wpr_bind, gate_op; [done|]. intros [].
  apply wpr_bind, gate_op; [done|]. intros []; [|by apply wpr_ret]. apply wpr_bind, gate_op; [done|]. intros now.
  apply (wpr_loop M (λ g' _, g' = g)); [done| |by intros ? ? ->..].
  intros g' [] ->. unfold stream_round. apply wpr_bind, gate_op; [done|]. intros now'.
  cbn [gnext]. case_match; [|by apply wpr_ret]. unfold rpc. apply wpr_bind, wpr_bind, gate_op.
  { split; [done|]. exists r. split; [done|]. intros _. by exists s. }
  intros a. apply wpr_ret. apply wpr_bind, gate_op; [done|]. intros [];
    [|by apply wpr_ret]. apply wpr_bind, gate_op; [done|]. intros []. by apply wpr_ret.
Qed.

Lemma passes_session g o r :
  passes cfg g r →
  passes cfg (Gate (received g) (peer g) (admitted g) (unlocked g) (checked g) o) r.
Proof. done. Qed.

Lemma gate_serve_api r g :
  passes cfg g r → wpr M (serve_api json_text json_parse fuel cfg r) (λ _ _, True) g.
Proof.
  intros Hp. unfold serve_api. case_decide as Ht.
  { case_decide as Hm; [by apply gate_finish; [auto with harmless nocore|]|].
    apply wpr_bind. unfold mint_sse_ticket.
    apply wpr_bind, gate_harmless; [apply harmless_nonce|]. intros ticket.
    apply wpr_bind, gate_op; [done|]. intros now.
    apply wpr_bind, gate_op; [by exists r|]. intros []. apply wpr_ret.
    by apply gate_finish; [auto with harmless nocore|]. }
  case_decide as He.
  - apply wpr_bind. destruct (query_param (query r) (bs "ticket")) as [t|] eqn:Hq.
    + unfold consume_sse_ticket. apply wpr_bind, gate_op; [done|]. intros now.
      apply gate_op; [by exists r|]. intros [s|].
      * eapply (gate_stream s r); done.
      * by apply gate_finish; [auto with harmless nocore|].
    + apply wpr_ret. by apply gate_finish; [auto with harmless nocore|].
  - apply wpr_bind, (gate_api_route r); [done|done|]. intros [v|];
      by apply gate_finish; [auto with harmless nocore|].
Qed.

Definition with_checked (g : gate) (c : option bytes) : gate :=
  Gate (received g) (peer g) (admitted g) (unlocked g) c (session g).

Lemma with_checked_id g : with_checked g (checked g) = g.
Proof. by destruct g. Qed.

(** Authorization is by no token, the token, or a ticket just found valid. *)
Lemma gate_authorized r (Q : gate → bool → Prop) g :
  (∀ c, Q (with_checked g c) false) →
  (∀ c, token cfg = [] ∨ header r (bs "authorization") = Some (bs "Bearer " ++ token cfg)
        ∨ route r = bs "/api/v1/events"
          ∧ (∃ t, query_param (query r) (bs "ticket") = Some t ∧ c = Some t) →
        Q (with_checked g c) true) →
  wpr M (authorized r cfg) Q g.
Proof.
  intros HF HT. unfold authorized.
  case_decide; [apply wpr_ret; rewrite <- (with_checked_id g); apply HT; by left|].
  destruct (bearer_ok r cfg) eqn:Hb;
    [apply wpr_ret; rewrite <- (with_checked_id g); apply HT; right; left; by apply bearer_ok_spec|].
  assert (Q g false) as Hg by (rewrite <- (with_checked_id g); apply HF).
  case_decide; [|by apply wpr_ret].
  destruct (query_param (query r) (bs "ticket")) as [t|] eqn:Hq; [|by apply wpr_ret].
  unfold valid_sse_ticket. apply wpr_bind, gate_op; [done|]. intros now. apply gate_op; [done|].
  intros []; [apply HT|apply HF]. right. right. split; [done|]. by exists t.
Qed.

Lemma gate_guard_api ip r g :
  parse_http_request (received g) = Some r → admitted g = true → peer g = ip →
  unlocked g = bool_decide (ip = None) → starts_with (bs "/api/v1/") (route r) = true →
  wpr M (guard_api json_text json_parse fuel cfg ip r) (λ _ _, True) g.
Proof.
  intros Hp Ha Hip Hu Hpre. unfold guard_api.
  destruct (csrf_ok r) eqn:Hc; cbn [negb];
    [|by apply gate_finish; [auto with harmless nocore|]].
  assert (∀ g', parse_http_request (received g') = Some r → admitted g' = true →
    unlocked g' = true → wpr M (
      auth ← authorized r cfg;
      if (auth : bool) then serve_api json_text json_parse fuel cfg r
      else
        _ ← match ip with
            | Some ip => _ ← op (RecordFailure ip); mret tt
            | None => mret tt
            end;
        _ ← respond (bs "401 Unauthorized") (bs "application/json")
              (error_body (bs "unauthorized")) (bs "WWW-Authenticate: Bearer" ++ crlf);
        mret (Some tt)) (λ _ _, True) g') as Hauth.
  { intros g' Hp' Ha' Hu'. apply wpr_bind, gate_authorized.
    - intros c. apply gate_harmless; [|done]. destruct ip; harmless_walk; auto with harmless nocore.
    - intros c Hok. apply gate_serve_api. by split_and!. }
  apply wpr_bind. destruct ip as [ip|].
  - apply wpr_bind, gate_op; [done|]. intros [now []]; apply wpr_ret.
    + by apply gate_finish; [auto with harmless nocore|].
    + by apply Hauth.
  - apply wpr_ret. by apply Hauth.
Qed.

Lemma harmless_if_mock p : only harmless p → only harmless (if_mock cfg p).
Proof. intros Hp. unfold if_mock. case_match; [done|auto with harmless nocore]. Qed.

Lemma harmless_mock_oauth r : only harmless (mock_oauth json_text r).
Proof. unfold mock_oauth. case_match; auto with harmless nocore. Qed.

Lemma harmless_dashboard : only harmless (dashboard dashboard_html).
Proof.
  unfold dashboard. apply only_bind; [apply harmless_nonce|]. intros n. apply harmless_respond.
Qed.

#[local] Hint Resolve harmless_if_mock harmless_mock_oauth harmless_dashboard : harmless.

Lemma gate_dispatch ip r g :
  parse_http_request (received g) = Some r → admitted g = true → peer g = ip →
  unlocked g = bool_decide (ip = None) →
  wpr M (dispatch json_text json_parse dashboard_html fuel cfg ip r) (λ _ _, True) g.
Proof.
  intros Hp Ha Hip Hu. unfold dispatch.
  repeat (case_match; [apply gate_finish; [|done];
    first [ solve [auto with harmless nocore]
          | apply harmless_if_mock, only_bind;
              [case_match; harmless_walk|intros ?; auto with harmless nocore] ]|]).
  apply gate_guard_api; [done..|]. by apply negb_false_iff.
Qed.

Lemma gate_connection :
  wpr M (handle_web_connection json_text json_parse dashboard_html fuel cfg) (λ _ _, True) gate0.
Proof.
  unfold handle_web_connection. apply wpr_bind, gate_op; [done|]. intros ip.
  assert (∀ g, admitted g = true → received g = [] → peer g = ip → unlocked g = bool_decide (ip = None) →
    wpr M (
      req ← read_http_request fuel;
      match req with
      | None => mret None
      | Some None => mret (Some tt)
      | Some (Some r) => dispatch json_text json_parse dashboard_html fuel cfg ip r
      end) (λ _ _, True) g) as Hread.
  { intros g Ha Hr Hip Hu. apply wpr_bind, read_http_request_spec; [done..| | |].
    - intros g'. by apply wpr_ret.
    - intros g'. by apply wpr_ret.
    - intros g' r Hp Ha' Hip' Hu'. apply gate_dispatch; congruence. }
  apply wpr_bind. destruct ip as [ip|].
  - apply wpr_bind, gate_op; [done|]. intros [now []]; apply wpr_ret.
    + by apply gate_finish; [auto with harmless nocore|].
    + by apply Hread.
  - apply wpr_ret. by apply Hread.
Qed.

End api.

(** * Reading, one chunk at a time *)

(** A client that sends the given chunks and then closes, within the deadline. *)
Definition feeder X (e : hop X) (cs : list bytes) : X * list bytes :=
  match e in hop X return X * list bytes with
  | HNow => (0%Z, cs)
  | HPeer => (None, cs)
  | HReadTimeout _ | HWriteTimeout _ => (tt, cs)
  | HRead => (Some (default [] (head cs)), tail cs)
  | HWrite _ => (true, cs)
  | HSleep _ => (tt, cs)
  | HRpc _ _ => (WriteFailed, cs)
  | HUrandom => (None, cs)
  | HSeed => ((0, 0, 0)%N, cs)
  | RateLimited _ => ((0%Z, false), cs)
  | LockedOut _ => ((0%Z, false), cs)
  | RecordFailure _ => (0%Z, cs)
  | MintTicket _ _ _ => (tt, cs)
  | ValidTicket _ _ => (false, cs)
  | ConsumeTicket _ _ => (None, cs)
  end.

Lemma exec_read_round st b c cs :
  exec feeder (read_round REQUEST_DEADLINE st) ((b :: c) :: cs)
    = (Returned (let all := data st ++ b :: c in
                 if (MAX_REQUEST_BYTES <? length all)%nat then (st, false)
                 else let fr' := find_frame (fr st) all in
                      if frame_full fr' all then (Reading all fr' true, false)
                      else (Reading all fr' false, true)), cs).
Proof.
  unfold read_round. rewrite exec_bind. cbn [op exec feeder].
  change (REQUEST_DEADLINE <? 0)%Z with false. cbn iota beta. rewrite exec_bind.
  cbn [op exec feeder head tail from_option id]. cbn zeta.
  destruct (MAX_REQUEST_BYTES <? _)%nat; [done|]. by destruct (frame_full _ _).
Qed.

(** The loop, fed chunks whose concatenation completes a request no earlier
    than its end, stops at that end. *)
Lemma feed_loop fuel cs st d :
  data st ++ concat cs = d → fr st = frame_of (data st) → ended st = false → cs ≠ [] →
  Forall (λ c, c ≠ []) cs → length cs ≤ fuel → length d ≤ MAX_REQUEST_BYTES →
  complete d = true → (∀ n, n < length d → complete (take n d) = false) →
  (exec feeder (loop fuel (read_round REQUEST_DEADLINE) st) cs).1
    = Returned (Some (Reading d (frame_of d) true)).
Proof.
  revert cs st. induction fuel as [|f IH]; intros cs st Hd Hfr He Hne Hcs Hlen Hmax Hfull Hmin.
  { destruct cs; [done|simpl in Hlen; lia]. }
  destruct cs as [|c cs]; [done|]. inversion Hcs as [|? ? Hc Hcs']; subst.
  destruct c as [|b c]; [done|].
  cbn [loop]. rewrite exec_bind, exec_read_round. cbn zeta.
  set (all := data st ++ b :: c). assert (data st ++ concat ((b :: c) :: cs) = all ++ concat cs) as Hall.
  { subst all. cbn [concat]. by rewrite <- app_assoc. }
  rewrite Hall in *.
  assert ((MAX_REQUEST_BYTES <? length all)%nat = false) as ->.
  { apply Nat.ltb_ge. rewrite length_app in Hmax. lia. }
  assert (find_frame (fr st) all = frame_of all) as -> by (rewrite Hfr; apply find_frame_incremental).
  assert (frame_full (frame_of all) all = bool_decide (cs = [])) as ->.
  { change (complete all = bool_decide (cs = [])). destruct cs as [|c' cs].
    - rewrite app_nil_r in Hfull. done.
    - specialize (Hmin (length all)). rewrite take_app_length in Hmin.
      rewrite Hmin; [done|]. inversion Hcs'; subst. rewrite length_app. cbn [concat].
      rewrite length_app. destruct c'; [done|]. simpl. lia. }
  destruct cs as [|c' cs].
  - rewrite bool_decide_true by done. simpl. by rewrite app_nil_r.
  - rewrite bool_decide_false by done. apply IH; try done. simpl in *. lia.
Qed.

(** * Claims *)

(** C2: from the first byte read to the exchange with the runtime worker:
    whatever clients send and whatever the shared state answers, a request
    reaches the runtime worker, mints or redeems a ticket only if the address
    is neither rate limited nor locked out, the bytes received parse to an
    /api/v1/ request that passes the cross-origin check, and it carries the
    token, or a ticket just found valid on the event stream, or no token is
    configured; the event stream speaks for the session of the ticket it
    redeemed. *)
Theorem rpc_guarded json_text json_parse html fuel cfg tr o :
  runs (handle_web_connection json_text json_parse html fuel cfg) tr o →
  accepts (gatekeeper json_text cfg) gate0 tr.
Proof.
  intros Hr. eapply wpr_runs in Hr; [apply Hr|].
  apply (gate_connection json_text json_parse html fuel cfg).
Qed.

(** A client with the token, in two chunks. *)
Definition token_request : list bytes :=
  [bs "GET /api/v1/status HTTP/1.1" ++ crlf ++ bs "Authorization: Bearer s3cret" ++ crlf;
   bs "X-Allgres-Client: 1" ++ crlf ++ crlf].

Definition token_run (fuel : nat) : list (event hop) * exn (option unit) :=
  run_with feeder
    (handle_web_connection (λ _, bs "{}") (λ _, None) [] fuel (mkConfig (bs "s3cret") (bs "/d/runtime.sock") false))
    token_request.

Definition is_rpc (ev : event hop) : bool :=
  match ev_op ev with HRpc _ _ => true | _ => false end.

Lemma rpc_guarded_witness :
  existsb is_rpc (token_run 5).1 = true
  ∧ accepts (gatekeeper (λ _, bs "{}") (mkConfig (bs "s3cret") (bs "/d/runtime.sock") false)) gate0 (token_run 5).1.
Proof.
  split; [vm_compute; reflexivity|].
  apply (rpc_guarded (λ _, bs "{}") (λ _, None) [] 5 (mkConfig (bs "s3cret") (bs "/d/runtime.sock") false) _ (token_run 5).2).
  apply run_with_runs.
Defined.

(** reading a request ends, whatever the client sends and however slowly:
    with one round of fuel for each byte a request may have and one more, the
    loop is never still running. *)
Theorem read_terminates fuel tr r :
  MAX_REQUEST_BYTES < fuel → runs (read_http_request fuel) tr r → ∃ o, r = Returned (Some o).
Proof.
  intros Hfuel Hr.
  eapply (wp_sound unwatched _ _ tt) in Hr as [_ Hr];
    [|apply wpr_total; [apply no_raise_read|by apply (read_http_request_ends unwatched (λ _, True))]].
  destruct r as [[o|]|m]; [by exists o|by destruct Hr|done].
Qed.

Lemma read_terminates_witness :
  ∃ o, (run_with feeder (read_http_request (S MAX_REQUEST_BYTES)) token_request).2 = Returned (Some o).
Proof.
  apply (read_terminates (S MAX_REQUEST_BYTES)
    (run_with feeder (read_http_request (S MAX_REQUEST_BYTES)) token_request).1); [lia|].
  apply (run_with_runs feeder (read_http_request (S MAX_REQUEST_BYTES)) token_request).
Defined.

(** C14: a request that declares its body's length is read back exactly, however
    the network cuts it into chunks. *)
Theorem read_any_chunking r cs fuel :
  request_ok r → declared_length r = N.of_nat (length (body r)) →
  length (render r) ≤ MAX_REQUEST_BYTES → (N.of_nat (length (render r)) < 2 ^ 64)%N →
  concat cs = render r → Forall (λ c, c ≠ []) cs → length cs ≤ fuel →
  (exec feeder (read_http_request fuel) cs).1 = Returned (Some (Some r)).
Proof.
  intros Hr Hd Hmax H64 Hcs Hne Hfuel. unfold read_http_request. rewrite exec_bind.
  cbn [op exec feeder]. rewrite exec_bind.
  cbn [op exec feeder]. rewrite Z.add_0_l, exec_bind.
  assert (∀ n, n < length (render r) → complete (take n (render r)) = false) as Hmin.
  { intros n Hn. by apply (request_frame_exact r n). }
  pose proof (feed_loop fuel cs (Reading [] None false) (render r)) as Hloop.
  destruct (exec feeder (loop fuel (read_round REQUEST_DEADLINE) _) cs) as [o s'] eqn:E.
  cbn [fst] in Hloop. rewrite Hloop; try done.
  - cbn [exec mret io_ret fst ended data]. by rewrite parse_render.
  - intros ->. apply (f_equal length) in Hcs. unfold render in Hcs.
    rewrite !length_app in Hcs. simpl in Hcs. lia.
  - by apply (request_frame_exact r 0).
Qed.

Lemma read_any_chunking_witness :
  (exec feeder (read_http_request 3)
     [take 10 (render sample_request); take 30 (drop 10 (render sample_request));
      drop 40 (render sample_request)]).1 = Returned (Some (Some sample_request)).
Proof.
  apply read_any_chunking.
  - exact sample_request_ok.
  - reflexivity.
  - assert (length (render sample_request) ≤ 100) by (apply Nat.leb_le; vm_compute; reflexivity).
    pose proof MAX_REQUEST_BYTES_N. lia.
  - reflexivity.
  - reflexivity.
  - by_decide.
  - simpl. lia.
Defined.

(** Query strings and form bodies are percent-decoded alike. *)
Lemma percent_decode_is_form_decode s : percent_decode s = decode s.
Proof.
  unfold percent_decode, decode. f_equal. remember (length s) as n eqn:Hn. revert s Hn.
  induction n as [n IH] using lt_wf_ind. intros [|b s] ->; [done|].
  assert (percent_bytes s = decode_bytes s) as Hs by (eapply IH; [|done]; simpl; lia).
  cbn [percent_bytes decode_bytes]. rewrite Hs.
  destruct (decide (b = x2b)) as [->|]; [done|]. destruct (decide (b = x25)) as [->|]; [|done].
  destruct s as [|h1 [|h2 rest]]; try done.
  destruct (if valid_utf8 [h1; h2] then parse_u8_hex [h1; h2] else None); [|done].
  f_equal. eapply IH; [|done]. simpl. lia.
Qed.

(** Decide the closed route comparisons of a goal. *)
Ltac decide_routes :=
  repeat match goal with
    | |- context [bool_decide (?a = ?b ∧ ?c = ?d)] =>
        let v := eval vm_compute in (bool_decide (a = b ∧ c = d)) in
        replace (bool_decide (a = b ∧ c = d)) with v by (vm_compute; reflexivity); cbn iota
    end.

(** The routes that write an action into the body. *)
Definition adds_action (r : HttpRequest) : Prop :=
  (method r = bs "POST"
   ∧ (route r = bs "/api/v1/agents" ∨ route r = bs "/api/v1/run" ∨ route r = bs "/api/v1/settings/provider"))
  ∨ (method r = bs "PATCH" ∧ ∃ name, route r = bs "/api/v1/agents/" ++ name).

(** A JSON string, number, boolean or array: [v[key] = x] panics on it. *)
Definition not_indexable (v : Value) : Prop :=
  match v with Null | Obj _ => False | _ => True end.

(** The lockout lets the address pass. *)
Definition not_locked (ev : event hop) : Prop :=
  match ev_op ev in hop X return X → Prop with LockedOut _ => λ a, a.2 = false | _ => λ _, True end (ev_val ev).

Section actions.
Context (json_text : Value → bytes) (json_parse : bytes → option Value) (html : bytes).
Context (fuel : nat) (cfg : WebConfig) (r : HttpRequest).
Context (Hr : adds_action r).

Lemma action_route :
  method r ≠ bs "OPTIONS" ∧ starts_with (bs "/api/v1/") (route r) = true
  ∧ route r ≠ bs "/api/v1/events/ticket" ∧ route r ≠ bs "/api/v1/events".
Proof using Hr.
  destruct Hr as [[-> [-> | [-> | ->]]]|[-> [name ->]]]; split_and!; by vm_compute || done.
Qed.

Lemma set_action_panics a :
  (∃ v, json_parse (body r) = Some v ∧ not_indexable v) →
  set_key (bs "action") (Str a) (body_json json_parse r) = raise (bs "cannot access key in JSON value").
Proof.
  intros (v & Hv & Hn). unfold body_json, set_key. rewrite Hv. simpl. by destruct v.
Qed.

Lemma set_action_ok a :
  ¬ (∃ v, json_parse (body r) = Some v ∧ not_indexable v) →
  ∃ m, set_key (bs "action") (Str a) (body_json json_parse r) = mret (Obj m).
Proof.
  intros Hn. unfold body_json, set_key. destruct (json_parse (body r)) as [v|]; simpl; [|by eexists].
  destruct v; try (by eexists); destruct Hn; by eexists.
Qed.

(** What the routes do: write the action, then go on without a panic. *)
Lemma api_route_adds :
  ∃ a f, api_route json_text json_parse cfg r
      = (b ← set_key (bs "action") (Str a) (body_json json_parse r); f b)
    ∧ ∀ m, no_raise (f (Obj m)).
Proof using Hr.
  assert (∀ a, ∃ f, with_action json_text json_parse cfg r a
      = (b ← set_key (bs "action") (Str a) (body_json json_parse r); f b)
    ∧ ∀ m, no_raise (f (Obj m))) as Hw.
  { intros a. eexists. split; [reflexivity|]. intros m. unfold rpc. no_raise_walk. }
  unfold api_route. destruct Hr as [[Hm Hroute]|[Hm [name Hroute]]].
  - rewrite Hm. destruct Hroute as [-> | [-> | ->]]; cbn zeta; decide_routes; eexists; apply Hw.
  - rewrite Hm. cbn zeta.
    repeat rewrite (bool_decide_eq_false_2 (_ ∧ _)) by (intros [H _]; discriminate H).
    rewrite (bool_decide_eq_true_2 (bs "PATCH" = bs "PATCH")) by done.
    assert (starts_with agents_prefix (route r) = true) as -> by (rewrite Hroute; apply starts_with_app).
    cbn iota. cbn [andb]. exists (bs "agents.update"). eexists. split; [reflexivity|].
    intros m. cbn beta. unfold set_key, rpc. simpl index_set. cbn iota. no_raise_walk.
Qed.

(** Behind the guards the API route is reached. *)
Lemma dispatch_action ip tr res :
  csrf_ok r = true → token cfg = [] ∨ bearer_ok r cfg = true → Forall not_locked tr →
  runs (dispatch json_text json_parse html fuel cfg ip r) tr res →
  ∃ tr', runs (serve_api json_text json_parse fuel cfg r) tr' res.
Proof using Hr.
  intros Hc Ha Hl Hd. destruct action_route as (Hm & Hs & _ & _). unfold dispatch in Hd.
  rewrite decide_False in Hd by done. cbn zeta in Hd.
  repeat rewrite (bool_decide_eq_false_2 (route r = _)) in Hd
    by (intros Heq; rewrite Heq in Hs; vm_compute in Hs; discriminate Hs).
  cbn [orb] in Hd. rewrite Hs in Hd. cbn [negb] in Hd. unfold guard_api in Hd. rewrite Hc in Hd. cbn [negb] in Hd.
  assert (authorized r cfg = mret true) as Hauth.
  { unfold authorized. case_decide; [done|]. destruct Ha as [?| ->]; [done|]. done. }
  rewrite Hauth in Hd. destruct ip as [ip|].
  - apply runs_inv in Hd as ([t locked] & tr' & -> & Hd). apply Forall_cons in Hl as [Hl _].
    cbn in Hl. subst locked. by exists tr'.
  - by exists tr.
Qed.

Lemma serve_action_raises tr res :
  runs (serve_api json_text json_parse fuel cfg r) tr res →
  (∃ m, res = Raised m) ↔ ∃ v, json_parse (body r) = Some v ∧ not_indexable v.
Proof using Hr.
  destruct action_route as (_ & _ & Ht & He). unfold serve_api. rewrite !decide_False by done. cbn zeta.
  destruct api_route_adds as (a & f & -> & Hf). intros Hd.
  assert ((∃ v, json_parse (body r) = Some v ∧ not_indexable v)
    ∨ ¬ ∃ v, json_parse (body r) = Some v ∧ not_indexable v) as [Hb|Hb].
  { destruct (json_parse (body r)) as [v|]; [|right; naive_solver].
    destruct v; try (left; by eexists); right; by intros (v & [= <-] & Hv). }
  - rewrite set_action_panics in Hd by done. apply runs_inv in Hd as [_ ->]. split; [done|by eexists].
  - split; [|done]. intros [m ->]. destruct (set_action_ok a Hb) as [o Ho]. rewrite Ho in Hd.
    apply no_raise_runs in Hd as [? [=]].
    apply no_raise_bind; [apply Hf|]. intros [v|]; unfold not_found, respond_json, respond; no_raise_walk.
Qed.

End actions.

(** C37: a request that adds an action to its body -- POST to agents, run or
    settings/provider, PATCH of an agent -- and has passed the cross-origin
    check, the lockout and the token check, panics its handler exactly when the
    body is a JSON string, number, boolean or array. An object, [null] and what
    is not JSON do not panic it. *)
Theorem non_object_body_panics json_text json_parse html fuel cfg ip r tr1 tr2 res :
  reaches (handle_web_connection json_text json_parse html fuel cfg) tr1
    (dispatch json_text json_parse html fuel cfg ip r) →
  runs (dispatch json_text json_parse html fuel cfg ip r) tr2 res →
  adds_action r → csrf_ok r = true → token cfg = [] ∨ bearer_ok r cfg = true → Forall not_locked tr2 →
  runs (handle_web_connection json_text json_parse html fuel cfg) (tr1 ++ tr2) res
  ∧ ((∃ m, res = Raised m) ↔ ∃ v, json_parse (body r) = Some v ∧ not_indexable v).
Proof.
  intros H1 H2 Hr Hc Ha Hl. split; [by eapply reaches_runs|].
  apply dispatch_action in H2 as [tr' H2]; [|done..]. by eapply serve_action_raises.
Qed.

(** A client that sends an array to /api/v1/run. *)
Definition array_request : HttpRequest :=
  mkRequest (bs "POST") (bs "/api/v1/run") [(bs "x-allgres-client", bs "1"); (bs "content-length", bs "2")] (bs "[]").

Definition array_sent : bytes := Eval vm_compute in
  bs "POST /api/v1/run HTTP/1.1" ++ crlf ++ bs "X-Allgres-Client: 1" ++ crlf
  ++ bs "Content-Length: 2" ++ crlf ++ crlf ++ bs "[]".

Definition array_read : list (event hop) :=
  [Event _ HPeer None; Event _ (HReadTimeout 2000) tt; Event _ HNow 0%Z; Event _ HNow 0%Z;
   Event _ HRead (Some array_sent)].

Lemma array_reaches cfg :
  reaches (handle_web_connection (λ _, []) (λ _, Some (Arr [])) [] 3 cfg) array_read
    (dispatch (λ _, []) (λ _, Some (Arr [])) [] 3 cfg None array_request).
Proof.
  assert ((MAX_REQUEST_BYTES <? length ([] ++ array_sent))%nat = false) as Hmax.
  { assert (length ([] ++ array_sent) ≤ 100) by (apply Nat.leb_le; vm_compute; reflexivity).
    apply Nat.ltb_ge. pose proof MAX_REQUEST_BYTES_N. lia. }
  unfold handle_web_connection, array_read. do 5 constructor.
  change (match array_sent with [] => ?a | _ :: _ => ?b end) with b.
  cbv zeta. cbn [data fr]. rewrite Hmax. cbv iota.
  exact (reaches_here _).
Qed.

Lemma non_object_body_panics_witness :
  runs (handle_web_connection (λ _, []) (λ _, Some (Arr [])) [] 3 (mkConfig [] [] false))
    (array_read ++ []) (Raised (bs "cannot access key in JSON value")).
Proof.
  apply (non_object_body_panics (λ _, []) (λ _, Some (Arr [])) [] 3 (mkConfig [] [] false) None array_request
    array_read [] (Raised (bs "cannot access key in JSON value"))).
  - apply array_reaches.
  - constructor.
  - left. split; [reflexivity|]. right; left. reflexivity.
  - reflexivity.
  - left. reflexivity.
  - constructor.
Defined.
