(* ===== verification/WebPool.v ===== *)
(** The web worker's accept loop and its handler threads, interleaved: the
    listener's program takes one operation at a time while handlers end, by
    returning or by panicking, at any moment. The counter [WEB_THREADS] is what
    they share. *)
From S2P Require Import Prelude Effects Config Web.

(** * Interleaving *)

Record sys : Type := Sys {
  web_threads : nat;               (* the atomic counter *)
  handlers : nat;                  (* handler threads that are running *)
  panicked : nat;                  (* handler threads that ended in a panic *)
  listening : prog aop (exn unit)  (* what is left of the listener's program *)
}.

(** What the environment may answer: only the counter is determined. *)
Definition answers (s : sys) X (e : aop X) : X → Prop :=
  match e in aop X return X → Prop with
  | LoadThreads => λ n, n = web_threads s
  | _ => λ _, True
  end.

Definition perform (s : sys) X (e : aop X) : X → prog aop (exn unit) → sys :=
  match e in aop X return X → prog aop (exn unit) → sys with
  | AddThread => λ _, Sys (S (web_threads s)) (handlers s) (panicked s)
  | SubThread => λ _, Sys (web_threads s - 1) (handlers s) (panicked s)
  | Spawn _ => λ ok, Sys (web_threads s) (if (ok : bool) then S (handlers s) else handlers s) (panicked s)
  | _ => λ _, Sys (web_threads s) (handlers s) (panicked s)
  end.

Inductive step : sys → sys → Prop :=
| step_listener s X (e : aop X) k x :
    listening s = Do e k → answers s X e x → step s (perform s X e x (k x))
| step_handler_returns s :
    0 < handlers s →
    step s (Sys (web_threads s - 1) (handlers s - 1) (panicked s) (listening s))
| step_handler_panics s :
    0 < handlers s →
    step s (Sys (web_threads s) (handlers s - 1) (S (panicked s)) (listening s)).

Definition start (fuel : nat) (w : world) : sys := Sys 0 0 0 (allgres_web_main fuel w).

(** Any number of steps. *)
Inductive steps : sys → sys → Prop :=
| steps_refl s : steps s s
| steps_step s1 s2 s3 : step s1 s2 → steps s2 s3 → steps s1 s3.

Lemma steps_trans s1 s2 s3 : steps s1 s2 → steps s2 s3 → steps s1 s3.
Proof. induction 1; [done|]. intros. econstructor; eauto. Qed.

Definition reachable (fuel : nat) (w : world) : sys → Prop := steps (start fuel w).

(** * The listener's side of the protocol *)

(** Where the listener is in admitting a connection. *)
Inductive phase : Type :=
| Outside
| Loaded (n : nat)     (* the counter was [n] when it was read *)
| Counted              (* counted in, not yet spawned *)
| SpawnFailed.

Definition pnext (p : phase) X (e : aop X) : X → phase :=
  match e in aop X return X → phase with
  | LoadThreads => λ n, Loaded n
  | AddThread => λ _, Counted
  | Spawn _ => λ ok, if (ok : bool) then Outside else SpawnFailed
  | SubThread => λ _, Outside
  | _ => λ _, match p with Loaded _ => Outside | _ => p end
  end.

Definition pallowed (p : phase) X (e : aop X) : Prop :=
  match e with
  | LoadThreads => p = Outside
  | AddThread => ∃ n, p = Loaded n ∧ n < MAX_WEB_THREADS
  | Spawn _ => p = Counted
  | SubThread => p = SpawnFailed
  | _ => match p with Counted | SpawnFailed => False | _ => True end
  end.

Definition admission : monitor aop := Monitor phase pallowed pnext.

Lemma admission_round cfg :
  wpr admission (web_accept_round cfg tt) (λ p _, p = Outside) Outside.
Proof.
  unfold web_accept_round. apply wpr_bind, wpr_op; [done|]. intros [| |e].
  - apply wpr_bind, wpr_op; [done|]. intros n. destruct (Nat.leb_spec MAX_WEB_THREADS n).
    + apply wpr_bind, wpr_op; [done|]. intros []. by apply wpr_ret.
    + apply wpr_bind, wpr_op; [by exists n|]. intros [].
      apply wpr_bind, wpr_op; [done|]. intros []; [by apply wpr_ret|].
      apply wpr_bind, wpr_op; [done|]. intros []. by apply wpr_ret.
  - by apply wpr_ret.
  - apply wpr_bind, wpr_op; [done|]. intros []. by apply wpr_ret.
Qed.

Lemma admission_loop fuel cfg :
  wpr admission (loop fuel (web_accept_round cfg) tt) (λ p _, p = Outside) Outside.
Proof.
  apply (wpr_loop admission (λ p _, p = Outside)); [done| |done|done].
  intros p [] ->. eapply wpr_mono; [apply admission_round|]. done.
Qed.

Lemma admission_main fuel w :
  wpr admission (allgres_web_main fuel w) (λ p _, p = Outside) Outside.
Proof.
  unfold allgres_web_main. cbn zeta. case_match; [|by apply wpr_op].
  apply wpr_bind, wpr_op; [done|]. intros [[]|e]; [|by apply wpr_op].
  apply wpr_bind, wpr_op; [done|]. intros [[]|e]; [|by apply wpr_op].
  apply wpr_bind. apply (wpr_loop admission (λ p _, p = Outside)); [done| | |].
  - intros p [] ->. unfold web_turn. apply wpr_bind, wpr_op; [done|]. intros []; [|by apply wpr_ret].
    apply wpr_bind. eapply wpr_mono; [apply admission_loop|]. intros ? o ->. by apply wpr_ret.
  - intros p [] ->. by apply wpr_ret.
  - intros p [] ->. by apply wpr_ret.
Qed.

(** * The invariant *)

(** The counter is the handlers that run, those that panicked, and the one
    being admitted. *)
Definition counts (p : phase) (s : sys) : Prop :=
  web_threads s
    = handlers s + panicked s + match p with Counted | SpawnFailed => 1 | _ => 0 end
  ∧ web_threads s ≤ MAX_WEB_THREADS
  ∧ match p with Loaded n => web_threads s ≤ n | _ => True end.

Definition consistent (s : sys) : Prop :=
  ∃ p, counts p s ∧ wp admission (listening s) (λ _ _, True) p.

Lemma start_consistent fuel w : consistent (start fuel w).
Proof.
  exists Outside. split; [by split_and!; simpl; unfold MAX_WEB_THREADS; try lia|].
  eapply wp_mono; [|apply admission_main]. done.
Qed.

Lemma step_consistent s s' : consistent s → step s s' → consistent s'.
Proof.
  intros (p & Hc & Hw) Hstep. destruct Hstep as [s X e k x Hl Ha|s Hh|s Hh].
  - rewrite Hl in Hw. destruct Hw as [Hallow Hk]. exists (pnext p X e x).
    destruct Hc as (H1 & H2 & H3).
    split; [|destruct e; apply Hk].
    destruct e; simpl in *; try (destruct p; by split_and!).
    + subst. by split_and!.
    + destruct Hallow as (n & -> & Hn). split_and!; simpl; lia.
    + subst. split_and!; simpl; lia.
    + subst. destruct x; split_and!; simpl; lia.
  - exists p. destruct Hc as (H1 & H2 & H3). split; [|done].
    split_and!; simpl; [lia|lia|]. destruct p; try done. lia.
  - exists p. destruct Hc as (H1 & H2 & H3). split; [|done]. split_and!; simpl; [lia|lia|done].
Qed.

Lemma reachable_consistent fuel w s : reachable fuel w s → consistent s.
Proof.
  intros Hr. pose proof (start_consistent fuel w) as H0. revert H0.
  induction Hr as [|s1 s2 s3 Hs _ IH]; [done|]. intros H1. by eapply IH, step_consistent.
Qed.

(** * Claims *)

Lemma handlers_count fuel w s :
  reachable fuel w s →
  handlers s + panicked s ≤ web_threads s ≤ MAX_WEB_THREADS
  ∧ web_threads s ≤ handlers s + panicked s + 1.
Proof.
  intros Hr. destruct (reachable_consistent _ _ _ Hr) as (p & (H1 & H2 & _) & _).
  destruct p; lia.
Qed.

(** C19: however handlers and the accept loop interleave, at most 64 handlers
    run at once, and the counter is always the number of handlers that run or
    panicked, plus the one connection being admitted. *)
Theorem handlers_bounded fuel w s :
  reachable fuel w s →
  handlers s + panicked s ≤ web_threads s ≤ MAX_WEB_THREADS
  ∧ web_threads s ≤ handlers s + panicked s + 1.
Proof. apply handlers_count. Qed.

(** C38: a handler that panics is counted for ever: once 64 have, the accept loop
    never starts a handler again. *)
Theorem panics_close_the_door fuel w s s' :
  reachable fuel w s → panicked s = MAX_WEB_THREADS → steps s s' →
  handlers s' = 0 ∧ web_threads s' = MAX_WEB_THREADS.
Proof.
  intros Hr Hp Hs.
  assert (reachable fuel w s') as Hr' by (by eapply steps_trans).
  assert (panicked s ≤ panicked s') as Hmono.
  { clear Hr Hr' Hp. induction Hs as [|s1 s2 s3 H12 _ IH]; [done|].
    enough (panicked s1 ≤ panicked s2) by lia.
    destruct H12 as [s X e k x _ _| |]; [destruct e|..]; simpl; lia. }
  destruct (handlers_count _ _ _ Hr') as [[H1 H2] H3]. lia.
Qed.

(** An empty environment. *)
Definition nowhere : world := World (λ _, None) None (bs "/tmp").

(** A schedule for the witnesses: every connection is admitted, and every
    handler panics at once. *)
Definition hostile (s : sys) X (e : aop X) : X :=
  match e in aop X return X with
  | Warn _ | Reply _ | AddThread | SubThread => tt
  | BindTcp _ | Nonblocking => Ok tt
  | Latch => true
  | Accept => TcpConnection
  | LoadThreads => web_threads s
  | Spawn _ => true
  end.

Definition drive (s : sys) : sys :=
  match handlers s with
  | S _ => Sys (web_threads s) (handlers s - 1) (S (panicked s)) (listening s)
  | 0 =>
      match listening s with
      | Do e k => perform s _ e (hostile s _ e) (k (hostile s _ e))
      | Done _ => s
      end
  end.

Lemma drive_steps n s : steps s (Nat.iter n drive s).
Proof.
  induction n as [|n IH]; [constructor|]. eapply steps_trans; [exact IH|].
  change (Nat.iter (S n) drive s) with (drive (Nat.iter n drive s)).
  generalize (Nat.iter n drive s) as s0. clear s IH. intros s. unfold drive.
  destruct (handlers s) eqn:Hh.
  - destruct (listening s) as [a|X e k] eqn:Hl; [constructor|].
    eapply steps_step; [|constructor]. constructor; [done|]. by destruct e.
  - eapply steps_step; [|constructor]. rewrite <- Hh. apply step_handler_panics. lia.
Qed.

Definition door_closed : sys := Nat.iter 330 drive (start 100 nowhere).

Lemma panics_close_the_door_witness :
  panicked door_closed = MAX_WEB_THREADS
  ∧ web_threads (Nat.iter 10 drive door_closed) = MAX_WEB_THREADS.
Proof.
  assert (panicked door_closed = MAX_WEB_THREADS) as Hp by (vm_compute; reflexivity).
  split; [exact Hp|].
  apply (panics_close_the_door 100 nowhere door_closed); [|exact Hp|].
  - apply (drive_steps 330 (start 100 nowhere)).
  - apply (drive_steps 10 door_closed).
Defined.

Lemma handlers_bounded_witness :
  let s := Nat.iter 7 drive (start 100 nowhere) in
  handlers s = 1 ∧ handlers s + panicked s ≤ web_threads s ≤ MAX_WEB_THREADS.
Proof.
  split; [vm_compute; reflexivity|].
  apply (handlers_bounded 100 nowhere).
  apply (drive_steps 7 (start 100 nowhere)).
Defined.
