(* ===== verification/Exposure.v ===== *)
(** The address the web worker binds (src/src/web.rs): which address texts count
    as loopback, written out without the code's own test, and the guard against
    an agent console that is open to the network. *)
From S2P Require Import Prelude RustStr Ascii Effects Config Web.

(** * Trimming and searching *)

Lemma trim_start_loop_spec c fuel s :
  length s ≤ fuel →
  ∃ n, s = replicate n c ++ trim_start_loop fuel [c] s ∧ head (trim_start_loop fuel [c] s) ≠ Some c.
Proof.
  revert s. induction fuel as [|f IH]; intros s Hl.
  { exists 0. by destruct s; simpl in Hl; [|lia]. }
  cbn [trim_start_loop]. destruct (strip_prefix [c] s) as [s'|] eqn:E.
  - apply strip_prefix_spec in E as ->. simpl in Hl. destruct (IH s') as (n & Hs & Hh); [lia|].
    exists (S n). split; [|done]. simpl. by rewrite <- Hs.
  - exists 0. split; [done|]. destruct s as [|b s]; [done|]. intros [= ->].
    assert (strip_prefix [c] (c :: s) = Some s) by by apply strip_prefix_spec. congruence.
Qed.

Lemma trim_start_spec c s :
  ∃ n, s = replicate n c ++ trim_start_matches [c] s ∧ head (trim_start_matches [c] s) ≠ Some c.
Proof. by apply trim_start_loop_spec. Qed.

Lemma trim_end_spec c s :
  ∃ n, s = trim_end_byte c s ++ replicate n c ∧ last (trim_end_byte c s) ≠ Some c.
Proof.
  unfold trim_end_byte. destruct (trim_start_spec c (reverse s)) as (n & Hs & Hh). exists n.
  split; [|by rewrite last_reverse]. apply (inj reverse).
  rewrite reverse_app, reverse_involutive, reverse_replicate. done.
Qed.

(** Copies of a byte in front of a text that begins otherwise are told apart. *)
Lemma replicate_app_inv (c : byte) m n s t :
  head s ≠ Some c → head t ≠ Some c → replicate m c ++ s = replicate n c ++ t → s = t.
Proof.
  revert n. induction m as [|m IH]; intros [|n] Hs Ht H; simpl in H; [done|by subst..|].
  injection H as H. by eapply IH.
Qed.

Lemma trim_start_app c n s : head s ≠ Some c → trim_start_matches [c] (replicate n c ++ s) = s.
Proof.
  intros Hs. destruct (trim_start_spec c (replicate n c ++ s)) as (k & Hk & Hh).
  symmetry in Hk. by apply replicate_app_inv in Hk.
Qed.

Lemma rfind_byte_spec c s :
  match rfind_byte c s with
  | Some i => ∃ a b, s = a ++ c :: b ∧ i = length a ∧ c ∉ b
  | None => c ∉ s
  end.
Proof.
  induction s as [|b s IH]; simpl; [by apply not_elem_of_nil|].
  destruct (rfind_byte c s) as [i|].
  - destruct IH as (a & d & -> & -> & Hd). by exists (b :: a), d.
  - case_decide as Hb; [subst; by exists [], s|]. set_solver.
Qed.

Lemma rfind_byte_here c a b : c ∉ b → rfind_byte c (a ++ c :: b) = Some (length a).
Proof.
  intros Hb. induction a as [|x a IH]; simpl; [|by rewrite IH].
  pose proof (rfind_byte_spec c b) as H. destruct (rfind_byte c b) as [i|]; [|by rewrite decide_True].
  destruct H as (u & v & -> & _). set_solver.
Qed.

(** * Loopback addresses *)

(** The host texts that count as loopback: three names, and every text that
    begins like an address of 127.0.0.0/8. *)
Definition loopback_host (host : bytes) : Prop :=
  host = bs "127.0.0.1" ∨ host = bs "::1" ∨ host = bs "localhost" ∨ ∃ rest, host = bs "127." ++ rest.

(** An address text: a host, in any number of brackets, and behind the last
    colon a port. *)
Definition names_host (addr host : bytes) : Prop :=
  ∃ m n port, addr = replicate m x5b ++ host ++ replicate n x5d ++ port
    ∧ ((port = [] ∧ x3a ∉ addr) ∨ ∃ p, port = x3a :: p ∧ x3a ∉ p).

Definition loopback_text (addr : bytes) : Prop := ∃ host, names_host addr host ∧ loopback_host host.

Definition loopback_test (host : bytes) : bool :=
  bool_decide (host = bs "127.0.0.1") || bool_decide (host = bs "::1")
  || bool_decide (host = bs "localhost") || starts_with (bs "127.") host.

Lemma loopback_test_spec host : loopback_test host = true ↔ loopback_host host.
Proof.
  unfold loopback_test, loopback_host. rewrite !orb_true_iff, !bool_decide_eq_true, starts_with_spec. tauto.
Qed.

Lemma loopback_host_head host : loopback_host host → head host ≠ Some x5b.
Proof. by intros [-> | [-> | [-> | [rest ->]]]]. Qed.

Lemma loopback_host_trim host n :
  loopback_host host → loopback_host (trim_end_byte x5d (host ++ replicate n x5d)).
Proof.
  intros Hh. destruct (trim_end_spec x5d (host ++ replicate n x5d)) as (k & Hk & Hlast).
  set (t := trim_end_byte _ _) in *. clearbody t.
  assert (∀ a r, a ++ r = t ++ replicate k x5d → x5d ∉ a → ∃ r', t = a ++ r') as Hpre.
  { intros a r H Ha. apply app_eq_inv in H as [(u & -> & Hu)|(u & -> & _)]; [|by exists u].
    destruct u as [|x u]; [exists []; by rewrite !app_nil_r|]. exfalso.
    destruct k; simpl in Hu; [done|]. injection Hu as <- _. set_solver. }
  assert (∀ a, host = a → x5d ∉ a → last a ≠ Some x5d → t = a) as Hsame.
  { intros a -> Ha Hla. apply (inj reverse). apply (replicate_app_inv x5d k n).
    - by rewrite head_reverse.
    - by rewrite head_reverse.
    - apply (f_equal reverse) in Hk. by rewrite !reverse_app, !reverse_replicate in Hk. }
  destruct Hh as [H|[H|[H|[rest H]]]].
  - left. apply Hsame; [done|by_decide..].
  - right; left. apply Hsame; [done|by_decide..].
  - right; right; left. apply Hsame; [done|by_decide..].
  - right; right; right. subst. rewrite <- app_assoc in Hk. apply (Hpre _ _ Hk). by_decide.
Qed.

(** The code's test accepts exactly these. *)
Lemma is_loopback_addr_spec addr : is_loopback_addr addr = true ↔ loopback_text addr.
Proof.
  unfold is_loopback_addr. cbn zeta.
  set (body := match rfind_byte x3a addr with Some i => take i addr | None => addr end).
  change (loopback_test (trim_end_byte x5d (trim_start_matches [x5b] body)) = true ↔ loopback_text addr).
  rewrite loopback_test_spec. split.
  - intros Hh. destruct (trim_start_spec x5b body) as (m & Hm & _).
    destruct (trim_end_spec x5d (trim_start_matches [x5b] body)) as (n & Hn & _).
    rewrite Hn in Hm. eexists. split; [|exact Hh].
    pose proof (rfind_byte_spec x3a addr) as Hr. unfold body in Hm at 1.
    destruct (rfind_byte x3a addr) as [i|].
    + destruct Hr as (a & b & -> & -> & Hb). rewrite take_app_length in Hm.
      exists m, n, (x3a :: b). split; [|right; by exists b]. rewrite Hm at 1. by rewrite <- !app_assoc.
    + exists m, n, []. split; [|by left]. rewrite app_nil_r. exact Hm.
  - intros (host & (m & n & port & Ha & Hp) & Hh).
    assert (body = replicate m x5b ++ host ++ replicate n x5d) as ->.
    { unfold body. destruct Hp as [[-> Hc]|(p & -> & Hc)].
      - pose proof (rfind_byte_spec x3a addr) as Hr. destruct (rfind_byte x3a addr) as [i|].
        + destruct Hr as (a & b & Hab & _). rewrite Hab in Hc. set_solver.
        + rewrite Ha. by rewrite app_nil_r.
      - rewrite Ha, !app_assoc, rfind_byte_here by done. by rewrite take_app_length. }
    rewrite trim_start_app; [by apply loopback_host_trim|].
    destruct host; [by destruct Hh as [?|[?|[?|[? ?]]]]|]. by apply loopback_host_head in Hh.
Qed.

(** An IPv4 address with a port, as its octets are written. *)
Definition dotted (a b c d : byte) : bytes :=
  decimal (u8 a) ++ bs "." ++ decimal (u8 b) ++ bs "." ++ decimal (u8 c) ++ bs "." ++ decimal (u8 d).

Lemma dot_inv (x y r r' : bytes) :
  Forall (λ b, is_ascii_digit b = true) x → Forall (λ b, is_ascii_digit b = true) y →
  x ++ bs "." ++ r = y ++ bs "." ++ r' → x = y.
Proof.
  intros Hx. revert y. induction Hx as [|b x Hb Hx IH]; intros y Hy H; destruct Hy as [|c y Hc Hy];
    [done|by simplify_eq/=|by simplify_eq/=|].
  injection H as -> H. f_equal. by eapply IH.
Qed.

Lemma digits_no c s : is_ascii_digit c = false → Forall (λ b, is_ascii_digit b = true) s → c ∉ s.
Proof. intros Hc Hs Hin. rewrite Forall_forall in Hs. apply Hs in Hin. congruence. Qed.

(** Of the numeric addresses, only those of 127.0.0.0/8 are loopback texts. *)
Lemma loopback_dotted a b c d port :
  x3a ∉ port → loopback_text (dotted a b c d ++ x3a :: port) → u8 a = 127%N.
Proof.
  intros Hp Hl. apply is_loopback_addr_spec in Hl. unfold is_loopback_addr in Hl. cbn zeta in Hl.
  rewrite rfind_byte_here, take_app_length in Hl by done.
  pose proof (decimal_digit (u8 a)) as Ha. pose proof (decimal_digit (u8 d)) as Hd.
  pose proof (decimal_nonempty (u8 a)) as Hna. pose proof (decimal_nonempty (u8 d)) as Hnd.
  assert (trim_start_matches [x5b] (dotted a b c d) = dotted a b c d) as Ht.
  { apply (trim_start_app x5b 0). unfold dotted. destruct (decimal (u8 a)); [done|].
    apply Forall_cons in Ha as [Ha _]. by intros [= ->]. }
  assert (trim_end_byte x5d (dotted a b c d) = dotted a b c d) as He.
  { unfold trim_end_byte. rewrite <- (reverse_involutive (dotted a b c d)) at 2. f_equal.
    apply (trim_start_app x5d 0). rewrite head_reverse. unfold dotted. rewrite !app_assoc, last_app.
    destruct (last (decimal (u8 d))) as [x|] eqn:E; [|by apply last_None in E].
    intros [= ->]. apply last_Some in E as [l E]. rewrite E in Hd.
    apply Forall_app in Hd as [_ Hd]. apply Forall_cons in Hd as [Hd _]. discriminate Hd. }
  rewrite Ht, He in Hl. change (loopback_test (dotted a b c d) = true) in Hl.
  apply loopback_test_spec in Hl. unfold dotted in Hl.
  assert (decimal (u8 a) = bs "127") as Heq.
  { destruct Hl as [H|[H|[H|[r H]]]].
    - by apply (dot_inv _ (bs "127") _ (bs "0.0.1")) in H; [|done|by_decide].
    - destruct (decimal (u8 a)); [done|]. injection H as -> _. by apply Forall_cons in Ha as [? _].
    - destruct (decimal (u8 a)); [done|]. injection H as -> _. by apply Forall_cons in Ha as [? _].
    - by apply (dot_inv _ (bs "127") _ r) in H; [|done|by_decide]. }
  pose proof (decimal_read 255 (u8 a) ltac:(pose proof (u8_bound a); lia) ltac:(done)) as Hr.
  rewrite Heq in Hr. change (Some 127%N = Some (u8 a)) in Hr. congruence.
Qed.

(** Of names they are more: any name that begins with [127.] passes, wherever
    it leads. *)
Example loopback_by_name : is_loopback_addr (bs "127.example.com:8088") = true.
Proof. reflexivity. Qed.

(** * Exposure *)

(** The combination that would be an open console: an address that is no
    loopback text, no token, and no word that the network protects the port. *)
Definition open_console (w : world) : Prop :=
  ¬ loopback_text (configured_http_addr (env w))
  ∧ token (web_config w) = []
  ∧ env w (bs "ALLGRES_ALLOW_INSECURE_HTTP") ≠ Some (bs "1").

Lemma check_exposure_spec w :
  (∃ msg, check_exposure (env w) (configured_http_addr (env w))
            (token (web_config w)) = Err msg) ↔ open_console w.
Proof.
  unfold check_exposure, open_console. rewrite <- is_loopback_addr_spec. generalize (token (web_config w)).
  intros t. destruct (is_loopback_addr _); simpl; [naive_solver|].
  case_bool_decide; simpl; [|naive_solver]. case_decide; naive_solver.
Qed.

(** Whether the port is bound. The listener binds its own address, not in an
    open console; it takes and answers connections on a bound port, and gives
    handlers the configuration it was checked with. *)
Definition bound_next (b : bool) X (e : aop X) : X → bool :=
  match e in aop X return X → bool with
  | BindTcp _ => λ r, match r with Ok _ => true | Err _ => false end
  | _ => λ _, b
  end.

Definition bound_allowed (w : world) (b : bool) X (e : aop X) : Prop :=
  match e with
  | BindTcp addr => addr = configured_http_addr (env w) ∧ ¬ open_console w
  | Accept | Reply _ => b = true
  | Spawn cfg => b = true ∧ cfg = web_config w
  | _ => True
  end.

Definition exposure (w : world) : monitor aop := Monitor bool (bound_allowed w) bound_next.

Lemma exposure_round w (Q : bool → unit * bool → Prop) :
  (∀ a, Q true a) →
  wpr (exposure w) (web_accept_round (web_config w) tt) Q true.
Proof.
  intros HQ. unfold web_accept_round.
  apply wpr_bind, wpr_op; [done|]. intros [| |e]; [|by apply wpr_ret|].
  - apply wpr_bind, wpr_op; [done|]. intros n. case_match;
      (apply wpr_bind, wpr_op; [done|]; intros []); [by apply wpr_ret|].
    apply wpr_bind, wpr_op; [done|]. intros []; [by apply wpr_ret|].
    apply wpr_bind, wpr_op; [done|]. intros []. by apply wpr_ret.
  - apply wpr_bind, wpr_op; [done|]. intros []. by apply wpr_ret.
Qed.

(** C23: the web worker opens an agent console only where it was told to: it
    binds the configured address, and only when its host is written
    [127.0.0.1], [::1], [localhost] or begins with [127.], or a token is set, or
    the insecure mode was asked for by name; otherwise all it does is to warn.
    In particular it does so for every numeric address outside 127.0.0.0/8.
    Connections are taken only on a bound port, and handlers get the token that
    was checked. *)
Theorem exposure_guarded fuel w tr r :
  runs (allgres_web_main fuel w) tr (Returned r) →
  accepts (exposure w) false tr
  ∧ (open_console w → ∃ msg, tr = [Event unit (Warn msg) tt])
  ∧ (token (web_config w) = [] → env w (bs "ALLGRES_ALLOW_INSECURE_HTTP") ≠ Some (bs "1") →
     ∀ a b c d port, configured_http_addr (env w) = dotted a b c d ++ x3a :: port → x3a ∉ port →
     u8 a ≠ 127%N → ∃ msg, tr = [Event unit (Warn msg) tt]).
Proof.
  intros Hr.
  assert (open_console w → ∃ msg, tr = [Event unit (Warn msg) tt]) as Hwarn; [|split; [|split; [done|]]].
  - intros Ho. apply check_exposure_spec in Ho as [msg Hmsg]. exists (bs "Allgres web: " ++ msg).
    unfold allgres_web_main in Hr. cbn zeta in Hr. rewrite Hmsg in Hr.
    apply runs_inv in Hr as ([] & tr' & -> & Hr). by apply runs_inv in Hr as [-> _].
  - eapply (wpr_runs (exposure w) _ (λ _ _, True)); [|exact Hr].
    unfold allgres_web_main. cbn zeta.
    destruct (check_exposure _ _ _) as [[]|msg] eqn:Hc; [|by apply wpr_op].
    apply wpr_bind, wpr_op.
    { split; [done|]. rewrite <- check_exposure_spec, Hc. by intros [? ?]. }
    intros [[]|e]; [|by apply wpr_op]. apply wpr_bind, wpr_op; [done|]. intros [[]|e]; [|by apply wpr_op].
    apply wpr_bind. apply (wpr_loop (exposure w) (λ b _, b = true)); [done| |by intros; apply wpr_ret..].
    intros b [] ->. unfold web_turn. apply wpr_bind, wpr_op; [done|]. intros []; [|by apply wpr_ret].
    apply wpr_bind. apply (wpr_loop (exposure w) (λ b _, b = true)); [done| |by intros ? ? ->; apply wpr_ret..].
    intros b [] ->. by apply exposure_round.
  - intros Ht Hi a b c d port Haddr Hp Ha. apply Hwarn. split_and!; [|done..]. rewrite Haddr.
    intros Hl. by apply Ha, (loopback_dotted a b c d port).
Qed.

(** A public address in the environment and nothing else. *)
Definition public : world :=
  World (λ k, if decide (k = bs "ALLGRES_HTTP_ADDR") then Some (bs "0.0.0.0:80") else None) None (bs "/tmp").

Lemma exposure_guarded_witness :
  open_console public
  ∧ ∃ tr msg, runs (allgres_web_main 5 public) tr (Returned tt) ∧ tr = [Event unit (Warn msg) tt].
Proof.
  assert (open_console public) as Ho.
  { split_and!; [|reflexivity|done]. rewrite <- is_loopback_addr_spec. by vm_compute. }
  split; [exact Ho|].
  destruct (check_exposure (env public) (configured_http_addr (env public)) []) as [|msg] eqn:Hc;
    [vm_compute in Hc; discriminate|].
  assert (runs (allgres_web_main 5 public) [Event unit (Warn (bs "Allgres web: " ++ msg)) tt] (Returned tt)) as Hr.
  { unfold allgres_web_main. cbn zeta.
    change (token (web_config _)) with (@nil byte). rewrite Hc. constructor. constructor. }
  exists [Event unit (Warn (bs "Allgres web: " ++ msg)) tt].
  destruct (proj1 (proj2 (exposure_guarded 5 public _ tt Hr)) Ho) as [m Hm]. exists m. by split.
Defined.
