(* ===== verification/WebShared.v ===== *)
(** The web worker's connection threads on their shared state: any number of
    threads, each at its own place in [handle_web_connection], take one
    operation at a time. Critical sections act on the one [web_state] and the
    one clock; every other operation is answered by the outside world. *)
From S2P Require Import Prelude RustStr Json Net WebState HttpProtocol Effects Config Web.

(** * Interleaving *)

Record wsys : Type := WSys {
  clock : Z;
  shared : web_state;
  threads : list (prog hop (exn (option unit)));   (* what is left of each *)
  log : list (event hop)                           (* what they did, newest first *)
}.

(** What an operation may be answered, and the shared state after it. *)
Definition answers (s : wsys) X (e : hop X) (x : X) (st : web_state) : Prop :=
  match serve X e (clock s) (shared s) with
  | Some (x', st') => x = x' ∧ st = st'
  | None =>
      st = shared s
      ∧ match e in hop X return X → Prop with HNow => λ now, now = clock s | _ => λ _, True end x
  end.

Section threads.
Context (json_text : Value → bytes) (json_parse : bytes → option Value) (html : bytes).
Context (fuel : nat) (cfg : WebConfig).

Inductive wstep : wsys → wsys → Prop :=
| wstep_time s d :
    (0 ≤ d)%Z → wstep s (WSys (clock s + d) (shared s) (threads s) (log s))
| wstep_accept s :
    wstep s (WSys (clock s) (shared s)
               (threads s ++ [handle_web_connection json_text json_parse html fuel cfg]) (log s))
| wstep_thread s before after X (e : hop X) k x st :
    threads s = before ++ Do e k :: after → answers s X e x st →
    wstep s (WSys (clock s) st (before ++ k x :: after) (Event X e x :: log s)).

Inductive wsteps : wsys → wsys → Prop :=
| wsteps_refl s : wsteps s s
| wsteps_step s1 s2 s3 : wstep s1 s2 → wsteps s2 s3 → wsteps s1 s3.

Definition wsys0 (now : Z) : wsys := WSys now web_state0 [] [].

Lemma wsteps_trans s1 s2 s3 : wsteps s1 s2 → wsteps s2 s3 → wsteps s1 s3.
Proof. induction 1; [done|]. intros. econstructor; eauto. Qed.

End threads.

(** * Histories *)

(** What an event contributes to the histories of [WebState]. *)
Definition ticket_op (ev : event hop) : list (Z * Tickets.top) :=
  match ev_op ev with
  | MintTicket t now s => [(now, Tickets.Mint t s)]
  | ValidTicket t now => [(now, Tickets.Peek t)]
  | ConsumeTicket t now => [(now, Tickets.Consume t)]
  | _ => []
  end.

Definition rate_op (ev : event hop) : list (Z * IpAddr) :=
  match ev_op ev in hop X return X → list (Z * IpAddr) with
  | RateLimited ip => λ r, [(r.1, ip)]
  | _ => λ _, []
  end (ev_val ev).

Definition lock_op (ev : event hop) : list (Z * Lockout.lop) :=
  match ev_op ev in hop X return X → list (Z * Lockout.lop) with
  | LockedOut ip => λ r, [(r.1, Lockout.Query ip)]
  | RecordFailure ip => λ t, [(t, Lockout.Failure ip)]
  | _ => λ _, []
  end (ev_val ev).

Definition ticket_ops (l : list (event hop)) : list (Z * Tickets.top) := flat_map ticket_op l.
Definition rate_ops (l : list (event hop)) : list (Z * IpAddr) := flat_map rate_op l.
Definition lock_ops (l : list (event hop)) : list (Z * Lockout.lop) := flat_map lock_op l.

(** The general window, over the history of requests. *)
Definition may_pass (ip : IpAddr) (t : Z) (l : list (event hop)) : bool :=
  Rates.allowed_now RATE_GENERAL_WINDOW RATE_GENERAL_LIMIT ip t (rate_ops l).

Definition locked (ip : IpAddr) (t : Z) (l : list (event hop)) : bool :=
  (RATE_AUTH_FAIL_LIMIT <=?
     length (recent RATE_AUTH_FAIL_WINDOW t (Lockout.failures ip (lock_ops l))))%nat.

(** The answer an event got is the one the events before it call for. *)
Definition foretold (l : list (event hop)) (ev : event hop) : Prop :=
  match ev_op ev in hop X return X → Prop with
  | RateLimited ip => λ r, r.2 = negb (may_pass ip r.1 l)
  | LockedOut ip => λ r, r.2 = locked ip r.1 l
  | ValidTicket t now => λ b,
      b = (WebState.valid_sse_ticket now t (Tickets.replay (ticket_ops l))).1
  | ConsumeTicket t now => λ o,
      o = (WebState.consume_sse_ticket now t (Tickets.replay (ticket_ops l))).1
  | _ => λ _, True
  end (ev_val ev).

Fixpoint log_ok (l : list (event hop)) : Prop :=
  match l with
  | [] => True
  | ev :: l' => foretold l' ev ∧ log_ok l'
  end.

(** * The invariant *)

Definition coherent (s : wsys) : Prop :=
  sse_tickets (shared s) = Tickets.replay (ticket_ops (log s))
  ∧ general (rate_limit (shared s))
    = Rates.replay RATE_GENERAL_WINDOW RATE_GENERAL_LIMIT (rate_ops (log s))
  ∧ auth_fail (rate_limit (shared s)) = auth_fail (Lockout.replay (lock_ops (log s)))
  ∧ Rates.in_order (clock s) (rate_ops (log s))
  ∧ Lockout.in_order (clock s) (lock_ops (log s))
  ∧ log_ok (log s).

Lemma rates_in_order_mono now now' h :
  (now ≤ now')%Z → Rates.in_order now h → Rates.in_order now' h.
Proof. destruct h as [|[t ip] h]; [done|]. intros Hle [? ?]. split; [lia|done]. Qed.

Lemma lockout_in_order_mono now now' h :
  (now ≤ now')%Z → Lockout.in_order now h → Lockout.in_order now' h.
Proof. destruct h as [|[t ip] h]; [done|]. intros Hle [? ?]. split; [lia|done]. Qed.

Lemma lockout_answer ip t w l :
  auth_fail w = auth_fail (Lockout.replay (lock_ops l)) → Lockout.in_order t (lock_ops l) →
  (auth_failures_exceeded ip t w).1 = locked ip t l.
Proof.
  intros Hw Hin. unfold locked. rewrite <- (lockout_exact (lock_ops l) ip t Hin).
  unfold auth_failures_exceeded. cbn [fst]. by rewrite Hw.
Qed.

(** One critical section, or one operation on the outside. *)
Lemma answer_coherent s X (e : hop X) x st th :
  coherent s → answers s X e x st → coherent (WSys (clock s) st th (Event X e x :: log s)).
Proof.
  intros (Ht & Hg & Ha & Hr & Hl & Hok) Hans. unfold answers in Hans. unfold coherent.
  cbn [clock shared log]. destruct e; cbn [serve] in Hans;
    try (destruct Hans as [-> _]; by split_and!).
  - (* rate_limited *)
    unfold rate_limited in Hans. pose proof (Rates.rate_check_allowed RATE_GENERAL_WINDOW
      RATE_GENERAL_LIMIT (rate_ops (log s)) ip (clock s) Hr) as Hallow. rewrite <- Hg in Hallow.
    destruct (rate_check _ ip (clock s) _ _) as [ok g] eqn:E. destruct Hans as [-> ->].
    split_and!; try done; [|].
    + cbn. fold (rate_ops (log s)). by rewrite <- Hg, E.
    + split; [|done]. unfold foretold, may_pass. cbn. cbn in Hallow. by rewrite Hallow.
  - (* auth_failures_exceeded *)
    pose proof (lockout_answer ip (clock s) _ _ Ha Hl) as Hlock.
    destruct (auth_failures_exceeded ip (clock s) (rate_limit (shared s))) as [b w] eqn:E.
    destruct Hans as [-> ->]. unfold auth_failures_exceeded in E. injection E as <- <-.
    split_and!; try done.
    cbn. fold (lock_ops (log s)). by rewrite Ha.
  - (* record_auth_failure *)
    destruct Hans as [-> ->]. split_and!; try done. cbn. fold (lock_ops (log s)). by rewrite Ha.
  - destruct Hans as [-> ->]. split_and!; try done. cbn. fold (ticket_ops (log s)). by rewrite Ht.
  - destruct Hans as [-> ->]. split_and!; try done.
    + cbn. fold (ticket_ops (log s)). by rewrite Ht.
    + split; [|done]. unfold foretold. cbn [ev_op ev_val]. by rewrite <- Ht.
  - destruct Hans as [-> ->]. split_and!; try done.
    + cbn. fold (ticket_ops (log s)). by rewrite Ht.
    + split; [|done]. unfold foretold. cbn [ev_op ev_val]. by rewrite <- Ht.
Qed.

Section reachable.
Context (json_text : Value → bytes) (json_parse : bytes → option Value) (html : bytes).
Context (fuel : nat) (cfg : WebConfig).

Lemma wstep_coherent s s' :
  coherent s → wstep json_text json_parse html fuel cfg s s' → coherent s'.
Proof.
  intros Hc Hstep. destruct Hstep as [s d Hd|s|s b a X e k x st _ Hans].
  - destruct Hc as (H1 & H2 & H3 & H4 & H5 & H6). split_and!; try done; cbn [clock log].
    + eapply rates_in_order_mono; [|done]. lia.
    + eapply lockout_in_order_mono; [|done]. lia.
  - exact Hc.
  - by apply answer_coherent.
Qed.

Lemma wsteps_coherent now s :
  wsteps json_text json_parse html fuel cfg (wsys0 now) s → coherent s.
Proof.
  assert (coherent (wsys0 now)) as H0 by done. revert H0. generalize (wsys0 now).
  intros s0 H0 Hs. induction Hs as [|s1 s2 s3 H12 _ IH]; [done|]. by eapply IH, wstep_coherent.
Qed.

End reachable.

Lemma log_ok_at later ev l : log_ok (later ++ ev :: l) → foretold l ev.
Proof. induction later as [|e later IH]; cbn [app log_ok]; [by intros [? _]|]. intros [_ H]. auto. Qed.

(** ** Requests that pass *)

(** The times at which requests of [ip] were let through. *)
Definition pass_of (ip : IpAddr) (ev : event hop) : list Z :=
  match ev_op ev in hop X return X → list Z with
  | RateLimited ip' => λ r, if decide (ip' = ip ∧ r.2 = false) then [r.1] else []
  | _ => λ _, []
  end (ev_val ev).

Definition passes_of (ip : IpAddr) (l : list (event hop)) : list Z := flat_map (pass_of ip) l.

Lemma passes_passed ip l :
  log_ok l → passes_of ip l = Rates.passed RATE_GENERAL_WINDOW RATE_GENERAL_LIMIT ip (rate_ops l).
Proof.
  induction l as [|[X e x] l IH]; [done|]. intros [Hf Hl]. specialize (IH Hl).
  unfold passes_of, rate_ops in *. cbn [flat_map]. destruct e; try exact IH.
  unfold foretold, may_pass, rate_ops in Hf. cbn [ev_op ev_val] in Hf.
  unfold pass_of at 1, rate_op at 1. cbn [ev_op ev_val app Rates.passed]. rewrite IH, Hf.
  unfold Rates.allowed_now. destruct (decide (ip0 = ip)) as [->|Hne].
  - destruct (Nat.ltb_spec (length (recent RATE_GENERAL_WINDOW x.1 (Rates.passed RATE_GENERAL_WINDOW
      RATE_GENERAL_LIMIT ip (flat_map rate_op l)))) RATE_GENERAL_LIMIT); cbn [negb].
    + by rewrite !decide_True by done.
    + rewrite !decide_False; [done| |]; intros [_ ?]; [lia|done].
  - by rewrite !decide_False by (by intros [? _]).
Qed.

(** ** Tickets redeemed *)

Definition one {A} (o : option A) : nat := match o with Some _ => 1 | None => 0 end.

Definition mints (t : bytes) (ev : event hop) : nat :=
  match ev_op ev with MintTicket t' _ _ => if decide (t' = t) then 1 else 0 | _ => 0 end.

Definition redeems (t : bytes) (ev : event hop) : nat :=
  match ev_op ev in hop X return X → nat with
  | ConsumeTicket t' _ => λ o, if decide (t' = t) then one o else 0
  | _ => λ _, 0
  end (ev_val ev).

Fixpoint total (f : event hop → nat) (l : list (event hop)) : nat :=
  match l with [] => 0 | ev :: l' => f ev + total f l' end.

Lemma one_unexpired now o : one (Tickets.unexpired now o) ≤ one o.
Proof. destruct o as [e|]; [|done]. unfold Tickets.unexpired. simpl. by case_decide; simpl; lia. Qed.

Lemma one_fmap {A B} (f : A → B) o : one (f <$> o) = one o.
Proof. by destruct o. Qed.

(** Redemptions, and one more while the ticket is in the map. *)
Lemma redeems_mints t l :
  log_ok l → total (redeems t) l + one (Tickets.replay (ticket_ops l) !! t) ≤ total (mints t) l.
Proof.
  induction l as [|[X e x] l IH]; [done|]. intros [Hf Hl]. specialize (IH Hl).
  unfold ticket_ops in *. cbn [flat_map total]. destruct e; try exact IH;
    unfold mints at 1, redeems at 1, ticket_op at 1; cbn [ev_op ev_val app Tickets.replay Tickets.step];
    (pose proof (one_unexpired now (Tickets.replay (flat_map ticket_op l) !! t))).
  - unfold WebState.mint_sse_ticket. cbn [snd]. case_decide as Ht.
    + subst. rewrite lookup_insert_eq. cbn [one]. lia.
    + rewrite lookup_insert_ne, Tickets.lookup_sweep by done. lia.
  - unfold WebState.valid_sse_ticket. cbn [snd]. rewrite Tickets.lookup_sweep. lia.
  - unfold foretold, ticket_ops, WebState.consume_sse_ticket in Hf. cbn [ev_op ev_val fst] in Hf.
    unfold WebState.consume_sse_ticket. cbn [snd]. subst x. case_decide as Ht.
    + subst. rewrite lookup_delete_eq, one_fmap, Tickets.lookup_sweep. cbn [one]. lia.
    + rewrite lookup_delete_ne, Tickets.lookup_sweep by done. lia.
Qed.

(** * A schedule for the witnesses *)

(** A client at one address that sends [req] at once. *)
Definition outside (req : bytes) (now : Z) X (e : hop X) : X :=
  match e in hop X return X with
  | HNow => now
  | HPeer => Some (V4 x0a x00 x00 x01)
  | HReadTimeout _ | HWriteTimeout _ => tt
  | HRead => Some req
  | HWrite _ => true
  | HSleep _ => tt
  | HRpc _ _ => WriteFailed
  | HUrandom => Some (replicate 16 x00)
  | HSeed => (0, 0, 0)%N
  | RateLimited _ | LockedOut _ => (now, false)
  | RecordFailure _ => now
  | MintTicket _ _ _ => tt
  | ValidTicket _ _ => false
  | ConsumeTicket _ _ => None
  end.

(** The newest thread takes [n] operations. *)
Fixpoint run_last (n : nat) (req : bytes) (now : Z) (p : prog hop (exn (option unit)))
    (st : web_state) (l : list (event hop)) :
    prog hop (exn (option unit)) * web_state * list (event hop) :=
  match n, p with
  | S n', Do e k =>
      match serve _ e now st with
      | Some (x, st') => run_last n' req now (k x) st' (Event _ e x :: l)
      | None => let x := outside req now _ e in run_last n' req now (k x) st (Event _ e x :: l)
      end
  | _, _ => (p, st, l)
  end.

Section schedule.
Context (json_text : Value → bytes) (json_parse : bytes → option Value) (html : bytes).
Context (fuel : nat) (cfg : WebConfig).

Lemma run_last_steps n req now before p st l :
  let '(p', st', l') := run_last n req now p st l in
  wsteps json_text json_parse html fuel cfg
    (WSys now st (before ++ [p]) l) (WSys now st' (before ++ [p']) l').
Proof.
  revert p st l. induction n as [|n IH]; intros p st l; cbn [run_last]; [constructor|].
  destruct p as [a|X e k]; [constructor|].
  destruct (serve X e now st) as [[x st']|] eqn:E.
  - specialize (IH (k x) st' (Event X e x :: l)). destruct (run_last n req now _ _ _) as [[p' st''] l'].
    eapply wsteps_step; [|exact IH].
    eapply (wstep_thread _ _ _ _ _ (WSys now st (before ++ [Do e k]) l) before []); [done|].
    unfold answers. cbn [clock shared]. by rewrite E.
  - specialize (IH (k (outside req now X e)) st (Event X e (outside req now X e) :: l)).
    destruct (run_last n req now _ _ _) as [[p' st''] l'].
    eapply wsteps_step; [|exact IH].
    eapply (wstep_thread _ _ _ _ _ (WSys now st (before ++ [Do e k]) l) before []); [done|].
    unfold answers. cbn [clock shared]. rewrite E. split; [done|]. by destruct e.
Qed.

(** A connection from its start. *)
Definition connect (n : nat) (req : bytes) (s : wsys) : wsys :=
  let '(p, st, l) :=
    run_last n req (clock s) (handle_web_connection json_text json_parse html fuel cfg) (shared s) (log s) in
  WSys (clock s) st (threads s ++ [p]) l.

Lemma connect_steps n req s : wsteps json_text json_parse html fuel cfg s (connect n req s).
Proof.
  destruct s as [now st th l]. unfold connect. cbn [clock shared threads log].
  eapply wsteps_step; [apply wstep_accept|]. cbn [clock shared threads log].
  pose proof (run_last_steps n req now th (handle_web_connection json_text json_parse html fuel cfg) st l).
  by destruct (run_last n req now _ st l) as [[p' st'] l'].
Qed.

End schedule.

Definition mint_request : bytes :=
  bs "POST /api/v1/events/ticket HTTP/1.1" ++ crlf ++ bs "X-Allgres-Client: 1" ++ crlf
  ++ bs "X-Allgres-Session: s" ++ crlf ++ crlf.

Definition events_request : bytes :=
  bs "GET /api/v1/events?ticket=00000000000000000000000000000000 HTTP/1.1" ++ crlf ++ crlf.

Definition quiet_config : WebConfig := mkConfig [] [] false.

(** A ticket is minted, and two connections try to redeem it. *)
Definition contended : wsys :=
  connect (λ _, bs "{}") (λ _, None) [] 5 quiet_config 12 events_request
    (connect (λ _, bs "{}") (λ _, None) [] 5 quiet_config 12 events_request
      (connect (λ _, bs "{}") (λ _, None) [] 5 quiet_config 12 mint_request (wsys0 0))).

Lemma contended_reachable :
  wsteps (λ _, bs "{}") (λ _, None) [] 5 quiet_config (wsys0 0) contended.
Proof.
  eapply wsteps_trans; [apply (connect_steps _ _ _ _ _ 12 mint_request)|].
  eapply wsteps_trans; [apply (connect_steps _ _ _ _ _ 12 events_request)|].
  apply connect_steps.
Qed.

(** * Claims *)

(** C8: however the threads of the web worker interleave, each answer they get
    from the shared state is the one the history calls for: a request is rate
    limited exactly when its address has used up the sliding window, locked
    out exactly after twenty failures in five minutes, and a ticket is valid
    or redeemed exactly as the mints and redemptions before it say. *)
Theorem shared_state_linear json_text json_parse html fuel cfg now s later ev earlier :
  wsteps json_text json_parse html fuel cfg (wsys0 now) s →
  log s = later ++ ev :: earlier → foretold earlier ev.
Proof.
  intros Hs Hlog. apply wsteps_coherent in Hs as (_ & _ & _ & _ & _ & Hok).
  rewrite Hlog in Hok. by eapply log_ok_at.
Qed.

Lemma shared_state_linear_witness :
  ∃ ev earlier, log contended = ev :: earlier ∧ foretold earlier ev.
Proof.
  destruct (log contended) as [|ev earlier] eqn:E; [vm_compute in E; discriminate|].
  exists ev, earlier. split; [reflexivity|].
  apply (shared_state_linear (λ _, bs "{}") (λ _, None) [] 5 quiet_config 0 contended [] ev earlier
    contended_reachable E).
Defined.

(** C21: across all connections, a ticket is redeemed at most as often as it was
    minted: one that is minted once opens one event stream, whatever the
    threads and their clocks do. *)
Theorem tickets_single_use json_text json_parse html fuel cfg now s t :
  wsteps json_text json_parse html fuel cfg (wsys0 now) s →
  total (redeems t) (log s) ≤ total (mints t) (log s).
Proof.
  intros Hs. apply wsteps_coherent in Hs as (_ & _ & _ & _ & _ & Hok).
  pose proof (redeems_mints t (log s) Hok). lia.
Qed.

Lemma tickets_single_use_witness :
  let t := replicate 32 x30 in
  total (mints t) (log contended) = 1 ∧ total (redeems t) (log contended) ≤ 1.
Proof.
  assert (total (mints (replicate 32 x30)) (log contended) = 1) as Hm by (vm_compute; reflexivity).
  split; [exact Hm|]. rewrite <- Hm.
  apply (tickets_single_use (λ _, bs "{}") (λ _, None) [] 5 quiet_config 0 contended _ contended_reachable).
Defined.

(** C22: however many connections an address opens and however their threads
    interleave, in any interval of a minute, wherever it starts, at most 120
    of its requests are let through. *)
Theorem requests_bounded json_text json_parse html fuel cfg now s ip from :
  wsteps json_text json_parse html fuel cfg (wsys0 now) s →
  length (filter (Rates.within RATE_GENERAL_WINDOW from) (passes_of ip (log s))) ≤ RATE_GENERAL_LIMIT.
Proof.
  intros Hs. apply wsteps_coherent in Hs as (_ & _ & _ & Hin & _ & Hok).
  rewrite passes_passed by done. by eapply Rates.passed_bound.
Qed.

Lemma requests_bounded_witness :
  length (passes_of (V4 x0a x00 x00 x01) (log contended)) = 3
  ∧ length (filter (Rates.within RATE_GENERAL_WINDOW 0) (passes_of (V4 x0a x00 x00 x01) (log contended)))
    ≤ RATE_GENERAL_LIMIT.
Proof.
  split; [vm_compute; reflexivity|].
  apply (requests_bounded (λ _, bs "{}") (λ _, None) [] 5 quiet_config 0 contended _ 0 contended_reachable).
Defined.
