(* ===== verification/WebEnds.v ===== *)
(** How a connection of the web worker comes to an end, and where it can be
    held: the liveness of the handler of src/src/web.rs, for clocks that do not
    go back and sleeps that last. *)
From S2P Require Import Prelude RustStr Json Net WebState HttpProtocol Effects Config Web WebProofs.

(** * Well-timed environments *)

(** A time the clock has passed, the exchanges with the runtime worker so far,
    whether reads and writes of the connection have a timeout, and the writes
    made without one. *)
Record pace : Type := Pace {
  passed : Z; rpcs : nat; reads_timed : bool; writes_timed : bool; untimed : nat }.

Definition pace0 (t : Z) : pace := Pace t 0 false false 0.

(** [None] once the clock went back. *)
Abbreviation timing := (option pace).

Definition pnext (p : pace) X (e : hop X) : X → timing :=
  match e in hop X return X → timing with
  | HNow => λ t,
      if (passed p <=? t)%Z then Some (Pace t (rpcs p) (reads_timed p) (writes_timed p) (untimed p)) else None
  | HSleep ms => λ _, Some (Pace (passed p + ms) (rpcs p) (reads_timed p) (writes_timed p) (untimed p))
  | HRpc _ _ => λ _, Some (Pace (passed p) (S (rpcs p)) (reads_timed p) (writes_timed p) (untimed p))
  | HReadTimeout _ => λ _, Some (Pace (passed p) (rpcs p) true (writes_timed p) (untimed p))
  | HWriteTimeout _ => λ _, Some (Pace (passed p) (rpcs p) (reads_timed p) true (untimed p))
  | HWrite _ => λ _,
      Some (if writes_timed p then p
            else Pace (passed p) (rpcs p) (reads_timed p) false (S (untimed p)))
  | _ => λ _, Some p
  end.

Definition tnext (s : timing) X (e : hop X) (x : X) : timing :=
  match s with Some p => pnext p X e x | None => None end.

(** The operation comes back by itself: what waits for the client has a
    timeout. *)
Definition prompt (p : pace) X (e : hop X) : Prop :=
  match e with
  | HRead => reads_timed p = true
  | HWrite _ => writes_timed p = true
  | _ => True
  end.

(** One of the two writes of a response, head and body: they have no timeout. *)
Definition responding (p : pace) X (e : hop X) : Prop :=
  match e with HWrite _ => writes_timed p = false ∧ untimed p ≤ 1 | _ => False end.

(** Thirty exchanges are allowed, one for each second of a stream; and once a
    response is being written, only the rest of it. *)
Definition tallowed (s : timing) X (e : hop X) : Prop :=
  match s with
  | Some p =>
      (prompt p X e ∧ untimed p = 0 ∧ match e with HRpc _ _ => rpcs p ≤ 29 | _ => True end)
      ∨ responding p X e
  | None => True
  end.

Definition timer : monitor hop := Monitor timing tallowed tnext.

Lemma timer_broken {A} (p : conn A) s : s = None → wpr timer p (λ s _, s = None) s.
Proof.
  intros ->. unfold wpr. induction p as [[a|m]|X e k IH]; [done..|]. split; [done|]. intros x. apply IH.
Qed.

Definition spent (n : nat) (s : timing) : Prop :=
  match s with Some p => rpcs p ≤ n | None => True end.

Lemma spent_accepted s tr : accepts timer s tr → spent 30 s → spent 30 (after timer s tr).
Proof.
  revert s. induction tr as [|[X e x] tr IH]; intros s; [done|]. intros [Ha Hacc] Hs.
  apply IH; [done|]. destruct s as [p|]; [|done].
  destruct e; simpl in *; try done; repeat case_match; simpl in *; try done.
  destruct Ha as [(_ & _ & Ha)|[]]. lia.
Qed.

(** No response has been begun, after at most [n] exchanges. *)
Definition idle (n : nat) (s : timing) : Prop :=
  match s with Some p => rpcs p ≤ n ∧ untimed p = 0 | None => True end.

Lemma idle_mono n m s : n ≤ m → idle n s → idle m s.
Proof. destruct s as [p|]; simpl; [|done]. intros ? []. split; [lia|done]. Qed.

(** Operations on neither the connection nor the runtime worker. *)
Definition local X (e : hop X) : Prop :=
  match e with HRpc _ _ | HRead | HWrite _ => False | _ => True end.

Lemma idle_local n {X} (e : hop X) x s : local X e → idle n s → idle n (tnext s X e x).
Proof. destruct s as [p|]; [|done]. destruct e; simpl; try done. by case_match. Qed.

Lemma wpr_local {A} n (p : conn A) s : only local p → idle n s → wpr timer p (λ s _, idle n s) s.
Proof.
  unfold wpr. revert s. induction p as [[a|m]|X e k IH]; intros s; [done..|].
  intros [He Hk] Hs. split.
  - destruct s as [p|]; [|done]. left. split_and!; [by destruct e|apply Hs|by destruct e].
  - intros x. apply IH; [done|]. by apply idle_local.
Qed.

Ltac local_walk :=
  repeat lazymatch goal with
    | |- only _ (mbind _ _) => apply only_bind; [|intros ?]
    | |- only _ (mret _) => exact I
    | |- only _ (raise _) => exact I
    | |- only _ (op _) => split; [exact I|intros ?; exact I]
    | |- only _ (match ?x with _ => _ end) => destruct x
    end.

Lemma local_nonce : only local nonce.
Proof. unfold nonce. local_walk. Qed.

Lemma local_authorized r cfg : only local (authorized r cfg).
Proof. unfold authorized, valid_sse_ticket. local_walk. Qed.

(** A local part of the handler, before the next. *)
Lemma local_then {A B} n (p : conn A) (f : A → conn B) (Q : timing → B → Prop) s :
  only local p → idle n s → (∀ s a, idle n s → wpr timer (f a) Q s) → wpr timer (p ≫= f) Q s.
Proof.
  intros Hp Hs Hf. apply wpr_bind. eapply wpr_mono; [by apply (wpr_local n)|]. intros s1 a. apply Hf.
Qed.

(** ** Responses *)

(** Programs that write one response. *)
Definition answers (p : conn unit) : Prop := ∀ s, idle 30 s → wpr timer p (λ _ _, True) s.

Lemma respond_answers status content_type body extra : answers (respond status content_type body extra).
Proof.
  intros s Hs. unfold respond. apply wpr_bind, wpr_op.
  { destruct s as [p|]; [|done]. destruct Hs as [_ Hu]. simpl. destruct (writes_timed p) eqn:E.
    - by left.
    - right. split; [done|lia]. }
  intros b. apply wpr_bind, wpr_op; [|intros b'; by apply wpr_ret].
  destruct s as [p|]; [|done]. destruct Hs as [_ Hu]. simpl. destruct (writes_timed p) eqn:E; simpl.
  - left. by rewrite E.
  - right. split; [done|lia].
Qed.

Lemma json_answers status body : answers (respond_json status body).
Proof. apply respond_answers. Qed.

Lemma not_found_answers : answers not_found.
Proof. unfold not_found, respond_json. apply respond_answers. Qed.

Lemma too_many_answers retry : answers (too_many retry).
Proof. unfold too_many. apply respond_answers. Qed.

Lemma local_answers {A} (p : conn A) f : only local p → (∀ a, answers (f a)) → answers (p ≫= f).
Proof. intros Hp Hf s Hs. apply (local_then 30); [done..|]. intros s1 a. apply Hf. Qed.

Lemma if_mock_answers cfg p : answers p → answers (if_mock cfg p).
Proof. intros Hp. unfold if_mock. case_match; [done|apply json_answers]. Qed.

Lemma mock_oauth_answers json_text r : answers (mock_oauth json_text r).
Proof. unfold mock_oauth. cbn zeta. case_decide; apply json_answers. Qed.

Lemma dashboard_answers html : answers (dashboard html).
Proof. apply local_answers; [apply local_nonce|]. intros n. apply respond_answers. Qed.

Create HintDb answers discriminated.
#[export] Hint Constants Opaque : answers.
#[export] Hint Resolve respond_answers json_answers mock_oauth_answers dashboard_answers
  if_mock_answers not_found_answers too_many_answers : answers.

Section ends.
Context (json_text : Value → bytes) (json_parse : bytes → option Value) (dashboard_html : bytes).
Context (fuel : nat) (cfg : WebConfig).

(** The handler is not still running. *)
Definition over (s : timing) (o : option unit) : Prop := s = None ∨ o ≠ None.

(** ** The event stream *)

(** One snapshot for each second since the stream began, written in time. *)
Definition streaming (began : Z) (s : timing) : Prop :=
  ∃ p, s = Some p ∧ (began + Z.of_nat (rpcs p) * SSE_INTERVAL ≤ passed p)%Z
    ∧ writes_timed p = true ∧ untimed p = 0.

Definition time_left (began : Z) (s : timing) : nat :=
  match s with Some p => Z.to_nat (began + SSE_TOTAL - passed p) | None => 0 end.

Lemma stream_round_timed began session s :
  streaming began s →
  wpr timer (stream_round json_text json_parse cfg (began + SSE_TOTAL) session tt)
    (λ s' (r : unit * bool),
       s' = None ∨ (r.2 = true → streaming began s' ∧ time_left began s' < time_left began s)) s.
Proof.
  intros (p & -> & Hk & Hw & Hu). unfold stream_round. apply wpr_bind, wpr_op; [by left|].
  intros now. cbn [next timer tnext pnext]. destruct (Z.leb_spec (passed p) now) as [Hp|Hp].
  2:{ eapply wpr_mono; [by apply timer_broken|]. by left. }
  destruct (Z.ltb_spec now (began + SSE_TOTAL)) as [Hd|Hd]; [|apply wpr_ret; by right].
  unfold SSE_TOTAL, SSE_INTERVAL in *.
  unfold rpc. apply wpr_bind, wpr_bind, wpr_op; [left; simpl; split_and!; [done|done|lia]|].
  intros a. apply wpr_ret. apply wpr_bind, wpr_op; [left; by split_and!|].
  cbn [next timer tnext pnext writes_timed]. rewrite Hw. intros []; [|apply wpr_ret; by right].
  apply wpr_bind, wpr_op; [left; by split_and!|]. intros []. apply wpr_ret. right. intros _.
  cbn [fst snd next timer tnext pnext]. split.
  - eexists. split; [done|]. cbn [passed rpcs writes_timed untimed]. unfold SSE_INTERVAL.
    split_and!; [lia|done..].
  - unfold time_left, SSE_TOTAL, SSE_INTERVAL. cbn [passed]. lia.
Qed.

Lemma stream_over session s :
  (SSE_TOTAL < Z.of_nat fuel)%Z → idle 0 s →
  wpr timer (stream_events json_text json_parse fuel cfg session) over s.
Proof.
  intros Hfuel Hs. unfold stream_events.
  destruct s as [p|]; [|eapply wpr_mono; [by apply timer_broken|]; by left]. destruct Hs as [Hr Hu].
  apply wpr_bind, wpr_op; [by left|]. intros []. cbn [next timer tnext pnext].
  apply wpr_bind, wpr_op; [left; by split_and!|]. intros []; [|apply wpr_ret; by right].
  cbn [next timer tnext pnext writes_timed].
  apply wpr_bind, wpr_op; [by left|]. intros began. cbn [next timer tnext pnext passed rpcs].
  destruct (passed p <=? began)%Z; [|eapply wpr_mono; [by apply timer_broken|]; by left].
  apply (wpr_loop_relies timer (λ s, s = None) (λ s _, streaming began s) (λ s _, time_left began s)).
  - intros s1 X q. apply timer_broken.
  - intros s1 o ->. by left.
  - eexists. split; [done|]. cbn [passed rpcs writes_timed untimed]. unfold SSE_INTERVAL.
    split_and!; [lia|done..].
  - cbn [time_left passed]. unfold SSE_TOTAL in *. lia.
  - intros s1 [] H1. eapply wpr_mono; [by apply stream_round_timed|].
    intros s2 [[] []] [->|H2]; [by left|right; by apply H2|by left|right; by right].
Qed.

(** ** The other routes *)

Lemma finish_over (p : conn unit) s : answers p → idle 30 s → wpr timer (p ≫= λ _, mret (Some tt)) over s.
Proof.
  intros Hp Hs. apply wpr_bind. eapply wpr_mono; [by apply Hp|].
  intros s1 [] _. apply wpr_ret. by right.
Qed.

Lemma rpc_idle req s (Q : timing → Value → Prop) :
  idle 0 s → (∀ s v, idle 30 s → Q s v) → wpr timer (rpc json_text json_parse cfg req) Q s.
Proof.
  intros Hs HQ. unfold rpc. apply wpr_bind, wpr_op.
  - destruct s as [p|]; [|done]. destruct Hs as [Hr Hu]. left. simpl. split_and!; [done|done|lia].
  - intros a. apply wpr_ret, HQ. destruct s as [p|]; [|done]. destruct Hs as [Hr Hu]. simpl. lia.
Qed.

Lemma set_key_idle k x b (Q : timing → Value → Prop) s :
  (∀ v, Q s v) → wpr timer (set_key k x b) Q s.
Proof. intros HQ. unfold set_key. destruct (index_set k x b); [by apply wpr_ret|done]. Qed.

Lemma api_route_idle r s :
  idle 0 s → wpr timer (api_route json_text json_parse cfg r) (λ s _, idle 30 s) s.
Proof.
  intros Hs. assert (idle 30 s) as Hs' by (eapply idle_mono; [|done]; lia).
  unfold api_route, with_action.
  repeat (first [ by apply wpr_ret
                | apply wpr_bind
                | apply rpc_idle; [done|intros ? ? ?]
                | apply set_key_idle; intros ?
                | case_match ]).
Qed.

Lemma serve_api_over r s :
  (SSE_TOTAL < Z.of_nat fuel)%Z → idle 0 s →
  wpr timer (serve_api json_text json_parse fuel cfg r) over s.
Proof.
  intros Hfuel Hs. assert (∀ s, idle 0 s → idle 30 s) as H30 by (intros s1; apply idle_mono; lia).
  unfold serve_api. case_decide.
  { case_decide; [apply finish_over; auto with answers nocore|].
    apply (local_then 0); [|done|intros; apply finish_over; auto with answers nocore].
    unfold mint_sse_ticket. apply only_bind; [apply local_nonce|]. intros. local_walk. }
  case_decide.
  - apply (local_then 0); [unfold consume_sse_ticket; local_walk|done|].
    intros s1 [session|] H1; [by apply stream_over|apply finish_over; auto with answers nocore].
  - apply wpr_bind. eapply wpr_mono; [by apply api_route_idle|].
    intros s1 [v|] H1; apply finish_over; auto with answers nocore.
Qed.

Lemma guard_api_over ip r s :
  (SSE_TOTAL < Z.of_nat fuel)%Z → idle 0 s →
  wpr timer (guard_api json_text json_parse fuel cfg ip r) over s.
Proof.
  intros Hfuel Hs. assert (∀ s, idle 0 s → idle 30 s) as H30 by (intros s1; apply idle_mono; lia).
  unfold guard_api. case_match; [apply finish_over; auto with answers nocore|].
  apply (local_then 0); [local_walk|done|]. intros s1 [] H1; [apply finish_over; auto with answers nocore|].
  apply (local_then 0); [apply local_authorized|done|]. intros s2 [] H2; [by apply serve_api_over|].
  apply (local_then 0); [local_walk|done|]. intros s3 [] H3. apply finish_over; auto with answers nocore.
Qed.

Lemma dispatch_over ip r s :
  (SSE_TOTAL < Z.of_nat fuel)%Z → idle 0 s →
  wpr timer (dispatch json_text json_parse dashboard_html fuel cfg ip r) over s.
Proof.
  intros Hfuel Hs. assert (idle 30 s) as H30 by (eapply idle_mono; [|done]; lia). unfold dispatch.
  repeat (case_match; [apply finish_over; [|done];
    first [ solve [auto with answers nocore]
          | apply if_mock_answers, local_answers; [case_match; local_walk|intros ?; apply json_answers] ]|]).
  by apply guard_api_over.
Qed.

Lemma connection_over t :
  MAX_REQUEST_BYTES < fuel →
  wpr timer (handle_web_connection json_text json_parse dashboard_html fuel cfg) over (Some (pace0 t)).
Proof.
  intros Hfuel. unfold handle_web_connection. apply (local_then 0); [by split|by split|]. intros s0 ip H0.
  apply (local_then 0); [local_walk|done|]. intros s1 [] H1.
  { apply finish_over; [apply too_many_answers|by eapply idle_mono; [|done]; lia]. }
  apply wpr_bind. eapply wpr_mono; [apply (read_http_request_ends timer
    (λ s, match s with Some p => rpcs p = 0 ∧ untimed p = 0 ∧ reads_timed p = true | None => True end))|].
  - intros [p|] Hp; [|by split]. destruct Hp as (Hr & Hu & Ht). split; [by left|].
    intros t'. simpl. destruct (passed p <=? t')%Z; [by split_and!|done].
  - intros [p|] Hp; [|by split]. destruct Hp as (Hr & Hu & Ht). split; [by left; split_and!|]. by intros t'.
  - destruct s1 as [p|]; [|done]. left. by split_and!; [|apply H1|].
  - destruct s1 as [p|]; [|done]. destruct H1 as [Hr Hu]. simpl. split_and!; [lia|done..].
  - done.
  - intros s2 [[r|]|] [H2 Hne]; [|by apply wpr_ret; right|done].
    apply dispatch_over; [pose proof MAX_REQUEST_BYTES_N; unfold SSE_TOTAL; lia|].
    destruct s2 as [p|]; [|done]. destruct H2 as (Hr & Hu & _). simpl. lia.
Qed.

End ends.

(** * Claims *)

(** C13: every connection comes to an end by itself, after at most thirty
    exchanges with the runtime worker, unless the client stops taking its
    response: wherever a handler is -- its loops having one round for each byte
    a request may have and one more, the clock not going back and sleeps
    lasting as long as asked -- it has returned or panicked, and was not still
    reading or streaming; or it is at an operation that comes back by itself,
    where reads of the connection and the writes of the event stream have a
    timeout; or it is at one of the two writes of a response, after which only
    the other is left. Those writes have no timeout in the code. *)
Theorem handler_finishes json_text json_parse html fuel cfg tr q t0 p :
  MAX_REQUEST_BYTES < fuel →
  reaches (handle_web_connection json_text json_parse html fuel cfg) tr q →
  after timer (Some (pace0 t0)) tr = Some p →
  rpcs p ≤ 30
  ∧ match q with
    | Done r => r ≠ Returned None
    | Do e _ => (prompt p _ e ∧ untimed p = 0) ∨ responding p _ e
    end.
Proof.
  intros Hfuel Hr Ht. pose proof (connection_over json_text json_parse html fuel cfg t0 Hfuel) as Hw.
  apply (wp_reaches timer _ q _ (Some (pace0 t0)) tr Hw) in Hr as [Ha Hq].
  apply spent_accepted in Ha; [|simpl; lia]. rewrite Ht in Ha, Hq. split; [exact Ha|].
  destruct q as [r|X e k].
  - intros ->. by destruct Hq.
  - destruct Hq as [[(H1 & H2 & _)|H] _]; [by left|by right].
Qed.

(** A client that is served the event stream: a ticket is minted in the clock
    that sleeps advance. *)
Definition ticking X (e : hop X) (now : Z) : X * Z :=
  match e in hop X return X * Z with
  | HNow => (now, now)
  | HPeer => (None, now)
  | HReadTimeout _ | HWriteTimeout _ => (tt, now)
  | HRead => (Some (bs "GET /api/v1/events?ticket=t HTTP/1.1" ++ crlf ++ crlf), now)
  | HWrite _ => (true, now)
  | HSleep ms => (tt, (now + ms)%Z)
  | HRpc _ _ => (WriteFailed, now)
  | HUrandom => (None, now)
  | HSeed => ((0, 0, 0)%N, now)
  | RateLimited _ => ((0%Z, false), now)
  | LockedOut _ => ((0%Z, false), now)
  | RecordFailure _ => (0%Z, now)
  | MintTicket _ _ _ => (tt, now)
  | ValidTicket _ _ => (true, now)
  | ConsumeTicket _ _ => (Some (bs "session"), now)
  end.

Definition stream_run : list (event hop) * exn (option unit) :=
  run_with ticking
    (handle_web_connection (λ _, bs "{}") (λ _, None) [] (S MAX_REQUEST_BYTES)
       (mkConfig (bs "s3cret") (bs "/d/runtime.sock") false)) 0%Z.

Lemma handler_finishes_witness :
  after timer (Some (pace0 0)) stream_run.1 = Some (Pace 30000 30 true true 0)
  ∧ stream_run.2 ≠ Returned None.
Proof.
  assert (after timer (Some (pace0 0)) stream_run.1 = Some (Pace 30000 30 true true 0)) as H
    by (vm_compute; reflexivity).
  split; [exact H|].
  apply (handler_finishes (λ _, bs "{}") (λ _, None) [] (S MAX_REQUEST_BYTES)
    (mkConfig (bs "s3cret") (bs "/d/runtime.sock") false) stream_run.1 (Done stream_run.2) 0
    (Pace 30000 30 true true 0)); [lia| |exact H].
  apply runs_reaches, (run_with_runs ticking (handle_web_connection (λ _, bs "{}") (λ _, None) [] (S MAX_REQUEST_BYTES)
       (mkConfig (bs "s3cret") (bs "/d/runtime.sock") false)) 0%Z).
Defined.

(** The first [n] operations against a concrete environment, and what is left. *)
Fixpoint run_steps {E A S} (n : nat) (h : ∀ X, E X → S → X * S) (p : prog E A) (s : S) :
    list (event E) * prog E A :=
  match n, p with
  | S n', Do e k =>
      let '(x, s') := h _ e s in
      let '(tr, q) := run_steps n' h (k x) s' in (Event _ e x :: tr, q)
  | _, _ => ([], p)
  end.

Lemma run_steps_reaches {E A S} n (h : ∀ X, E X → S → X * S) (p : prog E A) s :
  reaches p (run_steps n h p s).1 (run_steps n h p s).2.
Proof.
  revert p s. induction n as [|n IH]; intros p s; [destruct p; constructor|].
  destruct p as [a|X e k]; [constructor|]. simpl. destruct (h X e s) as [x s'].
  specialize (IH (k x) s'). destruct (run_steps n h (k x) s'). by constructor.
Qed.

(** A client that asks for the dashboard and does not take it holds its
    handler: the page is written with no timeout, whatever its size. *)
Definition dashboard_client X (e : hop X) (now : Z) : X * Z :=
  match e in hop X return X * Z with
  | HRead => (Some (bs "GET / HTTP/1.1" ++ crlf ++ crlf), now)
  | e => ticking _ e now
  end.

Example dashboard_holds :
  let r := run_steps 8 dashboard_client
    (handle_web_connection (λ _, []) (λ _, None) (bs "<html>") 2 (mkConfig [] [] false)) 0%Z in
  after timer (Some (pace0 0)) r.1 = Some (Pace 0 0 true false 1)
  ∧ match r.2 with
    | Do (HWrite page) _ => page = bs "<html>"
    | _ => False
    end.
Proof. vm_compute. by split. Qed.
