(* ===== verification/WebFrames.v ===== *)
(** What a connection of the web worker is sent: one HTTP response, or one event
    stream, and nothing else. A response is a head that a reader splits at its
    line ends, one [Content-Length] and a body of that length; nothing a client
    sends can end a line of the head. *)
From S2P Require Import Prelude RustStr Ascii Json Net WebState HttpProtocol Effects Config Web WebProofs.

(** * Well-framed answers *)












(** * Heads *)

















(** * Programs *)

Section framing.
Context (json_text : Value → bytes) (json_parse : bytes → option Value) (dashboard_html : bytes).
Context (fuel : nat) (cfg : WebConfig).
(** serde_json prints no line end. *)
Context (Hjson : ∀ v, x0a ∉ json_text v).

(** Operations that write nothing. *)
Definition silent X (e : hop X) : Prop := match e with HWrite _ => False | _ => True end.













Ltac silent_walk :=
  repeat lazymatch goal with
    | |- only _ (mbind _ _) => apply only_bind; [|intros ?]
    | |- only _ (mret _) => exact I
    | |- only _ (raise _) => exact I
    | |- only _ (op _) => split; [exact I|intros ?; exact I]
    | |- only _ (match ?x with _ => _ end) => destruct x
    end.


(** ** The event stream *)


Lemma silent_rpc req : only silent (rpc json_text json_parse cfg req).
Proof. unfold rpc. silent_walk. Qed.






(** ** The handler *)







End framing.

(** * Claims *)






