(* ===== verification/Outbound.v ===== *)
(** Outbound HTTP on the pool threads (src/src/outbound.rs): the address guard,
    cancellation, and [perform_http], over the operations of ureq's agent. *)
From S2P Require Import Prelude RustStr Json Net Effects Config.

(** * The address guard *)

Definition octet (b : byte) (n : N) : bool := (u8 b =? n)%N.

Definition is_blocked_ipv4 (a b c d : byte) : bool :=
  octet a 0
  || octet a 10
  || octet a 127
  || (octet a 169 && octet b 254)
  || (octet a 172 && in_rng 16 31 b)
  || (octet a 192 && octet b 168)
  || (octet a 192 && octet b 0 && (octet c 0 || octet c 2))
  || (octet a 198 && (octet b 18 || octet b 19))
  || (octet a 100 && in_rng 64 127 b)
  || (224 <=? u8 a)%N.

(** [Ipv6Addr::to_ipv4_mapped], ::ffff:0:0/96. *)
Definition to_ipv4_mapped (ip : IpAddr) : option (byte * byte * byte * byte) :=
  match ip with
  | V6 s0 s1 s2 s3 s4 s5 ab cd =>
      if decide (s0 = 0 ∧ s1 = 0 ∧ s2 = 0 ∧ s3 = 0 ∧ s4 = 0 ∧ s5 = 0xffff)%N then
        Some (byte_of (ab / 256), byte_of ab, byte_of (cd / 256), byte_of cd)
      else None
  | V4 _ _ _ _ => None
  end.

Definition is_blocked_ip (ip : IpAddr) : bool :=
  match ip with
  | V4 a b c d => is_blocked_ipv4 a b c d
  | V6 s0 s1 s2 s3 s4 s5 s6 s7 =>
      match to_ipv4_mapped ip with
      | Some (a, b, c, d) => is_blocked_ipv4 a b c d
      | None =>
          if decide (ip = V6 0 0 0 0 0 0 0 1 ∨ ip = V6 0 0 0 0 0 0 0 0) then true
          else (N.land s0 0xfe00 =? 0xfc00)%N || (N.land s0 0xffc0 =? 0xfe80)%N
      end
  end.

(** [GuardedResolver::resolve]; [resolved] is what the default resolver gave. *)
Definition resolve (allow_private : bool) (resolved : result (list IpAddr) bytes) :
    result (list IpAddr) bytes :=
  match resolved with
  | Err e => Err e
  | Ok addrs =>
      if negb allow_private && existsb is_blocked_ip addrs then Err (bs "host not found")
      else Ok addrs
  end.

(** * Requests *)

(** Whether a request carries the call itself or belongs to the handshake
    before it; the code sends the same way for both. *)
Inductive purpose : Type := Application | Handshake.

Inductive payload : Type :=
| JsonBody (v : Value)
| FormBody (fields : list (bytes * bytes))
| NoBody.

Record out_request : Type := mkOut {
  out_purpose : purpose;
  out_method : bytes;
  out_url : bytes;
  out_headers : list (bytes * bytes);
  out_payload : payload;
  out_allow_private : bool          (* of the resolver the request goes through *)
}.

(** What the code reads of a response: its status, the session header, and
    what reading the body gives. *)
Record out_response : Type := mkResp {
  resp_status : N;
  resp_session : option bytes;
  resp_read : result bytes bytes
}.

Inductive pop : Type → Type :=
| Register (call_id : bytes) : pop unit
| Unregister (call_id : bytes) : pop unit
| Send (r : out_request) : pop (result out_response bytes).

Abbreviation pool := (io pop).

(** * Definitions *)

Definition scheme_ok (url : bytes) : bool :=
  let lowered := to_ascii_lowercase url in
  starts_with (bs "http://") lowered || starts_with (bs "https://") lowered.

(** The headers whose values are strings. *)
Definition string_headers (h : option (list (bytes * Value))) : list (bytes * bytes) :=
  match h with
  | Some m => omap (λ '(k, v), s ← as_str v; Some (k, s)) m
  | None => []
  end.

Definition is_success (status : N) : bool := ((200 <=? status) && (status <? 300))%N.

Definition read_response (r : out_response) : Z * bytes :=
  match resp_read r with
  | Ok text => (Z.of_N (resp_status r), text)
  | Err e =>
      (0%Z, bs "response body unavailable (HTTP " ++ decimal (resp_status r) ++ bs "): " ++ e)
  end.

(** The last lines of both senders. *)
Definition outcome_of (r : result out_response bytes) : Z * bytes :=
  match r with Ok r => read_response r | Err e => (0%Z, e) end.

Definition guarded_post_json (url : bytes) (headers : option (list (bytes * Value))) (body : Value)
    (allow_private : bool) : pool (Z * bytes) :=
  if negb (scheme_ok url) then mret ((-1)%Z, bs "outbound URL scheme not allowed")
  else
    r ← op (Send (mkOut Application (bs "POST") url (string_headers headers) (JsonBody body) allow_private));
    mret (outcome_of r).

Definition VERSION : bytes := bs "0.1.0-alpha.3".

Definition initialize : Value :=
  obj [(bs "jsonrpc", Str (bs "2.0")); (bs "id", Str (bs "allgres-initialize"));
       (bs "method", Str (bs "initialize"));
       (bs "params", obj
          [(bs "protocolVersion", Str (bs "2025-06-18")); (bs "capabilities", Obj []);
           (bs "clientInfo", obj [(bs "name", Str (bs "allgres")); (bs "version", Str VERSION)])])].

Definition initialized : Value :=
  obj [(bs "jsonrpc", Str (bs "2.0")); (bs "method", Str (bs "notifications/initialized"))].

Definition limit_text (s : bytes) : bytes := truncate_utf8 s MAX_RESPONSE_BYTES.

Section perform.
Context (json_parse : bytes → option Value).

Section call.
Context (url : bytes) (hs : option (list (bytes * Value))) (allow_private : bool).

(** [mcp_request!]: the call's headers, then the session's. *)
Definition mcp_request (p : purpose) (session : option bytes) (body : Value) :
    pool (result out_response bytes) :=
  op (Send (mkOut p (bs "POST") url
              (string_headers hs
               ++ match session with Some s => [(bs "mcp-session-id", s)] | None => [] end)
              (JsonBody body) allow_private)).

(** A server without the handshake gets the call directly. *)
Definition mcp_direct (body : Value) : pool (Z * bytes) :=
  r ← mcp_request Application None body; mret (outcome_of r).

Definition init_valid (init_json : option Value) : bool :=
  match init_json with
  | Some v => bool_decide (is_Some (get (bs "result") v)) && bool_decide (get (bs "error") v = None)
  | None => false
  end.

(** [pointer("/error/code")] as an integer. *)
Definition error_code (init_json : option Value) : option Z :=
  v ← init_json; e ← get (bs "error") v; c ← get (bs "code") e; as_i64 c.

Definition mcp_initialized (session : option bytes) (body : Value) : pool (Z * bytes) :=
  n ← mcp_request Handshake session initialized;
  match n with
  | Ok r =>
      if is_success (resp_status r) then
        t ← mcp_request Application session body; mret (outcome_of t)
      else mret ((-1)%Z, bs "MCP initialized notification rejected")
  | Err e => mret ((-1)%Z, bs "MCP initialized notification failed: " ++ e)
  end.

Definition mcp_call (body : Value) : pool (Z * bytes) :=
  i ← mcp_request Handshake None initialize;
  match i with
  | Ok r =>
      let '(status, text) := read_response r in
      if is_success (resp_status r) then
        if (status =? 0)%Z then mret ((-1)%Z, text)
        else
          let init_json := json_parse text in
          if negb (init_valid init_json) then
            if decide (error_code init_json = Some (-32601)%Z) then mcp_direct body
            else mret ((-1)%Z, limit_text (bs "MCP initialize failed: " ++ text))
          else mcp_initialized (resp_session r) body
      else
        if (status =? 0)%Z then mret ((-1)%Z, text)
        else if ((status =? 400) || (status =? 404) || (status =? 405))%Z then mcp_direct body
        else mret ((-1)%Z, limit_text (bs "MCP initialize rejected: " ++ text))
  | Err e => mret ((-1)%Z, bs "MCP initialize failed: " ++ e)
  end.

Definition send (method : bytes) (headers : list (bytes * bytes)) (p : payload) : pool (Z * bytes) :=
  r ← op (Send (mkOut Application method url headers p allow_private)); mret (outcome_of r).

Definition function_call (method : option bytes) (body : Value) : pool (Z * bytes) :=
  let method := to_ascii_uppercase (default (bs "GET") method) in
  if decide (method = bs "POST" ∨ method = bs "PUT" ∨ method = bs "PATCH") then
    send method (string_headers hs) (JsonBody body)
  else
    send (if decide (method = bs "DELETE") then bs "DELETE" else bs "GET") (string_headers hs) NoBody.

Definition oauth_call (body : Value) : pool (Z * bytes) :=
  let headers :=
    match hs with
    | Some m =>
        string_headers (Some (filter (λ p, eq_ignore_ascii_case p.1 (bs "content-type") = false) m))
    | None => []
    end in
  let form := string_headers (as_object body) in
  send (bs "POST") headers (FormBody form).

End call.

Definition perform_call (call : Value) : pool (Z * bytes) :=
  match get_str (bs "url") call with
  | None => mret ((-1)%Z, bs "missing outbound URL")
  | Some url =>
      if negb (scheme_ok url) then mret ((-1)%Z, bs "outbound URL scheme not allowed")
      else
        let kind := default (bs "llm") (get_str (bs "kind") call) in
        let headers := get (bs "headers") call ≫= as_object in
        let body := default (Obj []) (get (bs "body") call) in
        let allow_private := default false (get_bool (bs "allow_private") call) in
        if decide (kind = bs "mcp") then mcp_call url headers allow_private body
        else if decide (kind = bs "function") then
          function_call url headers allow_private (get_str (bs "method") call) body
        else if decide (kind = bs "oauth") then oauth_call url headers allow_private body
        else send url allow_private (bs "POST") (string_headers headers) (JsonBody body)
  end.

(** The guard registers the call's flag, and its [Drop] removes it on every
    return and on a panic. *)
Definition perform_http (call_id : bytes) (call : Value) : pool (Z * bytes) :=
  _ ← op (Register call_id);
  r ← try (perform_call call);
  _ ← op (Unregister call_id);
  match r with Returned v => mret v | Raised m => raise m end.

End perform.

(** * What leaves the process *)

Record egress : Type := Egress {
  registered : bool;      (* the call's cancellation flag is in the map *)
  sent : nat              (* requests that carried the call itself *)
}.

Definition enext (s : egress) X (e : pop X) : X → egress :=
  match e in pop X return X → egress with
  | Register _ => λ _, Egress true (sent s)
  | Unregister _ => λ _, Egress false (sent s)
  | Send r => λ _,
      match out_purpose r with
      | Application => Egress (registered s) (S (sent s))
      | Handshake => s
      end
  end.

(** A request of [call] goes to its own URL over HTTP, through a resolver that
    allows private addresses only if the call does, while its cancellation
    flag is registered, and not after the call itself was sent. *)
Definition eallowed (call : Value) (s : egress) X (e : pop X) : Prop :=
  match e with
  | Send r =>
      registered s = true ∧ sent s = 0
      ∧ get_str (bs "url") call = Some (out_url r) ∧ scheme_ok (out_url r) = true
      ∧ out_allow_private r = default false (get_bool (bs "allow_private") call)
  | Register _ => registered s = false
  | Unregister _ => registered s = true
  end.

Definition customs (call : Value) : monitor pop := Monitor egress (eallowed call) enext.

(** Status -1 exactly when the call itself was not sent, and otherwise it was
    sent once. *)
Definition accounted (s : egress) (r : Z * bytes) : Prop :=
  registered s = true ∧ sent s = (if (r.1 =? -1)%Z then 0 else 1).

Lemma outcome_not_refused r : ((outcome_of r).1 =? -1)%Z = false.
Proof.
  apply Z.eqb_neq. destruct r as [[st ses [t|e]]|e]; simpl; lia.
Qed.

Section customs.
Context (json_parse : bytes → option Value) (call : Value) (url : bytes).
Context (Hurl : get_str (bs "url") call = Some url) (Hscheme : scheme_ok url = true).
Abbreviation allow := (default false (get_bool (bs "allow_private") call)).
Abbreviation M := (customs call).

Lemma customs_send m h p :
  wpr M (send url allow m h p) accounted (Egress true 0).
Proof using Hurl Hscheme.
  unfold send. apply wpr_bind, wpr_op; [by split_and!|]. intros r. apply wpr_ret.
  split; [done|]. by rewrite outcome_not_refused.
Qed.

Lemma customs_refuse msg : wpr M (mret ((-1)%Z, msg)) accounted (Egress true 0).
Proof. by apply wpr_ret. Qed.

Lemma customs_request hs p s body (Q : egress → result out_response bytes → Prop) :
  (∀ r, Q (match p with Application => Egress true 1 | Handshake => Egress true 0 end) r) →
  wpr M (mcp_request url hs allow p s body) Q (Egress true 0).
Proof using Hurl Hscheme. intros HQ. apply wpr_op; [by split_and!|]. intros r. destruct p; apply HQ. Qed.

Lemma customs_application hs s body :
  wpr M (r ← mcp_request url hs allow Application s body; mret (outcome_of r)) accounted (Egress true 0).
Proof using Hurl Hscheme.
  apply wpr_bind, customs_request. intros r. apply wpr_ret. split; [done|].
  by rewrite outcome_not_refused.
Qed.

Lemma customs_mcp hs body : wpr M (mcp_call json_parse url hs allow body) accounted (Egress true 0).
Proof using Hurl Hscheme.
  unfold mcp_call, mcp_direct, mcp_initialized. apply wpr_bind, customs_request.
  intros [r|e]; [|apply customs_refuse].
  destruct (read_response r) as [status text].
  repeat (case_match; try apply customs_refuse; try apply customs_application).
  apply wpr_bind, customs_request. intros [r'|e]; [|apply customs_refuse].
  case_match; [apply customs_application|apply customs_refuse].
Qed.

End customs.

Lemma customs_perform_call json_parse call :
  wpr (customs call) (perform_call json_parse call) accounted (Egress true 0).
Proof.
  unfold perform_call. destruct (get_str (bs "url") call) as [url|] eqn:Hu; [|by apply wpr_ret].
  destruct (scheme_ok url) eqn:Hs; cbn [negb]; [|by apply wpr_ret].
  case_decide; [by apply customs_mcp|]. unfold function_call, oauth_call.
  case_decide; [case_decide; by apply customs_send|]. case_decide; by apply customs_send.
Qed.

Lemma perform_call_returns json_parse call : no_raise (perform_call json_parse call).
Proof.
  unfold perform_call, mcp_call, mcp_direct, mcp_initialized, function_call, oauth_call, send,
    mcp_request. no_raise_walk.
Qed.

Lemma customs_perform_http json_parse call_id call :
  wp (customs call) (perform_http json_parse call_id call)
    (post (M := customs call)
       (λ s (r : Z * bytes), s = Egress false (if (r.1 =? -1)%Z then 0 else 1)))
    (Egress false 0).
Proof.
  unfold perform_http. apply wpr_bind, wpr_op; [done|]. intros [].
  apply wp_io_bind, wp_try.
  eapply wp_mono; [|apply wpr_total; [apply perform_call_returns|apply customs_perform_call]].
  intros s [r|m]; [|done]. intros [H1 H2]. apply wpr_bind, wpr_op; [done|]. intros [].
  apply wpr_ret. simpl. by rewrite H2.
Qed.

(** C9: one call makes at most one application request. It ends in status -1
    exactly when that request was never sent, so that only then may it be
    retried blindly; every request goes to the call's own URL, over HTTP or
    HTTPS, and through a resolver that reaches private addresses only if the
    call says so; and the cancellation flag is registered while requests are
    made and removed at the end. *)
Theorem perform_http_accounted json_parse call_id call tr status text :
  runs (perform_http json_parse call_id call) tr (Returned (status, text)) →
  accepts (customs call) (Egress false 0) tr
  ∧ after (customs call) (Egress false 0) tr = Egress false (if (status =? -1)%Z then 0 else 1).
Proof. intros Hr. by apply (wp_sound _ _ _ _ _ _ (customs_perform_http json_parse call_id call)) in Hr. Qed.

(** A server that answers every request with 200 and the given text. *)
Definition replying (text : bytes) X (e : pop X) (s : unit) : X * unit :=
  match e in pop X return X * unit with
  | Register _ => (tt, s)
  | Unregister _ => (tt, s)
  | Send _ => (Ok (mkResp 200 (Some (bs "sess")) (Ok text)), s)
  end.

Definition mcp_sample : Value :=
  obj [(bs "url", Str (bs "https://mcp.example/rpc")); (bs "kind", Str (bs "mcp"))].

Definition mcp_run : list (event pop) * exn (Z * bytes) :=
  run_with (replying (bs "{}"))
    (perform_http (λ _, Some (obj [(bs "result", Obj [])])) (bs "id") mcp_sample) tt.

Lemma perform_http_accounted_witness :
  mcp_run.2 = Returned (200%Z, bs "{}")
  ∧ after (customs mcp_sample) (Egress false 0) mcp_run.1 = Egress false 1.
Proof.
  split; [reflexivity|].
  apply (perform_http_accounted (λ _, Some (obj [(bs "result", Obj [])])) (bs "id") mcp_sample
           mcp_run.1 200 (bs "{}")).
  apply (run_with_runs (replying (bs "{}"))
    (perform_http (λ _, Some (obj [(bs "result", Obj [])])) (bs "id") mcp_sample) tt).
Defined.

(** * The MCP session *)

(** Where the exchange is: nothing sent yet, the answer to [initialize], the
    answer to the notification of a session, the call itself sent. *)
Inductive mcp_phase : Type :=
| McpStart
| McpAnswered (r : result out_response bytes)
| McpNotified (session : option bytes) (r : result out_response bytes)
| McpCalled.

Section mcp.
Context (json_parse : bytes → option Value).
Context (url : bytes) (hs : option (list (bytes * Value))) (allow_private : bool) (body : Value).

(** The call's headers and those of the session. *)
Definition mcp_headers (session : option bytes) : list (bytes * bytes) :=
  string_headers hs ++ match session with Some s => [(bs "mcp-session-id", s)] | None => [] end.

Definition mcp_post (p : purpose) (session : option bytes) (v : Value) : out_request :=
  mkOut p (bs "POST") url (mcp_headers session) (JsonBody v) allow_private.

(** The answer to [initialize] opens a session, or says that the server has no
    handshake. *)
Definition opens_session (r : out_response) : Prop :=
  is_success (resp_status r) = true
  ∧ ∃ text, resp_read r = Ok text ∧ init_valid (json_parse text) = true.

Definition no_handshake (r : out_response) : Prop :=
  ∃ text, resp_read r = Ok text
    ∧ (is_success (resp_status r) = true ∧ init_valid (json_parse text) = false
       ∧ error_code (json_parse text) = Some (-32601)%Z
     ∨ resp_status r = 400%N ∨ resp_status r = 404%N ∨ resp_status r = 405%N).

Definition mcp_allowed (ph : mcp_phase) X (e : pop X) : Prop :=
  match e with
  | Send q =>
      match ph with
      | McpStart => q = mcp_post Handshake None initialize
      | McpAnswered (Ok r) =>
          opens_session r ∧ q = mcp_post Handshake (resp_session r) initialized
          ∨ no_handshake r ∧ q = mcp_post Application None body
      | McpNotified session (Ok r) =>
          is_success (resp_status r) = true ∧ q = mcp_post Application session body
      | _ => False
      end
  | _ => True
  end.

Definition mcp_next (ph : mcp_phase) X (e : pop X) : X → mcp_phase :=
  match e in pop X return X → mcp_phase with
  | Send q => λ r,
      match ph with
      | McpStart => McpAnswered r
      | McpAnswered (Ok r0) =>
          match out_purpose q with Handshake => McpNotified (resp_session r0) r | Application => McpCalled end
      | _ => McpCalled
      end
  | _ => λ _, ph
  end.

Definition mcp_protocol : monitor pop := Monitor mcp_phase mcp_allowed mcp_next.

Lemma mcp_direct_ordered r Q :
  no_handshake r → (∀ ph v, Q ph v) →
  wpr mcp_protocol (mcp_direct url hs allow_private body) Q (McpAnswered (Ok r)).
Proof.
  intros Hn HQ. unfold mcp_direct. apply wpr_bind, wpr_op; [by right|]. intros x. by apply wpr_ret.
Qed.

Lemma read_response_Ok r status text :
  read_response r = (status, text) → status ≠ 0%Z →
  resp_read r = Ok text ∧ status = Z.of_N (resp_status r).
Proof. unfold read_response. destruct (resp_read r); [by intros [= <- <-]|by intros [= <- _] []]. Qed.

Lemma mcp_call_ordered (Q : mcp_phase → Z * bytes → Prop) :
  (∀ ph v, Q ph v) → wpr mcp_protocol (mcp_call json_parse url hs allow_private body) Q McpStart.
Proof.
  intros HQ. unfold mcp_call. apply wpr_bind, wpr_op; [done|]. intros [r|e]; [|by apply wpr_ret].
  cbn [next mcp_protocol mcp_next]. destruct (read_response r) as [status text] eqn:Hread.
  destruct (is_success (resp_status r)) eqn:Hs.
  - destruct (Z.eqb_spec status 0) as [|Hne]; [by apply wpr_ret|].
    destruct (read_response_Ok _ _ _ Hread Hne) as [Hr _]. cbn zeta.
    destruct (init_valid (json_parse text)) eqn:Hv; cbn [negb].
    + unfold mcp_initialized. apply wpr_bind, wpr_op; [left; split; [by split; [|exists text]|done]|].
      intros [n|e]; [|by apply wpr_ret]. destruct (is_success (resp_status n)) eqn:Hn; [|by apply wpr_ret].
      apply wpr_bind, wpr_op; [done|]. intros x. by apply wpr_ret.
    + case_decide; [|by apply wpr_ret]. apply mcp_direct_ordered; [|done]. exists text.
      split; [done|]. by left.
  - destruct (Z.eqb_spec status 0) as [|Hne]; [by apply wpr_ret|].
    destruct (read_response_Ok _ _ _ Hread Hne) as [Hr ->].
    destruct (_ || _) eqn:Hb; [|by apply wpr_ret]. apply mcp_direct_ordered; [|done]. exists text.
    split; [done|]. right. rewrite !orb_true_iff, !Z.eqb_eq in Hb. lia.
Qed.

End mcp.

(** C15: an MCP call follows the protocol: it starts with [initialize]; the call
    itself is sent under the session the server named, and only after the
    server accepted the [initialized] notification of that session; without a
    session it is sent only to a server that has no handshake (an HTTP 400, 404
    or 405, or JSON-RPC's method not found); nothing follows the call, and
    every request carries the call's own headers. *)
Theorem mcp_session_order json_parse call_id call url tr r :
  get_str (bs "kind") call = Some (bs "mcp") → get_str (bs "url") call = Some url →
  runs (perform_http json_parse call_id call) tr r →
  accepts (mcp_protocol json_parse url (get (bs "headers") call ≫= as_object)
             (default false (get_bool (bs "allow_private") call))
             (default (Obj []) (get (bs "body") call))) McpStart tr.
Proof.
  intros Hk Hu Hr. set (M := mcp_protocol _ _ _ _ _).
  apply (wp_sound M _ (λ _ _, True) McpStart) in Hr; [by destruct Hr|].
  unfold perform_http. apply wp_io_bind. split; [done|]. intros []. cbn [on_return].
  apply wp_io_bind, wp_try. eapply (wp_mono M _ (λ _ _, True)).
  - intros ph o _. cbn [on_return]. apply wp_io_bind. split; [done|]. intros []. by destruct o.
  - unfold perform_call. rewrite Hu. destruct (scheme_ok url); cbn [negb]; [|done].
    rewrite Hk. cbn [default from_option id]. cbn zeta. rewrite decide_True by done.
    eapply wp_mono; [|apply (mcp_call_ordered json_parse url _ _ _ (λ _ _, True))]; done.
Qed.

Lemma mcp_session_order_witness :
  length mcp_run.1 = 5
  ∧ accepts (mcp_protocol (λ _, Some (obj [(bs "result", Obj [])])) (bs "https://mcp.example/rpc") None
      false (Obj [])) McpStart mcp_run.1.
Proof.
  split; [reflexivity|].
  apply (mcp_session_order (λ _, Some (obj [(bs "result", Obj [])])) (bs "id") mcp_sample
    (bs "https://mcp.example/rpc") mcp_run.1 mcp_run.2 eq_refl eq_refl).
  apply (run_with_runs (replying (bs "{}"))
    (perform_http (λ _, Some (obj [(bs "result", Obj [])])) (bs "id") mcp_sample) tt).
Defined.

(** * The blocked ranges *)

Definition ipv4_int (a b c d : byte) : N := (((u8 a * 256 + u8 b) * 256 + u8 c) * 256 + u8 d)%N.

(** [base/len] as network prefixes. *)
Record cidr : Type := Cidr { base : byte * byte * byte * byte; len : N }.

Definition in_cidr (a b c d : byte) (r : cidr) : Prop :=
  let '(a0, b0, c0, d0) := base r in
  (ipv4_int a b c d / 2 ^ (32 - len r) = ipv4_int a0 b0 c0 d0 / 2 ^ (32 - len r))%N.

Definition blocked_ranges : list cidr :=
  [Cidr (x00, x00, x00, x00) 8;           (* this network *)
   Cidr (x0a, x00, x00, x00) 8;           (* RFC 1918 *)
   Cidr (x7f, x00, x00, x00) 8;           (* loopback *)
   Cidr (xa9, xfe, x00, x00) 16;          (* link-local, with 169.254.169.254 *)
   Cidr (xac, x10, x00, x00) 12;          (* RFC 1918 *)
   Cidr (xc0, xa8, x00, x00) 16;          (* RFC 1918 *)
   Cidr (xc0, x00, x00, x00) 24;          (* protocol assignments *)
   Cidr (xc0, x00, x02, x00) 24;          (* TEST-NET-1 *)
   Cidr (xc6, x12, x00, x00) 15;          (* benchmarking *)
   Cidr (x64, x40, x00, x00) 10;          (* CGNAT *)
   Cidr (xe0, x00, x00, x00) 3].          (* multicast, reserved, broadcast *)

(** The prefixes of an address, octet by octet. *)
Lemma prefix_div a b c d :
  let n := ipv4_int a b c d in
  (n / 2 ^ 24 = u8 a ∧ n / 2 ^ 16 = u8 a * 256 + u8 b
   ∧ n / 2 ^ 8 = (u8 a * 256 + u8 b) * 256 + u8 c
   ∧ n / 2 ^ 20 = u8 a * 16 + u8 b / 16 ∧ n / 2 ^ 17 = u8 a * 128 + u8 b / 2
   ∧ n / 2 ^ 22 = u8 a * 4 + u8 b / 64 ∧ n / 2 ^ 29 = u8 a / 32)%N.
Proof.
  pose proof (u8_bound a). pose proof (u8_bound b). pose proof (u8_bound c). pose proof (u8_bound d).
  cbn zeta. unfold ipv4_int.
  change (2 ^ 24)%N with 16777216%N. change (2 ^ 16)%N with 65536%N. change (2 ^ 8)%N with 256%N.
  change (2 ^ 20)%N with 1048576%N. change (2 ^ 17)%N with 131072%N. change (2 ^ 22)%N with 4194304%N.
  change (2 ^ 29)%N with 536870912%N.
  split_and!; zify; Z.to_euclidean_division_equations; lia.
Qed.

Lemma octet_true b n : octet b n = true ↔ u8 b = n.
Proof. apply N.eqb_eq. Qed.

(** Membership of each blocked range, octet by octet. *)
Lemma in_blocked_ranges a b c d :
  Exists (in_cidr a b c d) blocked_ranges ↔
  (u8 a = 0 ∨ u8 a = 10 ∨ u8 a = 127 ∨ u8 a * 256 + u8 b = 169 * 256 + 254
   ∨ u8 a * 16 + u8 b / 16 = 172 * 16 + 1 ∨ u8 a * 256 + u8 b = 192 * 256 + 168
   ∨ (u8 a * 256 + u8 b) * 256 + u8 c = 192 * 256 * 256
   ∨ (u8 a * 256 + u8 b) * 256 + u8 c = 192 * 256 * 256 + 2
   ∨ u8 a * 128 + u8 b / 2 = 198 * 128 + 9 ∨ u8 a * 4 + u8 b / 64 = 100 * 4 + 1
   ∨ u8 a / 32 = 7)%N.
Proof.
  unfold blocked_ranges. rewrite !Exists_cons, Exists_nil. unfold in_cidr. cbn [base len].
  destruct (prefix_div a b c d) as (H24 & H16 & H8 & H20 & H17 & H22 & H29).
  change (32 - 8)%N with 24%N. change (32 - 16)%N with 16%N. change (32 - 12)%N with 20%N.
  change (32 - 24)%N with 8%N. change (32 - 15)%N with 17%N. change (32 - 10)%N with 22%N.
  change (32 - 3)%N with 29%N. rewrite H24, H16, H8, H20, H17, H22, H29.
  repeat match goal with
    | |- context [(ipv4_int ?x ?y ?z ?w / ?m)%N] =>
        let v := eval vm_compute in (ipv4_int x y z w / m)%N in
        change (ipv4_int x y z w / m)%N with v
    end.
  tauto.
Qed.

(** The guard and the ranges agree. *)
Lemma is_blocked_ipv4_cidr a b c d :
  is_blocked_ipv4 a b c d = true ↔ Exists (in_cidr a b c d) blocked_ranges.
Proof.
  rewrite in_blocked_ranges. unfold is_blocked_ipv4.
  rewrite !orb_true_iff, !andb_true_iff, !orb_true_iff, !octet_true, !in_rng_true, N.leb_le.
  pose proof (u8_bound a). pose proof (u8_bound b). pose proof (u8_bound c).
  assert (u8 a / 32 = 7 ↔ 224 ≤ u8 a)%N as -> by (zify; Z.to_euclidean_division_equations; lia).
  assert (u8 a * 4 + u8 b / 64 = 100 * 4 + 1 ↔ u8 a = 100 ∧ 64 ≤ u8 b ≤ 127)%N as ->
    by (zify; Z.to_euclidean_division_equations; lia).
  assert (u8 a * 128 + u8 b / 2 = 198 * 128 + 9 ↔ u8 a = 198 ∧ (u8 b = 18 ∨ u8 b = 19))%N as ->
    by (zify; Z.to_euclidean_division_equations; lia).
  assert (u8 a * 16 + u8 b / 16 = 172 * 16 + 1 ↔ u8 a = 172 ∧ 16 ≤ u8 b ≤ 31)%N as ->
    by (zify; Z.to_euclidean_division_equations; lia).
  assert (∀ n m, n < 256 → m < 256 → u8 a * 256 + u8 b = n * 256 + m ↔ u8 a = n ∧ u8 b = m)%N as Hab
    by lia.
  rewrite !Hab by done.
  assert ((u8 a * 256 + u8 b) * 256 + u8 c = 192 * 256 * 256 ↔ (u8 a = 192 ∧ u8 b = 0) ∧ u8 c = 0)%N
    as -> by lia.
  assert ((u8 a * 256 + u8 b) * 256 + u8 c = 192 * 256 * 256 + 2 ↔ (u8 a = 192 ∧ u8 b = 0) ∧ u8 c = 2)%N
    as -> by lia.
  tauto.
Qed.

(** C33: the IPv4 guard blocks exactly the documented networks: this network,
    loopback, the private and shared ranges, link-local with the metadata
    address, protocol assignments, the first test network, benchmarking, and
    everything from 224.0.0.0 up. *)
Theorem blocked_ipv4_ranges a b c d :
  is_blocked_ipv4 a b c d = true ↔ Exists (in_cidr a b c d) blocked_ranges.
Proof. apply is_blocked_ipv4_cidr. Qed.

(** an address handed to the connector is never a blocked one unless the
    call allows private addresses: the resolver refuses the whole answer if
    any of its addresses is blocked, IPv4 addresses mapped into IPv6 included,
    and otherwise passes it on unchanged. *)
Theorem resolver_guards allow_private resolved addrs :
  resolve allow_private resolved = Ok addrs ↔
  resolved = Ok addrs ∧ (allow_private = true ∨ Forall (λ ip, is_blocked_ip ip = false) addrs).
Proof.
  destruct resolved as [l|e]; [|simpl; split; [done|by intros [? _]]]. unfold resolve.
  assert (existsb is_blocked_ip l = false ↔ Forall (λ ip, is_blocked_ip ip = false) l) as Hl.
  { induction l as [|ip l IH]; simpl; [split; [constructor|done]|].
    rewrite orb_false_iff, Forall_cons, IH. done. }
  destruct allow_private; simpl.
  { split; [intros [= ->]|intros [[= ->] _]]; auto. }
  destruct (existsb is_blocked_ip l) eqn:E.
  - split; [done|]. intros [[= ->] [?|H]]; [done|]. apply Hl in H. congruence.
  - split; [intros [= ->]; split; [done|right; by apply Hl]|by intros [[= ->] _]].
Qed.

(** An IPv4 address is blocked in its IPv4-mapped IPv6 form exactly when
    it is blocked itself. *)
Lemma mapped_ipv4_blocked a b c d :
  is_blocked_ip (V6 0 0 0 0 0 0xffff (u8 a * 256 + u8 b) (u8 c * 256 + u8 d))
    = is_blocked_ip (V4 a b c d).
Proof.
  assert (∀ x y, byte_of ((u8 x * 256 + u8 y) / 256) = x ∧ byte_of (u8 x * 256 + u8 y) = y) as Hb.
  { intros x y. pose proof (u8_bound x). pose proof (u8_bound y).
    assert ((u8 x * 256 + u8 y) / 256 = u8 x)%N as -> by (zify; Z.to_euclidean_division_equations; lia).
    split; apply u8_inj.
    - by rewrite u8_byte_of.
    - unfold byte_of. replace ((u8 x * 256 + u8 y) mod 256)%N with (u8 y mod 256)%N
        by (zify; Z.to_euclidean_division_equations; lia).
      change (u8 (byte_of (u8 y)) = u8 y). by apply u8_byte_of. }
  destruct (Hb a b) as [Ha Hb'], (Hb c d) as [Hc Hd].
  cbn [is_blocked_ip to_ipv4_mapped]. rewrite decide_True by done. by rewrite Ha, Hb', Hc, Hd.
Qed.
