(* ===== verification/Dial.v ===== *)
(** What the outbound requests of src/src/outbound.rs dial. ureq's agent is a
    parameter, a program that asks its resolver and connects; the resolver is
    [GuardedResolver] over the system's lookup, and the requests are those of
    [perform_http]. Which addresses are private is written out here, without
    the code's own test. *)
From S2P Require Import Prelude RustStr Json Net Effects Config Outbound.

(** * The network under a request *)

(** What ureq's agent does for one request: it asks the resolver it was built
    with, opens connections, and exchanges bytes over them. *)
Inductive aop : Type → Type :=
| AskResolver : aop (result (list IpAddr) bytes)
| Connect (ip : IpAddr) : aop (result unit bytes)
| Exchange (data : bytes) : aop (result bytes bytes).

(** The same one level down, where the resolver's answer is a lookup of the
    host in the request's URL. *)
Inductive nop : Type → Type :=
| Lookup (url : bytes) : nop (result (list IpAddr) bytes)
| Dial (ip : IpAddr) : nop (result unit bytes)
| Transfer (data : bytes) : nop (result bytes bytes).

(** The resolver of a request: the default one's answer, checked. *)
Definition guarded_resolver (r : out_request) X (e : aop X) (s : unit) : prog nop (unit * X) :=
  match e in aop X return prog nop (unit * X) with
  | AskResolver =>
      Do (Lookup (out_url r)) (λ found, Done (s, resolve (out_allow_private r) found))
  | Connect ip => Do (Dial ip) (λ a, Done (s, a))
  | Exchange data => Do (Transfer data) (λ a, Done (s, a))
  end.

Section agent.
Context {St : Type} (agent : out_request → St → prog aop (St * result out_response bytes)).

(** The pool thread's operations, with requests carried out by the agent. *)
Definition over_network X (e : pop X) (st : St) : prog nop (St * X) :=
  match e in pop X return prog nop (St * X) with
  | Register _ => Done (st, tt)
  | Unregister _ => Done (st, tt)
  | Send r => prog_bind (interp (guarded_resolver r) (agent r st) tt) (λ '(_, a), Done a)
  end.

(** ureq connects only to what its resolver returned for the request. *)
Definition resolved_first : monitor aop :=
  Monitor (list IpAddr)
    (λ known X e, match e with Connect ip => ip ∈ known | _ => True end)
    (λ known X e, match e in aop X return X → list IpAddr with
                  | AskResolver => λ a, match a with Ok l => l ++ known | Err _ => known end
                  | _ => λ _, known
                  end).

Definition dials_resolved : Prop :=
  ∀ r st, wp resolved_first (agent r st) (λ _ _, True) [].

End agent.

(** * Private addresses *)

(** The IPv4 networks of [blocked_ranges]; in IPv6 the unspecified address and
    loopback, fc00::/7, fe80::/10, and the IPv4 networks mapped into IPv6. *)
Definition private_address (ip : IpAddr) : Prop :=
  match ip with
  | V4 a b c d => Exists (in_cidr a b c d) blocked_ranges
  | V6 s0 s1 s2 s3 s4 s5 s6 s7 =>
      ([s0; s1; s2; s3; s4; s5; s6] = replicate 7 0 ∧ s7 ≤ 1)
      ∨ 0xfc00 ≤ s0 ≤ 0xfdff
      ∨ 0xfe80 ≤ s0 ≤ 0xfebf
      ∨ [s0; s1; s2; s3; s4; s5] = [0; 0; 0; 0; 0; 0xffff]
        ∧ Exists (in_cidr (byte_of (s6 / 256)) (byte_of s6) (byte_of (s7 / 256)) (byte_of s7))
            blocked_ranges
  end%N.

(** A mask keeps the leading bits of every number between the ends of its
    prefix. *)
Lemma mask_between lo (n : nat) mask x :
  forallb (λ k, (N.land (lo + N.of_nat k) mask =? lo)%N) (seq 0 n) = true →
  (lo ≤ x < lo + N.of_nat n)%N → N.land x mask = lo.
Proof.
  intros H Hx. rewrite forallb_forall in H. apply N.eqb_eq.
  rewrite <- (H (N.to_nat (x - lo))); [do 2 f_equal; lia|]. apply in_seq. lia.
Qed.

Lemma unique_local s : (0xfc00 ≤ s ≤ 0xfdff)%N → N.land s 0xfe00 = 0xfc00%N.
Proof. intros Hs. apply (mask_between 0xfc00 512); [by vm_compute|lia]. Qed.

Lemma link_local s : (0xfe80 ≤ s ≤ 0xfebf)%N → N.land s 0xffc0 = 0xfe80%N.
Proof. intros Hs. apply (mask_between 0xfe80 64); [by vm_compute|lia]. Qed.

Lemma private_blocked ip : private_address ip → is_blocked_ip ip = true.
Proof.
  destruct ip as [a b c d|s0 s1 s2 s3 s4 s5 s6 s7]; [by intros ?%is_blocked_ipv4_cidr|].
  cbn [private_address is_blocked_ip to_ipv4_mapped].
  intros [[[= -> -> -> -> -> -> ->] H7]|[H0|[H0|[[= -> -> -> -> -> ->] H]]]].
  - rewrite decide_False by lia. rewrite decide_True; [done|].
    assert (s7 = 0 ∨ s7 = 1)%N as [-> | ->] by lia; auto.
  - rewrite decide_False by lia. case_decide; [done|]. by rewrite unique_local, N.eqb_refl.
  - rewrite decide_False by lia. case_decide; [done|]. by rewrite link_local, N.eqb_refl, orb_true_r.
  - rewrite decide_True by done. by apply is_blocked_ipv4_cidr.
Qed.

(** * What is dialed *)

(** Only the hosts of [url] are looked up, and private addresses are dialed only
    if [allow] says so. *)
Definition perimeter (url : option bytes) (allow : bool) : monitor nop :=
  Monitor unit
    (λ _ X e, match e with
              | Lookup u => url = Some u
              | Dial ip => private_address ip → allow = true
              | Transfer _ => True
              end)
    (λ _ _ _ _, tt).

Lemma resolve_public allow found l ip :
  resolve allow found = Ok l → ip ∈ l → private_address ip → allow = true.
Proof.
  unfold resolve. destruct found as [l'|]; [|done]. destruct allow; [done|]. simpl.
  destruct (existsb is_blocked_ip l') eqn:E; [done|]. intros [= ->] Hin Hp.
  apply private_blocked in Hp. assert (existsb is_blocked_ip l = true); [|congruence].
  apply existsb_exists. exists ip. by rewrite <- list_elem_of_In.
Qed.

Section dial.
Context {St : Type} (agent : out_request → St → prog aop (St * result out_response bytes)).
Context (Hagent : dials_resolved agent).

(** One request, by the contract of the agent. *)
Lemma request_perimeter r st :
  wp (perimeter (Some (out_url r)) (out_allow_private r)) (over_network agent _ (Send r) st)
    (λ _ _, True) tt.
Proof using Hagent.
  cbn [over_network]. apply wp_bind. eapply wp_mono; [by intros ? [? ?] _|].
  eapply (wp_interp _ resolved_first _
    (λ known _, ∀ ip, ip ∈ known → private_address ip → out_allow_private r = true));
    [|apply Hagent|by intros ip ?%not_elem_of_nil].
  intros X [|ip|data] known [] [] Ha HR; cbn; [|split; [by apply HR|done]|done].
  split; [done|]. intros found. destruct (resolve _ found) as [l|e] eqn:E; [|done].
  intros ip [Hin|Hin]%elem_of_app; [by eapply resolve_public|by apply HR].
Qed.

Lemma perform_http_perimeter json_parse call_id call st :
  wp (perimeter (get_str (bs "url") call) (default false (get_bool (bs "allow_private") call)))
    (interp (over_network agent) (perform_http json_parse call_id call) st) (λ _ _, True) tt.
Proof using Hagent.
  eapply wp_mono; [by intros ? [? ?] _|].
  eapply (wp_interp _ (customs call) _ (λ _ _, True)); [|apply customs_perform_http|done].
  intros X [| |r] s [] st' Ha _; [done..|]. destruct Ha as (_ & _ & -> & _ & <-).
  eapply wp_mono; [by intros ? [? ?] _|]. apply request_perimeter.
Qed.

(** The call a procedure makes in its own process goes the same way. *)
Lemma guarded_post_json_perimeter url headers body allow st :
  wp (perimeter (Some url) allow)
    (interp (over_network agent) (guarded_post_json url headers body allow) st) (λ _ _, True) tt.
Proof using Hagent.
  unfold guarded_post_json. destruct (scheme_ok url); [|done]. cbn [negb].
  change (interp (over_network agent) (Do (Send ?r) ?k) st)
    with (prog_bind (over_network agent _ (Send r) st) (λ '(s', x), interp (over_network agent) (k x) s')).
  apply wp_bind. eapply wp_mono; [|apply (request_perimeter (mkOut _ _ url _ _ allow))].
  by intros [] [st' a] _.
Qed.

(** C28: whatever the names resolve to, whenever, no outbound call dials a private
    address that its own [allow_private] flag does not admit: not loopback,
    not a private, shared, link-local or reserved network, not the metadata
    address, over IPv4, IPv6 or IPv4 mapped into IPv6; and it looks up only the
    host of its own URL. The agent is any that connects only to what its
    resolver returned. *)
Theorem dials_guarded json_parse call_id call st tr r :
  runs (interp (over_network agent) (perform_http json_parse call_id call) st) tr r →
  (∀ ip a, Event _ (Dial ip) a ∈ tr → private_address ip → get_bool (bs "allow_private") call = Some true)
  ∧ (∀ u a, Event _ (Lookup u) a ∈ tr → get_str (bs "url") call = Some u).
Proof using Hagent.
  intros Hr. pose proof (perform_http_perimeter json_parse call_id call st) as Hw.
  set (M := perimeter _ _) in Hw. destruct (wp_sound _ _ _ _ _ _ Hw Hr) as [Hacc _].
  apply (accepts_forall M (λ X e, allowed M tt e)) in Hacc; [|by intros []].
  rewrite Forall_forall in Hacc. split.
  - intros ip a Hin Hp. specialize (Hacc _ Hin Hp).
    by destruct (get_bool (bs "allow_private") call) as [[]|].
  - intros u a Hin. apply (Hacc _ Hin).
Qed.

End dial.

(** An agent that asks, connects to every address it got, and answers 200. *)
Definition plain_agent (r : out_request) (st : unit) : prog aop (unit * result out_response bytes) :=
  Do AskResolver (λ found,
    match found with
    | Ok (ip :: _) => Do (Connect ip) (λ _, Done (tt, Ok (mkResp 200 None (Ok (bs "hello")))))
    | _ => Done (tt, Err (bs "host not found"))
    end).

Lemma plain_agent_ok : dials_resolved plain_agent.
Proof.
  intros r st. split; [done|]. intros [[|ip l]|e]; [done| |done].
  split; [|done]. apply elem_of_app. left. apply elem_of_cons. by left.
Qed.

(** A network where every name leads to one address. *)
Definition leads_to (ip : IpAddr) X (e : nop X) (s : unit) : X * unit :=
  match e in nop X return X * unit with
  | Lookup _ => (Ok [ip], s)
  | Dial _ => (Ok tt, s)
  | Transfer _ => (Err (bs "closed"), s)
  end.

Definition metadata_address : IpAddr := V4 xa9 xfe xa9 xfe.

Definition http_call (allow : bool) : Value :=
  obj [(bs "url", Str (bs "http://models.example/v1")); (bs "allow_private", Bool allow)].

Definition call_leading_to (ip : IpAddr) (allow : bool) : list (event nop) * (unit * exn (Z * bytes)) :=
  run_with (leads_to ip)
    (interp (over_network plain_agent) (perform_http (λ _, None) (bs "id") (http_call allow)) tt) tt.

(** A rebound name: without the flag nothing is dialed and the call fails. *)
Example rebound_name :
  call_leading_to metadata_address false
  = ([Event _ (Lookup (bs "http://models.example/v1")) (Ok [metadata_address])],
     (tt, Returned (0%Z, bs "host not found"))).
Proof. vm_compute. reflexivity. Qed.

Lemma dials_guarded_witness :
  Event _ (Dial metadata_address) (Ok tt) ∈ (call_leading_to metadata_address true).1
  ∧ private_address metadata_address
  ∧ get_bool (bs "allow_private") (http_call true) = Some true.
Proof.
  assert (private_address metadata_address) as Hp.
  { do 3 apply Exists_cons_tl. apply Exists_cons_hd. vm_compute. reflexivity. }
  assert (Event _ (Dial metadata_address) (Ok tt) ∈ (call_leading_to metadata_address true).1) as Hin.
  { vm_compute. apply elem_of_cons. right. apply elem_of_cons. by left. }
  split_and!; [done..|].
  apply (proj1 (dials_guarded plain_agent plain_agent_ok (λ _, None) (bs "id") (http_call true) tt
           (call_leading_to metadata_address true).1 (call_leading_to metadata_address true).2
           (run_with_runs (leads_to metadata_address) _ tt)) metadata_address (Ok tt) Hin Hp).
Defined.
