(* ===== verification/Transport.v ===== *)
(** The cancellable transport of src/src/outbound.rs: waits on ureq's own
    transport are cut into slices, and the call's cancellation flag is read
    before each. In time: how soon a stop is noticed, and how long a silent
    peer can hold the thread. *)
From S2P Require Import Prelude Effects.

(** * Definitions *)

Inductive terr : Type := TimedOut | Failed (e : bytes).

Inductive tpop : Type → Type :=
| TNow : tpop Z
| Cancelled : tpop bool                                     (* the flag *)
| AwaitInput (after : Z) : tpop (result bool terr)          (* the inner transport *)
| TransmitOutput (amount : nat) (after : Z) : tpop (result unit terr)
| CanUseInput : tpop bool.

Abbreviation transport := (io tpop).

(** In milliseconds. *)
Definition CANCEL_POLL_INTERVAL : Z := 150.

Definition cancelled_error : terr := Failed (bs "cancelled by operator").

(** [sliced] *)
Definition sliced (after : Z) : Z := Z.min after CANCEL_POLL_INTERVAL.

(** One round: the state is the answer, once there is one; [ready] tells the
    answers that end the wait. *)
Definition sliced_round {A} (inner : Z → tpop (result A terr)) (ready : A → bool)
    (deadline timeout : Z) (_ : option (result A terr)) :
    transport (option (result A terr) * bool) :=
  c ← op Cancelled;
  if (c : bool) then mret (Some (Err cancelled_error), false)
  else
    now ← op TNow;
    let remaining := Z.max 0 (deadline - now) in
    if (remaining =? 0)%Z then r ← op (inner timeout); mret (Some r, false)
    else
      r ← op (inner (sliced remaining));
      match r with
      | Ok a => if ready a then mret (Some (Ok a), false) else mret (None, true)
      | Err TimedOut => mret (None, true)
      | Err e => mret (Some (Err e), false)
      end.

(** [None] is a wait that is still going on after [fuel] rounds. *)
Definition sliced_wait {A} (fuel : nat) (inner : Z → tpop (result A terr)) (ready : A → bool)
    (timeout : Z) : transport (option (result A terr)) :=
  now ← op TNow;
  r ← loop fuel (sliced_round inner ready (now + timeout) timeout) None;
  mret (r ≫= id).

Definition transmit_output (fuel amount : nat) (timeout : Z) : transport (option (result unit terr)) :=
  sliced_wait fuel (TransmitOutput amount) (λ _, true) timeout.

Definition await_input (fuel : nat) (timeout : Z) : transport (option (result bool terr)) :=
  sliced_wait fuel AwaitInput id timeout.

Definition maybe_await_input (fuel : nat) (timeout : Z) : transport (option (result bool terr)) :=
  u ← op CanUseInput;
  if (u : bool) then mret (Some (Ok true)) else await_input fuel timeout.

(** The wrapper: ureq's own transport, with the call's flag (here its index
    among the shared booleans). [T] is ureq's transport. *)
Record CancellableTransport (T : Type) : Type := Cancellable { inner : T; cancel : nat }.
Arguments Cancellable {T} inner cancel.
Arguments inner {T} c.
Arguments cancel {T} c.

(** [CancellableConnector::connect]: the inner connector's answer, wrapped. *)
Definition connect {T} (connected : result (option T) terr) (flag : nat) :
    result (option (CancellableTransport T)) terr :=
  match connected with
  | Ok (Some inner) => Ok (Some (Cancellable inner flag))
  | Ok None => Ok None
  | Err e => Err e
  end.

(** The questions passed on to ureq's transport. *)
Definition is_open {T} (inner_is_open : T → bool) (t : CancellableTransport T) : bool :=
  inner_is_open (inner t).

Definition is_tls {T} (inner_is_tls : T → bool) (t : CancellableTransport T) : bool :=
  inner_is_tls (inner t).

(** * Promptness *)

(** What the thread knows: whether the flag was just read and not set, the
    last time it read, whether it was told to stop, and the last answer of
    the inner transport. *)
Record vigil : Type := Vigil {
  clear : bool; clock : Z; stopped : bool; start : option Z }.

Definition vnext (v : vigil) X (e : tpop X) : X → vigil :=
  match e in tpop X return X → vigil with
  | TNow => λ t, Vigil (clear v) t (stopped v) (if start v is Some s then Some s else Some t)
  | Cancelled => λ c, Vigil (negb c) (clock v) (c || stopped v) (start v)
  | AwaitInput _ | TransmitOutput _ _ => λ _, Vigil false (clock v) (stopped v) (start v)
  | CanUseInput => λ _, v
  end.

(** An inner wait comes right after a look at the flag that found it clear; it
    lasts at most a slice, and not past the deadline, unless that has already
    passed. *)
Definition vwait (timeout : Z) (v : vigil) (after : Z) : Prop :=
  clear v = true ∧ stopped v = false
  ∧ ∃ s, start v = Some s
      ∧ ((after ≤ CANCEL_POLL_INTERVAL ∧ clock v + after ≤ s + timeout)
         ∨ (s + timeout ≤ clock v ∧ after = timeout))%Z.

Definition vallowed (timeout : Z) (v : vigil) X (e : tpop X) : Prop :=
  match e with
  | AwaitInput after | TransmitOutput _ after => vwait timeout v after
  | _ => stopped v = false
  end.

Definition prompt (timeout : Z) : monitor tpop := Monitor vigil (vallowed timeout) vnext.

Section sliced_prompt.
Context {A : Type} (inner : Z → tpop (result A terr)) (ready : A → bool) (timeout : Z).
Context (Hallow : ∀ v after, vwait timeout v after → allowed (prompt timeout) v (inner after)).
Context (Hnext : ∀ v after r,
  next (prompt timeout) v (inner after) r = Vigil false (clock v) (stopped v) (start v)).

(** The answer is the operator's cancellation, if the flag was seen set, or
    the inner transport's; a wait that goes on was not stopped. *)
Definition waited (s : Z) (v : vigil) (o : option (option (result A terr))) : Prop :=
  start v = Some s
  ∧ match o with
    | Some (Some r) => stopped v = true → r = Err cancelled_error
    | _ => stopped v = false
    end.

Lemma sliced_round_prompt s v o :
  start v = Some s → stopped v = false →
  wpr (prompt timeout) (sliced_round inner ready (s + timeout) timeout o)
    (λ v' (r : option (result A terr) * bool),
       if r.2 then start v' = Some s ∧ stopped v' = false else waited s v' (Some r.1)) v.
Proof using Hallow Hnext.
  intros Hs Hn. unfold sliced_round. apply wpr_bind, wpr_op; [done|]. intros [].
  { apply wpr_ret. by split. }
  apply wpr_bind, wpr_op; [by simpl|]. intros now. cbn zeta.
  destruct (Z.eqb_spec (Z.max 0 (s + timeout - now)) 0) as [Hz|Hz].
  - apply wpr_bind, wpr_op.
    + apply Hallow. simpl. rewrite Hs. split_and!; [done|done|]. exists s. split; [done|]. right.
      split; [simpl; lia|done].
    + intros r. rewrite Hnext. apply wpr_ret. simpl. rewrite Hs. split; [done|]. simpl. congruence.
  - apply wpr_bind, wpr_op.
    + apply Hallow. simpl. rewrite Hs. split_and!; [done|done|]. exists s. split; [done|]. left.
      unfold sliced. simpl. lia.
    + intros r. rewrite Hnext. cbn [clear clock stopped start vnext].
      repeat case_match; apply wpr_ret; simpl in *; simplify_eq; rewrite ?Hs, ?Hn;
        split; simpl; congruence.
Qed.

Lemma sliced_wait_prompt fuel :
  wpr (prompt timeout) (sliced_wait fuel inner ready timeout)
    (λ v o, match o with
            | Some r => stopped v = true → r = Err cancelled_error
            | None => stopped v = false
            end) (Vigil false 0 false None).
Proof using Hallow Hnext.
  unfold sliced_wait. apply wpr_bind, wpr_op; [done|]. intros s. apply wpr_bind.
  eapply (wpr_mono (prompt timeout) _ (waited s)).
  - apply (wpr_loop_exit (prompt timeout) (λ v _, start v = Some s ∧ stopped v = false)).
    + done.
    + intros v o [H1 H2]. by apply sliced_round_prompt.
    + intros v o [H1 H2]. by split.
  - intros v [[r|]|] [_ H]; by apply wpr_ret.
Qed.

End sliced_prompt.

(** Waiting for input, or sending output, notices a cancellation within a
    slice: the flag is read right before each wait on the inner transport; a
    wait lasts at most 150 ms and not past the deadline, except the last one,
    once the deadline has passed; after the flag was seen set nothing more is
    tried, and the answer is the cancellation. *)
Theorem waits_are_prompt fuel amount timeout tr o :
  runs (await_input fuel timeout) tr (Returned o)
  ∨ (∃ o', o = (λ r : result unit terr, match r with Ok _ => Ok true | Err e => Err e end) <$> o'
      ∧ runs (transmit_output fuel amount timeout) tr (Returned o')) →
  let v0 := Vigil false 0 false None in
  accepts (prompt timeout) v0 tr
  ∧ (stopped (after (prompt timeout) v0 tr) = true → o = Some (Err cancelled_error)).
Proof.
  intros [Hr|(o' & -> & Hr)] v0.
  - eapply (wpr_runs (prompt timeout)) in Hr as [Ha Hp];
      [|by apply (sliced_wait_prompt AwaitInput id timeout)].
    split; [done|]. intros Hst. fold v0 in Hp. destruct o as [r|]; simpl in Hp.
    + by rewrite Hp.
    + congruence.
  - eapply (wpr_runs (prompt timeout)) in Hr as [Ha Hp];
      [|by apply (sliced_wait_prompt (TransmitOutput amount) (λ _, true) timeout)].
    split; [done|]. intros Hst. fold v0 in Hp. destruct o' as [r|]; simpl in *.
    + by rewrite Hp.
    + congruence.
Qed.

(** A peer that never answers, a clock that ticks 100 ms at a time, and an
    operator who cancels after the second slice. *)
Definition silent_peer X (e : tpop X) (t : Z) : X * Z :=
  match e in tpop X return X * Z with
  | TNow => (t, t)
  | Cancelled => ((250 <? t)%Z, t)
  | AwaitInput after => (Err TimedOut, (t + after)%Z)
  | TransmitOutput _ after => (Err TimedOut, (t + after)%Z)
  | CanUseInput => (false, t)
  end.

Lemma waits_are_prompt_witness :
  let run := run_with silent_peer (await_input 10 45000) 0%Z in
  run.2 = Returned (Some (Err cancelled_error)) ∧ accepts (prompt 45000) (Vigil false 0 false None) run.1.
Proof.
  split; [reflexivity|].
  apply (waits_are_prompt 10 0 45000 _ (Some (Err cancelled_error))).
  left. apply (run_with_runs silent_peer (await_input 10 45000) 0%Z).
Defined.

(** * In time *)

(** How long an operation may take: a wait on ureq's transport what it was
    asked to wait, the others nothing; and any of them [lag] more. [least] is
    the least time a wait takes. *)
Definition span {X} (e : tpop X) : Z :=
  match e with AwaitInput after | TransmitOutput _ after => Z.max 0 after | _ => 0 end.

Definition shortest {X} (least : Z) (e : tpop X) : Z :=
  match e with AwaitInput _ | TransmitOutput _ _ => least | _ => 0 end.

(** The clock tells the time, and the flag is set from [stop] on; the rest is
    answered in any way. *)
Definition told_at {X} (stop t : Z) (e : tpop X) : X → Prop :=
  match e in tpop X return X → Prop with
  | TNow => λ now, now = t
  | Cancelled => λ c, c = bool_decide (stop ≤ t)%Z
  | _ => λ _, True
  end.

(** The events of a thread between two times. *)
Inductive timed (lag least stop : Z) : Z → list (event tpop) → Z → Prop :=
| timed_nil t : timed lag least stop t [] t
| timed_step t X (e : tpop X) x d tr t' :
    told_at stop t e x → (shortest least e ≤ d ≤ span e + lag)%Z →
    timed lag least stop (t + d) tr t' → timed lag least stop t (Event X e x :: tr) t'.

Section timed.
Context (lag least stop : Z).

Abbreviation timed := (timed lag least stop).

Lemma timed_inv t ev tr t' :
  timed t (ev :: tr) t' →
  ∃ d, told_at stop t (ev_op ev) (ev_val ev)
    ∧ (shortest least (ev_op ev) ≤ d ≤ span (ev_op ev) + lag)%Z ∧ timed (t + d) tr t'.
Proof. inversion 1; subst; simplify_eq; eauto. Qed.

Lemma timed_app t tr1 tr2 t' :
  timed t (tr1 ++ tr2) t' → ∃ t1, timed t tr1 t1 ∧ timed t1 tr2 t'.
Proof.
  revert t. induction tr1 as [|ev tr1 IH]; intros t Ht; [exists t; by split; [constructor|]|].
  apply timed_inv in Ht as (d & H1 & H2 & (t1 & H3 & H4)%IH). exists t1. split; [|done].
  destruct ev. by econstructor.
Qed.

End timed.

Section sliced_time.
Context {A : Type} (wait : Z → tpop (result A terr)) (ready : A → bool).
Context (lag least stop : Z).
Context (Hspan : ∀ after, span (wait after) = Z.max 0 after).
Context (Hleast : ∀ after, shortest least (wait after) = least).
Context (Hlag : (0 ≤ lag)%Z).

Lemma round_timed deadline timeout o t tr t' r :
  (stop + lag < deadline)%Z →
  runs (sliced_round wait ready deadline timeout o) tr r → timed lag least stop t tr t' →
  (if decide (stop ≤ t)%Z then t' ≤ t + lag ∧ r = Returned (Some (Err cancelled_error), false)
   else t + least ≤ t' ≤ stop + CANCEL_POLL_INTERVAL + 3 * lag)%Z.
Proof using Hspan Hleast Hlag.
  intros Hd Hr Ht. unfold sliced_round in Hr.
  apply runs_inv in Hr as (c & tr1 & -> & Hr).
  apply timed_inv in Ht as (d & Hc & Hd1 & Ht). cbn in Hc, Hd1. subst c.
  case_bool_decide as Hs; cbn in Hr.
  { rewrite decide_True by done. apply runs_inv in Hr as [-> ->]. inversion Ht; subst. split; [lia|done]. }
  rewrite decide_False by done.
  apply runs_inv in Hr as (now & tr2 & -> & Hr).
  apply timed_inv in Ht as (d2 & Hc & Hd2 & Ht). cbn in Hc, Hd2. subst now.
  destruct (Z.eqb_spec (Z.max 0 (deadline - (t + d))) 0) as [Hz|Hz]; [lia|]; cbn in Hr.
  apply runs_inv in Hr as (x & tr3 & -> & Hr).
  apply timed_inv in Ht as (d3 & _ & Hd3 & Ht). cbn in Hd3. rewrite Hspan, Hleast in Hd3.
  assert (tr3 = []) as ->.
  { repeat case_match; by apply runs_inv in Hr as [-> _]. }
  inversion Ht; subst. unfold sliced, CANCEL_POLL_INTERVAL in *. lia.
Qed.

Lemma round_answer deadline timeout o tr r :
  runs (sliced_round wait ready deadline timeout o) tr r →
  ∃ x, r = Returned (x, if x is Some _ then false else true).
Proof.
  unfold sliced_round. intros Hr.
  apply runs_inv in Hr as (c & tr1 & -> & Hr). destruct c; cbn in Hr.
  { apply runs_inv in Hr as [_ ->]. first [by exists None | by eexists (Some _)]. }
  apply runs_inv in Hr as (now & tr2 & -> & Hr).
  case_match; cbn in Hr; apply runs_inv in Hr as (x & tr3 & -> & Hr); cbn in Hr;
    repeat case_match; apply runs_inv in Hr as [_ ->]; first [by exists None | by eexists (Some _)].
Qed.

Lemma loop_timed deadline timeout last fuel o t tr t' r :
  (stop + lag < deadline)%Z → (t ≤ last)%Z → (stop + CANCEL_POLL_INTERVAL + 3 * lag ≤ last)%Z →
  runs (loop fuel (sliced_round wait ready deadline timeout) o) tr r → timed lag least stop t tr t' →
  (t' ≤ last + lag)%Z
  ∧ ((1 ≤ least)%Z → Z.to_nat (stop - t) < fuel → ∃ a, r = Returned (Some (Some a))).
Proof using Hspan Hleast Hlag.
  intros Hd Ht Hl. revert o t tr Ht. induction fuel as [|fuel IH]; intros o t tr Ht Hr Hti.
  { apply runs_inv in Hr as [-> _]. inversion Hti; subst. split; [lia|lia]. }
  apply runs_bind_inv in Hr as (tr1 & tr2 & r1 & -> & H1 & H2).
  destruct (round_answer _ _ _ _ _ H1) as [x ->].
  apply timed_app in Hti as (t1 & Ht1 & Ht2).
  pose proof (round_timed _ _ _ _ _ _ _ Hd H1 Ht1) as Hb.
  destruct x as [a|]; cbn in H2.
  - apply runs_inv in H2 as [-> ->]. inversion Ht2; subst. destruct (decide _); split; eauto; lia.
  - destruct (decide _) as [Hs|Hs]; [by destruct Hb as [_ [=]]|].
    destruct (IH None t1 tr2) as [IH1 IH2]; [lia|done|done|]. split; [done|].
    intros Hle Hf. apply IH2; [done|]. lia.
Qed.

Lemma sliced_wait_timed fuel timeout t tr t' o :
  (stop + lag < t + timeout)%Z →
  runs (sliced_wait fuel wait ready timeout) tr (Returned o) → timed lag least stop t tr t' →
  (t' ≤ Z.max t stop + CANCEL_POLL_INTERVAL + 4 * lag)%Z
  ∧ ((1 ≤ least)%Z → Z.to_nat (stop - t) < fuel → is_Some o).
Proof using Hspan Hleast Hlag.
  intros Hd Hr Ht. apply runs_inv in Hr as (now & tr1 & -> & Hr).
  apply timed_inv in Ht as (d & Hn & Hd1 & Ht). cbn in Hn, Hd1. subst now.
  cbn in Hr. apply runs_bind_inv in Hr as (tr2 & tr3 & r & -> & H1 & H2).
  assert (tr3 = []) as ->. { destruct r; cbn in H2; [by apply runs_inv in H2 as [-> _]|by destruct H2]. }
  rewrite app_nil_r in Ht.
  destruct (loop_timed (t + timeout) timeout (Z.max t stop + CANCEL_POLL_INTERVAL + 3 * lag)
    fuel None (t + d) tr2 t' r) as [Hb He]; try done; try (unfold CANCEL_POLL_INTERVAL; lia).
  split; [lia|]. intros Hle Hf. destruct He as [a ->]; [done|lia|].
  cbn in H2. apply runs_inv in H2 as [_ [= ->]]. eauto.
Qed.
End sliced_time.

(** C25: a stop during a wait is noticed within a slice: if ureq's transport waits
    no longer than it is asked to, and no operation takes more than [lag]
    longer than that, then a thread that waits for input, or sends output, is
    back at most 150 ms, and four times [lag], after the flag was set, as long
    as the flag is set before the deadline; and it does come back when a wait
    takes some time: as many rounds suffice as there are milliseconds before
    the stop. *)
Theorem stop_within_a_slice fuel amount timeout lag least stop t :
  (0 ≤ lag)%Z → (stop + lag < t + timeout)%Z →
  let back (ended : Prop) t' :=
    (t' ≤ Z.max t stop + CANCEL_POLL_INTERVAL + 4 * lag)%Z
    ∧ ((1 ≤ least)%Z → Z.to_nat (stop - t) < fuel → ended) in
  (∀ tr t' o, runs (await_input fuel timeout) tr (Returned o) → timed lag least stop t tr t' →
     back (is_Some o) t')
  ∧ (∀ tr t' o, runs (transmit_output fuel amount timeout) tr (Returned o) →
     timed lag least stop t tr t' → back (is_Some o) t').
Proof.
  intros Hl Hs back.
  split; intros tr t' o Hr Ht; [eapply (sliced_wait_timed AwaitInput)|eapply (sliced_wait_timed (TransmitOutput amount))];
    done.
Qed.

Lemma stop_within_a_slice_witness :
  let run := run_with silent_peer (await_input 300 45000) 0%Z in
  run.2 = Returned (Some (Err cancelled_error))
  ∧ timed 0 1 251 0 run.1 300 ∧ (300 ≤ 251 + CANCEL_POLL_INTERVAL)%Z.
Proof.
  assert (Ht : timed 0 1 251 0 (run_with silent_peer (await_input 300 45000) 0%Z).1 300).
  { vm_compute.
    repeat match goal with
    | |- timed _ _ _ ?t (Event _ (AwaitInput _) _ :: _) _ =>
        apply (timed_step 0 1 251 t _ _ _ 150); [exact I|split; discriminate|cbn]
    | |- timed _ _ _ ?t (_ :: _) _ =>
        apply (timed_step 0 1 251 t _ _ _ 0); [reflexivity|split; discriminate|cbn]
    end.
    constructor. }
  split; [reflexivity|]. split; [exact Ht|].
  destruct (stop_within_a_slice 300 0 45000 0 1 251 0 ltac:(lia) ltac:(lia)) as [H _].
  destruct (H _ _ (Some (Err cancelled_error))
    (run_with_runs silent_peer (await_input 300 45000) 0%Z) Ht) as [H1 _].
  revert H1. unfold CANCEL_POLL_INTERVAL. lia.
Defined.

(** * A peer that is silent *)

(** Nothing arrives: the flag is seen clear, and ureq's transport reports that
    its wait has timed out, or that there is no more input. *)
Definition nothing_came (ev : event tpop) : Prop :=
  match ev_op ev in tpop X return X → Prop with
  | Cancelled => λ c, c = false
  | AwaitInput _ => λ r, r = Err TimedOut ∨ r = Ok false
  | _ => λ _, True
  end (ev_val ev).

Lemma silent_loop fuel deadline timeout o tr r :
  runs (loop fuel (sliced_round AwaitInput id deadline timeout) o) tr (Returned (Some (Some r))) →
  Forall nothing_came tr →
  ∃ before t, tr = before ++ [Event _ TNow t; Event _ (AwaitInput timeout) r] ∧ (deadline ≤ t)%Z.
Proof.
  revert o tr. induction fuel as [|fuel IH]; intros o tr Hr Hn; [by apply runs_inv in Hr as [_ [=]]|].
  apply runs_bind_inv in Hr as (tr1 & tr2 & r1 & -> & H1 & H2).
  apply Forall_app in Hn as [Hn1 Hn2]. unfold sliced_round in H1.
  apply runs_inv in H1 as (c & tr3 & -> & H1). apply Forall_cons in Hn1 as [Hc Hn1]. cbn in Hc. subst c.
  cbn in H1. apply runs_inv in H1 as (now & tr4 & -> & H1). apply Forall_cons in Hn1 as [_ Hn1].
  destruct (Z.eqb_spec (Z.max 0 (deadline - now)) 0) as [Hz|Hz]; cbn in H1;
    apply runs_inv in H1 as (x & tr5 & -> & H1); apply Forall_cons in Hn1 as [Hx Hn1]; cbn in Hx, H1.
  - apply runs_inv in H1 as [-> ->]. cbn in H2. apply runs_inv in H2 as [-> [= ->]].
    exists [Event _ Cancelled false], now. split; [done|lia].
  - destruct Hx as [-> | ->]; cbn in H1; apply runs_inv in H1 as [-> ->]; cbn in H2;
      apply IH in H2 as (before & t & -> & Ht); try done; eexists _, t; (split; [|done]);
      by rewrite app_assoc.
Qed.

(** A wait in which nothing comes is over only when the deadline has passed,
    after one more wait on ureq's transport, which gets the whole timeout
    again, uncut. So a peer that has closed the connection, which the transport
    says at once ([Ok false]), is waited for all the same; and one that is
    silent holds the thread for up to twice the timeout, and in the second
    half a stop is not looked for. *)
Theorem silent_wait_overstays fuel timeout tr r :
  runs (await_input fuel timeout) tr (Returned (Some r)) → Forall nothing_came tr →
  ∃ s mid t, tr = Event _ TNow s :: mid ++ [Event _ TNow t; Event _ (AwaitInput timeout) r]
    ∧ (s + timeout ≤ t)%Z.
Proof.
  intros Hr Hn. apply runs_inv in Hr as (s & tr1 & -> & Hr). cbn in Hr.
  apply Forall_cons in Hn as [_ Hn].
  apply runs_bind_inv in Hr as (tr2 & tr3 & o & -> & H1 & H2). apply Forall_app in Hn as [Hn _].
  destruct o as [o|]; cbn in H2; [|by destruct H2]. apply runs_inv in H2 as [-> [= H2]].
  destruct o as [[o|]|]; [|done..]. simplify_eq/=.
  destruct (silent_loop _ _ _ _ _ _ H1 Hn) as (mid & t & -> & Ht).
  exists s, mid, t. by rewrite app_nil_r.
Qed.

(** The wait of 45 s on a peer that says nothing takes 90 s; the operator's stop
    at 46 s is not seen. *)
Example silent_wait_overstays_run :
  exec (λ X (e : tpop X), match e in tpop X return Z → X * Z with
        | Cancelled => λ t, ((46000 <=? t)%Z, t)
        | e => silent_peer _ e
        end) (await_input 400 45000) 0%Z
  = (Returned (Some (Err TimedOut)), 90000%Z).
Proof. vm_compute. reflexivity. Qed.
