(* ===== verification/Extension.v ===== *)
(** The extension's own functions and worker registration (src/src/lib.rs). *)
From S2P Require Import Prelude RustStr Json Effects Config Outbound.

(** * Worker registration *)

Inductive BgWorkerStartTime : Type := PostmasterStart | ConsistentState | RecoveryFinished.

Record BackgroundWorkerBuilder : Type := mkBuilder {
  bgw_name : bytes; bgw_function : bytes; bgw_library : bytes; bgw_start : BgWorkerStartTime;
  bgw_restart_secs : option N; bgw_spi : bool; bgw_notify_pid : option Z }.

Definition runtime_worker_builder : BackgroundWorkerBuilder :=
  mkBuilder (bs "allgres runtime") (bs "allgres_runtime_main") (bs "allgres") RecoveryFinished
    (Some 5%N) true None.

Definition web_worker_builder : BackgroundWorkerBuilder :=
  mkBuilder (bs "allgres web") (bs "allgres_web_main") (bs "allgres") RecoveryFinished
    (Some 5%N) false None.

Definition set_notify_pid (pid : Z) (b : BackgroundWorkerBuilder) : BackgroundWorkerBuilder :=
  mkBuilder (bgw_name b) (bgw_function b) (bgw_library b) (bgw_start b) (bgw_restart_secs b)
    (bgw_spi b) (Some pid).

(** Operations of an ordinary backend and of the postmaster. *)
Inductive xop : Type → Type :=
| PreloadSetting : xop (result (option bytes) bytes)        (* shared_preload_libraries *)
| CountRuntime : xop (result (option Z) bytes)              (* of pg_stat_activity *)
| MyProcPid : xop Z
| LoadDynamic (b : BackgroundWorkerBuilder) : xop (result unit unit)
| WaitForStartup (name : bytes) : xop (result Z bytes)      (* its pid, or the status *)
| PreloadInProgress : xop bool
| LoadStatic (b : BackgroundWorkerBuilder) : xop unit
| ReadToString (path : bytes) : xop (result bytes bytes)
| AvailableParallelism : xop (result N bytes).

Abbreviation ext := (io xop).

(** [preload.split(',').any(|x| x.trim() == "allgres")] *)
Definition lists_allgres (preload : bytes) : bool :=
  existsb (λ x, bool_decide (trim x = bs "allgres")) (split_byte x2c preload).

(** [.ok().flatten().unwrap_or(d)] *)
Definition ok_or {A E} (d : A) (r : result (option A) E) : A :=
  match r with Ok (Some a) => a | _ => d end.

Definition native_status (w : world) : ext Value :=
  r ← op PreloadSetting;
  mret (obj
    [(bs "name", Str (bs "Allgres"));
     (bs "tagline", Str (bs "Postgres Is All You Need."));
     (bs "version", Str VERSION);
     (bs "preloaded", Bool (lists_allgres (ok_or [] r)));
     (bs "runtime_worker", Str (bs "allgres runtime"));
     (bs "web_worker", Str (bs "allgres web"));
     (bs "web_default", Str DEFAULT_HTTP_ADDR);
     (bs "rpc_socket", Str (rpc_socket_path w))]).

Definition pid_value (pid : Z) : Value :=
  if (pid <? 0)%Z then Number (NegInt pid) else Number (PosInt (Z.to_N pid)).

(** Start one worker and report how it went. *)
Definition start_worker (pid : Z) (label : bytes) (b : BackgroundWorkerBuilder) : ext Value :=
  l ← op (LoadDynamic (set_notify_pid pid b));
  match l with
  | Ok _ =>
      w ← op (WaitForStartup (bgw_name b));
      mret (match w with
            | Ok pid =>
                obj [(bs "worker", Str label); (bs "started", Bool true); (bs "pid", pid_value pid)]
            | Err status =>
                obj [(bs "worker", Str label); (bs "started", Bool false); (bs "reason", Str status)]
            end)
  | Err _ =>
      mret (obj [(bs "worker", Str label); (bs "started", Bool false);
                 (bs "reason", Str (bs "postmaster could not register the worker -- check max_worker_processes"))])
  end.

Definition native_start_dynamic_workers : ext Value :=
  r ← op PreloadSetting;
  if lists_allgres (ok_or [] r) then
    mret (obj [(bs "ok", Bool false);
               (bs "reason", Str (bs "allgres is already in shared_preload_libraries; the postmaster owns these workers, dynamic start does not apply"))])
  else
    c ← op CountRuntime;
    if (0 <? ok_or 0 c)%Z then
      mret (obj [(bs "ok", Bool true); (bs "already_running", Bool true)])
    else
      pid ← op MyProcPid;
      a ← start_worker pid (bs "allgres runtime") runtime_worker_builder;
      b ← start_worker pid (bs "allgres web") web_worker_builder;
      mret (obj [(bs "ok", Bool true); (bs "already_running", Bool false);
                 (bs "results", Arr [a; b])]).

Definition PG_init : ext unit :=
  p ← op PreloadInProgress;
  if negb p then mret tt
  else
    _ ← op (LoadStatic runtime_worker_builder);
    op (LoadStatic web_worker_builder).

(** ** The synchronous request of a procedure's body *)

Definition native_llm_http_send (url : bytes) (headers body : Value) (allow_private : bool) :
    pool Value :=
  '(status, resp_body) ← guarded_post_json url (as_object headers) body allow_private;
  mret (obj [(bs "status", pid_value status); (bs "body", Str resp_body)]).

(** * Starting dynamically *)

(** What the backend learnt, and which workers it registered. *)
Record starting : Type := Starting {
  preloaded : option bool; runtimes : option Z; registered_workers : list bytes }.

Definition xnext (s : starting) X (e : xop X) : X → starting :=
  match e in xop X return X → starting with
  | PreloadSetting => λ r, Starting (Some (lists_allgres (ok_or [] r))) (runtimes s) (registered_workers s)
  | CountRuntime => λ r, Starting (preloaded s) (Some (ok_or 0%Z r)) (registered_workers s)
  | LoadDynamic b => λ _, Starting (preloaded s) (runtimes s) (registered_workers s ++ [bgw_name b])
  | _ => λ _, s
  end.

(** A worker is registered dynamically only if the library is not preloaded
    and no runtime worker runs, and no worker twice. *)
Definition xallowed (s : starting) X (e : xop X) : Prop :=
  match e with
  | LoadDynamic b =>
      preloaded s = Some false ∧ (∃ n, runtimes s = Some n ∧ (n ≤ 0)%Z)
      ∧ bgw_name b ∉ registered_workers s
  | LoadStatic _ => False
  | _ => True
  end.

Definition registrar : monitor xop := Monitor starting xallowed xnext.

Lemma start_worker_registers pid label b (Q : starting → Value → Prop) s :
  xallowed s _ (LoadDynamic b) →
  (∀ v, Q (Starting (preloaded s) (runtimes s) (registered_workers s ++ [bgw_name b])) v) →
  wpr registrar (start_worker pid label b) Q s.
Proof.
  intros Ha HQ. unfold start_worker. apply wpr_bind, wpr_op; [done|]. intros [[]|[]].
  - apply wpr_bind, wpr_op; [done|]. intros w. apply wpr_ret, HQ.
  - apply wpr_ret, HQ.
Qed.

(** starting the workers without a restart registers nothing when the
    library is preloaded or a runtime worker already runs; otherwise it
    registers the runtime worker and then the web worker, each once. *)
Theorem dynamic_start_once tr v :
  runs native_start_dynamic_workers tr (Returned v) →
  let s := after registrar (Starting None None []) tr in
  accepts registrar (Starting None None []) tr
  ∧ (registered_workers s = []
     ∨ registered_workers s = [bs "allgres runtime"; bs "allgres web"]
       ∧ preloaded s = Some false).
Proof.
  intros Hr. apply (wpr_runs registrar _ (λ s _, registered_workers s = []
     ∨ registered_workers s = [bs "allgres runtime"; bs "allgres web"]
       ∧ preloaded s = Some false) (Starting None None [])) in Hr; [done|].
  unfold native_start_dynamic_workers. apply wpr_bind, wpr_op; [done|]. intros r.
  cbn [next registrar xnext]. destruct (lists_allgres (ok_or [] r)) eqn:Hp; [apply wpr_ret; by left|].
  apply wpr_bind, wpr_op; [done|]. intros c. cbn [next registrar xnext].
  destruct (0 <? ok_or 0%Z c)%Z eqn:Hc; [apply wpr_ret; by left|]. apply Z.ltb_ge in Hc.
  apply wpr_bind, wpr_op; [done|]. intros pid.
  apply wpr_bind, start_worker_registers.
  { split_and!; [done|by eexists|]. simpl. apply not_elem_of_nil. }
  intros a. apply wpr_bind, start_worker_registers.
  { split_and!; [done|by eexists|]. by_decide. }
  intros b. apply wpr_ret. right. done.
Qed.

(** A backend where nothing runs and everything starts. *)
Definition fresh_backend X (e : xop X) (s : unit) : X * unit :=
  match e in xop X return X * unit with
  | PreloadSetting => (Ok (Some (bs "pg_stat_statements")), s)
  | CountRuntime => (Ok (Some 0%Z), s)
  | MyProcPid => (42%Z, s)
  | LoadDynamic _ => (Ok tt, s)
  | WaitForStartup _ => (Ok 43%Z, s)
  | PreloadInProgress => (false, s)
  | LoadStatic _ => (tt, s)
  | ReadToString _ => (Err (bs "not found"), s)
  | AvailableParallelism => (Ok 1%N, s)
  end.

Lemma dynamic_start_once_witness :
  let run := run_with fresh_backend native_start_dynamic_workers tt in
  length run.1 = 7 ∧ accepts registrar (Starting None None []) run.1.
Proof.
  split; [reflexivity|].
  eapply (dynamic_start_once (run_with fresh_backend native_start_dynamic_workers tt).1).
  apply (run_with_runs fresh_backend native_start_dynamic_workers tt).
Defined.
