(* ===== verification/HostStats.v ===== *)
(** The host's load and memory ([native_host_stats] of src/src/lib.rs), with
    the floating-point numbers it reads and computes: IEEE binary64 as the
    Standard Library specifies it, rounded to nearest even. *)
From Stdlib Require Import Floats.SpecFloat.
From S2P Require Import Prelude RustStr Ascii Json Effects Config Outbound Extension.

(** * Binary64 *)

Abbreviation f64 := spec_float.

Definition f64_round (m e : Z) (negative : bool) : f64 := binary_normalize 53 1024 m e negative.
Definition f64_div : f64 → f64 → f64 := SFdiv 53 1024.
Definition f64_mul : f64 → f64 → f64 := SFmul 53 1024.

(** [n as f64] of an unsigned integer. *)
Definition f64_of_u64 (n : N) : f64 := f64_round (Z.of_N n) 0 false.

(** [f64::to_bits]; a NaN has no sign or payload here. *)
Definition f64_bits (x : f64) : N :=
  let sign (s : bool) : N := if s then (2 ^ 63)%N else 0%N in
  match x with
  | S754_zero s => sign s
  | S754_infinity s => sign s + 0x7FF * 2 ^ 52
  | S754_nan => 0x7FF8 * 2 ^ 48
  | S754_finite s m e =>
      if (Npos m <? 2 ^ 52)%N then sign s + Npos m
      else sign s + Z.to_N (e + 1075) * 2 ^ 52 + (Npos m - 2 ^ 52)
  end%N.

(** [json!] of an [f64]: a number, or null for an infinity or a NaN. *)
Definition json_f64 (x : f64) : Value :=
  match x with
  | S754_infinity _ | S754_nan => Null
  | _ => Number (Float (f64_bits x))
  end.

(** ** Reading decimal numbers *)

(** The leading digits of [s], with their value and number, and what follows. *)
Fixpoint digits (s : bytes) (acc : N) (count : nat) : N * nat * bytes :=
  match s with
  | b :: s' =>
      if is_ascii_digit b then digits s' (acc * 10 + (u8 b - 0x30))%N (S count)
      else (acc, count, s)
  | [] => (acc, count, [])
  end.

Definition sign_of (s : bytes) : bool * bytes :=
  match s with
  | b :: s' => if decide (b = x2d) then (true, s') else if decide (b = x2b) then (false, s') else (false, s)
  | [] => (false, [])
  end.

(** An exponent, when there is one; the text must end with it. *)
Definition exponent (s : bytes) : option Z :=
  match s with
  | [] => Some 0%Z
  | b :: s' =>
      if decide (ascii_lower b = x65) then
        let '(negative, s1) := sign_of s' in
        let '(e, n, rest) := digits s1 0 0 in
        if decide (n = 0 ∨ rest ≠ []) then None
        else Some (if (negative : bool) then (- Z.of_N e)%Z else Z.of_N e)
      else None
  end.

(** The double nearest to [m * 10^e]; a quotient is cut to enough bits, with
    one more that says whether it was exact. *)
Definition f64_of_decimal (negative : bool) (m : N) (e : Z) : f64 :=
  let signed (z : Z) := if negative then (- z)%Z else z in
  if (0 <=? e)%Z then f64_round (signed (Z.of_N m * 10 ^ e)%Z) 0 negative
  else
    let den := (10 ^ (- e))%Z in
    let k := Z.max 0 (66 + Z.log2 den - Z.log2 (Z.of_N m))%Z in
    let '(q, r) := Z.div_eucl (Z.of_N m * 2 ^ k)%Z den in
    f64_round (signed (2 * q + (if (r =? 0)%Z then 0 else 1))%Z) (- (k + 1))%Z negative.

(** Digits with at most one point among them, and at least one digit. *)
Definition mantissa (s : bytes) : option (N * Z * bytes) :=
  let '(m, n, rest) := digits s 0 0 in
  match rest with
  | b :: s' =>
      if decide (b = x2e) then
        let '(m', n', rest') := digits s' m 0 in
        if decide (n + n' = 0) then None else Some (m', (- Z.of_nat n')%Z, rest')
      else if decide (n = 0) then None else Some (m, 0%Z, rest)
  | [] => if decide (n = 0) then None else Some (m, 0%Z, rest)
  end.

(** [str::parse::<f64>]. *)
Definition parse_f64 (s : bytes) : option f64 :=
  let '(negative, s1) := sign_of s in
  let lower := to_ascii_lowercase s1 in
  if decide (lower = bs "inf" ∨ lower = bs "infinity") then Some (S754_infinity negative)
  else if decide (lower = bs "nan") then Some S754_nan
  else
    '(m, e, rest) ← mantissa s1;
    x ← exponent rest;
    Some (f64_of_decimal negative m (e + x)).

Example parse_f64_sample : f64_bits <$> parse_f64 (bs "0.05") = Some 0x3FA999999999999A%N.
Proof. vm_compute. reflexivity. Qed.

Example parse_f64_exponent : f64_bits <$> parse_f64 (bs "-1.7976931348623157E+308") = Some 0xFFEFFFFFFFFFFFFF%N.
Proof. vm_compute. reflexivity. Qed.

Example parse_f64_subnormal : f64_bits <$> parse_f64 (bs "5e-324") = Some 1%N.
Proof. vm_compute. reflexivity. Qed.

(** * Load *)

(** The first three words of /proc/loadavg. *)
Definition load_of (text : bytes) : option Value :=
  match split_whitespace text with
  | w1 :: w5 :: w15 :: _ =>
      one ← parse_f64 w1; five ← parse_f64 w5; fifteen ← parse_f64 w15;
      Some (obj [(bs "load1", json_f64 one); (bs "load5", json_f64 five);
                 (bs "load15", json_f64 fifteen)])
  | _ => None
  end.

(** * Memory *)

Definition u64_max : N := 2 ^ 64 - 1.

(** One line of /proc/meminfo: its key, and its number. *)
Definition meminfo_line (line : bytes) : option (bytes * N) :=
  match split_once x3a line with
  | None => None
  | Some (key, rest) =>
      match split_whitespace (trim rest) with
      | [] => None
      | w :: _ => (λ n, (key, n)) <$> from_str_radix 10 u64_max w
      end
  end.

(** Every line must parse; a later key replaces an earlier one. *)
Fixpoint meminfo_map (ls : list bytes) (kv : gmap bytes N) : option (gmap bytes N) :=
  match ls with
  | [] => Some kv
  | l :: ls' =>
      match meminfo_line l with
      | Some (k, n) => meminfo_map ls' (<[k := n]> kv)
      | None => None
      end
  end.

(** [used_pct]: used of total, in percent. *)
Definition used_pct (used_kb total_kb : N) : f64 :=
  if (0 <? total_kb)%N then f64_mul (f64_div (f64_of_u64 used_kb) (f64_of_u64 total_kb)) (f64_of_u64 100)
  else f64_of_u64 0.

Definition memory_of (text : bytes) : option Value :=
  kv ← meminfo_map (lines text) ∅;
  total_kb ← kv !! bs "MemTotal";
  avail_kb ← kv !! bs "MemAvailable";
  let used_kb := (total_kb - avail_kb)%N in
  Some (obj [(bs "total_mb", Number (PosInt (total_kb / 1024)));
             (bs "used_mb", Number (PosInt (used_kb / 1024)));
             (bs "available_mb", Number (PosInt (avail_kb / 1024)));
             (bs "used_pct", json_f64 (used_pct used_kb total_kb))]).

(** * The function *)

(** [read_to_string(..).ok().and_then(f)], as JSON: null when there is none. A
    file that is not UTF-8 is an error of the read. *)
Definition section (path : bytes) (f : bytes → option Value) : ext Value :=
  r ← op (ReadToString path);
  mret (match r with
        | Ok text => if valid_utf8 text then default Null (f text) else Null
        | Err _ => Null
        end).

Definition native_host_stats : ext Value :=
  load ← section (bs "/proc/loadavg") load_of;
  mem ← section (bs "/proc/meminfo") memory_of;
  n ← op AvailableParallelism;
  mret (obj [(bs "load", load); (bs "memory", mem);
             (bs "cpu_count", Number (PosInt (match n with Ok n => n | Err _ => 0 end)))]).

Definition meminfo_sample : bytes :=
  bs "MemTotal:       16384 kB" ++ [x0a] ++ bs "MemFree:  1024 kB" ++ [x0a]
  ++ bs "MemAvailable:    4096 kB" ++ [x0a].

Example memory_sample :
  memory_of meminfo_sample
  = Some (obj [(bs "total_mb", Number (PosInt 16)); (bs "used_mb", Number (PosInt 12));
               (bs "available_mb", Number (PosInt 4)); (bs "used_pct", Number (Float 0x4052C00000000000))]).
Proof. vm_compute. reflexivity. Qed.

Example load_sample :
  load_of (bs "0.50 1.25 3.00 1/234 5678" ++ [x0a])
  = Some (obj [(bs "load1", Number (Float 0x3FE0000000000000));
               (bs "load5", Number (Float 0x3FF4000000000000));
               (bs "load15", Number (Float 0x4008000000000000))]).
Proof. vm_compute. reflexivity. Qed.

(** * What /proc/meminfo says *)

(** A line as the kernel prints it: a key, its value, and the unit when there
    is one. *)
Record meminfo_entry : Type := Entry { mem_key : bytes; mem_pad : nat; mem_value : N; mem_unit : bool }.

Definition entry_line (e : meminfo_entry) : bytes :=
  mem_key e ++ x3a :: replicate (mem_pad e) x20 ++ decimal (mem_value e)
  ++ (if mem_unit e then bs " kB" else []).

Definition meminfo_text (es : list meminfo_entry) : bytes := concat ((λ e, entry_line e ++ [x0a]) <$> es).

Definition entry_ok (e : meminfo_entry) : Prop :=
  Forall (λ b, printable b = true ∧ b ≠ x3a) (mem_key e) ∧ (mem_value e ≤ u64_max)%N.

(** The last entry of a key. *)
Definition last_value (k : bytes) (es : list meminfo_entry) : option N :=
  mem_value <$> last (filter (λ e, mem_key e = k) es).

Definition memory_report (es : list meminfo_entry) : Value :=
  match last_value (bs "MemTotal") es, last_value (bs "MemAvailable") es with
  | Some total, Some avail =>
      obj [(bs "total_mb", Number (PosInt (total / 1024)));
           (bs "used_mb", Number (PosInt ((total - avail) / 1024)));
           (bs "available_mb", Number (PosInt (avail / 1024)));
           (bs "used_pct", json_f64 (used_pct (total - avail) total))]
  | _, _ => Null
  end.

Lemma entry_printable e : entry_ok e → Forall (λ b, printable b = true) (entry_line e).
Proof.
  intros [Hk _]. unfold entry_line. apply Forall_app_2.
  { eapply Forall_impl; [exact Hk|]. by intros b []. }
  constructor; [done|]. apply Forall_app_2; [by apply Forall_replicate|].
  apply Forall_app_2; [|case_match; by_decide].
  eapply Forall_impl; [apply decimal_graphic|]. apply graphic_printable.
Qed.

Lemma trim_value n : trim (decimal n ++ bs " kB") = decimal n ++ bs " kB".
Proof.
  pose proof (decimal_nonempty n) as Hne. pose proof (decimal_graphic n) as Hg.
  destruct (decimal n) as [|b s]; [done|]. inversion Hg; subst.
  change (bs " kB") with ([x20; x6b] ++ [x42]). rewrite app_assoc. cbn [app].
  apply trim_ends; [done..|]. apply Forall_app_2; [|by_decide].
  eapply Forall_impl; [done|]. apply graphic_printable.
Qed.

Lemma meminfo_line_entry e : entry_ok e → meminfo_line (entry_line e) = Some (mem_key e, mem_value e).
Proof.
  intros [Hk Hn]. unfold meminfo_line, entry_line. rewrite split_once_here
    by (eapply Forall_impl; [exact Hk|]; by intros b []).
  rewrite trim_spaces. pose proof (decimal_read u64_max (mem_value e) Hn eq_refl) as Hr.
  pose proof (decimal_nonempty (mem_value e)) as Hne. pose proof (decimal_graphic (mem_value e)) as Hg.
  destruct (mem_unit e).
  - rewrite trim_value. change (bs " kB") with (x20 :: bs "kB").
    rewrite split_whitespace_words by (done || by_decide). by rewrite Hr.
  - rewrite app_nil_r, trim_graphic, split_whitespace_word by done. by rewrite Hr.
Qed.

Lemma lines_newline l rest :
  Forall (λ b, printable b = true) l → lines (l ++ x0a :: rest) = l :: lines rest.
Proof.
  intros Hl. unfold lines. rewrite split_byte_cons
    by (eapply Forall_impl; [exact Hl|]; intros b Hb; by apply printable_not_cr).
  pose proof (split_byte_nonempty x0a rest) as Hne.
  destruct (split_byte x0a rest) as [|seg segs] eqn:E; [done|].
  change (lines_of (l :: seg :: segs)) with (strip_cr l :: lines_of (seg :: segs)).
  f_equal. unfold strip_cr. rewrite decide_False; [done|]. intros Hlast.
  apply last_Some in Hlast as [l' ->]. apply Forall_app in Hl as [_ Hl].
  inversion Hl as [|? ? Hb]; subst. by destruct (printable_not_cr _ Hb).
Qed.

Lemma lines_meminfo es : Forall entry_ok es → lines (meminfo_text es) = entry_line <$> es.
Proof.
  induction 1 as [|e es He _ IH]; [done|]. unfold meminfo_text in *. cbn [fmap list_fmap concat].
  rewrite <- app_assoc. cbn [app]. rewrite lines_newline by (by apply entry_printable). by rewrite IH.
Qed.

Lemma valid_meminfo es : Forall entry_ok es → valid_utf8 (meminfo_text es) = true.
Proof.
  induction 1 as [|e es He _ IH]; [done|]. unfold meminfo_text in *. cbn [fmap list_fmap concat].
  rewrite valid_utf8_app; [done|]. rewrite valid_utf8_app; [done|].
  by apply valid_printable, entry_printable.
Qed.

(** The map holds the last value of every key. *)
Lemma meminfo_map_entries es kv :
  Forall entry_ok es →
  ∃ kv', meminfo_map (entry_line <$> es) kv = Some kv'
    ∧ ∀ k, kv' !! k = match last_value k es with Some n => Some n | None => kv !! k end.
Proof.
  intros Hes. revert kv. induction Hes as [|e es He _ IH]; intros kv; [by exists kv|].
  cbn [fmap list_fmap meminfo_map]. rewrite meminfo_line_entry by done.
  destruct (IH (<[mem_key e := mem_value e]> kv)) as (kv' & Hm & Hl). exists kv'. split; [done|].
  intros k. rewrite Hl. unfold last_value. rewrite filter_cons. case_decide as Hk.
  - rewrite last_cons. destruct (last (filter _ es)); [done|]. by rewrite <- Hk, lookup_insert_eq.
  - by rewrite lookup_insert_ne.
Qed.

Lemma memory_of_entries es :
  Forall entry_ok es → default Null (memory_of (meminfo_text es)) = memory_report es.
Proof.
  intros Hes. unfold memory_of, memory_report. rewrite lines_meminfo by done.
  destruct (meminfo_map_entries es ∅ Hes) as (kv & -> & Hl). simpl. rewrite !Hl.
  destruct (last_value (bs "MemTotal") es); [|done].
  by destruct (last_value (bs "MemAvailable") es).
Qed.

(** One line that is not a key and a number spoils the section. *)
Lemma meminfo_map_spoilt ls kv l : l ∈ ls → meminfo_line l = None → meminfo_map ls kv = None.
Proof.
  revert kv. induction ls as [|l' ls IH]; intros kv Hin Hl; [set_solver|].
  cbn [meminfo_map]. apply elem_of_cons in Hin as [<-|Hin]; [by rewrite Hl|].
  destruct (meminfo_line l') as [[k n]|]; [by apply IH|done].
Qed.

(** C35: the host statistics are best effort and never an error: whatever the
    files hold, the function returns its three figures. Of a /proc/meminfo as
    the kernel prints it, the memory section reports the last MemTotal and
    MemAvailable in mebibytes with their saturating difference, and is null
    when either is missing; it is null too when the file cannot be read, is
    not UTF-8, or has a line without a key and a number. *)
Theorem host_stats_exact {S} (h : ∀ X, xop X → S → X * S) (s : S) (f : result bytes bytes) :
  (∀ s, (h _ (ReadToString (bs "/proc/meminfo")) s).1 = f) →
  ∃ load memory cpus,
    (run_with h native_host_stats s).2
      = Returned (obj [(bs "load", load); (bs "memory", memory); (bs "cpu_count", Number (PosInt cpus))])
    ∧ (∀ es, Forall entry_ok es → f = Ok (meminfo_text es) → memory = memory_report es)
    ∧ (∀ e, f = Err e → memory = Null)
    ∧ (∀ text, f = Ok text → valid_utf8 text = false → memory = Null)
    ∧ (∀ text l, f = Ok text → l ∈ lines text → meminfo_line l = None → memory = Null).
Proof.
  intros Hf. unfold native_host_stats, section, mbind, io_bind. cbn [op prog_bind run_with].
  destruct (h _ _ s) as [l s1]. cbn [prog_bind run_with mret io_ret].
  specialize (Hf s1). destruct (h _ _ s1) as [m s2]. cbn [fst] in Hf. subst m.
  cbn [prog_bind run_with mret io_ret]. destruct (h _ _ s2) as [n s3].
  cbn [prog_bind run_with mret io_ret snd].
  do 3 eexists. split; [reflexivity|]. split_and!.
  - intros es Hes ->. rewrite valid_meminfo by done. by apply memory_of_entries.
  - by intros e ->.
  - by intros text -> ->.
  - intros text ln -> Hin Hln. destruct (valid_utf8 text); [|done].
    unfold memory_of. by rewrite (meminfo_map_spoilt _ ∅ ln).
Qed.

(** A host with two lines of /proc/meminfo and nothing else. *)
Definition small_host X (e : xop X) (s : unit) : X * unit :=
  match e in xop X return X * unit with
  | ReadToString path =>
      (if decide (path = bs "/proc/meminfo") then
         Ok (meminfo_text [Entry (bs "MemTotal") 7 16384 true; Entry (bs "MemAvailable") 4 4096 true])
       else Err (bs "not found"), s)
  | e => fresh_backend _ e s
  end.

Lemma host_stats_exact_witness :
  ∃ load cpus,
    (run_with small_host native_host_stats tt).2
      = Returned (obj [(bs "load", load);
                       (bs "memory", memory_report
                          [Entry (bs "MemTotal") 7 16384 true; Entry (bs "MemAvailable") 4 4096 true]);
                       (bs "cpu_count", Number (PosInt cpus))]).
Proof.
  destruct (host_stats_exact small_host tt
    (Ok (meminfo_text [Entry (bs "MemTotal") 7 16384 true; Entry (bs "MemAvailable") 4 4096 true])))
    as (l & m & c & H & Hm & _).
  { intros []. vm_compute. reflexivity. }
  exists l, c. rewrite H, (Hm [Entry (bs "MemTotal") 7 16384 true; Entry (bs "MemAvailable") 4 4096 true]); [done| |done].
  repeat constructor; by_decide.
Defined.
