(* ===== verification/Packaging.v ===== *)
(** The SQL files the extension is packaged with (the [extension_sql_file!]
    lines of src/src/lib.rs) and the orders their declarations admit: pgrx
    writes a file after those it requires, and the finalizing one last. *)
From S2P Require Import Prelude.

Record SqlFile : Type := mkSqlFile { sql_name : bytes; requires : list bytes; finalize : bool }.

#[export] Instance SqlFile_eq_dec : EqDecision SqlFile.
Proof. solve_decision. Defined.

(** A file without a name is called as its stem. *)
Definition control_plane : SqlFile := mkSqlFile (bs "control_plane") [] false.
Definition execution_guards : SqlFile := mkSqlFile (bs "execution_guards") [bs "control_plane"] false.
Definition operator_agents_and_policies : SqlFile :=
  mkSqlFile (bs "operator_agents_and_policies") [bs "execution_guards"] false.
Definition capability_search : SqlFile :=
  mkSqlFile (bs "capability_search") [bs "operator_agents_and_policies"] false.
Definition operator_runtime_and_integrations : SqlFile :=
  mkSqlFile (bs "operator_runtime_and_integrations") [bs "capability_search"] false.
Definition operator_accounts_and_chat : SqlFile :=
  mkSqlFile (bs "operator_accounts_and_chat") [bs "capability_search"] false.
Definition seed_data : SqlFile := mkSqlFile (bs "seed_data") [bs "operator_accounts_and_chat"] false.
Definition selftest : SqlFile := mkSqlFile (bs "selftest") [bs "seed_data"] false.
Definition grants_and_facade : SqlFile := mkSqlFile (bs "grants_and_facade") [bs "selftest"] true.

Definition extension_sql_files : list SqlFile :=
  [control_plane; execution_guards; operator_agents_and_policies; capability_search;
   operator_runtime_and_integrations; operator_accounts_and_chat; seed_data; selftest;
   grants_and_facade].

(** The orders in which the files that are left may be written, when those of
    the names [loaded] are. *)
Inductive admissible : list bytes → list SqlFile → list SqlFile → Prop :=
| admissible_nil loaded : admissible loaded [] []
| admissible_cons loaded before f after order :
    (∀ r, r ∈ requires f → r ∈ loaded) →
    (finalize f = true → before ++ after = []) →
    admissible (sql_name f :: loaded) (before ++ after) order →
    admissible loaded (before ++ f :: after) (f :: order).

(** Every way to take one element out of a list. *)
Fixpoint picks {A} (l : list A) : list (A * list A) :=
  match l with
  | [] => []
  | a :: l' => (a, l') :: ((λ p, (p.1, a :: p.2)) <$> picks l')
  end.

Lemma elem_of_picks {A} (before : list A) a after : (a, before ++ after) ∈ picks (before ++ a :: after).
Proof.
  induction before as [|b before IH]; cbn; [by left|]. right.
  apply (list_elem_of_fmap_2' _ _ (a, before ++ after)); done.
Qed.

Definition may_load (loaded : list bytes) (p : SqlFile * list SqlFile) : bool :=
  bool_decide (Forall (λ r, r ∈ loaded) (requires p.1))
  && (negb (finalize p.1) || bool_decide (p.2 = [])).

(** All orders, by search. *)
Fixpoint orders (n : nat) (loaded : list bytes) (left : list SqlFile) : list (list SqlFile) :=
  match n with
  | 0 => [[]]
  | S n' =>
      flat_map (λ p, if may_load loaded p then cons p.1 <$> orders n' (sql_name p.1 :: loaded) p.2 else [])
        (picks left)
  end.

Lemma orders_complete loaded left order :
  admissible loaded left order → order ∈ orders (length left) loaded left.
Proof.
  induction 1 as [loaded|loaded before f after order Hr Hf _ IH]; [by left|].
  rewrite length_app. cbn [length]. replace (length before + S (length after)) with (S (length (before ++ after)))
    by (rewrite length_app; lia).
  cbn [orders]. apply list_elem_of_In, in_flat_map. exists (f, before ++ after).
  split; [apply list_elem_of_In, elem_of_picks|].
  assert (may_load loaded (f, before ++ after) = true) as ->.
  { unfold may_load. cbn [fst snd]. apply andb_true_iff. split.
    - apply bool_decide_eq_true, Forall_forall, Hr.
    - destruct (finalize f); [|done]. cbn [negb orb]. by apply bool_decide_eq_true, Hf. }
  cbn [fst snd]. apply list_elem_of_In. by apply list_elem_of_fmap_2.
Qed.

(** The rest of an order by its next file. *)
Lemma admissible_next loaded left f rest order n :
  picks left !! n = Some (f, rest) → may_load loaded (f, rest) = true →
  admissible (sql_name f :: loaded) rest order → admissible loaded left (f :: order).
Proof.
  intros Hp Hm Ho.
  assert (∃ before after, left = before ++ f :: after ∧ rest = before ++ after) as (b & a & -> & ->).
  { clear Hm Ho. revert n rest Hp. induction left as [|x left IH]; intros n rest Hp; [done|].
    destruct n as [|n]; [injection Hp as <- <-; by exists [], left|].
    change (((λ p, (p.1, x :: p.2)) <$> picks left) !! n = Some (f, rest)) in Hp.
    rewrite list_lookup_fmap in Hp. destruct (picks left !! n) as [[g r]|] eqn:E; [|done].
    injection Hp as -> <-. destruct (IH n r E) as (b & a & -> & ->). by exists (x :: b), a. }
  unfold may_load in Hm. cbn [fst snd] in Hm. apply andb_true_iff in Hm as [Hr Hf].
  constructor; [|intros Hfin; rewrite Hfin in Hf; by apply bool_decide_eq_true in Hf|done].
  apply bool_decide_eq_true in Hr. by apply Forall_forall.
Qed.

(** the declarations admit four orders, not one: the four first files and
    the last four, in their documented order but for
    [operator_runtime_and_integrations], which nothing requires: it may come
    anywhere between [capability_search] and the finalizing file, after
    [seed_data] and [selftest] too. *)
Theorem load_orders order :
  admissible [] extension_sql_files order ↔
  ∃ n, n ≤ 3 ∧
    order = [control_plane; execution_guards; operator_agents_and_policies; capability_search]
            ++ take n [operator_accounts_and_chat; seed_data; selftest]
            ++ operator_runtime_and_integrations
            :: drop n [operator_accounts_and_chat; seed_data; selftest] ++ [grants_and_facade].
Proof.
  split.
  - intros H%orders_complete. vm_compute in H.
    repeat (apply elem_of_cons in H as [->|H];
      [first [by exists 0; split; [lia|]|by exists 1; split; [lia|]|by exists 2; split; [lia|]
             |by exists 3; split; [lia|]]|]).
    by apply not_elem_of_nil in H.
  - intros (n & Hn & ->). do 4 (destruct n as [|n]; [
      repeat lazymatch goal with
        | |- admissible _ [] _ => cbn; constructor
        | |- _ => cbn [app take drop]; first
            [ eapply (admissible_next _ _ _ _ _ 0); [reflexivity|vm_compute; reflexivity|]
            | eapply (admissible_next _ _ _ _ _ 1); [reflexivity|vm_compute; reflexivity|] ]
        end |]). lia.
Qed.
