(* ===== verification/Idents.v ===== *)
(** The checks on values that reach a statement's text, and dollar quoting:
    [valid_uuid] (src/src/rpc.rs), [valid_pg_role] (src/src/sandbox.rs),
    [valid_sql_ident] and [dollar_quote] (src/src/function_exec.rs). *)
From S2P Require Import Prelude RustStr.

(** * Definitions *)

(** The bytes of [s] with their positions, as [iter().enumerate()]. *)
Definition valid_uuid (s : bytes) : bool :=
  bool_decide (length s = 36)
  && forallb (λ '(i, b),
       if decide (i = 8 ∨ i = 13 ∨ i = 18 ∨ i = 23) then bool_decide (b = x2d)
       else is_ascii_hexdigit b) (imap pair s).

Definition hex32 (hex : bytes) : bool :=
  bool_decide (length hex = 32) && forallb is_ascii_hexdigit hex.

Definition valid_sql_ident (s prefix : bytes) : bool :=
  match strip_prefix prefix s with
  | Some hex => hex32 hex
  | None => false
  end.

Definition valid_pg_role (s : bytes) : bool :=
  match strip_prefix (bs "allgres_agent_") s with
  | Some hex => hex32 hex
  | None => false
  end.

(** Lower-case hexadecimal of a number, [{:x}]. *)
Definition hex_digit (n : N) : byte :=
  if (n <? 10)%N then byte_of (0x30 + n) else byte_of (0x61 + (n - 10)).

Fixpoint hex_digits (fuel : nat) (n : N) (acc : bytes) : bytes :=
  match fuel with
  | 0 => acc
  | S f =>
      let acc' := hex_digit (n mod 16) :: acc in
      if (n / 16 =? 0)%N then acc' else hex_digits f (n / 16) acc'
  end.

(** The clock gives nanoseconds as a [u128]: 32 digits are enough. *)
Definition lower_hex (n : N) : bytes := hex_digits 32 n [].

Definition dollar (tag : bytes) : bytes := bs "$" ++ tag ++ bs "$".

(** The loop that extends the tag; the length of the body bounds it
    ([extend_tag_absent]). *)
Fixpoint extend_tag (fuel : nat) (body tag : bytes) : bytes :=
  match fuel with
  | 0 => tag
  | S f => if contains (dollar tag) body then extend_tag f body (tag ++ bs "x") else tag
  end.

Definition dollar_tag (nanos : N) (body : bytes) : bytes :=
  extend_tag (length body) body (bs "body_" ++ lower_hex nanos).

(** A line feed. *)
Definition nl : bytes := [x0a].

Definition dollar_quote (nanos : N) (body : bytes) : bytes * bytes :=
  let tag := dollar_tag nanos body in
  (tag, dollar tag ++ nl ++ body ++ nl ++ dollar tag).

(** * Identifiers that reach statement texts *)

(** Letters, digits and underscores: text that is one SQL word. *)
Definition word_byte (b : byte) : bool := is_ascii_alphanumeric b || bool_decide (b = x5f).

Definition sql_word (s : bytes) : Prop := s ≠ [] ∧ Forall (λ b, word_byte b = true) s.

Lemma hexdigit_word b : is_ascii_hexdigit b = true → word_byte b = true.
Proof.
  unfold is_ascii_hexdigit, word_byte, is_ascii_alphanumeric.
  rewrite !orb_true_iff, !in_rng_true. lia.
Qed.

Lemma hex32_spec hex :
  hex32 hex = true ↔ length hex = 32 ∧ Forall (λ b, is_ascii_hexdigit b = true) hex.
Proof.
  unfold hex32. rewrite andb_true_iff, bool_decide_eq_true, forallb_forall, Forall_forall.
  by setoid_rewrite list_elem_of_In.
Qed.

Lemma valid_sql_ident_spec s prefix :
  valid_sql_ident s prefix = true ↔ ∃ hex, s = prefix ++ hex ∧ hex32 hex = true.
Proof.
  unfold valid_sql_ident. split.
  - destruct (strip_prefix prefix s) as [hex|] eqn:E; [|done].
    apply strip_prefix_spec in E as ->. by exists hex.
  - intros (hex & E & Hh). apply strip_prefix_spec in E. by rewrite E.
Qed.

Lemma prefixed_hex_word prefix hex :
  bool_decide (Forall (λ b, word_byte b = true) prefix) = true →
  hex32 hex = true → sql_word (prefix ++ hex).
Proof.
  intros Hp%bool_decide_eq_true [Hl Hh]%hex32_spec. split.
  - destruct prefix; [|done]. by destruct hex.
  - apply Forall_app. split; [done|]. eapply Forall_impl; [done|]. apply hexdigit_word.
Qed.

Lemma valid_pg_role_word s : valid_pg_role s = true → sql_word s.
Proof.
  intros H. change (valid_sql_ident s (bs "allgres_agent_") = true) in H.
  apply valid_sql_ident_spec in H as (hex & -> & Hh). by apply prefixed_hex_word.
Qed.

Lemma valid_sql_ident_word s prefix :
  bool_decide (Forall (λ b, word_byte b = true) prefix) = true →
  valid_sql_ident s prefix = true → sql_word s.
Proof. intros Hp (hex & -> & Hh)%valid_sql_ident_spec. by apply prefixed_hex_word. Qed.

(** * Dollar quoting *)

Lemma contains_length p s : contains p s = true → length p ≤ length s.
Proof. intros (a & r & ->)%contains_spec. rewrite !length_app. lia. Qed.

Lemma extend_tag_absent fuel body tag :
  length body < length tag + 2 + fuel → contains (dollar (extend_tag fuel body tag)) body = false.
Proof.
  revert tag. induction fuel as [|fuel IH]; intros tag Hl; simpl.
  - destruct (contains (dollar tag) body) eqn:E; [|done]. apply contains_length in E.
    unfold dollar in E. rewrite !length_app in E. simpl in E. lia.
  - destruct (contains (dollar tag) body) eqn:E; [|done]. apply IH.
    rewrite length_app. simpl. lia.
Qed.

Lemma extend_tag_word fuel body tag :
  Forall (λ b, word_byte b = true) tag → Forall (λ b, word_byte b = true) (extend_tag fuel body tag).
Proof.
  revert tag. induction fuel as [|fuel IH]; intros tag Ht; simpl; [done|].
  case_match; [|done]. apply IH, Forall_app. split; [done|]. by repeat constructor.
Qed.

Lemma hex_digit_word n : (n < 16)%N → word_byte (hex_digit n) = true.
Proof.
  intros Hn. unfold word_byte, is_ascii_alphanumeric, hex_digit.
  rewrite !orb_true_iff, !in_rng_true, bool_decide_eq_true.
  destruct (n <? 10)%N eqn:E; [apply N.ltb_lt in E|apply N.ltb_ge in E];
    rewrite u8_byte_of by lia; lia.
Qed.

Lemma lower_hex_word n : Forall (λ b, word_byte b = true) (lower_hex n).
Proof.
  unfold lower_hex. generalize 32 as fuel. intros fuel.
  assert (Forall (λ b, word_byte b = true) []) as Hacc by constructor. revert Hacc.
  generalize (@nil byte) as acc. revert n.
  induction fuel as [|fuel IH]; intros n acc Hacc; simpl; [done|].
  assert (Forall (λ b, word_byte b = true) (hex_digit (n mod 16) :: acc)).
  { constructor; [|done]. apply hex_digit_word. by apply N.mod_lt. }
  case_match; [done|]. by apply IH.
Qed.

Lemma dollar_tag_absent nanos body : contains (dollar (dollar_tag nanos body)) body = false.
Proof. apply extend_tag_absent. rewrite length_app. simpl. lia. Qed.

Lemma dollar_tag_word nanos body : Forall (λ b, word_byte b = true) (dollar_tag nanos body).
Proof.
  apply extend_tag_word, Forall_app. split; [by_decide|apply lower_hex_word].
Qed.

(** A delimiter without line feeds cannot straddle one: in [body ++ nl ++ d],
    the first occurrence of a [d] that is absent from [body] is the last. *)
Lemma find_sub_closing d body r :
  contains d body = false → x0a ∉ d → d ≠ [] →
  find_sub d (body ++ nl ++ d ++ r) = Some (length body + 1).
Proof.
  intros Hc Hn Hd. revert Hc. induction body as [|b body IH]; intros Hc.
  - change ([] ++ nl ++ d ++ r) with (x0a :: (d ++ r)). cbn [find_sub].
    rewrite find_sub_here. destruct d as [|c d]; [done|]. cbn [starts_with].
    rewrite bool_decide_eq_false_2 by set_solver. done.
  - assert (contains d body = false) as Hc'.
    { apply contains_false. intros a t ->.
      apply (proj1 (contains_false _ _) Hc (b :: a) t). done. }
    cbn [app find_sub]. rewrite (IH Hc'). cbn [fmap option_fmap option_map].
    destruct (starts_with d (b :: body ++ nl ++ d ++ r)) eqn:E; [exfalso|simpl; done].
    apply starts_with_spec in E as [t E].
    change (b :: body ++ nl ++ d ++ r) with ((b :: body) ++ nl ++ d ++ r) in E.
    apply (proj1 (contains_false _ _) Hc [] (drop (length d) (b :: body))).
    assert (length d ≤ length (b :: body)) as Hl.
    { destruct (decide (length d ≤ length (b :: body))) as [|Hgt]; [done|]. exfalso. apply Hn.
      apply (list_elem_of_lookup_2 d (length (b :: body))).
      rewrite <- (lookup_app_l d t) by lia. rewrite <- E.
      rewrite lookup_app_r, Nat.sub_diag by done. done. }
    apply (f_equal (take (length d))) in E. rewrite take_app_length in E.
    rewrite take_app_le in E by done.
    transitivity (take (length d) (b :: body) ++ drop (length d) (b :: body));
      [by rewrite take_drop|by rewrite E].
Qed.

(** * UUIDs *)

Lemma valid_uuid_lookup s :
  valid_uuid s = true ↔ length s = 36 ∧ ∀ i b, s !! i = Some b →
    if decide (i = 8 ∨ i = 13 ∨ i = 18 ∨ i = 23) then b = x2d else is_ascii_hexdigit b = true.
Proof.
  unfold valid_uuid. rewrite andb_true_iff, bool_decide_eq_true, forallb_forall.
  setoid_rewrite <- list_elem_of_In. split; intros [Hl H]; (split; [done|]).
  - intros i b Hb. assert ((i, b) ∈ imap pair s) as Hin.
    { apply list_elem_of_lookup. exists i. by rewrite list_lookup_imap, Hb. }
    specialize (H _ Hin). simpl in H.
    destruct (decide _); [by apply bool_decide_eq_true in H|done].
  - intros [i b] [j Hj]%list_elem_of_lookup. rewrite list_lookup_imap in Hj.
    destruct (s !! j) as [b'|] eqn:E; simplify_eq/=. specialize (H i b E).
    destruct (decide _); [by apply bool_decide_eq_true|done].
Qed.

(** A stretch of [n] hexadecimal digits. *)
Definition hex_run (n : nat) (s : bytes) : Prop :=
  length s = n ∧ Forall (λ b, is_ascii_hexdigit b = true) s.

Lemma uuid_cut s k n :
  valid_uuid s = true → k + n ≤ 36 →
  (∀ i, k ≤ i < k + n → i ≠ 8 ∧ i ≠ 13 ∧ i ≠ 18 ∧ i ≠ 23) → hex_run n (take n (drop k s)).
Proof.
  intros [Hl H]%valid_uuid_lookup Hn Hi. split; [rewrite length_take, length_drop; lia|].
  apply Forall_lookup. intros i b Hb. apply lookup_take_Some in Hb as [Hb Hlt].
  rewrite lookup_drop in Hb. specialize (H _ _ Hb). rewrite decide_False in H; [done|].
  destruct (Hi (k + i)); lia.
Qed.

Lemma uuid_dash s k :
  valid_uuid s = true → k = 8 ∨ k = 13 ∨ k = 18 ∨ k = 23 → drop k s = x2d :: drop (S k) s.
Proof.
  intros [Hl H]%valid_uuid_lookup Hk.
  destruct (s !! k) as [b|] eqn:E; [|apply lookup_ge_None in E; lia].
  specialize (H k b E). rewrite decide_True in H by done. subst b.
  by rewrite (drop_S s x2d k).
Qed.

(** * Properties *)

(** C33: [valid_uuid] accepts exactly the texts made of five runs of 8, 4, 4, 4
    and 12 hexadecimal digits joined by dashes, so a value that passes it is
    safe under a [::uuid] cast. *)
Lemma valid_uuid_shape s :
  valid_uuid s = true ↔
  ∃ a b c d e, s = a ++ bs "-" ++ b ++ bs "-" ++ c ++ bs "-" ++ d ++ bs "-" ++ e
    ∧ hex_run 8 a ∧ hex_run 4 b ∧ hex_run 4 c ∧ hex_run 4 d ∧ hex_run 12 e.
Proof.
  split.
  - intros Hv. exists (take 8 (drop 0 s)), (take 4 (drop 9 s)), (take 4 (drop 14 s)),
      (take 4 (drop 19 s)), (take 12 (drop 24 s)).
    split; [|repeat split; apply uuid_cut; (done || lia)].
    assert (take 12 (drop 24 s) = drop 24 s) as ->.
    { apply take_ge. rewrite length_drop. apply valid_uuid_lookup in Hv as [-> _]. lia. }
    change (bs "-") with [x2d]. cbn [app].
    rewrite <- (uuid_dash s 23), (take_drop_join s 19) by auto.
    rewrite <- (uuid_dash s 18), (take_drop_join s 14) by auto.
    rewrite <- (uuid_dash s 13), (take_drop_join s 9) by auto.
    rewrite <- (uuid_dash s 8), (take_drop_join s 0) by auto. by rewrite drop_0.
  - intros (a & b & c & d & e & -> & [La Ha] & [Lb Hb] & [Lc Hc] & [Ld Hd] & [Le He]).
    apply valid_uuid_lookup. change (bs "-") with [x2d]. split.
    { rewrite !length_app. simpl. lia. }
    intros i x Hx. rewrite Forall_lookup in *.
    repeat (apply lookup_app_Some in Hx as [Hx|[? Hx]]).
    all: pose proof (lookup_lt_Some _ _ _ Hx); simpl in *.
    all: first [rewrite decide_False by lia; by eauto
               |rewrite decide_True by lia; by apply list_lookup_singleton_Some in Hx as [_ <-]].
Qed.

(** C31: dollar quoting keeps a body verbatim: the quoted text opens with the
    delimiter, and behind it the first occurrence of the delimiter stands
    right after the body (and the line feeds around it), whatever the body
    contains; the delimiter's tag is one SQL word. The search for a free tag
    ends within the length of the body. *)
Theorem dollar_quote_verbatim nanos body :
  let '(tag, quoted) := dollar_quote nanos body in
  let rest := drop (length (dollar tag)) quoted in
  starts_with (dollar tag) quoted = true
  ∧ find_sub (dollar tag) rest = Some (length body + 2)
  ∧ take (length body + 2) rest = nl ++ body ++ nl
  ∧ Forall (λ b, word_byte b = true) tag.
Proof.
  unfold dollar_quote. set (d := dollar (dollar_tag nanos body)). cbn zeta.
  rewrite starts_with_app, drop_app_length. split; [done|].
  assert (x0a ∉ d) as Hd.
  { subst d. unfold dollar. rewrite !not_elem_of_app. split; [by_decide|]. split; [|by_decide].
    intros Hin. pose proof (dollar_tag_word nanos body) as Hw. rewrite Forall_forall in Hw.
    apply Hw in Hin. done. }
  assert (contains d (nl ++ body) = false) as Hc.
  { apply contains_false. intros [|b a] r E.
    - exfalso. destruct d as [|c d'] eqn:Ed; [done|]. by simplify_eq/=.
    - simplify_eq/=. pose proof (dollar_tag_absent nanos body) as Ha. fold d in Ha.
      by apply (proj1 (contains_false _ _) Ha a r). }
  split; [|split; [|apply dollar_tag_word]].
  - pose proof (find_sub_closing d (nl ++ body) [] Hc Hd ltac:(done)) as H.
    rewrite app_nil_r, <- app_assoc in H. rewrite H. simpl. f_equal. lia.
  - rewrite !app_assoc. rewrite take_app_length'; [done|]. rewrite !length_app. simpl. lia.
Qed.
