(* ===== verification/Worker.v ===== *)
(** The runtime worker's thread: the statements it sends to PostgreSQL, the
    operations it performs, and the privilege drop, transaction and
    subtransaction brackets around them (src/src/runtime_worker.rs,
    src/src/sandbox.rs, src/src/function_exec.rs).

    PostgreSQL, its clock and its session are the environment: they answer
    each operation as they like, with a value, an error or a raised ERROR. *)
From S2P Require Import Prelude RustStr Json Effects Config Idents.

(** * Statements *)

(** Which SQL-side queue a job came from (src/src/outbound.rs). *)
Inductive OutboundQueue : Type := Outbound | Oauth | AgentEmbedding | ProviderProbe.

#[export] Instance OutboundQueue_eq_dec : EqDecision OutboundQueue.
Proof. solve_decision. Defined.

(** The jobs the worker's own thread runs. *)
Inductive local_queue : Type :=
| SqlQueue | FunctionBuilds | FunctionCalls | ProcedureBuilds | ProcedureCalls.

Inductive stmt : Type :=
| ExtensionInstalled
| AssumeWorkerRole
| SetLocalRole (r : bytes)
| SetSearchPath
| SetReadOnly
| SetStatementTimeout (ms : N)
| SetAgentId
| SetCheckBodies
| BeginLocalExecution (table : bytes)
| RunSandboxedSql
| CallFunction (sql_ident : bytes)
| CallProcedure (sql_ident : bytes)
| Ddl (text : bytes)
| CheckLostOutbound
| Watchdog
| DispatchTasks
| ClaimHttp (q : OutboundQueue)
| CompleteHttp (q : OutboundQueue)
| ClaimLocal (q : local_queue)
| CompleteLocal (q : local_queue)
| DashboardRpc.

Definition http_queue_name (q : OutboundQueue) : bytes :=
  match q with
  | Outbound => bs "outbound"
  | Oauth => bs "oauth"
  | AgentEmbedding => bs "agent_embedding"
  | ProviderProbe => bs "provider_probe"
  end.

Definition claim_name (q : local_queue) : bytes :=
  match q with
  | SqlQueue => bs "sql"
  | FunctionBuilds => bs "function_builds"
  | FunctionCalls => bs "function_calls"
  | ProcedureBuilds => bs "procedure_builds"
  | ProcedureCalls => bs "procedure_calls"
  end.

Definition complete_fn (q : local_queue) : bytes :=
  match q with
  | SqlQueue => bs "fn_complete_sql"
  | FunctionBuilds => bs "fn_complete_function_build"
  | FunctionCalls => bs "fn_complete_function_call"
  | ProcedureBuilds => bs "fn_complete_procedure_build"
  | ProcedureCalls => bs "fn_complete_procedure_call"
  end.

Definition complete_params (q : local_queue) : bytes :=
  match q with
  | SqlQueue => bs "($1::uuid, $2, $3, $4, $5, $6)"
  | FunctionBuilds | ProcedureBuilds => bs "($1::uuid, $2, $3)"
  | FunctionCalls | ProcedureCalls => bs "($1::uuid, $2, $3, $4)"
  end.

(** The text of each statement; everything else travels as a bound
    parameter. *)
Definition stmt_text (s : stmt) : bytes :=
  match s with
  | ExtensionInstalled =>
      bs "SELECT EXISTS (SELECT 1 FROM pg_extension WHERE extname = 'allgres')"
  | AssumeWorkerRole => bs "SELECT allgres.assume_worker_role()"
  | SetLocalRole r => bs "SET LOCAL ROLE " ++ r
  | SetSearchPath => bs "SET LOCAL search_path = pg_temp"
  | SetReadOnly => bs "SET LOCAL transaction_read_only = on"
  | SetStatementTimeout ms => bs "SET LOCAL statement_timeout = '" ++ decimal ms ++ bs "ms'"
  | SetAgentId => bs "SELECT set_config('allgres.agent_id', $1, true)"
  | SetCheckBodies => bs "SET LOCAL check_function_bodies = on"
  | BeginLocalExecution table =>
      bs "SELECT allgres_private.begin_local_execution('" ++ table ++ bs "', $1::uuid)"
  | RunSandboxedSql => bs "SELECT allgres_public.fn_run_sandboxed_sql($1)"
  | CallFunction i => bs "SELECT allgres_functions." ++ i ++ bs "($1::jsonb)"
  | CallProcedure i => bs "CALL allgres_functions." ++ i ++ bs "($1::jsonb, '{}'::jsonb)"
  | Ddl text => text
  | CheckLostOutbound =>
      bs "SELECT to_jsonb(allgres_public.fn_check_lost_outbound($1::text[]::uuid[]))"
  | Watchdog => bs "SELECT allgres_public.fn_watchdog($1)"
  | DispatchTasks => bs "SELECT allgres_public.fn_dispatch_tasks()"
  | ClaimHttp q => bs "SELECT allgres_public.fn_claim_" ++ http_queue_name q ++ bs "($1)"
  | CompleteHttp q =>
      bs "SELECT allgres_public.fn_complete_" ++ http_queue_name q ++ bs "($1::uuid, $2, $3)"
  | ClaimLocal q => bs "SELECT allgres_public.fn_claim_" ++ claim_name q ++ bs "($1)"
  | CompleteLocal q => bs "SELECT allgres_public." ++ complete_fn q ++ complete_params q
  | DashboardRpc => bs "SELECT allgres.dashboard_rpc($1::jsonb)"
  end.

(** * Operations of the worker's thread *)

(** A job for the HTTP threads and its result (src/src/outbound.rs). *)
Record OutboundJob : Type := mkJob {
  job_call_id : bytes; job_queue : OutboundQueue; job_call : Value }.

Record OutboundResult : Type := mkResult {
  res_call_id : bytes; res_queue : OutboundQueue; res_status : Z; res_body : bytes }.

(** What [accept] on the RPC socket gives: a connection, with all its client
    sends before closing ([None] when reading fails), nothing yet, or an
    error. *)
Inductive accepted : Type :=
| Connection (data : option bytes)
| WouldBlock
| AcceptError (msg : bytes).

Inductive wop : Type → Type :=
| Spi (s : stmt) (args : list Value) : wop (exn (result (option Value) bytes))
| GetEnv (key : bytes) : wop (option bytes)
| TxBegin : wop unit
| TxCommit : wop (exn unit)
| SubBegin : wop unit
| SubRelease : wop unit
| SubRollback : wop unit
| GetSec : wop (N * N)
| SetSec (user context : N) : wop unit
| EnableTimeout (id ms : N) : wop unit
| DisableTimeout (id : N) : wop unit
| SystemNanos : wop N
| Warning (msg : bytes) : wop unit
| WaitLatch : wop bool
| Now : wop Z
| AcceptRpc : wop accepted
| WriteReply (reply : bytes) : wop unit
| TryRecv : wop (option OutboundResult)
| SendJob (job : OutboundJob) : wop bool
| CancelKeys : wop (option (list bytes))
| SetCancelFlags (ids : list bytes) : wop unit
| Connect (db : bytes) : wop unit
| SetNonblocking : wop (result unit bytes)
| Fs X (e : fsop X) : wop X.

Abbreviation worker := (io wop).

Definition spi (s : stmt) (args : list Value) : worker (result (option Value) bytes) :=
  op_exn (Spi s args).

(** [Spi::run(..).is_ok()]. *)
Definition spi_ok (s : stmt) (args : list Value) : worker bool :=
  r ← spi s args; mret (is_ok r).

(** [Spi::get_one(..).ok().flatten()]. *)
Definition spi_get (s : stmt) (args : list Value) : worker (option Value) :=
  r ← spi s args; mret (match r with Ok v => v | Err _ => None end).

(** [a && b]. *)
Definition and_also (a b : worker bool) : worker bool :=
  x ← a; if (x : bool) then b else mret false.

(** * Brackets *)

(** [BackgroundWorker::transaction]: commit after the body returns. *)
Definition transaction {A} (body : worker A) : worker A :=
  _ ← op TxBegin; a ← body; _ ← op_exn TxCommit; mret a.

Definition drop_privileges : worker bool :=
  v ← op (GetEnv (bs "ALLGRES_DROP_PRIVILEGES"));
  if decide (v = Some (bs "0")) then mret true
  else
    r ← spi AssumeWorkerRole [];
    match r with
    | Ok (Some (Bool true)) => mret true
    | Ok (Some _) =>
        _ ← op (Warning (bs "Allgres: assume_worker_role() reports the worker role is not ready"));
        mret false
    | Ok None =>
        _ ← op (Warning (bs "Allgres: assume_worker_role() returned no result")); mret false
    | Err e =>
        _ ← op (Warning (bs "Allgres: assume_worker_role() failed: " ++ e)); mret false
    end.

(** A caught ERROR rolls the subtransaction back and becomes its message; a
    success releases it; an ordinary [Err] does neither. *)
Definition run_in_subtransaction (f : worker (result Value bytes)) :
    worker (result Value bytes) :=
  _ ← op SubBegin;
  r ← try f;
  match r with
  | Raised msg => _ ← op SubRollback; mret (Err msg)
  | Returned (Ok v) => _ ← op SubRelease; mret (Ok v)
  | Returned (Err e) => mret (Err e)
  end.

Definition SECURITY_LOCAL_USERID_CHANGE : N := 1.

(** The role is pinned while [run] executes; an ERROR skips the restoration,
    which the rollback of the enclosing subtransaction makes. *)
Definition with_fixed_role (run : worker (result Value bytes)) : worker (result Value bytes) :=
  '(user, context) ← op GetSec;
  _ ← op (SetSec user (N.lor context SECURITY_LOCAL_USERID_CHANGE));
  r ← run;
  _ ← op (SetSec user context);
  mret r.

Definition PG_STATEMENT_TIMEOUT_ID : N := 3.


Definition number_arg (n : N) : Value := Number (PosInt n).

(** Optional parameters: [None] is NULL. *)
Definition opt_arg {A} (f : A → Value) (o : option A) : Value :=
  match o with Some a => f a | None => Null end.

Definition int_arg (z : Z) : Value :=
  if (z <? 0)%Z then Number (NegInt z) else Number (PosInt (Z.to_N z)).
