(* ===== verification/Exec.v ===== *)
(** Jobs the runtime worker executes on its own thread: sandboxed SQL
    (src/src/sandbox.rs), PL/pgSQL functions (src/src/function_exec.rs) and
    procedures (src/src/procedure_exec.rs). *)
From S2P Require Import Prelude RustStr Json Effects Config Idents Worker.

(** * Definitions *)

Definition no_jobs (key : bytes) : Value := obj [(bs "count", number_arg 0); (key, Arr [])].

(** The shape of every claim: a transaction that drops privileges, claims, and
    falls back on an empty list. *)
Definition claim_local (q : local_queue) (key : bytes) (limit : N) : worker Value :=
  transaction (
    d ← drop_privileges;
    if (d : bool) then
      v ← spi_get (ClaimLocal q) [number_arg limit];
      mret (default (no_jobs key) v)
    else mret (no_jobs key)).

Definition claim_sql_jobs (limit : N) : worker Value := claim_local SqlQueue (bs "calls") limit.

Definition claim_function_build_jobs (limit : N) : worker Value :=
  claim_local FunctionBuilds (bs "builds") limit.

Definition claim_function_call_jobs (limit : N) : worker Value :=
  claim_local FunctionCalls (bs "calls") limit.

Definition claim_procedure_build_jobs (limit : N) : worker Value :=
  claim_local ProcedureBuilds (bs "builds") limit.

Definition claim_procedure_call_jobs (limit : N) : worker Value :=
  claim_local ProcedureCalls (bs "calls") limit.

(** [pg_role.filter(valid_pg_role).unwrap_or("sandbox")]. *)
Definition sandbox_role (pg_role : option bytes) : bytes :=
  match pg_role with
  | Some r => if valid_pg_role r then r else bs "sandbox"
  | None => bs "sandbox"
  end.

(** ** Sandboxed SQL *)

Definition run_sandboxed_sql (agent_id sql : bytes) (pg_role : option bytes) :
    worker (result Value bytes) :=
  transaction (run_in_subtransaction (
    dropped ←
      and_also drop_privileges
      (and_also (spi_ok (SetLocalRole (sandbox_role pg_role)) [])
      (and_also (spi_ok SetSearchPath [])
      (and_also (spi_ok SetReadOnly [])
      (and_also (spi_ok (SetStatementTimeout SQL_STATEMENT_TIMEOUT_MS) [])
                (spi_ok SetAgentId [Str agent_id])))));
    if negb dropped then mret (Err (bs "sandbox role unavailable"))
    else
      _ ← op (EnableTimeout PG_STATEMENT_TIMEOUT_ID SQL_STATEMENT_TIMEOUT_MS);
      r ← with_fixed_role (
        x ← spi RunSandboxedSql [Str sql];
        mret (match x with
              | Ok (Some v) => Ok v
              | Ok None => Err (bs "sandboxed execution returned nothing")
              | Err e => Err e
              end));
      _ ← op (DisableTimeout PG_STATEMENT_TIMEOUT_ID);
      mret r)).

(** What [submit_sql_result] reports of an outcome: success, rows, row count,
    truncation and error. *)
Definition sql_report (outcome : result Value bytes) :
    bool * option Value * option Z * bool * option bytes :=
  match outcome with
  | Ok v =>
      if decide (get_bool (bs "ok") v = Some true) then
        (true, get (bs "rows") v, as_i32 <$> (get (bs "row_count") v ≫= as_i64),
         default false (get_bool (bs "truncated") v), None)
      else
        (false, None, None, false,
         Some (default (bs "sql execution failed") (get_str (bs "error") v)))
  | Err e => (false, None, None, false, Some e)
  end.

(** How the warnings name a job. *)
Definition job_name (q : local_queue) (id : bytes) : bytes :=
  match q with
  | FunctionBuilds | ProcedureBuilds => id
  | SqlQueue | FunctionCalls | ProcedureCalls => bs "call " ++ id
  end.

(** The shape of every completion: a transaction that drops privileges and
    records, or warns and leaves the row to the watchdog. *)
Definition complete_local (q : local_queue) (id : bytes) (args : list Value) : worker unit :=
  transaction (
    d ← drop_privileges;
    if (d : bool) then
      r ← spi (CompleteLocal q) args;
      match r with
      | Ok _ => mret tt
      | Err e =>
          op (Warning (bs "Allgres: " ++ complete_fn q ++ bs " failed for " ++ job_name q id
                       ++ bs ": " ++ e))
      end
    else
      op (Warning (bs "Allgres: skipping " ++ complete_fn q ++ bs " for " ++ job_name q id
                   ++ bs " -- privilege drop failed"))).

Definition submit_sql_result (call_id : bytes) (outcome : result Value bytes) : worker unit :=
  let '(ok, rows, row_count, truncated, error) := sql_report outcome in
  complete_local SqlQueue call_id
    [Str call_id; Bool ok; opt_arg id rows; opt_arg int_arg row_count; Bool truncated;
     opt_arg Str error].

Definition pump_sql : worker nat :=
  claimed ← claim_sql_jobs SQL_CLAIM_LIMIT;
  match get_array (bs "calls") claimed with
  | None => mret 0
  | Some calls =>
      for_each calls 0 (λ n call,
        match get_str (bs "call_id") call, get_str (bs "agent_id") call, get_str (bs "sql") call with
        | Some call_id, Some agent_id, Some sql =>
            if negb (valid_uuid call_id) || negb (valid_uuid agent_id) then mret n
            else
              outcome ← run_sandboxed_sql agent_id sql (get_str (bs "pg_role") call);
              _ ← submit_sql_result call_id outcome;
              mret (S n)
        | _, _, _ => mret n
        end)
  end.

(** ** Building functions and procedures *)

Definition build_prefix (procedure : bool) : bytes := if procedure then bs "proc_" else bs "fn_".

Definition declaration (procedure : bool) (sql_ident : bytes) : bytes :=
  if procedure then
    bs "PROCEDURE allgres_functions." ++ sql_ident ++ bs "(p_args jsonb, INOUT p_result jsonb)"
  else bs "FUNCTION allgres_functions." ++ sql_ident ++ bs "(p_args jsonb) RETURNS jsonb".

Definition ddl_text (procedure : bool) (sql_ident : bytes) (nanos : N) (source : bytes) : bytes :=
  bs "CREATE OR REPLACE " ++ declaration procedure sql_ident
  ++ bs " LANGUAGE plpgsql SECURITY INVOKER AS " ++ (dollar_quote nanos source).2 ++ bs ";".

(** The author's block, nested behind the execution guard. *)
Definition wrap (sql_ident body terminator : bytes) : bytes :=
  bs "BEGIN" ++ nl ++ bs "PERFORM allgres_private.assert_local_execution('" ++ sql_ident ++ bs "');"
  ++ nl ++ body ++ nl ++ terminator ++ nl ++ bs "END;".

(** One CREATE; the tag's clock is read for each. *)
Definition run_ddl (procedure : bool) (sql_ident source : bytes) : worker (result Value bytes) :=
  nanos ← op SystemNanos;
  r ← spi (Ddl (ddl_text procedure sql_ident nanos source)) [];
  mret (match r with Ok _ => Ok Null | Err e => Err e end).

Definition run_guarded_build (sql_ident body : bytes) (procedure : bool) :
    worker (result unit bytes) :=
  if negb (valid_sql_ident sql_ident (build_prefix procedure)) then mret (Err (bs "invalid sql_ident"))
  else
    r ← transaction (run_in_subtransaction (
      ready ← and_also drop_privileges (spi_ok (SetLocalRole (bs "allgres_function_admin")) []);
      if negb ready then mret (Err (bs "allgres_function_admin role unavailable"))
      else
        c ← spi SetCheckBodies [];
        match c with
        | Err e => mret (Err e)
        | Ok _ =>
            d ← run_ddl procedure sql_ident body;
            match d with
            | Err e => mret (Err e)
            | Ok _ =>
                w ← run_in_subtransaction (run_ddl procedure sql_ident (wrap sql_ident body []));
                if is_ok w then mret (Ok Null)
                else run_ddl procedure sql_ident (wrap sql_ident body (bs ";"))
            end
        end));
    mret (match r with Ok _ => Ok tt | Err e => Err e end).

Definition run_function_build (sql_ident body : bytes) : worker (result unit bytes) :=
  run_guarded_build sql_ident body false.

Definition run_procedure_build (sql_ident body : bytes) : worker (result unit bytes) :=
  run_guarded_build sql_ident body true.

Definition build_report (outcome : result unit bytes) : bool * option bytes :=
  match outcome with Ok _ => (true, None) | Err e => (false, Some e) end.

Definition submit_function_build_result (function_id : bytes) (outcome : result unit bytes) :
    worker unit :=
  let '(ok, error) := build_report outcome in
  complete_local FunctionBuilds function_id [Str function_id; Bool ok; opt_arg Str error].

Definition submit_procedure_build_result (procedure_id : bytes) (outcome : result unit bytes) :
    worker unit :=
  let '(ok, error) := build_report outcome in
  complete_local ProcedureBuilds procedure_id [Str procedure_id; Bool ok; opt_arg Str error].

Definition pump_function_builds : worker nat :=
  claimed ← claim_function_build_jobs SQL_CLAIM_LIMIT;
  match get_array (bs "builds") claimed with
  | None => mret 0
  | Some builds =>
      for_each builds 0 (λ n b,
        match get_str (bs "function_id") b, get_str (bs "sql_ident") b, get_str (bs "body") b with
        | Some function_id, Some sql_ident, Some body =>
            if negb (valid_uuid function_id) then mret n
            else
              outcome ← run_function_build sql_ident body;
              _ ← submit_function_build_result function_id outcome;
              mret (S n)
        | _, _, _ => mret n
        end)
  end.

Definition pump_procedure_builds : worker nat :=
  claimed ← claim_procedure_build_jobs SQL_CLAIM_LIMIT;
  match get_array (bs "builds") claimed with
  | None => mret 0
  | Some builds =>
      for_each builds 0 (λ n b,
        match get_str (bs "procedure_id") b, get_str (bs "sql_ident") b, get_str (bs "body") b with
        | Some procedure_id, Some sql_ident, Some body =>
            if negb (valid_uuid procedure_id) then mret n
            else
              outcome ← run_procedure_build sql_ident body;
              _ ← submit_procedure_build_result procedure_id outcome;
              mret (S n)
        | _, _, _ => mret n
        end)
  end.

(** ** Calling functions and procedures *)

(** The body both kinds of call share, [run_function_call] and
    [run_procedure_call] below. *)
Definition run_local_call (call : stmt) (table : bytes) (timeout : N) (unavailable : bytes)
    (call_id : bytes) (args : Value) (pg_role : option bytes) : worker (result Value bytes) :=
  transaction (run_in_subtransaction (
    dropped ←
      and_also drop_privileges
      (and_also (spi_ok (BeginLocalExecution table) [Str call_id])
      (and_also (spi_ok (SetLocalRole (sandbox_role pg_role)) [])
      (and_also (spi_ok SetSearchPath [])
                (spi_ok (SetStatementTimeout timeout) []))));
    if negb dropped then mret (Err unavailable)
    else
      _ ← op (EnableTimeout PG_STATEMENT_TIMEOUT_ID timeout);
      r ← with_fixed_role (
        x ← spi call [args];
        mret (match x with
              | Ok (Some v) => Ok v
              | Ok None => Ok Null
              | Err e => Err e
              end));
      _ ← op (DisableTimeout PG_STATEMENT_TIMEOUT_ID);
      mret r)).

Definition run_function_call (call_id sql_ident : bytes) (args : Value) (pg_role : option bytes) :
    worker (result Value bytes) :=
  if negb (valid_sql_ident sql_ident (bs "fn_")) then mret (Err (bs "invalid sql_ident"))
  else run_local_call (CallFunction sql_ident) (bs "function_calls") SQL_STATEMENT_TIMEOUT_MS
         (bs "function role unavailable") call_id args pg_role.

Definition run_procedure_call (call_id sql_ident : bytes) (args : Value) (pg_role : option bytes) :
    worker (result Value bytes) :=
  if negb (valid_sql_ident sql_ident (bs "proc_")) then mret (Err (bs "invalid sql_ident"))
  else run_local_call (CallProcedure sql_ident) (bs "procedure_calls") PROCEDURE_CALL_TIMEOUT_MS
         (bs "procedure role unavailable") call_id args pg_role.

Definition call_report (outcome : result Value bytes) : bool * option Value * option bytes :=
  match outcome with Ok v => (true, Some v, None) | Err e => (false, None, Some e) end.

Definition submit_function_call_result (call_id : bytes) (outcome : result Value bytes) :
    worker unit :=
  let '(ok, res, error) := call_report outcome in
  complete_local FunctionCalls call_id [Str call_id; Bool ok; opt_arg id res; opt_arg Str error].

Definition submit_procedure_call_result (call_id : bytes) (outcome : result Value bytes) :
    worker unit :=
  let '(ok, res, error) := call_report outcome in
  complete_local ProcedureCalls call_id [Str call_id; Bool ok; opt_arg id res; opt_arg Str error].

Definition pump_function_calls : worker nat :=
  claimed ← claim_function_call_jobs SQL_CLAIM_LIMIT;
  match get_array (bs "calls") claimed with
  | None => mret 0
  | Some calls =>
      for_each calls 0 (λ n call,
        match get_str (bs "call_id") call, get_str (bs "sql_ident") call with
        | Some call_id, Some sql_ident =>
            if negb (valid_uuid call_id) then mret n
            else
              let args := default (Obj []) (get (bs "args") call) in
              outcome ← run_function_call call_id sql_ident args (get_str (bs "pg_role") call);
              _ ← submit_function_call_result call_id outcome;
              mret (S n)
        | _, _ => mret n
        end)
  end.

Definition pump_procedure_calls : worker nat :=
  claimed ← claim_procedure_call_jobs SQL_CLAIM_LIMIT;
  match get_array (bs "calls") claimed with
  | None => mret 0
  | Some calls =>
      for_each calls 0 (λ n call,
        match get_str (bs "call_id") call, get_str (bs "sql_ident") call with
        | Some call_id, Some sql_ident =>
            if negb (valid_uuid call_id) then mret n
            else
              let args := default (Obj []) (get (bs "args") call) in
              outcome ← run_procedure_call call_id sql_ident args (get_str (bs "pg_role") call);
              _ ← submit_procedure_call_result call_id outcome;
              mret (S n)
        | _, _ => mret n
        end)
  end.
