(* ===== verification/Policy.v ===== *)
(** The privilege policy of the runtime worker, as a monitor over its
    operations, and the proof that the jobs of [Exec] keep it.

    The monitor follows the part of the PostgreSQL session the policy is
    about: what [SET LOCAL] statements did since the transaction began, the
    security context, the stack of subtransactions (a rollback restores what
    they saved) and the statement timer. *)
From S2P Require Import Prelude RustStr Json Effects Config Idents Worker Exec.

(** * The session *)

Record session : Type := Session {
  dropped : bool;               (* current_user is the worker role *)
  role : option bytes;          (* SET LOCAL ROLE *)
  path_temp : bool;             (* search_path = pg_temp *)
  read_only : bool;             (* transaction_read_only *)
  stmt_timeout : option N;      (* statement_timeout, in ms *)
  agent : option bytes;         (* allgres.agent_id *)
  local_exec : option bytes;    (* the table of begin_local_execution *)
  fixed : bool;                 (* SECURITY_LOCAL_USERID_CHANGE *)
  object : option bytes         (* the last CREATE that succeeded *)
}.

Definition fresh_session : session := Session false None false false None None None false None.

Record wstate : Type := WState {
  cur : session;
  saved : list session;         (* one per open subtransaction *)
  timer : option N              (* the armed statement timer, in ms *)
}.

Definition with_cur (f : session → session) (s : wstate) : wstate :=
  WState (f (cur s)) (saved s) (timer s).

(** The effect of a statement that succeeded. *)
Definition stmt_effect (st : stmt) (args : list Value) (v : option Value) (s : session) : session :=
  match st with
  | AssumeWorkerRole =>
      match v with
      | Some (Bool true) =>
          Session true (role s) (path_temp s) (read_only s) (stmt_timeout s) (agent s)
            (local_exec s) (fixed s) (object s)
      | _ => s
      end
  | SetLocalRole r =>
      Session (dropped s) (Some r) (path_temp s) (read_only s) (stmt_timeout s) (agent s)
        (local_exec s) (fixed s) (object s)
  | SetSearchPath =>
      Session (dropped s) (role s) true (read_only s) (stmt_timeout s) (agent s)
        (local_exec s) (fixed s) (object s)
  | SetReadOnly =>
      Session (dropped s) (role s) (path_temp s) true (stmt_timeout s) (agent s)
        (local_exec s) (fixed s) (object s)
  | SetStatementTimeout ms =>
      Session (dropped s) (role s) (path_temp s) (read_only s) (Some ms) (agent s)
        (local_exec s) (fixed s) (object s)
  | SetAgentId =>
      match args with
      | [Str a] =>
          Session (dropped s) (role s) (path_temp s) (read_only s) (stmt_timeout s) (Some a)
            (local_exec s) (fixed s) (object s)
      | _ => s
      end
  | BeginLocalExecution t =>
      Session (dropped s) (role s) (path_temp s) (read_only s) (stmt_timeout s) (agent s)
        (Some t) (fixed s) (object s)
  | Ddl text =>
      Session (dropped s) (role s) (path_temp s) (read_only s) (stmt_timeout s) (agent s)
        (local_exec s) (fixed s) (Some text)
  | _ => s
  end.

(** An operator may disable the drop for the whole process: then the process
    counts as dropped. *)
Definition env_effect (key : bytes) (v : option bytes) (s : session) : session :=
  if decide (key = bs "ALLGRES_DROP_PRIVILEGES" ∧ v = Some (bs "0")) then
    Session true (role s) (path_temp s) (read_only s) (stmt_timeout s) (agent s)
      (local_exec s) (fixed s) (object s)
  else s.

Definition sec_effect (context : N) (s : session) : session :=
  Session (dropped s) (role s) (path_temp s) (read_only s) (stmt_timeout s) (agent s)
    (local_exec s) (N.testbit context 0) (object s).

(** Starting a transaction command while a subtransaction is still open does
    not begin a new transaction. *)
Definition tx_start (s : wstate) : wstate :=
  match saved s with
  | [] => WState fresh_session [] (timer s)
  | _ => s
  end.

Definition sub_start (s : wstate) : wstate := WState (cur s) (cur s :: saved s) (timer s).
Definition sub_release (s : wstate) : wstate := WState (cur s) (tail (saved s)) (timer s).
Definition sub_rollback (s : wstate) : wstate :=
  WState (default (cur s) (head (saved s))) (tail (saved s)) (timer s).

Definition wnext (s : wstate) X (e : wop X) : X → wstate :=
  match e in wop X return X → wstate with
  | Spi st args => λ r,
      match r with
      | Returned (Ok v) => with_cur (stmt_effect st args v) s
      | _ => s
      end
  | GetEnv key => λ v, with_cur (env_effect key v) s
  | TxBegin => λ _, tx_start s
  | SubBegin => λ _, sub_start s
  | SubRelease => λ _, sub_release s
  | SubRollback => λ _, sub_rollback s
  | SetSec _ context => λ _, with_cur (sec_effect context) s
  | EnableTimeout _ ms => λ _, WState (cur s) (saved s) (Some ms)
  | DisableTimeout _ => λ _, WState (cur s) (saved s) None
  | _ => λ _, s
  end.

(** * The policy *)

(** A role an agent's code may run under. *)
Definition agent_role (o : option bytes) : Prop :=
  ∃ r, o = Some r ∧ (r = bs "sandbox" ∨ valid_pg_role r = true).

(** What agent-authored code needs before it may run: an agent role, pinned,
    an empty search path, and a statement timeout that is set and armed. *)
Definition sandboxed (ms : N) (s : wstate) : Prop :=
  dropped (cur s) = true ∧ agent_role (role (cur s)) ∧ path_temp (cur s) = true
  ∧ stmt_timeout (cur s) = Some ms ∧ timer s = Some ms ∧ fixed (cur s) = true.

Definition may_send (s : wstate) (st : stmt) (args : list Value) : Prop :=
  match st with
  | ExtensionInstalled | AssumeWorkerRole => True
  | RunSandboxedSql =>
      sandboxed SQL_STATEMENT_TIMEOUT_MS s ∧ read_only (cur s) = true
      ∧ ∃ a, agent (cur s) = Some a
  | CallFunction i =>
      sandboxed SQL_STATEMENT_TIMEOUT_MS s ∧ local_exec (cur s) = Some (bs "function_calls")
      ∧ valid_sql_ident i (bs "fn_") = true
  | CallProcedure i =>
      sandboxed PROCEDURE_CALL_TIMEOUT_MS s ∧ local_exec (cur s) = Some (bs "procedure_calls")
      ∧ valid_sql_ident i (bs "proc_") = true
  | Ddl text =>
      dropped (cur s) = true ∧ role (cur s) = Some (bs "allgres_function_admin")
      ∧ ∃ procedure i nanos source, valid_sql_ident i (build_prefix procedure) = true
          ∧ text = ddl_text procedure i nanos source
  | SetLocalRole r =>
      dropped (cur s) = true
      ∧ (r = bs "allgres_function_admin" ∨ agent_role (Some r))
  | BeginLocalExecution t =>
      dropped (cur s) = true ∧ (t = bs "function_calls" ∨ t = bs "procedure_calls")
  | _ => dropped (cur s) = true
  end.

Definition wallowed (s : wstate) X (e : wop X) : Prop :=
  match e with Spi st args => may_send s st args | _ => True end.

Definition policy : monitor wop := Monitor wstate wallowed wnext.

(** A program keeps the policy from every state of the session. *)
Definition keeps_policy {A} (p : worker A) : Prop :=
  ∀ s, wp policy p (λ _ _, True) s.

(** * Rules for the worker's operations *)

Definition drop_cur (s : session) : session :=
  Session true (role s) (path_temp s) (read_only s) (stmt_timeout s) (agent s)
    (local_exec s) (fixed s) (object s).

Lemma with_cur_id s f : (∀ c, f c = c) → with_cur f s = s.
Proof. intros Hf. unfold with_cur. rewrite Hf. by destruct s. Qed.

Section rules.
Implicit Types (s : wstate).

Lemma wp_spi st args Q s :
  may_send s st args →
  (∀ v, Q (with_cur (stmt_effect st args v) s) (Returned (Ok v))) →
  (∀ e, Q s (Returned (Err e))) → (∀ m, Q s (Raised m)) →
  wp policy (spi st args) Q s.
Proof. intros Hm Hok Herr Hr. split; [done|]. intros [[v|e]|m]; simpl; auto. Qed.

Lemma wp_spi_ok st args Q s :
  may_send s st args →
  (∀ v, Q (with_cur (stmt_effect st args v) s) (Returned true)) →
  Q s (Returned false) → (∀ m, Q s (Raised m)) →
  wp policy (spi_ok st args) Q s.
Proof. intros. apply wp_io_bind, wp_spi; auto. Qed.

Lemma wp_and_also a b Q s :
  wp policy a (λ s r, match r with
                      | Returned true => wp policy b Q s
                      | Returned false => Q s (Returned false)
                      | Raised m => Q s (Raised m)
                      end) s →
  wp policy (and_also a b) Q s.
Proof.
  intros H. apply wp_io_bind. eapply wp_mono; [|exact H]. intros s' [[]|m]; done.
Qed.

Lemma wp_drop_privileges Q s :
  Q (with_cur drop_cur s) (Returned true) → Q s (Returned false) → (∀ m, Q s (Raised m)) →
  wp policy drop_privileges Q s.
Proof.
  intros Ht Hf Hr. apply wp_io_bind. split; [done|]. intros v. simpl.
  destruct (decide (v = Some (bs "0"))) as [->|Hv].
  { simpl. replace (with_cur (env_effect _ _) s) with (with_cur drop_cur s); [done|].
    unfold with_cur, env_effect. rewrite decide_True; done. }
  rewrite (with_cur_id s (env_effect _ v)).
  2: { intros c. unfold env_effect. rewrite decide_False; [done|]. by intros [_ ?]. }
  apply wp_io_bind, wp_spi; simpl; [done| | |done].
  - intros [[]|]; simpl; try (split; [done|]; intros ?; simpl; by rewrite with_cur_id).
    destruct b; [done|]. split; [done|]. intros ?. simpl. by rewrite with_cur_id.
  - intros e. split; [done|]. done.
Qed.

Lemma wp_transaction {A} (p : worker A) Q s :
  wp policy p (λ s' r, match r with
                       | Returned a => Q s' (Returned a) ∧ ∀ m, Q s' (Raised m)
                       | Raised m => Q s' (Raised m)
                       end) (tx_start s) →
  wp policy (transaction p) Q s.
Proof.
  intros Hp. split; [done|]. intros []. apply wp_io_bind. eapply wp_mono; [|exact Hp].
  intros s' [a|m]; [|done]. intros [HQ Hm]. split; [done|]. intros [[]|m]; [exact HQ|apply Hm].
Qed.

Lemma wp_subtransaction f Q s :
  wp policy f (λ s' r, match r with
                       | Returned (Ok v) => Q (sub_release s') (Returned (Ok v))
                       | Returned (Err e) => Q s' (Returned (Err e))
                       | Raised m => Q (sub_rollback s') (Returned (Err m))
                       end) (sub_start s) →
  wp policy (run_in_subtransaction f) Q s.
Proof.
  intros Hf. split; [done|]. intros []. apply wp_io_bind, wp_try.
  eapply wp_mono; [|exact Hf]. intros s' [[v|e]|m] HQ; [|exact HQ|]; (split; [done|]; intros []; exact HQ).
Qed.

(** The rules for brackets when nothing is claimed of the end. *)
Lemma keeps_bind {A B} (p : worker A) (f : A → worker B) s :
  wp policy p (λ _ _, True) s → (∀ a, keeps_policy (f a)) →
  wp policy (p ≫= f) (λ _ _, True) s.
Proof.
  intros Hp Hf. apply wp_io_bind. eapply wp_mono; [|exact Hp]. intros s' [a|m] _; [apply Hf|done].
Qed.

Lemma keeps_transaction {A} (p : worker A) : keeps_policy p → keeps_policy (transaction p).
Proof.
  intros Hp s. apply wp_transaction. eapply wp_mono; [|apply Hp]. by intros ? [?|?].
Qed.

Lemma keeps_for_each {A B} (l : list A) (acc : B) (f : B → A → worker B) :
  (∀ b a, keeps_policy (f b a)) → keeps_policy (for_each l acc f).
Proof.
  intros Hf s. apply (wp_for_each _ (λ _ _, True)); [done| |done].
  intros s' b a _ _. eapply wp_mono; [|apply Hf]. by intros ? [?|?].
Qed.

End rules.

(** * The jobs keep the policy *)

Lemma sandbox_role_agent o : agent_role (Some (sandbox_role o)).
Proof.
  exists (sandbox_role o). split; [done|]. destruct o as [r|]; simpl; [|by left].
  destruct (valid_pg_role r) eqn:E; [by right|by left].
Qed.

Lemma pinned_context c : N.testbit (N.lor c SECURITY_LOCAL_USERID_CHANGE) 0 = true.
Proof. rewrite N.lor_spec. apply orb_true_r. Qed.

(** The author's code runs with the role pinned; the timer is disarmed when it
    returns, and only then. *)
Lemma wp_timed_call st args g ms Q s :
  (∀ u, may_send (WState (sec_effect (N.lor u SECURITY_LOCAL_USERID_CHANGE) (cur s)) (saved s)
                    (Some ms)) st args) →
  (∀ c r, Q (WState c (saved s) None) (Returned r)) →
  (∀ c m, Q (WState c (saved s) (Some ms)) (Raised m)) →
  wp policy
    (_ ← op (EnableTimeout PG_STATEMENT_TIMEOUT_ID ms);
     r ← with_fixed_role (x ← spi st args; mret (g x));
     _ ← op (DisableTimeout PG_STATEMENT_TIMEOUT_ID); mret r) Q s.
Proof.
  intros Hm Hret Hraise. split; [done|]. intros []. split; [done|]. intros [u c].
  split; [done|]. intros []. split; [apply Hm|].
  intros [[v|e]|m]; [..|apply Hraise];
    (split; [done|]; intros []; split; [done|]; intros []; apply Hret).
Qed.

(** Walk a chain of guards; what is left is the statement that needs an
    argument and the code behind the guards. *)
Ltac wp_guards :=
  repeat first
    [ apply wp_drop_privileges; cbn beta iota
    | apply wp_and_also; cbn beta
    | apply wp_spi_ok; cbn beta iota; [| intros ? | |] ];
  try done; cbn [on_return negb].

(** A job that succeeds closes its subtransaction and disarms the timer. *)
Definition clean_success {A} (s : wstate) (s' : wstate) (r : exn (result A bytes)) : Prop :=
  match r with
  | Returned (Ok _) => saved s' = saved s ∧ timer s' = None
  | _ => True
  end.

Lemma saved_tx_start s : saved (tx_start s) = saved s.
Proof. unfold tx_start. by destruct (saved s) eqn:E. Qed.

Lemma wp_run_sandboxed_sql agent_id sql pg_role s :
  wp policy (run_sandboxed_sql agent_id sql pg_role) (clean_success s) s.
Proof.
  apply wp_transaction, wp_subtransaction. wp_step.
  pose proof (sandbox_role_agent pg_role) as Hrole.
  wp_guards.
  - split; [done|by right].
  - apply wp_timed_call.
    + intros u. simpl. unfold sandboxed. simpl. rewrite pinned_context. eauto 10.
    + intros c [?|?]; [|done]. simpl. by rewrite saved_tx_start.
    + done.
Qed.

Lemma wp_run_local_call call table timeout msg call_id args pg_role s :
  table = bs "function_calls" ∨ table = bs "procedure_calls" →
  (∀ s, sandboxed timeout s → local_exec (cur s) = Some table → may_send s call [args]) →
  wp policy (run_local_call call table timeout msg call_id args pg_role) (clean_success s) s.
Proof.
  intros Htab Hcall. apply wp_transaction, wp_subtransaction. wp_step.
  pose proof (sandbox_role_agent pg_role) as Hrole.
  wp_guards.
  - split; [done|by right].
  - apply wp_timed_call.
    + intros u. apply Hcall; [|done]. unfold sandboxed. simpl. rewrite pinned_context. eauto 10.
    + intros c [?|?]; [|done]. simpl. by rewrite saved_tx_start.
    + done.
Qed.

(** ** Builds *)

(** The session's last object is [sql_ident], guarded, around [body]. *)
Definition guarded_object (procedure : bool) (sql_ident body : bytes) (s : session) : Prop :=
  ∃ nanos terminator, (terminator = [] ∨ terminator = bs ";")
    ∧ object s = Some (ddl_text procedure sql_ident nanos (wrap sql_ident body terminator)).

Definition admin (s : wstate) : Prop :=
  dropped (cur s) = true ∧ role (cur s) = Some (bs "allgres_function_admin").

Lemma wp_run_ddl procedure sql_ident source (Q : wstate → exn (result Value bytes) → Prop) s :
  valid_sql_ident sql_ident (build_prefix procedure) = true → admin s →
  (∀ nanos, let text := ddl_text procedure sql_ident nanos source in
     Q (with_cur (stmt_effect (Ddl text) [] None) s) (Returned (Ok Null))) →
  (∀ e, Q s (Returned (Err e))) → (∀ m, Q s (Raised m)) →
  wp policy (run_ddl procedure sql_ident source) Q s.
Proof.
  intros Hid [Hd Hr] Hok Herr Hraise. split; [done|]. intros nanos. split.
  - split; [done|]. split; [done|]. by exists procedure, sql_ident, nanos, source.
  - intros [[v|e]|m]; [apply Hok|apply Herr|apply Hraise].
Qed.

(** The two attempts at the guarded object, from a session that may create. *)
Lemma wp_guarded_attempts procedure sql_ident body s :
  valid_sql_ident sql_ident (build_prefix procedure) = true → admin s →
  wp policy
    (w ← run_in_subtransaction (run_ddl procedure sql_ident (wrap sql_ident body []));
     if is_ok w then mret (Ok Null) else run_ddl procedure sql_ident (wrap sql_ident body (bs ";")))
    (λ s' r, match r with
             | Returned (Ok _) => guarded_object procedure sql_ident body (cur s')
             | _ => True
             end) s.
Proof.
  intros Hid Hs. wp_step. apply wp_subtransaction.
  assert (∀ s', admin s' → wp policy (run_ddl procedure sql_ident (wrap sql_ident body (bs ";")))
    (λ s' r, match r with
             | Returned (Ok _) => guarded_object procedure sql_ident body (cur s')
             | _ => True
             end) s') as Hsecond.
  { intros s' Hs'. apply wp_run_ddl; [done|done| |done|done].
    intros nanos. exists nanos, (bs ";"). auto. }
  apply wp_run_ddl; [done|done| | |].
  - intros nanos. exists nanos, []. auto.
  - intros e. by apply Hsecond.
  - intros m. by apply Hsecond.
Qed.

Lemma wp_run_guarded_build sql_ident body procedure s :
  wp policy (run_guarded_build sql_ident body procedure)
    (λ s' r, match r with
             | Returned (Ok _) => guarded_object procedure sql_ident body (cur s')
             | _ => True
             end) s.
Proof.
  unfold run_guarded_build.
  destruct (valid_sql_ident sql_ident (build_prefix procedure)) eqn:Hid; [|done].
  cbn [negb]. wp_step. apply wp_transaction, wp_subtransaction. wp_step.
  wp_guards; [split; [done|by left]|]. wp_step.
  apply wp_spi; cbn beta; [done|intros ?|done|done]. cbn [on_return]. wp_step.
  apply wp_run_ddl; [done|done|intros nanos|done|done]. cbn [on_return].
  eapply wp_mono; [|by apply wp_guarded_attempts]. by intros s' [[?|?]|?].
Qed.

(** ** Queues *)

Create HintDb keeps discriminated.
#[export] Hint Constants Opaque : keeps.

Lemma keeps_weaken {A} (p : worker A) (Q : wstate → wstate → exn A → Prop) :
  (∀ s, wp policy p (Q s) s) → keeps_policy p.
Proof. intros Hp s. by eapply wp_mono; [|apply Hp]. Qed.

Lemma keeps_drop_then {A} (k : bool → worker A) :
  (∀ s, dropped (cur s) = true → wp policy (k true) (λ _ _, True) s) → keeps_policy (k false) →
  keeps_policy (d ← drop_privileges; k d).
Proof. intros Ht Hf s. wp_step. apply wp_drop_privileges; [by apply Ht|apply Hf|done]. Qed.

Lemma keeps_ret {A} (a : A) : keeps_policy (mret a).
Proof. by intros s. Qed.

Lemma keeps_warning msg : keeps_policy (op (Warning msg)).
Proof. by intros s. Qed.

Lemma keeps_seq {A B} (p : worker A) (f : A → worker B) :
  keeps_policy p → (∀ a, keeps_policy (f a)) → keeps_policy (p ≫= f).
Proof. intros Hp Hf s. apply keeps_bind; auto. Qed.

Lemma keeps_claim_local q key limit : keeps_policy (claim_local q key limit).
Proof.
  apply keeps_transaction, keeps_drop_then; [|apply keeps_ret].
  intros s Hd. unfold spi_get. do 2 wp_step. by apply wp_spi.
Qed.

Lemma keeps_complete_local q id args : keeps_policy (complete_local q id args).
Proof.
  apply keeps_transaction, keeps_drop_then; [|apply keeps_warning].
  intros s Hd. wp_step. apply wp_spi; [done|done| |done]. intros e. apply keeps_warning.
Qed.

Lemma keeps_run_sandboxed_sql a sql r : keeps_policy (run_sandboxed_sql a sql r).
Proof. eapply keeps_weaken. apply wp_run_sandboxed_sql. Qed.

Lemma keeps_run_function_call id i args r : keeps_policy (run_function_call id i args r).
Proof.
  unfold run_function_call. destruct (valid_sql_ident _ _) eqn:Hi; [|apply keeps_ret].
  eapply keeps_weaken. intros s. by apply wp_run_local_call; auto.
Qed.

Lemma keeps_run_procedure_call id i args r : keeps_policy (run_procedure_call id i args r).
Proof.
  unfold run_procedure_call. destruct (valid_sql_ident _ _) eqn:Hi; [|apply keeps_ret].
  eapply keeps_weaken. intros s. by apply wp_run_local_call; auto.
Qed.

Lemma keeps_run_guarded_build i body procedure : keeps_policy (run_guarded_build i body procedure).
Proof. eapply (keeps_weaken _ (λ _, _)). intros s. apply wp_run_guarded_build. Qed.

#[export] Hint Resolve keeps_ret keeps_warning keeps_transaction keeps_claim_local
  keeps_complete_local keeps_run_sandboxed_sql keeps_run_function_call keeps_run_procedure_call
  keeps_run_guarded_build : keeps.

(** Follow the structure of a program down to the jobs above. *)
Ltac keeps :=
  repeat first
    [ solve [auto with keeps nocore]
    | apply keeps_seq; [|intros ?]
    | apply keeps_for_each; intros ? ?
    | case_match ].

Lemma keeps_submit_sql_result id o : keeps_policy (submit_sql_result id o).
Proof. unfold submit_sql_result. keeps. Qed.

Lemma keeps_pump_sql : keeps_policy pump_sql.
Proof. unfold pump_sql, claim_sql_jobs, submit_sql_result. keeps. Qed.

Lemma keeps_pump_function_builds : keeps_policy pump_function_builds.
Proof.
  unfold pump_function_builds, claim_function_build_jobs, run_function_build,
    submit_function_build_result. keeps.
Qed.

Lemma keeps_pump_procedure_builds : keeps_policy pump_procedure_builds.
Proof.
  unfold pump_procedure_builds, claim_procedure_build_jobs, run_procedure_build,
    submit_procedure_build_result. keeps.
Qed.

Lemma keeps_pump_function_calls : keeps_policy pump_function_calls.
Proof. unfold pump_function_calls, claim_function_call_jobs, submit_function_call_result. keeps. Qed.

Lemma keeps_pump_procedure_calls : keeps_policy pump_procedure_calls.
Proof. unfold pump_procedure_calls, claim_procedure_call_jobs, submit_procedure_call_result. keeps. Qed.

#[export] Hint Resolve keeps_pump_sql keeps_pump_function_builds keeps_pump_procedure_builds
  keeps_pump_function_calls keeps_pump_procedure_calls : keeps.

(** * What the jobs leave behind *)

(** An environment whose answers to statements are given; everything else
    succeeds. *)
Definition scripted (answer : stmt → exn (result (option Value) bytes)) X (e : wop X) (s : unit) :
    X * unit :=
  match e in wop X return X * unit with
  | Spi st _ => (answer st, s)
  | GetEnv _ => (None, s)
  | TxBegin | SubBegin | SubRelease | SubRollback | SetSec _ _ | EnableTimeout _ _
  | DisableTimeout _ | Warning _ | WriteReply _ | SetCancelFlags _ => (tt, s)
  | TxCommit => (Returned tt, s)
  | GetSec => ((10, 0)%N, s)
  | SystemNanos => (255%N, s)
  | WaitLatch => (false, s)
  | Now => (0%Z, s)
  | AcceptRpc => (WouldBlock, s)
  | TryRecv => (None, s)
  | SendJob _ => (true, s)
  | CancelKeys => (None, s)
  | Connect _ => (tt, s)
  | SetNonblocking => (Ok tt, s)
  | Fs _ e => open_dir _ e s
  end.

(** PostgreSQL drops privileges and answers [v] to author code. *)
Definition obliging (v : Value) (st : stmt) : exn (result (option Value) bytes) :=
  match st with
  | AssumeWorkerRole => Returned (Ok (Some (Bool true)))
  | RunSandboxedSql | CallFunction _ | CallProcedure _ => Returned (Ok (Some v))
  | _ => Returned (Ok None)
  end.

(** C27: a call that succeeds -- sandboxed SQL, a function or a procedure --
    leaves the session's subtransactions as it found them and the statement
    timer disarmed, in every run. *)
Theorem call_success_clean call_id agent_id sql i args pg_role s tr v :
  runs (run_sandboxed_sql agent_id sql pg_role) tr (Returned (Ok v))
  ∨ runs (run_function_call call_id i args pg_role) tr (Returned (Ok v))
  ∨ runs (run_procedure_call call_id i args pg_role) tr (Returned (Ok v)) →
  saved (after policy s tr) = saved s ∧ timer (after policy s tr) = None.
Proof.
  intros [H|[H|H]].
  - apply (wp_sound policy _ (clean_success s) s) in H; [apply H|apply wp_run_sandboxed_sql].
  - apply (wp_sound policy _ (clean_success s) s) in H; [apply H|].
    unfold run_function_call. destruct (valid_sql_ident _ _) eqn:Hi; [|done].
    by apply wp_run_local_call; auto.
  - apply (wp_sound policy _ (clean_success s) s) in H; [apply H|].
    unfold run_procedure_call. destruct (valid_sql_ident _ _) eqn:Hi; [|done].
    by apply wp_run_local_call; auto.
Qed.

Definition idle_state : wstate := WState fresh_session [] None.

Lemma call_success_clean_witness :
  let tr := (run_with (scripted (obliging (obj [(bs "ok", Bool true)])))
               (run_sandboxed_sql (bs "a") (bs "SELECT 1") None) tt).1 in
  length tr = 17 ∧ timer (after policy idle_state tr) = None.
Proof.
  split; [vm_compute; reflexivity|].
  eapply (call_success_clean [] (bs "a") (bs "SELECT 1") [] Null None idle_state
            _ (obj [(bs "ok", Bool true)])).
  left. apply (run_with_runs (scripted (obliging (obj [(bs "ok", Bool true)])))
                 (run_sandboxed_sql (bs "a") (bs "SELECT 1") None) tt).
Defined.

(** The database did not grant the privilege drop: it was asked and answered,
    without an ERROR, anything but true. *)
Definition drop_refused (ev : event wop) : Prop :=
  match ev_op ev in wop X return X → Prop with
  | Spi AssumeWorkerRole _ => λ r,
      match r with
      | Returned (Ok (Some (Bool true))) | Raised _ => False
      | Returned _ => True
      end
  | _ => λ _, False
  end (ev_val ev).

(** Operations that do not ask for the drop. *)
Definition not_asking X (e : wop X) : Prop :=
  match e with Spi AssumeWorkerRole _ => False | _ => True end.

Lemma not_asking_refused tr :
  Forall (λ ev, not_asking _ (ev_op ev)) tr → ¬ Exists drop_refused tr.
Proof.
  intros Hn (ev & Hin & Hr)%Exists_exists. rewrite Forall_forall in Hn. specialize (Hn ev Hin).
  destruct ev as [X [[] ?| | | | | | | | | | | | | | | | | | | | | | | ] x]; done.
Qed.

Ltac not_asking_walk :=
  repeat lazymatch goal with
    | |- only _ (and_also _ _) => apply only_bind; [|intros []]
    | |- only _ (mbind _ _) => apply only_bind; [|intros ?]
    | |- only _ (with_fixed_role _) => unfold with_fixed_role
    | |- only _ (try _) => apply only_try
    | |- only _ (mret _) => exact I
    | |- only _ (raise _) => exact I
    | |- only _ (spi_ok _ _) => unfold spi_ok
    | |- only _ (spi _ _) => split; [exact I|by intros [[?|?]|?]]
    | |- only _ (op _) => split; [exact I|intros ?; exact I]
    | |- only _ (match ?x with _ => _ end) => destruct x
    end.

(** What is sent when the drop is refused. *)
Definition asks X (e : wop X) : Prop :=
  match e with GetEnv _ | Spi AssumeWorkerRole _ | Warning _ => True | _ => False end.

Lemma refused_drop tr r :
  runs drop_privileges tr r → Exists drop_refused tr →
  r = Returned false ∧ Forall (λ ev, asks _ (ev_op ev)) tr.
Proof.
  intros Hr He. apply runs_inv in Hr as (v & tr1 & -> & Hr). cbn in Hr.
  apply Exists_cons in He as [[]|He]. case_decide.
  { apply runs_inv in Hr as [-> _]. by apply Exists_nil in He. }
  apply runs_inv in Hr as (a & tr2 & -> & Hr). cbn in Hr.
  apply Exists_cons in He. destruct a as [[[[|[]| | | | ]|]|e]|m]; cbn in Hr;
    try (apply runs_inv in Hr as ([] & tr3 & -> & Hr); cbn in Hr);
    apply runs_inv in Hr as [-> ->]; cbn in He;
    try (split; [done|by repeat constructor]); by destruct He as [[]|?%Exists_nil].
Qed.

(** Behind a drop that is refused, the rest of a conjunction is not tried. *)
Lemma refused_guards (rest : worker bool) (f : bool → worker (result Value bytes)) tr r :
  only not_asking rest → only not_asking (f true) → (∀ b, f b = if b then f true else mret (Err (bs "sandbox role unavailable"))) →
  runs (d ← and_also drop_privileges rest; f d) tr r → Exists drop_refused tr →
  r = Returned (Err (bs "sandbox role unavailable")) ∧ Forall (λ ev, asks _ (ev_op ev)) tr.
Proof.
  intros Hrest Hf Hfb Hr He.
  assert (∀ b, only not_asking (f b)) as Hfo by (intros b; rewrite Hfb; by destruct b).
  apply runs_bind_inv in Hr as (tr1 & tr2 & d & -> & H1 & H2).
  apply runs_bind_inv in H1 as (tr3 & tr4 & x & -> & H3 & H4).
  assert (¬ Exists drop_refused tr4) as H4'.
  { destruct x as [[]|m].
    - apply not_asking_refused, (only_runs not_asking rest _ _ Hrest H4).
    - apply runs_inv in H4 as [-> _]. inversion 1.
    - destruct H4 as [-> _]. inversion 1. }
  assert (¬ Exists drop_refused tr2) as H2'.
  { destruct d as [d|m]; [|destruct H2 as [-> _]; inversion 1].
    apply not_asking_refused, (only_runs not_asking (f d) _ _ (Hfo d) H2). }
  rewrite !Exists_app in He. destruct He as [[He|?]|?]; [|done..].
  apply refused_drop in H3 as [-> Ha]; [|done].
  apply runs_inv in H4 as [-> ->]. rewrite Hfb in H2. apply runs_inv in H2 as [-> ->].
  split; [done|]. by rewrite !app_nil_r.
Qed.

Lemma asks_saved s tr : Forall (λ ev, asks _ (ev_op ev)) tr → saved (after policy s tr) = saved s.
Proof.
  intros H. revert s. induction H as [|[X e x] tr He _ IH]; intros s; [done|]. cbn [after]. rewrite IH.
  destruct e as [[] ?| | | | | | | | | | | | | | | | | | | | | | | ]; try done. simpl. by destruct x as [[]|].
Qed.

(** A program that ends in a plain error, asking for nothing more, when the
    drop is refused. *)
Definition gives_up (f : worker (result Value bytes)) (e : bytes) : Prop :=
  ∀ tr r, runs f tr r → Exists drop_refused tr →
    r = Returned (Err e) ∧ Forall (λ ev, asks _ (ev_op ev)) tr.

Lemma refused_subtransaction f e tr r :
  gives_up f e → runs (run_in_subtransaction f) tr r → Exists drop_refused tr →
  r = Returned (Err e) ∧ ∃ tr', tr = Event _ SubBegin tt :: tr' ∧ Forall (λ ev, asks _ (ev_op ev)) tr'.
Proof.
  intros Hf Hr He. unfold run_in_subtransaction in Hr.
  apply runs_inv in Hr as ([] & tr1 & -> & Hr). change (runs (x ← try f; match x with
    | Raised msg => _ ← op SubRollback; mret (Err msg)
    | Returned (Ok v) => _ ← op SubRelease; mret (Ok v)
    | Returned (Err e) => mret (Err e) end) tr1 r) in Hr.
  apply Exists_cons in He as [[]|He].
  apply runs_bind_inv in Hr as (tr2 & tr3 & x & -> & Ht & Hr).
  apply runs_prog_bind_inv in Ht as (tr4 & tr5 & x' & -> & Ht & Hx).
  apply runs_inv in Hx as [-> ->]. rewrite app_nil_r in *.
  apply Exists_app in He as [He|He].
  - destruct (Hf _ _ Ht He) as [-> Ha]. apply runs_inv in Hr as [-> ->].
    split; [done|]. exists tr4. by rewrite app_nil_r.
  - exfalso. revert He. apply not_asking_refused.
    destruct x' as [[v|e']|m]; eapply (only_runs not_asking) in Hr; try exact Hr; by repeat split.
Qed.

Lemma refused_transaction f e s tr r :
  gives_up f e → runs (transaction (run_in_subtransaction f)) tr (Returned r) → Exists drop_refused tr →
  r = Err e ∧ length (saved (after policy s tr)) = S (length (saved s))
  ∧ Forall (λ ev, match ev_op ev with
                  | Spi st _ => st = AssumeWorkerRole
                  | SubRelease | SubRollback => False
                  | _ => True
                  end) tr.
Proof.
  intros Hf Hr He. unfold transaction in Hr. apply runs_inv in Hr as ([] & tr1 & -> & Hr).
  change (runs (a ← run_in_subtransaction f; _ ← op_exn TxCommit; mret a) tr1 (Returned r)) in Hr.
  apply Exists_cons in He as [[]|He].
  apply runs_bind_inv in Hr as (tr2 & tr3 & x & -> & Hr & Hc).
  apply Exists_app in He as [He|He].
  - destruct (refused_subtransaction _ _ _ _ Hf Hr He) as [-> (tr' & -> & Ha)].
    apply runs_inv in Hc as (c & tr4 & -> & Hc).
    destruct c as [[]|m]; apply runs_inv in Hc as [-> [= ->]].
    split; [done|]. split.
    + cbn [after app]. rewrite after_app. cbn [after next policy wnext ev_op ev_val]. rewrite (asks_saved _ _ Ha).
      simpl. by rewrite saved_tx_start.
    + constructor; [done|]. constructor; [done|]. apply Forall_app. split; [|by repeat constructor].
      eapply Forall_impl; [exact Ha|]. intros [X ev x].
      by destruct ev as [[] ?| | | | | | | | | | | | | | | | | | | | | | | ].
  - exfalso. revert He. apply not_asking_refused. destruct x as [a|m]; [|destruct Hc as [-> _]; constructor].
    eapply (only_runs not_asking) in Hc; [exact Hc|]. split; [done|]. by intros [[]|m].
Qed.

(** C39: whenever the database refuses the privilege drop, [run_sandboxed_sql]
    sends nothing more and, if the commit does not raise, returns its plain
    error with the subtransaction it began still open: neither released nor
    rolled back. *)
Theorem plain_error_leaks_subtransaction agent_id sql pg_role s tr r :
  runs (run_sandboxed_sql agent_id sql pg_role) tr (Returned r) → Exists drop_refused tr →
  r = Err (bs "sandbox role unavailable")
  ∧ length (saved (after policy s tr)) = S (length (saved s))
  ∧ Forall (λ ev, match ev_op ev with
                  | Spi st _ => st = AssumeWorkerRole
                  | SubRelease | SubRollback => False
                  | _ => True
                  end) tr.
Proof.
  apply refused_transaction. intros tr' r'. apply refused_guards.
  - not_asking_walk.
  - cbn [negb]. not_asking_walk.
  - by intros [].
Qed.

(** A database in which the worker role is not ready. *)
Definition refusing : stmt → exn (result (option Value) bytes) := λ _, Returned (Ok (Some (Bool false))).

Lemma plain_error_leaks_subtransaction_witness :
  let run := run_with (scripted refusing) (run_sandboxed_sql (bs "a") (bs "SELECT 1") None) tt in
  run.2 = Returned (Err (bs "sandbox role unavailable"))
  ∧ length (saved (after policy idle_state run.1)) = 1.
Proof.
  split; [reflexivity|].
  apply (plain_error_leaks_subtransaction (bs "a") (bs "SELECT 1") None idle_state
    (run_with (scripted refusing) (run_sandboxed_sql (bs "a") (bs "SELECT 1") None) tt).1
    (Err (bs "sandbox role unavailable"))).
  - apply (run_with_runs (scripted refusing) (run_sandboxed_sql (bs "a") (bs "SELECT 1") None) tt).
  - do 3 right. by left.
Defined.

(** C40: an ERROR raised by the author's code -- a cancellation, or the
    statement timer itself -- is caught and reported, and the subtransaction is
    rolled back, but the timer it ran under is never disarmed. *)
Theorem raise_leaves_timer_armed agent_id sql pg_role msg s :
  ∃ tr, runs (run_sandboxed_sql agent_id sql pg_role) tr (Returned (Err msg))
    ∧ saved (after policy s tr) = saved s
    ∧ timer (after policy s tr) = Some SQL_STATEMENT_TIMEOUT_MS.
Proof.
  pose (h := scripted (λ st, match st with
                             | RunSandboxedSql => Raised msg
                             | _ => obliging Null st
                             end)).
  exists (run_with h (run_sandboxed_sql agent_id sql pg_role) tt).1. split_and!.
  - apply (run_with_runs h (run_sandboxed_sql agent_id sql pg_role) tt).
  - simpl. by rewrite saved_tx_start.
  - done.
Qed.

(** C26: a build that succeeds leaves an object whose body is the author's
    block behind the execution guard, never the bare block, in every run. *)
Theorem build_success_guarded sql_ident body procedure s tr :
  runs (run_guarded_build sql_ident body procedure) tr (Returned (Ok tt)) →
  guarded_object procedure sql_ident body (cur (after policy s tr)).
Proof.
  intros H. by destruct (wp_sound policy _ _ s _ _ (wp_run_guarded_build sql_ident body procedure s) H).
Qed.

Lemma build_success_guarded_witness :
  let i := bs "fn_0123456789abcdef0123456789abcdef" in
  let tr := (run_with (scripted (obliging Null)) (run_guarded_build i (bs "BEGIN END") false) tt).1 in
  length tr = 14 ∧ guarded_object false i (bs "BEGIN END") (cur (after policy idle_state tr)).
Proof.
  split; [vm_compute; reflexivity|]. apply build_success_guarded.
  apply (run_with_runs (scripted (obliging Null))
    (run_guarded_build (bs "fn_0123456789abcdef0123456789abcdef") (bs "BEGIN END") false) tt).
Defined.
