(* ===== verification/RuntimeWorker.v ===== *)
(** The main loop of the runtime worker (src/src/runtime_worker.rs) and its RPC
    socket (src/src/rpc.rs), over the operations of [Worker]. JSON text is read
    and written by serde_json, a parameter here. *)
From S2P Require Import Prelude RustStr Json Effects Config Idents Worker Exec Policy.

(** * Definitions *)



(** ** Transactions of the main loop *)

Definition extension_is_installed : worker bool :=
  transaction (v ← spi_get ExtensionInstalled []; mret (default false (v ≫= as_bool))).

(** Ask which of the calls that run are lost, and set their flags. *)
Definition cancel_lost (ids : list bytes) : worker unit :=
  lost ← transaction (
    d ← drop_privileges;
    if (d : bool) then
      r ← spi CheckLostOutbound [Arr (map Str ids)];
      mret (match r with
            | Ok (Some v) => match as_array v with Some a => omap as_str a | None => [] end
            | _ => []
            end)
    else mret []);
  match lost with [] => mret tt | _ => op (SetCancelFlags lost) end.

Definition propagate_outbound_cancellations : worker unit :=
  ks ← op CancelKeys;
  match ks with
  | None | Some [] => mret tt
  | Some ids => cancel_lost ids
  end.

(** A statement whose error is only logged. *)
Definition warn_on_error (name : bytes) (r : result (option Value) bytes) : worker unit :=
  match r with
  | Ok _ => mret tt
  | Err e => op (Warning (bs "Allgres: " ++ name ++ bs " failed: " ++ e))
  end.

Definition dispatch_and_claim (limit : nat) : worker Value :=
  transaction (
    d ← drop_privileges;
    if (d : bool) then
      w ← spi Watchdog [number_arg (HTTP_TIMEOUT_SECS * 2)];
      _ ← warn_on_error (bs "fn_watchdog") w;
      t ← spi DispatchTasks [];
      _ ← warn_on_error (bs "fn_dispatch_tasks") t;
      v ← spi_get (ClaimHttp Outbound) [number_arg (N.of_nat limit)];
      mret (default (no_jobs (bs "calls")) v)
    else mret (no_jobs (bs "calls"))).

(** The shape of the three other claims. *)
Definition claim_http (q : OutboundQueue) (limit : nat) : worker Value :=
  transaction (
    d ← drop_privileges;
    if (d : bool) then
      v ← spi_get (ClaimHttp q) [number_arg (N.of_nat limit)];
      mret (default (no_jobs (bs "calls")) v)
    else mret (no_jobs (bs "calls"))).

Definition claim_oauth_jobs (limit : nat) : worker Value := claim_http Oauth limit.
Definition claim_agent_embedding_jobs (limit : nat) : worker Value := claim_http AgentEmbedding limit.
Definition claim_provider_probe_jobs (limit : nat) : worker Value := claim_http ProviderProbe limit.

(** Postgres text cannot hold NUL. *)
Definition stored_body (body : bytes) : bytes :=
  truncate_utf8 (filter (λ b, b ≠ x00) body) MAX_RESPONSE_BYTES.

(** The shape of the four completions. *)
Definition complete_http (q : OutboundQueue) (call_id : bytes) (status : Z) (body : bytes) :
    worker unit :=
  let name := bs "fn_complete_" ++ http_queue_name q in
  transaction (
    d ← drop_privileges;
    if (d : bool) then
      r ← spi (CompleteHttp q) [Str call_id; int_arg status; Str (stored_body body)];
      match r with
      | Ok _ => mret tt
      | Err e =>
          op (Warning (bs "Allgres: " ++ name ++ bs " failed for call " ++ call_id ++ bs ": " ++ e))
      end
    else
      op (Warning (bs "Allgres: skipping " ++ name ++ bs " for call " ++ call_id
                   ++ bs " -- privilege drop failed"))).

Definition submit_http_result := complete_http Outbound.
Definition submit_oauth_result := complete_http Oauth.
Definition submit_agent_embedding_result := complete_http AgentEmbedding.
Definition submit_provider_probe_result := complete_http ProviderProbe.

Section runtime.
(** [Value::to_string] and [serde_json::from_str::<Value>]. *)
Context (json_text : Value → bytes) (json_parse : bytes → option Value).

Definition json_error (e : bytes) : bytes :=
  json_text (obj [(bs "ok", Bool false); (bs "error", Str e)]).

Definition dashboard_rpc (request : bytes) : worker bytes :=
  transaction (
    d ← drop_privileges;
    if (d : bool) then
      v ← spi_get DashboardRpc [Str request];
      mret (match v with Some j => json_text j | None => json_error (bs "empty_rpc_result") end)
    else mret (json_error (bs "privilege_drop_failed"))).

(** ** The RPC socket (rpc.rs) *)

(** [data] is what reading to the end gives: [None] when a read fails. *)
Definition handle_rpc_stream (data : option bytes) (ready : bool) : worker unit :=
  match data with
  | None => op (WriteReply (json_error (bs "rpc_read_failed")))
  | Some all =>
      let body := take MAX_REQUEST_BYTES all in
      reply ←
        (if valid_utf8 body && bool_decide (is_Some (json_parse body)) then
           if (ready : bool) then dashboard_rpc body
           else mret (json_error (bs "extension_not_installed"))
         else mret (json_error (bs "invalid_json_request")));
      op (WriteReply reply)
  end.

(** ** The main loop *)

Record runtime : Type := Runtime {
  in_flight : nat; ready : bool; next_pump : Z; idle_delay : Z }.

Definition capacity : nat := HTTP_THREADS * 2.

(** 1. Dashboard RPC. *)
Definition accept_round (ready : bool) (_ : unit) : worker (unit * bool) :=
  a ← op AcceptRpc;
  match a with
  | Connection data => _ ← handle_rpc_stream data ready; mret (tt, true)
  | WouldBlock => mret (tt, false)
  | AcceptError e => _ ← op (Warning (bs "Allgres RPC accept: " ++ e)); mret (tt, false)
  end.

(** 2. Harvest what the HTTP threads finished. *)
Definition harvest_round (in_flight : nat) : worker (nat * bool) :=
  r ← op TryRecv;
  match r with
  | None => mret (in_flight, false)
  | Some r =>
      _ ← (match res_queue r with
           | Outbound => submit_http_result
           | Oauth => submit_oauth_result
           | AgentEmbedding => submit_agent_embedding_result
           | ProviderProbe => submit_provider_probe_result
           end) (res_call_id r) (res_status r) (res_body r);
      mret (in_flight - 1, true)
  end.

(** What the pump does to a claimed call before it hands it on. *)
Definition tag_call (q : OutboundQueue) (call : Value) : Value :=
  let tagged k := match call with Obj m => Obj (obj_insert m (bs "kind") (Str k)) | _ => call end in
  match q with
  | Outbound => call
  | Oauth => tagged (bs "oauth")
  | AgentEmbedding => tagged (bs "embedding")
  | ProviderProbe => tagged (bs "function")
  end.

(** Hand the claimed calls to the pool until a send fails: the new in-flight
    count and how many were queued. *)
Fixpoint enqueue (q : OutboundQueue) (calls : list Value) (in_flight queued : nat) :
    worker (nat * nat) :=
  match calls with
  | [] => mret (in_flight, queued)
  | call :: rest =>
      match get_str (bs "call_id") call with
      | Some id =>
          if negb (valid_uuid id) then enqueue q rest in_flight queued
          else
            sent ← op (SendJob (mkJob id q (tag_call q call)));
            if (sent : bool) then enqueue q rest (S in_flight) (S queued)
            else mret (in_flight, queued)
      | None => enqueue q rest in_flight queued
      end
  end.

(** 3 to 3d: one queue, with the capacity that is left. *)
Definition pump_queue (q : OutboundQueue) (claim : nat → worker Value) (ready : bool)
    (counts : nat * nat) : worker (nat * nat) :=
  let '(in_flight, queued) := counts in
  if ready && (in_flight <? capacity)%nat then
    claimed ← claim (capacity - in_flight);
    match get_array (bs "calls") claimed with
    | Some calls => enqueue q calls in_flight queued
    | None => mret counts
    end
  else mret counts.

Definition if_ready (ready : bool) (p : worker nat) : worker nat :=
  if ready then p else mret 0.

(** When to pump next, and the next idle delay. *)
Definition reschedule (busy : bool) (now idle_delay : Z) : Z * Z :=
  if busy then ((now + PUMP_BUSY)%Z, PUMP_IDLE_MIN)
  else ((now + idle_delay)%Z, Z.min (idle_delay * 2) PUMP_IDLE_MAX).

(** 3 to 6: everything behind [next_pump]. *)
Definition pump_all (st : runtime) : worker runtime :=
  ready' ← extension_is_installed;
  c0 ← pump_queue Outbound dispatch_and_claim ready' (in_flight st, 0);
  c1 ← pump_queue Oauth claim_oauth_jobs ready' c0;
  c2 ← pump_queue AgentEmbedding claim_agent_embedding_jobs ready' c1;
  '(flying, queued) ← pump_queue ProviderProbe claim_provider_probe_jobs ready' c2;
  sql_ran ← if_ready ready' pump_sql;
  functions_ran ← if_ready ready' (
    b ← pump_function_builds; c ← pump_function_calls; mret (b + c)%nat);
  procedures_ran ← if_ready ready' (
    b ← pump_procedure_builds; c ← pump_procedure_calls; mret (b + c)%nat);
  let busy := (0 <? queued)%nat || (0 <? sql_ran)%nat || (0 <? functions_ran)%nat
              || (0 <? procedures_ran)%nat in
  now ← op Now;
  let '(next, delay) := reschedule busy now (idle_delay st) in
  mret (Runtime flying ready' next delay).

(** One turn of the loop, once the latch woke; the two inner loops each get
    [fuel] rounds, and [None] is a turn that is still in one of them. *)
Definition tick (fuel : nat) (st : runtime) : worker (option runtime) :=
  a ← loop fuel (accept_round (ready st)) tt;
  match a with
  | None => mret None
  | Some _ =>
      h ← loop fuel harvest_round (in_flight st);
      match h with
      | None => mret None
      | Some flying =>
          _ ← propagate_outbound_cancellations;
          now ← op Now;
          let st' := Runtime flying (ready st) (next_pump st) (idle_delay st) in
          if (now <? next_pump st)%Z then mret (Some st')
          else st'' ← pump_all st'; mret (Some st'')
      end
  end.

Definition turn (fuel : nat) (st : option runtime) : worker (option runtime * bool) :=
  match st with
  | None => mret (None, false)
  | Some st =>
      go ← op WaitLatch;
      if (go : bool) then st' ← tick fuel st; mret (st', true) else mret (Some st, false)
  end.

(** The worker, for [fuel] turns. *)
Definition allgres_runtime_main (fuel : nat) (w : world) : worker unit :=
  _ ← op (Connect (configured_database (env w)));
  b ← translate Fs (bind_rpc_socket (socket_dir w));
  match b with
  | Err e => op (Warning (bs "Allgres RPC bind failed (" ++ socket_dir w ++ bs "): " ++ e))
  | Ok _ =>
      n ← op SetNonblocking;
      match n with
      | Err e => op (Warning (bs "Allgres RPC nonblocking failed: " ++ e))
      | Ok _ =>
          now ← op Now;
          r ← loop fuel (turn fuel) (Some (Runtime 0 false now PUMP_IDLE_MIN));
          match r with
          | Some (Some _) => op (Fs _ (RemoveFile (rpc_socket_path w)))
          | _ => mret tt
          end
      end
  end.

End runtime.

(** * The whole worker keeps the privilege policy *)

Lemma keeps_loop {S} fuel (body : S → worker (S * bool)) x :
  (∀ x, keeps_policy (body x)) → keeps_policy (loop fuel body x).
Proof.
  intros Hb s. apply (wp_loop _ (λ _ _, True)); [done| |done|done].
  intros s' x' _. eapply wp_mono; [|apply Hb]. by intros ? [[??]|?].
Qed.

(** Operations that send no statement. *)
Definition silent X (e : wop X) : Prop :=
  match e with Spi _ _ => False | _ => True end.

Lemma keeps_op {X} (e : wop X) : silent X e → keeps_policy (op e).
Proof. intros He s. split; [by destruct e|done]. Qed.

Lemma keeps_fs {A} (p : fs A) : keeps_policy (translate Fs p).
Proof.
  intros s. apply wp_translate. eapply wp_mono; [|apply (only_wp (λ _ _, True)); [done|by apply only_all]].
  done.
Qed.

Lemma keeps_extension_is_installed : keeps_policy extension_is_installed.
Proof.
  apply keeps_transaction. intros s. unfold spi_get. do 2 wp_step. by apply wp_spi.
Qed.

(** A statement behind the privilege drop. *)
Lemma keeps_dropped_spi {A} st args (k : result (option Value) bytes → worker A) s :
  dropped (cur s) = true →
  (∀ s', dropped (cur s') = true → may_send s' st args) →
  (∀ c v, stmt_effect st args v c = c) →
  (∀ r s', dropped (cur s') = true → wp policy (k r) (λ _ _, True) s') →
  wp policy (r ← spi st args; k r) (λ _ _, True) s.
Proof.
  intros Hd Hm He Hk. wp_step. apply wp_spi; simpl; [by apply Hm| | |done].
  - intros v. rewrite with_cur_id; [by apply Hk|]. intros c. apply He.
  - intros e. by apply Hk.
Qed.

Lemma keeps_propagate : keeps_policy propagate_outbound_cancellations.
Proof.
  apply keeps_seq; [by apply keeps_op|]. intros [[|i ids]|]; try apply keeps_ret.
  apply keeps_seq.
  - apply keeps_transaction, keeps_drop_then; [|apply keeps_ret]. intros s Hd.
    apply keeps_dropped_spi; done.
  - intros [|l lost]; [apply keeps_ret|]. by apply keeps_op.
Qed.

Lemma keeps_warn s name r (k : worker Value) :
  dropped (cur s) = true → (∀ s', dropped (cur s') = true → wp policy k (λ _ _, True) s') →
  wp policy (_ ← warn_on_error name r; k) (λ _ _, True) s.
Proof.
  intros Hd Hk. wp_step. destruct r as [v|e]; simpl; [by apply Hk|]. split; [done|].
  intros ?. by apply Hk.
Qed.

Lemma keeps_claim q limit s :
  dropped (cur s) = true →
  wp policy (v ← spi_get (ClaimHttp q) [number_arg (N.of_nat limit)];
             mret (default (no_jobs (bs "calls")) v)) (λ _ _, True) s.
Proof. intros Hd. unfold spi_get. do 2 wp_step. by apply wp_spi. Qed.

Lemma keeps_dispatch_and_claim limit : keeps_policy (dispatch_and_claim limit).
Proof.
  apply keeps_transaction, keeps_drop_then; [|apply keeps_ret]. intros s Hd.
  apply keeps_dropped_spi; [done..|]. intros w s1 H1. apply keeps_warn; [done|]. intros s2 H2.
  apply keeps_dropped_spi; [done..|]. intros t s3 H3. apply keeps_warn; [done|]. intros s4 H4.
  by apply keeps_claim.
Qed.

Lemma keeps_claim_http q limit : keeps_policy (claim_http q limit).
Proof.
  apply keeps_transaction, keeps_drop_then; [|apply keeps_ret]. intros s Hd. by apply keeps_claim.
Qed.

Lemma keeps_complete_http q id status body : keeps_policy (complete_http q id status body).
Proof.
  apply keeps_transaction, keeps_drop_then; [|apply keeps_warning]. intros s Hd.
  apply keeps_dropped_spi; [done..|]. intros [v|e] s' _; [done|apply keeps_warning].
Qed.

Lemma keeps_enqueue q calls n m : keeps_policy (enqueue q calls n m).
Proof.
  revert n m. induction calls as [|c calls IH]; intros n m; cbn [enqueue];
    [apply keeps_ret|].
  repeat case_match; auto using keeps_ret. apply keeps_seq; [by apply keeps_op|].
  intros []; auto using keeps_ret.
Qed.

Lemma keeps_pump_queue q claim r c :
  (∀ limit, keeps_policy (claim limit)) → keeps_policy (pump_queue q claim r c).
Proof.
  intros Hc. destruct c as [n m]. unfold pump_queue. case_match; [|apply keeps_ret].
  apply keeps_seq; [done|]. intros v. case_match; [apply keeps_enqueue|apply keeps_ret].
Qed.

#[export] Hint Resolve keeps_extension_is_installed keeps_propagate keeps_dispatch_and_claim
  keeps_claim_http keeps_complete_http keeps_pump_queue : keeps.

Section keeps_runtime.
Context (json_text : Value → bytes) (json_parse : bytes → option Value).

Lemma keeps_dashboard_rpc request : keeps_policy (dashboard_rpc json_text request).
Proof.
  apply keeps_transaction, keeps_drop_then; [|apply keeps_ret]. intros s Hd.
  unfold spi_get. do 2 wp_step. by apply wp_spi.
Qed.

Lemma keeps_handle_rpc_stream data r :
  keeps_policy (handle_rpc_stream json_text json_parse data r).
Proof.
  destruct data as [all|]; [|by apply keeps_op]. apply keeps_seq; [|intros; by apply keeps_op].
  repeat case_match; auto using keeps_dashboard_rpc, keeps_ret.
Qed.

Lemma keeps_accept_round r x : keeps_policy (accept_round json_text json_parse r x).
Proof.
  apply keeps_seq; [by apply keeps_op|]. intros [data| |e].
  - apply keeps_seq; [apply keeps_handle_rpc_stream|]. intros. apply keeps_ret.
  - apply keeps_ret.
  - apply keeps_seq; [by apply keeps_op|]. intros. apply keeps_ret.
Qed.

Lemma keeps_harvest_round n : keeps_policy (harvest_round n).
Proof.
  apply keeps_seq; [by apply keeps_op|]. intros [r|]; [|apply keeps_ret].
  apply keeps_seq; [|intros; apply keeps_ret]. case_match; apply keeps_complete_http.
Qed.

Lemma keeps_if_ready r p : keeps_policy p → keeps_policy (if_ready r p).
Proof. intros Hp. destruct r; [exact Hp|apply keeps_ret]. Qed.

Lemma keeps_pump_all st : keeps_policy (pump_all st).
Proof.
  unfold pump_all, claim_oauth_jobs, claim_agent_embedding_jobs, claim_provider_probe_jobs.
  repeat lazymatch goal with
    | |- keeps_policy (mbind _ _) => apply keeps_seq; [|intros ?]
    | |- keeps_policy (op _) => by apply keeps_op
    | |- keeps_policy (mret _) => apply keeps_ret
    | |- keeps_policy (if_ready _ _) => apply keeps_if_ready
    | |- keeps_policy (pump_queue _ _ _ _) => apply keeps_pump_queue; intros ?
    | |- keeps_policy (match ?x with _ => _ end) => destruct x
    | |- _ => solve [auto with keeps nocore]
    end.
Qed.

Lemma keeps_tick fuel st : keeps_policy (tick json_text json_parse fuel st).
Proof.
  unfold tick. apply keeps_seq; [apply keeps_loop, keeps_accept_round|].
  intros [[]|]; [|apply keeps_ret].
  apply keeps_seq; [apply keeps_loop, keeps_harvest_round|]. intros [n|]; [|apply keeps_ret].
  apply keeps_seq; [apply keeps_propagate|]. intros _. apply keeps_seq; [by apply keeps_op|].
  intros now. case_match; [apply keeps_ret|]. apply keeps_seq; [apply keeps_pump_all|].
  intros. apply keeps_ret.
Qed.

Lemma keeps_turn fuel st : keeps_policy (turn json_text json_parse fuel st).
Proof.
  destruct st as [st|]; [|apply keeps_ret]. apply keeps_seq; [by apply keeps_op|].
  intros []; [|apply keeps_ret]. apply keeps_seq; [apply keeps_tick|]. intros. apply keeps_ret.
Qed.

Lemma keeps_main fuel w : keeps_policy (allgres_runtime_main json_text json_parse fuel w).
Proof.
  unfold allgres_runtime_main.
  repeat first
    [ apply keeps_ret | apply keeps_fs | apply keeps_op; done | apply keeps_loop, keeps_turn | case_match
    | apply keeps_seq; [|intros ?] ].
Qed.

End keeps_runtime.

(** C34: the body recorded for an HTTP result is what PostgreSQL text can hold:
    valid UTF-8 without NUL and within the limit; it is the received text
    without its NULs, cut only when too long and then at the last character
    boundary that fits. *)
Theorem stored_body_ok body :
  valid_utf8 body = true →
  let text := filter (λ b, b ≠ x00) body in
  valid_utf8 (stored_body body) = true ∧ (x00 ∉ stored_body body)
  ∧ length (stored_body body) ≤ MAX_RESPONSE_BYTES
  ∧ (stored_body body `prefix_of` text)
  ∧ (length text ≤ MAX_RESPONSE_BYTES → stored_body body = text)
  ∧ (MAX_RESPONSE_BYTES < length text →
     ∀ j, length (stored_body body) < j ≤ MAX_RESPONSE_BYTES → is_char_boundary text j = false).
Proof.
  intros Hv text. pose proof (truncate_utf8_prefix text MAX_RESPONSE_BYTES) as [r Hr].
  unfold stored_body. fold text. split_and!.
  - by apply truncate_utf8_valid, valid_utf8_remove_nul.
  - intros Hin. assert (x00 ∈ text) as Ht by (rewrite Hr; set_solver).
    apply list_elem_of_filter in Ht as [[] _]. done.
  - apply truncate_utf8_length.
  - by exists r.
  - intros Hl. unfold truncate_utf8. by rewrite decide_True.
  - intros Hl j. by apply truncate_utf8_max.
Qed.

Lemma stored_body_ok_witness :
  stored_body [x68; x00; xc3; xa9] = [x68; xc3; xa9]
  ∧ x00 ∉ stored_body [x68; x00; xc3; xa9].
Proof.
  split; [reflexivity|].
  destruct (stored_body_ok [x68; x00; xc3; xa9] eq_refl) as (_ & H & _). exact H.
Defined.
