(* ===== verification/Ledger.v ===== *)
(** The bookkeeping of the runtime worker's main loop, as a second monitor:
    the capacity of the HTTP pool, the routing of results to the queue they
    came from, replies on the RPC socket, and what waits for the extension. *)
From S2P Require Import Prelude RustStr Json Effects Config Idents Worker Exec Policy RuntimeWorker.

Record ledger : Type := Ledger {
  flying : nat;                      (* jobs handed to the pool and not yet harvested *)
  honest : bool;                     (* no claim gave more calls than its limit *)
  pending : option OutboundResult;   (* harvested, not yet completed *)
  installed : bool;                  (* the last answer to ExtensionInstalled *)
  owes : bool                        (* a connection waits for its reply *)
}.

(** [fn_claim_*] was asked for at most [n] calls. *)
Definition claim_limit (args : list Value) : nat :=
  match args with [Number (PosInt n)] => N.to_nat n | _ => 0 end.

Definition within_limit (args : list Value) (v : option Value) : bool :=
  match v ≫= get_array (bs "calls") with
  | Some calls => bool_decide (length calls ≤ claim_limit args)
  | None => true
  end.

Definition lspi (s : ledger) (st : stmt) (args : list Value)
    (r : exn (result (option Value) bytes)) : ledger :=
  match st, r with
  | ExtensionInstalled, Returned (Ok v) =>
      Ledger (flying s) (honest s) (pending s) (default false (v ≫= as_bool)) (owes s)
  | ExtensionInstalled, _ => Ledger (flying s) (honest s) (pending s) false (owes s)
  | ClaimHttp _, Returned (Ok v) =>
      Ledger (flying s) (honest s && within_limit args v) (pending s) (installed s) (owes s)
  | CompleteHttp _, _ => Ledger (flying s) (honest s) None (installed s) (owes s)
  | _, _ => s
  end.

Definition lnext (s : ledger) X (e : wop X) : X → ledger :=
  match e in wop X return X → ledger with
  | Spi st args => lspi s st args
  | SendJob _ => λ sent,
      Ledger (if (sent : bool) then S (flying s) else flying s) (honest s) (pending s)
        (installed s) (owes s)
  | TryRecv => λ r,
      match r with
      | Some _ => Ledger (flying s - 1) (honest s) r (installed s) (owes s)
      | None => s
      end
  | AcceptRpc => λ a,
      match a with
      | Connection _ => Ledger (flying s) (honest s) (pending s) (installed s) true
      | _ => s
      end
  | WriteReply _ => λ _, Ledger (flying s) (honest s) (pending s) (installed s) false
  | _ => λ _, s
  end.

(** How each queue's jobs are marked for the pool. *)
Definition queue_kind (q : OutboundQueue) : option bytes :=
  match q with
  | Outbound => None
  | Oauth => Some (bs "oauth")
  | AgentEmbedding => Some (bs "embedding")
  | ProviderProbe => Some (bs "function")
  end.

Section ledger.
Context (json_text : Value → bytes) (json_parse : bytes → option Value).

Definition rpc_request (args : list Value) : Prop :=
  ∃ text, args = [Str text] ∧ is_Some (json_parse text) ∧ valid_utf8 text = true
    ∧ length text ≤ MAX_REQUEST_BYTES.

Definition lallowed_stmt (s : ledger) (st : stmt) (args : list Value) : Prop :=
  match st with
  | DashboardRpc => installed s = true ∧ rpc_request args
  | Watchdog | DispatchTasks | ClaimLocal _ => installed s = true
  | ClaimHttp _ =>
      installed s = true
      ∧ ∃ n, args = [number_arg (N.of_nat n)] ∧ 0 < n ∧ flying s + n = capacity
  | CompleteHttp q =>
      ∃ r, pending s = Some r ∧ q = res_queue r
        ∧ args = [Str (res_call_id r); int_arg (res_status r); Str (stored_body (res_body r))]
  | _ => True
  end.

Definition lallowed (s : ledger) X (e : wop X) : Prop :=
  match e with
  | Spi st args => lallowed_stmt s st args
  | SendJob job =>
      valid_uuid (job_call_id job) = true
      ∧ get_str (bs "call_id") (job_call job) = Some (job_call_id job)
      ∧ (∀ k, queue_kind (job_queue job) = Some k → get_str (bs "kind") (job_call job) = Some k)
      ∧ (honest s = true → flying s < capacity)
  | AcceptRpc => owes s = false
  | WriteReply _ => owes s = true
  | _ => True
  end.

Definition books : monitor wop := Monitor ledger lallowed lnext.

(** * Operations the ledger does not follow *)

Definition untracked_stmt (st : stmt) : Prop :=
  match st with
  | ExtensionInstalled | DashboardRpc | Watchdog | DispatchTasks | ClaimLocal _ | ClaimHttp _
  | CompleteHttp _ => False
  | _ => True
  end.

Definition untracked X (e : wop X) : Prop :=
  match e with
  | Spi st _ => untracked_stmt st
  | SendJob _ | TryRecv | AcceptRpc | WriteReply _ | Fs _ _ => False
  | _ => True
  end.

(** Operations of the session itself: statements and its transactions, roles
    and timers. *)
Definition session_op X (e : wop X) : Prop :=
  match e with
  | Spi st _ => untracked_stmt st
  | GetEnv _ | TxBegin | TxCommit | SubBegin | SubRelease | SubRollback | GetSec | SetSec _ _
  | EnableTimeout _ _ | DisableTimeout _ | SystemNanos | Warning _ => True
  | _ => False
  end.

(** The jobs of the worker's own thread also claim from their queues. *)
Definition local_work X (e : wop X) : Prop :=
  match e with
  | Spi (ClaimLocal _) _ => True
  | _ => session_op X e
  end.

Lemma untracked_ignored s X (e : wop X) :
  untracked X e → allowed books s e ∧ ∀ x, next books s e x = s.
Proof. destruct e as [[] ?| | | | | | | | | | | | | | | | | | | | | | |]; simpl; try done. Qed.

Lemma local_work_ignored s X (e : wop X) :
  installed s = true → local_work X e → allowed books s e ∧ ∀ x, next books s e x = s.
Proof.
  intros Hs He. destruct e as [[] ?| | | | | | | | | | | | | | | | | | | | | | |]; simpl in *; done.
Qed.

End ledger.

(** Walk a program, leaving nothing when each of its operations is in [P]. *)
Ltac only_walk :=
  repeat lazymatch goal with
    | |- only _ (mbind _ _) => apply only_bind; [|intros ?]
    | |- only _ (mret _) => exact I
    | |- only _ (op _) => split; [done|intros ?; exact I]
    | |- only _ (op_exn _) => split; [done|intros ?; exact I]
    | |- only _ (spi _ _) => split; [done|intros ?; exact I]
    | |- only _ (try _) => apply only_try
    | |- only _ (for_each _ _ _) => apply only_for_each; intros ? ?
    | |- only _ (match ?x with _ => _ end) => destruct x
    end.

Section local.

Lemma only_drop P :
  (∀ X (e : wop X), session_op X e → P X e) → only P drop_privileges.
Proof.
  intros HP. unfold drop_privileges.
  repeat lazymatch goal with
    | |- only _ (mbind _ _) => apply only_bind; [|intros ?]
    | |- only _ (mret _) => exact I
    | |- only _ (op _) => split; [apply HP; done|intros ?; exact I]
    | |- only _ (spi _ _) => split; [apply HP; done|intros ?; exact I]
    | |- only _ (match ?x with _ => _ end) => destruct x
    end.
Qed.

Lemma session_untracked X (e : wop X) : session_op X e → untracked X e.
Proof. by destruct e. Qed.

Lemma session_local X (e : wop X) : session_op X e → local_work X e.
Proof. destruct e as [[] ?| | | | | | | | | | | | | | | | | | | | | | |]; done. Qed.

Lemma only_transaction {A} (p : worker A) : only local_work p → only local_work (transaction p).
Proof. intros Hp. unfold transaction. only_walk. done. Qed.

Lemma only_subtransaction p : only local_work p → only local_work (run_in_subtransaction p).
Proof. intros Hp. unfold run_in_subtransaction. only_walk. done. Qed.

Ltac local_walk :=
  repeat first
    [ progress only_walk
    | lazymatch goal with
      | |- only _ (transaction _) => apply only_transaction
      | |- only _ (run_in_subtransaction _) => apply only_subtransaction
      | |- only _ drop_privileges => apply only_drop, session_local
      | |- only _ (and_also _ _) => unfold and_also
      | |- only _ (spi_ok _ _) => unfold spi_ok
      | |- only _ (spi_get _ _) => unfold spi_get
      | |- only _ (with_fixed_role _) => unfold with_fixed_role
      | |- only _ (run_ddl _ _ _) => unfold run_ddl
      | |- only _ (claim_local _ _ _) => unfold claim_local
      | |- only _ (complete_local _ _ _) => unfold complete_local
      end ].

Lemma local_sandboxed_sql a sql r : only local_work (run_sandboxed_sql a sql r).
Proof. unfold run_sandboxed_sql. local_walk. Qed.

Lemma local_call call table ms msg id args r :
  untracked_stmt call → only local_work (run_local_call call table ms msg id args r).
Proof.
  intros Hc. unfold run_local_call, and_also, with_fixed_role. local_walk.
  split; [by apply session_local|done].
Qed.

Lemma local_guarded_build i body p : only local_work (run_guarded_build i body p).
Proof. unfold run_guarded_build. local_walk. Qed.

Lemma local_claim q key limit : only local_work (claim_local q key limit).
Proof. local_walk. Qed.

Lemma local_complete q id args : only local_work (complete_local q id args).
Proof. local_walk. Qed.

Ltac pump_walk :=
  repeat lazymatch goal with
    | |- only _ (mbind _ _) => apply only_bind; [|intros ?]
    | |- only _ (mret _) => exact I
    | |- only _ (for_each _ _ _) => apply only_for_each; intros ? ?
    | |- only _ (claim_local _ _ _) => apply local_claim
    | |- only _ (complete_local _ _ _) => apply local_complete
    | |- only _ (run_sandboxed_sql _ _ _) => apply local_sandboxed_sql
    | |- only _ (run_local_call _ _ _ _ _ _ _) => by apply local_call
    | |- only _ (run_guarded_build _ _ _) => apply local_guarded_build
    | |- only _ (match ?x with _ => _ end) => destruct x
    end.

Lemma local_pump_sql : only local_work pump_sql.
Proof. unfold pump_sql, claim_sql_jobs, submit_sql_result. pump_walk. Qed.

Lemma local_pump_functions :
  only local_work (b ← pump_function_builds; c ← pump_function_calls; mret (b + c)%nat).
Proof.
  unfold pump_function_builds, pump_function_calls, claim_function_build_jobs,
    claim_function_call_jobs, run_function_build, run_function_call,
    submit_function_build_result, submit_function_call_result. pump_walk.
Qed.

Lemma local_pump_procedures :
  only local_work (b ← pump_procedure_builds; c ← pump_procedure_calls; mret (b + c)%nat).
Proof.
  unfold pump_procedure_builds, pump_procedure_calls, claim_procedure_build_jobs,
    claim_procedure_call_jobs, run_procedure_build, run_procedure_call,
    submit_procedure_build_result, submit_procedure_call_result. pump_walk.
Qed.

End local.

(** * The main loop keeps the books *)

Section books.
Context (json_text : Value → bytes) (json_parse : bytes → option Value).
Abbreviation M := (books json_parse).

Lemma books_untracked {A} (p : worker A) (Q : ledger → A → Prop) s :
  only untracked p → (∀ a, Q s a) → wpr M p Q s.
Proof. intros Hp HQ. eapply (wpr_only M untracked); [done| |done]. intros. by apply untracked_ignored. Qed.

Lemma books_op {X} (e : wop X) (Q : ledger → X → Prop) s :
  untracked X e → (∀ x, Q s x) → wpr M (op e) Q s.
Proof. intros He HQ. by apply books_untracked. Qed.

Lemma books_fs {A} (p : fs A) (Q : ledger → A → Prop) s :
  (∀ a, Q s a) → wpr M (translate Fs p) Q s.
Proof.
  intros HQ. eapply (wpr_only M (λ X e, match e with Fs _ _ => True | _ => False end)).
  - by apply only_translate.
  - intros X e He. by destruct e.
  - done.
Qed.

Lemma books_transaction {A} (p : worker A) (Q : ledger → A → Prop) s :
  wpr M p Q s → wpr M (transaction p) Q s.
Proof.
  intros Hp. unfold transaction. apply wpr_bind, books_op; [done|]. intros _.
  apply wpr_bind. eapply wpr_mono; [exact Hp|]. intros s' a HQ.
  apply wpr_bind, wpr_op_exn; [done|]. intros []. by apply wpr_ret.
Qed.

Lemma books_drop {A} (k : bool → worker A) (Q : ledger → A → Prop) s :
  (∀ d, wpr M (k d) Q s) → wpr M (d ← drop_privileges; k d) Q s.
Proof.
  intros Hk. apply wpr_bind, books_untracked; [by apply only_drop, session_untracked|]. exact Hk.
Qed.

Lemma books_spi st args (Q : ledger → result (option Value) bytes → Prop) s :
  lallowed_stmt json_parse s st args → (∀ r, Q (lspi s st args (Returned r)) r) →
  wpr M (spi st args) Q s.
Proof. intros Ha HQ. by apply wpr_op_exn. Qed.

Lemma books_spi_get st args (Q : ledger → option Value → Prop) s :
  lallowed_stmt json_parse s st args →
  (∀ v, Q (lspi s st args (Returned (Ok v))) v) →
  (∀ e, Q (lspi s st args (Returned (Err e))) None) →
  wpr M (spi_get st args) Q s.
Proof.
  intros Ha Hok He. unfold spi_get. apply wpr_bind, books_spi; [done|].
  intros [v|e]; apply wpr_ret; auto.
Qed.

(** The claimed calls, and how many the limit allows. *)
Definition claimed_ok (s : ledger) (limit : nat) (v : Value) : Prop :=
  honest s = true → ∀ calls, get_array (bs "calls") v = Some calls → length calls ≤ limit.

Lemma claimed_ok_nothing s limit : claimed_ok s limit (no_jobs (bs "calls")).
Proof. intros _ calls [= <-]. simpl. lia. Qed.

Definition with_honest (s : ledger) (b : bool) : ledger :=
  Ledger (flying s) b (pending s) (installed s) (owes s).

Lemma with_honest_id s : with_honest s (honest s) = s.
Proof. by destruct s. Qed.

Lemma books_claim q limit (Q : ledger → Value → Prop) s :
  installed s = true → 0 < limit → flying s + limit = capacity →
  (∀ b v, claimed_ok (with_honest s b) limit v → Q (with_honest s b) v) →
  wpr M (v ← spi_get (ClaimHttp q) [number_arg (N.of_nat limit)];
         mret (default (no_jobs (bs "calls")) v)) Q s.
Proof.
  intros Hi Hl Hf HQ. apply wpr_bind, books_spi_get.
  - split; [done|]. by exists limit.
  - intros v. apply wpr_ret. simpl. apply HQ. destruct v as [v|]; simpl; [|apply claimed_ok_nothing].
    intros Hh calls Hc. simpl in Hh. apply andb_true_iff in Hh as [_ Hw].
    unfold within_limit in Hw. simpl in Hw. rewrite Hc in Hw. apply bool_decide_eq_true in Hw.
    simpl in Hw. by rewrite Nat2N.id in Hw.
  - intros e. apply wpr_ret. simpl. rewrite <- (with_honest_id s). apply HQ, claimed_ok_nothing.
Qed.

Lemma books_claim_http q limit (Q : ledger → Value → Prop) s :
  installed s = true → 0 < limit → flying s + limit = capacity →
  (∀ b v, claimed_ok (with_honest s b) limit v → Q (with_honest s b) v) →
  wpr M (claim_http q limit) Q s.
Proof.
  intros Hi Hl Hf HQ. apply books_transaction, books_drop. intros [].
  - by apply books_claim.
  - apply wpr_ret. rewrite <- (with_honest_id s). apply HQ, claimed_ok_nothing.
Qed.

Lemma only_warn name r : only untracked (warn_on_error name r).
Proof. unfold warn_on_error. only_walk. Qed.

Lemma books_dispatch_and_claim limit (Q : ledger → Value → Prop) s :
  installed s = true → 0 < limit → flying s + limit = capacity →
  (∀ b v, claimed_ok (with_honest s b) limit v → Q (with_honest s b) v) →
  wpr M (dispatch_and_claim limit) Q s.
Proof.
  intros Hi Hl Hf HQ. apply books_transaction, books_drop. intros [].
  - apply wpr_bind, books_spi; [done|]. intros w.
    apply wpr_bind, books_untracked; [apply only_warn|]. intros _.
    apply wpr_bind, books_spi; [done|]. intros t.
    apply wpr_bind, books_untracked; [apply only_warn|]. intros _. by apply books_claim.
  - apply wpr_ret. rewrite <- (with_honest_id s). apply HQ, claimed_ok_nothing.
Qed.

(** Completing the pending result leaves the rest of the books alone. *)
Definition same_books (s s' : ledger) : Prop :=
  flying s' = flying s ∧ honest s' = honest s ∧ installed s' = installed s ∧ owes s' = owes s.

Lemma books_complete_http r (Q : ledger → unit → Prop) s :
  pending s = Some r → (∀ s', same_books s s' → Q s' tt) →
  wpr M (complete_http (res_queue r) (res_call_id r) (res_status r) (res_body r)) Q s.
Proof.
  intros Hp HQ. apply books_transaction, books_drop. intros [].
  - apply wpr_bind, books_spi; [by exists r|]. intros [v|e].
    + apply wpr_ret, HQ. done.
    + apply books_op; [done|]. intros []. by apply HQ.
  - apply books_op; [done|]. intros []. by apply HQ.
Qed.

Lemma get_call_id_tag q call id :
  get_str (bs "call_id") call = Some id → get_str (bs "call_id") (tag_call q call) = Some id.
Proof.
  intros H. destruct q; [done| | |]; destruct call; try done; unfold get_str, get in *; simpl in *;
    by rewrite obj_get_insert, decide_False.
Qed.

Lemma get_kind_tag q call id k :
  get_str (bs "call_id") call = Some id → queue_kind q = Some k →
  get_str (bs "kind") (tag_call q call) = Some k.
Proof.
  intros H Hk. destruct q; simplify_eq/=; destruct call; try done; unfold get_str, get in *;
    simpl in *; by rewrite obj_get_insert, decide_True.
Qed.

(** What [enqueue] keeps: the count is exact, and stays under the capacity
    when no claim overran its limit. *)
Lemma books_enqueue q calls n m (Q : ledger → nat * nat → Prop) s :
  flying s = n → (honest s = true → n + length calls ≤ capacity) →
  (∀ s' n' m', flying s' = n' → honest s' = honest s → (honest s = true → n' ≤ capacity) →
     installed s' = installed s → owes s' = owes s → Q s' (n', m')) →
  wpr M (enqueue q calls n m) Q s.
Proof.
  revert n m s. induction calls as [|call calls IH]; intros n m s Hn Hc HQ; cbn [enqueue length] in *.
  { apply wpr_ret. apply HQ; try done. intros Hh. specialize (Hc Hh). lia. }
  destruct (get_str (bs "call_id") call) as [id|] eqn:Hid.
  2: { apply IH; [done| |done]. intros Hh. specialize (Hc Hh). lia. }
  destruct (valid_uuid id) eqn:Hu; cbn [negb].
  2: { apply IH; [done| |done]. intros Hh. specialize (Hc Hh). lia. }
  apply wpr_bind, wpr_op.
  { simpl. split_and!; [done|by apply get_call_id_tag| |].
    - intros k Hk. by eapply get_kind_tag.
    - intros Hh. specialize (Hc Hh). lia. }
  intros []; cbn [next M lnext].
  - apply IH; simpl; [by subst| |].
    + intros Hh. specialize (Hc Hh). lia.
    + intros s' n' m' H1 H2 H3 H4 H5. apply HQ; done.
  - apply wpr_ret. apply HQ; try done. intros Hh. specialize (Hc Hh). lia.
Qed.

(** The main loop's invariant. *)
Definition balanced (s : ledger) (n : nat) (r : bool) : Prop :=
  flying s = n ∧ (honest s = true → n ≤ capacity) ∧ installed s = r ∧ owes s = false.

Lemma books_pump_queue q claim r n m (Q : ledger → nat * nat → Prop) s :
  (∀ limit (Q : ledger → Value → Prop) s,
     installed s = true → 0 < limit → flying s + limit = capacity →
     (∀ b v, claimed_ok (with_honest s b) limit v → Q (with_honest s b) v) →
     wpr M (claim limit) Q s) →
  balanced s n r → (∀ s' n' m', balanced s' n' r → Q s' (n', m')) →
  wpr M (pump_queue q claim r (n, m)) Q s.
Proof.
  intros Hclaim Hb HQ. unfold pump_queue.
  destruct (r && (n <? capacity)%nat) eqn:E; [|apply wpr_ret; by apply HQ].
  apply andb_true_iff in E as [-> E]. apply Nat.ltb_lt in E. destruct Hb as (Hn & Hc & Hi & Ho).
  apply wpr_bind, Hclaim; [done|lia|lia|]. intros b v Hok.
  destruct (get_array (bs "calls") v) as [calls|] eqn:Hcalls.
  - apply books_enqueue; [done| |].
    + intros Hh. specialize (Hok Hh calls Hcalls). lia.
    + intros s' n' m' H1 H2 H3 H4 H5. apply HQ. unfold balanced. rewrite H2, H4, H5. done.
  - apply wpr_ret, HQ. unfold balanced. simpl. split_and!; try done. intros _. lia.
Qed.

Lemma books_if_ready p r n (Q : ledger → nat → Prop) s :
  only local_work p → balanced s n r → (∀ k, Q s k) → wpr M (if_ready r p) Q s.
Proof.
  intros Hp (_ & _ & Hi & _) HQ. destruct r; [|by apply wpr_ret].
  eapply (wpr_only M local_work); [done| |done]. intros. by apply local_work_ignored.
Qed.

Definition in_balance (s : ledger) (st : runtime) : Prop := balanced s (in_flight st) (ready st).

Lemma books_installed (Q : ledger → bool → Prop) s n r :
  balanced s n r → (∀ s' r', balanced s' n r' → Q s' r') → wpr M extension_is_installed Q s.
Proof.
  intros (Hn & Hc & Hi & Ho) HQ. apply books_transaction, wpr_bind, books_spi_get; [done| |].
  - intros v. apply wpr_ret, HQ. by split_and!.
  - intros e. apply wpr_ret, HQ. by split_and!.
Qed.

Lemma books_pump_all st s : in_balance s st → wpr M (pump_all st) in_balance s.
Proof.
  intros Hb. unfold pump_all. apply wpr_bind. eapply books_installed; [exact Hb|]. intros s0 r H0.
  apply wpr_bind. apply books_pump_queue; [apply books_dispatch_and_claim|done|].
  intros s1 n1 m1 H1. apply wpr_bind. apply books_pump_queue; [apply books_claim_http|done|].
  intros s2 n2 m2 H2. apply wpr_bind. apply books_pump_queue; [apply books_claim_http|done|].
  intros s3 n3 m3 H3. apply wpr_bind. apply books_pump_queue; [apply books_claim_http|done|].
  intros s4 n4 m4 H4.
  apply wpr_bind. eapply books_if_ready; [apply local_pump_sql|done|]. intros a.
  apply wpr_bind. eapply books_if_ready; [apply local_pump_functions|done|]. intros b.
  apply wpr_bind. eapply books_if_ready; [apply local_pump_procedures|done|]. intros c.
  apply wpr_bind, books_op; [done|]. intros now. unfold reschedule. by case_match.
Qed.

Lemma books_dashboard_rpc body (Q : ledger → bytes → Prop) s :
  installed s = true → is_Some (json_parse body) → valid_utf8 body = true →
  length body ≤ MAX_REQUEST_BYTES → (∀ reply, Q s reply) →
  wpr M (dashboard_rpc json_text body) Q s.
Proof.
  intros Hi Hj Hu Hl HQ. apply books_transaction, books_drop. intros []; [|by apply wpr_ret].
  apply wpr_bind, books_spi_get; [split; [done|by exists body]|intros; by apply wpr_ret..].
Qed.

Lemma books_handle_rpc_stream data r n s :
  flying s = n → (honest s = true → n ≤ capacity) → installed s = r → owes s = true →
  wpr M (handle_rpc_stream json_text json_parse data r) (λ s' _, balanced s' n r) s.
Proof.
  intros Hn Hc Hi Ho.
  assert (∀ reply, wpr M (op (WriteReply reply)) (λ s' _, balanced s' n r) s) as Hreply.
  { intros reply. apply wpr_op; [done|]. intros []. by split_and!. }
  destruct data as [all|]; [|apply Hreply]. cbn [handle_rpc_stream]. apply wpr_bind.
  destruct (valid_utf8 _ && bool_decide _) eqn:E; [|by apply wpr_ret].
  apply andb_true_iff in E as [Hu Hj]. apply bool_decide_eq_true in Hj.
  destruct r; [|by apply wpr_ret]. apply books_dashboard_rpc; try done.
  rewrite length_take. lia.
Qed.

Lemma books_accept_loop fuel r n (Q : ledger → option unit → Prop) s :
  balanced s n r → (∀ s' o, balanced s' n r → Q s' o) →
  wpr M (loop fuel (accept_round json_text json_parse r) tt) Q s.
Proof.
  intros Hb HQ. apply (wpr_loop M (λ s _, balanced s n r)); auto. clear s Hb HQ Q.
  intros s [] (Hn & Hc & Hi & Ho). unfold accept_round. apply wpr_bind, wpr_op; [done|].
  intros [data| |e].
  - apply wpr_bind. eapply wpr_mono; [by apply books_handle_rpc_stream|].
    intros s' [] Hb. by apply wpr_ret.
  - apply wpr_ret. by split_and!.
  - apply wpr_bind, books_op; [done|]. intros _. apply wpr_ret. by split_and!.
Qed.

Lemma books_harvest_loop fuel r n (Q : ledger → option nat → Prop) s :
  balanced s n r → (∀ s' n', balanced s' n' r → Q s' (Some n')) →
  (∀ s' n', balanced s' n' r → Q s' None) →
  wpr M (loop fuel harvest_round n) Q s.
Proof.
  intros Hb HS HN. apply (wpr_loop M (λ s n, balanced s n r)); auto. clear s Hb HS HN Q n.
  intros s n (Hn & Hc & Hi & Ho). unfold harvest_round. apply wpr_bind, wpr_op; [done|].
  intros [res|]; [|apply wpr_ret; by split_and!]. apply wpr_bind.
  assert (wpr M (complete_http (res_queue res) (res_call_id res) (res_status res) (res_body res))
    (λ s' _, balanced s' (n - 1) r) (lnext s _ TryRecv (Some res))) as Hcomp.
  { apply books_complete_http; [done|]. intros s' (H1 & H2 & H3 & H4). simpl in *.
    unfold balanced. rewrite H1, H2, H3, H4, Hn. split_and!; try done.
    intros Hh. specialize (Hc Hh). lia. }
  destruct (res_queue res); (eapply wpr_mono; [exact Hcomp|]; intros; by apply wpr_ret).
Qed.

Lemma only_propagate : only untracked propagate_outbound_cancellations.
Proof.
  unfold propagate_outbound_cancellations, cancel_lost, transaction.
  only_walk; by apply only_drop, session_untracked.
Qed.

Lemma books_tick fuel st s :
  in_balance s st →
  wpr M (tick json_text json_parse fuel st)
    (λ s' o, match o with Some st' => in_balance s' st' | None => True end) s.
Proof.
  intros Hb. unfold tick. apply wpr_bind. eapply books_accept_loop; [exact Hb|].
  intros s1 [[]|] H1; [|by apply wpr_ret].
  apply wpr_bind. eapply books_harvest_loop; [exact H1| |intros; by apply wpr_ret].
  intros s2 n2 H2. apply wpr_bind, books_untracked; [apply only_propagate|]. intros _.
  apply wpr_bind, books_op; [done|]. intros now. case_match; [by apply wpr_ret|].
  apply wpr_bind. eapply wpr_mono; [by apply books_pump_all|]. intros s3 st3 H3. by apply wpr_ret.
Qed.

Definition ledger0 : ledger := Ledger 0 true None false false.

Lemma books_main fuel w :
  wpr M (allgres_runtime_main json_text json_parse fuel w) (λ _ _, True) ledger0.
Proof.
  unfold allgres_runtime_main. apply wpr_bind, books_op; [done|]. intros [].
  apply wpr_bind, books_fs.
  intros [[]|e]; [|by apply books_op]. apply wpr_bind, books_op; [done|].
  intros [[]|e]; [|by apply books_op]. apply wpr_bind, books_op; [done|]. intros now.
  assert (∀ (o : option (option runtime)) s,
    wpr M (match o with Some (Some _) => op (Fs _ (RemoveFile (rpc_socket_path w))) | _ => mret tt end) (λ _ _, True) s) as Hend.
  { intros [[?|]|] s; [by apply wpr_op|by apply wpr_ret..]. }
  apply wpr_bind.
  apply (wpr_loop M (λ s o, match o with Some st => in_balance s st | None => True end)).
  - split_and!; try done. intros _. simpl. lia.
  - intros s [st|] Hs; [|by apply wpr_ret]. unfold turn. apply wpr_bind, books_op; [done|].
    intros []; [|by apply wpr_ret]. apply wpr_bind. eapply wpr_mono; [by apply books_tick|].
    intros s' o Ho. by apply wpr_ret.
  - intros s x _. apply (Hend (Some x)).
  - intros s x _. apply (Hend None).
Qed.

(** ** Fuel *)

(** A run of a loop that is out of fuel has [fuel] events of the kind every
    round that goes around again performs. *)
Lemma loop_out_of_fuel {S} (marks : event wop → bool) fuel (body : S → worker (S * bool)) x tr :
  (∀ x tr x', runs (body x) tr (Returned (x', true)) → existsb marks tr = true) →
  runs (loop fuel body x) tr (Returned None) → fuel ≤ length (filter (λ ev, marks ev = true) tr).
Proof.
  intros Hm. revert x tr. induction fuel as [|f IH]; intros x tr Hr; [lia|].
  apply runs_bind_inv in Hr as (tr1 & tr2 & r & -> & H1 & H2).
  destruct r as [[x' []]|m]; [|by inversion H2..].
  apply Hm in H1. apply IH in H2. rewrite filter_app, length_app.
  apply existsb_exists in H1 as (ev & Hin & Hev). apply list_elem_of_In in Hin.
  assert (0 < length (filter (λ ev, marks ev = true) tr1)); [|lia].
  destruct (filter (λ ev, marks ev = true) tr1) eqn:E; simpl; [|lia].
  assert (ev ∈ filter (λ ev, marks ev = true) tr1) as Hf by (by apply list_elem_of_filter).
  rewrite E in Hf. set_solver.
Qed.

End books.

(** * Claims *)

(** The environment of the witnesses: one turn of the loop, with one RPC
    connection, one result to harvest and one OAuth call to claim. *)
Definition sample_id : bytes := bs "01234567-89ab-cdef-0123-456789abcdef".

Definition sample_answer (st : stmt) : exn (result (option Value) bytes) :=
  match st with
  | ExtensionInstalled => Returned (Ok (Some (Bool true)))
  | ClaimHttp Oauth =>
      Returned (Ok (Some (obj [(bs "calls", Arr [obj [(bs "call_id", Str sample_id)]])])))
  | _ => obliging Null st
  end.

Definition one_turn X (e : wop X) (n : nat) : X * nat :=
  match e in wop X return X * nat with
  | WaitLatch => ((n =? 0)%nat, n)
  | AcceptRpc => if (n =? 0)%nat then (Connection (Some (bs "{}")), 1) else (WouldBlock, n)
  | TryRecv =>
      if (n =? 1)%nat then (Some (mkResult sample_id Outbound 200 (bs "ok")), 2) else (None, n)
  | e => ((scripted sample_answer _ e tt).1, n)
  end.

Definition here : world := World (λ _, None) (Some (bs "/d")) (bs "/tmp").

Definition sample_run : list (event wop) * exn unit :=
  run_with one_turn
    (allgres_runtime_main (λ _, bs "{}") (λ _, Some Null) 5 here) 0.

(** C1: whatever PostgreSQL, the clients and the HTTP threads answer, every
    statement the runtime worker ever sends respects the privilege policy:
    claims, completions, dispatch and RPC only after the privilege drop;
    agent code only under an agent role that is pinned, with an empty search
    path, a statement timeout set and armed (and read-only for SQL); DDL only
    as the function admin and only for validated names. *)
Theorem runtime_keeps_policy json_text json_parse fuel w s tr r :
  runs (allgres_runtime_main json_text json_parse fuel w) tr r → accepts policy s tr.
Proof.
  intros Hr. eapply wp_sound in Hr; [apply Hr|]. apply (keeps_main json_text json_parse fuel w).
Qed.

(** Text that is interpolated into a statement is an SQL word: it cannot end
    the token it is part of. *)
Definition interpolates_words X (e : wop X) : Prop :=
  match e with
  | Spi (SetLocalRole r) _ => sql_word r
  | Spi (BeginLocalExecution t) _ => sql_word t
  | Spi (CallFunction i) _ | Spi (CallProcedure i) _ => sql_word i
  | Spi (Ddl text) _ =>
      ∃ procedure i nanos source, sql_word i ∧ text = ddl_text procedure i nanos source
  | _ => True
  end.

Lemma policy_words s X (e : wop X) : allowed policy s e → interpolates_words X e.
Proof.
  destruct e as [[] args| | | | | | | | | | | | | | | | | | | | | | |]; simpl; try done.
  - intros [_ [->|(r' & [= <-] & [->|Hr])]]; [by_decide..|by apply valid_pg_role_word].
  - intros [_ [->| ->]]; by_decide.
  - intros (_ & _ & Hi). by eapply valid_sql_ident_word; [|exact Hi].
  - intros (_ & _ & Hi). by eapply valid_sql_ident_word; [|exact Hi].
  - intros (_ & _ & p & i & nanos & source & Hi & ->). exists p, i, nanos, source.
    split; [|done]. destruct p; by eapply valid_sql_ident_word; [|exact Hi].
Qed.

(** C17: no statement of the runtime worker is built by splicing a value that
    could change its structure: in every run, each role, table and routine
    name interpolated into a statement is a non-empty SQL word, and the only
    other built text is a CREATE statement around a dollar-quoted body. *)
Theorem runtime_interpolates_words json_text json_parse fuel w tr r :
  runs (allgres_runtime_main json_text json_parse fuel w) tr r →
  Forall (λ ev, interpolates_words _ (ev_op ev)) tr.
Proof.
  intros Hr. eapply wp_sound in Hr as [Hacc _];
    [|apply (keeps_main json_text json_parse fuel w idle_state)].
  eapply accepts_forall; [|exact Hacc]. apply policy_words.
Qed.

Lemma runtime_interpolates_words_witness :
  length sample_run.1 = 76 ∧ Forall (λ ev, interpolates_words _ (ev_op ev)) sample_run.1.
Proof.
  split; [vm_compute; reflexivity|].
  apply (runtime_interpolates_words (λ _, bs "{}") (λ _, Some Null) 5 here _ sample_run.2).
  apply run_with_runs.
Defined.

(** C11: in every run of the runtime worker, at most [capacity] jobs are with
    the HTTP pool unless a claim overran its limit; every claim asks exactly
    for the free capacity; jobs carry a valid uuid and their queue's kind;
    every harvested result is completed at most once, in its own queue, with
    its own status and sanitised body; every RPC connection gets one reply,
    and only well-formed requests reach the database, once the extension is
    installed. *)
Theorem runtime_keeps_books json_text json_parse fuel w tr r :
  runs (allgres_runtime_main json_text json_parse fuel w) tr r →
  accepts (books json_parse) ledger0 tr.
Proof.
  intros Hr. eapply wpr_runs in Hr; [apply Hr|]. apply (books_main json_text json_parse fuel w).
Qed.

Lemma runtime_keeps_policy_witness :
  length sample_run.1 = 76 ∧ accepts policy idle_state sample_run.1.
Proof.
  split; [vm_compute; reflexivity|].
  apply (runtime_keeps_policy (λ _, bs "{}") (λ _, Some Null) 5 here idle_state _ sample_run.2).
  apply run_with_runs.
Defined.

Lemma runtime_keeps_books_witness :
  length sample_run.1 = 76 ∧ accepts (books (λ _, Some Null)) ledger0 sample_run.1.
Proof.
  split; [vm_compute; reflexivity|].
  apply (runtime_keeps_books (λ _, bs "{}") (λ _, Some Null) 5 here _ sample_run.2).
  apply run_with_runs.
Defined.

Definition is_connection (ev : event wop) : bool :=
  match ev_op ev in wop X return X → bool with
  | AcceptRpc => λ a, match a with Connection _ => true | _ => false end
  | _ => λ _, false
  end (ev_val ev).

Definition is_result (ev : event wop) : bool :=
  match ev_op ev in wop X return X → bool with
  | TryRecv => λ r, bool_decide (is_Some r)
  | _ => λ _, false
  end (ev_val ev).

(** the loop that answers RPC connections ends with the backlog: it is out
    of fuel only after accepting that many connections, and the loop that
    harvests results only after receiving that many. *)
Theorem inner_loops_drain json_text json_parse fuel r n tr :
  (runs (loop fuel (accept_round json_text json_parse r) tt) tr (Returned None) →
   fuel ≤ length (filter (λ ev, is_connection ev = true) tr))
  ∧ (runs (loop fuel harvest_round n) tr (Returned None) →
     fuel ≤ length (filter (λ ev, is_result ev = true) tr)).
Proof.
  split; apply loop_out_of_fuel; clear.
  - intros [] tr x' Hr. apply runs_bind_inv in Hr as (tr1 & tr2 & a & -> & H1 & H2).
    apply runs_inv in H1 as (x & tr' & -> & H1). apply runs_inv in H1 as [-> ->].
    destruct x as [data| |e]; [done| |].
    + by apply runs_inv in H2 as [_ [=]].
    + apply runs_bind_inv in H2 as (t1 & t2 & a & -> & H1 & H2). destruct a as [[]|m].
      * by apply runs_inv in H2 as [_ [=]].
      * by destruct H2.
  - intros x tr x' Hr. apply runs_bind_inv in Hr as (tr1 & tr2 & a & -> & H1 & H2).
    apply runs_inv in H1 as (o & tr' & -> & H1). apply runs_inv in H1 as [-> ->].
    destruct o as [res|]; [done|]. by apply runs_inv in H2 as [_ [=]].
Qed.

Lemma inner_loops_drain_witness :
  let tr := (run_with one_turn (loop 1 (accept_round (λ _, []) (λ _, None) false) tt) 0).1 in
  1 ≤ length (filter (λ ev, is_connection ev = true) tr).
Proof.
  simpl. apply (proj1 (inner_loops_drain (λ _, []) (λ _, None) 1 false 0
    (run_with one_turn (loop 1 (accept_round (λ _, []) (λ _, None) false) tt) 0).1)).
  apply (run_with_runs one_turn (loop 1 (accept_round (λ _, []) (λ _, None) false) tt) 0).
Defined.

(** After [k] idle pumps in a row the delay is the minimum doubled [k]
    times, up to the maximum; it always lies between the two, and a pump is
    never scheduled sooner than the busy interval. *)
Lemma idle_backoff now k :
  let delay := Nat.iter k (λ d, (reschedule false now d).2) PUMP_IDLE_MIN in
  delay = Z.min (PUMP_IDLE_MIN * 2 ^ Z.of_nat k) PUMP_IDLE_MAX
  ∧ (PUMP_IDLE_MIN ≤ delay ≤ PUMP_IDLE_MAX)%Z
  ∧ ∀ busy, (now + PUMP_BUSY ≤ (reschedule busy now delay).1)%Z.
Proof.
  set (d := Nat.iter k (λ d, (reschedule false now d).2) PUMP_IDLE_MIN).
  assert (d = Z.min (PUMP_IDLE_MIN * 2 ^ Z.of_nat k) PUMP_IDLE_MAX) as Hd.
  { subst d. induction k as [|k IH]; [done|].
    change (Nat.iter (S k) ?f ?x) with (f (Nat.iter k f x)). cbn beta. rewrite IH.
    unfold reschedule, PUMP_IDLE_MIN, PUMP_IDLE_MAX. simpl snd.
    rewrite Nat2Z.inj_succ, Z.pow_succ_r by lia. lia. }
  assert (1 ≤ 2 ^ Z.of_nat k)%Z by (apply (Z.pow_le_mono_r 2 0); lia).
  unfold PUMP_IDLE_MIN, PUMP_IDLE_MAX in *. split_and!; [done|lia..|].
  intros []; unfold reschedule, PUMP_BUSY; simpl; lia.
Qed.

(** * Builds run without a time limit *)

(** Operations that set or arm a statement timeout. *)
Definition untimed X (e : wop X) : Prop :=
  match e with
  | Spi (SetStatementTimeout _) _ | EnableTimeout _ _ => False
  | _ => True
  end.

Lemma untimed_drop : only untimed drop_privileges.
Proof. unfold drop_privileges. only_walk. Qed.

Lemma untimed_subtransaction p : only untimed p → only untimed (run_in_subtransaction p).
Proof. intros Hp. unfold run_in_subtransaction. only_walk. done. Qed.

Lemma untimed_ddl procedure i source : only untimed (run_ddl procedure i source).
Proof. unfold run_ddl. only_walk. Qed.

(** building a function or a procedure neither sets nor arms a statement
    timeout, in any run. *)
Theorem builds_untimed i body procedure tr r :
  runs (run_guarded_build i body procedure) tr r → Forall (λ ev, untimed _ (ev_op ev)) tr.
Proof.
  apply only_runs. unfold run_guarded_build, transaction, and_also, spi_ok.
  repeat first
    [ progress only_walk | apply untimed_subtransaction | apply untimed_drop | apply untimed_ddl ].
Qed.

Lemma builds_untimed_witness :
  let i := bs "fn_0123456789abcdef0123456789abcdef" in
  let tr := (run_with (scripted (obliging Null)) (run_guarded_build i (bs "BEGIN END") false) tt).1 in
  length tr = 14 ∧ Forall (λ ev, untimed _ (ev_op ev)) tr.
Proof.
  split; [vm_compute; reflexivity|].
  apply (builds_untimed (bs "fn_0123456789abcdef0123456789abcdef") (bs "BEGIN END") false _
    (run_with (scripted (obliging Null))
      (run_guarded_build (bs "fn_0123456789abcdef0123456789abcdef") (bs "BEGIN END") false) tt).2).
  apply run_with_runs.
Defined.
