(* ===== verification/Turns.v ===== *)
(** The order of a turn of the runtime worker's main loop, and when it pumps:
    which operations each of its parts performs, and a third monitor that
    follows them. *)
From S2P Require Import Prelude RustStr Json Effects Config Idents Worker Exec Policy RuntimeWorker Ledger.

(** * What each part does *)

(** Answering a connection. *)
Definition rpc_op X (e : wop X) : Prop :=
  match e with Spi DashboardRpc _ | WriteReply _ => True | _ => session_op X e end.

(** Recording a result. *)
Definition record_op X (e : wop X) : Prop :=
  match e with Spi (CompleteHttp _) _ => True | _ => session_op X e end.

(** Propagating cancellations, once the keys are read. *)
Definition lost_op X (e : wop X) : Prop :=
  match e with SetCancelFlags _ => True | _ => session_op X e end.

(** Dispatching, claiming and handing over. *)
Definition work_op X (e : wop X) : Prop :=
  match e with
  | Spi (Watchdog | DispatchTasks | ClaimHttp _) _ | SendJob _ => True
  | _ => local_work X e
  end.

Section footprint.
Context (P : ∀ X, wop X → Prop) (HP : ∀ X e, session_op X e → P X e).

Lemma footprint_transaction {A} (p : worker A) : only P p → only P (transaction p).
Proof using HP.
  intros Hp. unfold transaction. repeat (apply only_bind; [|intros ?]); try done;
    by split; [apply HP|].
Qed.

Lemma footprint_warning msg : only P (op (Warning msg)).
Proof using HP. split; [by apply HP|done]. Qed.

Lemma footprint_drop {A} (k : bool → worker A) :
  (∀ d, only P (k d)) → only P (d ← drop_privileges; k d).
Proof using HP. intros Hk. by apply only_bind; [apply only_drop|]. Qed.

Lemma footprint_spi {A} st args (k : result (option Value) bytes → worker A) :
  P _ (Spi st args) → (∀ r, only P (k r)) → only P (r ← spi st args; k r).
Proof. intros Hs Hk. by apply only_bind; [split|]. Qed.

Lemma footprint_spi_get {A} st args (k : option Value → worker A) :
  P _ (Spi st args) → (∀ r, only P (k r)) → only P (r ← spi_get st args; k r).
Proof. intros Hs Hk. unfold spi_get. apply only_bind; [by apply footprint_spi|done]. Qed.

Lemma footprint_warn name r : only P (warn_on_error name r).
Proof using HP. destruct r; [done|]. apply footprint_warning. Qed.

End footprint.

Lemma session_rpc X e : session_op X e → rpc_op X e.
Proof. by destruct e as [[] ?| | | | | | | | | | | | | | | | | | | | | | |]. Qed.

Lemma session_record X e : session_op X e → record_op X e.
Proof. by destruct e as [[] ?| | | | | | | | | | | | | | | | | | | | | | |]. Qed.

Lemma session_lost X e : session_op X e → lost_op X e.
Proof. by destruct e. Qed.

Lemma local_work_op X e : local_work X e → work_op X e.
Proof. by destruct e as [[] ?| | | | | | | | | | | | | | | | | | | | | | |]. Qed.

Lemma session_work X e : session_op X e → work_op X e.
Proof. intros He. by apply local_work_op, session_local. Qed.

Lemma records_complete q id status body : only record_op (complete_http q id status body).
Proof.
  unfold complete_http. apply footprint_transaction; [apply session_record|].
  apply footprint_drop; [apply session_record|]. intros []; [|apply footprint_warning, session_record].
  apply footprint_spi; [done|]. intros [v|e]; [done|apply footprint_warning, session_record].
Qed.


Lemma answers_stream json_text json_parse data ready :
  only rpc_op (handle_rpc_stream json_text json_parse data ready).
Proof.
  destruct data as [all|]; [|by split]. unfold handle_rpc_stream.
  apply only_bind; [|by split]. repeat case_match; try done.
  unfold dashboard_rpc. apply footprint_transaction; [apply session_rpc|].
  apply footprint_drop; [apply session_rpc|]. intros []; [|done]. by apply footprint_spi_get.
Qed.

Lemma loses_some ids : only lost_op (cancel_lost ids).
Proof.
  apply only_bind.
  - apply footprint_transaction; [apply session_lost|]. apply footprint_drop; [apply session_lost|].
    intros []; [|done]. by apply footprint_spi.
  - intros [|l lost]; [done|]. by split.
Qed.

Lemma works_claim q limit : only work_op (claim_http q limit).
Proof.
  apply footprint_transaction; [apply session_work|]. apply footprint_drop; [apply session_work|].
  intros []; [|done]. by apply footprint_spi_get.
Qed.

Lemma works_dispatch limit : only work_op (dispatch_and_claim limit).
Proof.
  apply footprint_transaction; [apply session_work|]. apply footprint_drop; [apply session_work|].
  intros []; [|done]. apply footprint_spi; [done|]. intros w.
  apply only_bind; [apply footprint_warn, session_work|]. intros _.
  apply footprint_spi; [done|]. intros t.
  apply only_bind; [apply footprint_warn, session_work|]. intros _. by apply footprint_spi_get.
Qed.

Lemma works_enqueue q calls n m : only work_op (enqueue q calls n m).
Proof.
  revert n m. induction calls as [|c calls IH]; intros n m; cbn [enqueue]; [done|].
  repeat case_match; auto. apply only_bind; [by split|]. intros []; [apply IH|done].
Qed.

Lemma works_pump_queue q claim r c :
  (∀ limit, only work_op (claim limit)) → only work_op (pump_queue q claim r c).
Proof.
  intros Hc. destruct c as [n m]. unfold pump_queue. case_match; [|done].
  apply only_bind; [done|]. intros v. case_match; [apply works_enqueue|done].
Qed.

Lemma works_if_ready r p : only local_work p → only work_op (if_ready r p).
Proof. intros Hp. destruct r; [|done]. eapply only_mono; [apply local_work_op|exact Hp]. Qed.

(** * The schedule *)

Inductive stage : Type :=
| Starting
| Resting
| Accepting
| Harvesting
| Propagating
| Reading
| Deciding (now : Z)
| Pumping.

(** Where the worker is in its turn; it may pump from [due_from] on, and must
    from [due_by] on. *)
Record schedule : Type := Schedule { at_stage : stage; due_from : Z; due_by : Z }.

Definition at_ (st : stage) (s : schedule) : schedule := Schedule st (due_from s) (due_by s).

Definition tspi (s : schedule) (st : stmt) : schedule :=
  match st with ExtensionInstalled => at_ Pumping s | _ => s end.

Definition tnext (s : schedule) X (e : wop X) : X → schedule :=
  match e in wop X return X → schedule with
  | WaitLatch => λ go, at_ (if (go : bool) then Accepting else Resting) s
  | AcceptRpc => λ a, at_ (match a with Connection _ => Accepting | _ => Harvesting end) s
  | TryRecv => λ r, at_ (match r with Some _ => Harvesting | None => Propagating end) s
  | CancelKeys => λ _, at_ Reading s
  | Now => λ t,
      match at_stage s with
      | Starting => Schedule Resting t t
      | Pumping => Schedule Resting (t + PUMP_BUSY)%Z (t + PUMP_IDLE_MAX)%Z
      | _ => at_ (Deciding t) s
      end
  | Spi st _ => λ _, tspi s st
  | _ => λ _, s
  end.

Definition tallowed_stmt (s : schedule) (st : stmt) : Prop :=
  match st with
  | ExtensionInstalled => ∃ now, at_stage s = Deciding now ∧ (due_from s ≤ now)%Z
  | Watchdog | DispatchTasks | ClaimHttp _ | ClaimLocal _ => at_stage s = Pumping
  | DashboardRpc => at_stage s = Accepting
  | CompleteHttp _ => at_stage s = Harvesting
  | _ => True
  end.

Definition tallowed (s : schedule) X (e : wop X) : Prop :=
  match e with
  | WaitLatch =>
      at_stage s = Resting ∨ ∃ now, at_stage s = Deciding now ∧ (now < due_by s)%Z
  | AcceptRpc | WriteReply _ => at_stage s = Accepting
  | TryRecv => at_stage s = Harvesting
  | CancelKeys => at_stage s = Propagating
  | SetCancelFlags _ => at_stage s = Reading
  | Now => at_stage s = Starting ∨ at_stage s = Reading ∨ at_stage s = Pumping
  | SendJob _ => at_stage s = Pumping
  | Spi st _ => tallowed_stmt s st
  | _ => True
  end.

Definition timetable : monitor wop := Monitor schedule tallowed tnext.

(** ** Parts that stay in their stage *)

Ltac stays e := destruct e as [[] ?| | | | | | | | | | | | | | | | | | | | | | |]; simpl in *; auto; done.

Lemma rpc_stays {A} (p : worker A) (Q : schedule → A → Prop) s :
  only rpc_op p → at_stage s = Accepting → (∀ a, Q s a) → wpr timetable p Q s.
Proof. intros Hp Hs HQ. eapply (wpr_only timetable rpc_op); [done| |done]. intros X e He. stays e. Qed.

Lemma record_stays {A} (p : worker A) (Q : schedule → A → Prop) s :
  only record_op p → at_stage s = Harvesting → (∀ a, Q s a) → wpr timetable p Q s.
Proof. intros Hp Hs HQ. eapply (wpr_only timetable record_op); [done| |done]. intros X e He. stays e. Qed.

Lemma lost_stays {A} (p : worker A) (Q : schedule → A → Prop) s :
  only lost_op p → at_stage s = Reading → (∀ a, Q s a) → wpr timetable p Q s.
Proof. intros Hp Hs HQ. eapply (wpr_only timetable lost_op); [done| |done]. intros X e He. stays e. Qed.

Lemma work_stays {A} (p : worker A) (Q : schedule → A → Prop) s :
  only work_op p → at_stage s = Pumping → (∀ a, Q s a) → wpr timetable p Q s.
Proof. intros Hp Hs HQ. eapply (wpr_only timetable work_op); [done| |done]. intros X e He. stays e. Qed.

(** ** The turn *)

(** Between turns: nothing to do, or the pump was not due. *)
Definition rested (s : schedule) (st : runtime) : Prop :=
  (at_stage s = Resting ∨ ∃ now, at_stage s = Deciding now ∧ (now < next_pump st)%Z)
  ∧ (due_from s ≤ next_pump st ≤ due_by s)%Z
  ∧ (PUMP_IDLE_MIN ≤ idle_delay st ≤ PUMP_IDLE_MAX)%Z.

Lemma pump_all_timed st s now :
  at_stage s = Deciding now → (due_from s ≤ now)%Z →
  (PUMP_IDLE_MIN ≤ idle_delay st ≤ PUMP_IDLE_MAX)%Z →
  wpr timetable (pump_all st) (λ s' st', rested s' st') s.
Proof.
  intros Hs Hdue Hidle. unfold pump_all. apply wpr_bind.
  assert (∀ ready, wpr timetable
    (c0 ← pump_queue Outbound dispatch_and_claim ready (in_flight st, 0);
     c1 ← pump_queue Oauth claim_oauth_jobs ready c0;
     c2 ← pump_queue AgentEmbedding claim_agent_embedding_jobs ready c1;
     '(flying, queued) ← pump_queue ProviderProbe claim_provider_probe_jobs ready c2;
     sql_ran ← if_ready ready pump_sql;
     functions_ran ← if_ready ready (b ← pump_function_builds; c ← pump_function_calls; mret (b + c)%nat);
     procedures_ran ← if_ready ready (b ← pump_procedure_builds; c ← pump_procedure_calls; mret (b + c)%nat);
     let busy := (0 <? queued)%nat || (0 <? sql_ran)%nat || (0 <? functions_ran)%nat
                 || (0 <? procedures_ran)%nat in
     now ← op Now;
     let '(next, delay) := reschedule busy now (idle_delay st) in
     mret (Runtime flying ready next delay)) (λ s' st', rested s' st') (at_ Pumping s)) as Hrest.
  { intros ready.
    assert (∀ q claim c, (∀ limit, only work_op (claim limit)) → ∀ Q : schedule → nat * nat → Prop,
      (∀ a, Q (at_ Pumping s) a) →
      wpr timetable (pump_queue q claim ready c) Q (at_ Pumping s)) as Hq
      by (intros; apply work_stays; [by apply works_pump_queue|done|done]).
    apply wpr_bind, Hq; [apply works_dispatch|]. intros c0.
    apply wpr_bind, Hq; [apply works_claim|]. intros c1.
    apply wpr_bind, Hq; [apply works_claim|]. intros c2.
    apply wpr_bind, Hq; [apply works_claim|]. intros [flying queued].
    apply wpr_bind, work_stays; [apply works_if_ready, local_pump_sql|done|]. intros n1.
    apply wpr_bind, work_stays; [apply works_if_ready, local_pump_functions|done|]. intros n2.
    apply wpr_bind, work_stays; [apply works_if_ready, local_pump_procedures|done|]. intros n3.
    cbn zeta. apply wpr_bind, wpr_op; [simpl; auto|]. intros t. unfold reschedule.
    unfold PUMP_IDLE_MIN, PUMP_IDLE_MAX, PUMP_BUSY in *.
    destruct (_ || _); apply wpr_ret; split; cbn [next timetable tnext at_stage at_ due_from due_by
      next_pump idle_delay]; unfold PUMP_IDLE_MIN, PUMP_IDLE_MAX, PUMP_BUSY; auto; lia. }
  unfold extension_is_installed, transaction, spi_get.
  apply wpr_bind, wpr_op; [done|]. intros [].
  apply wpr_bind, wpr_bind, wpr_bind, wpr_op_exn; [by exists now|]. intros r.
  do 2 apply wpr_ret. apply wpr_bind, wpr_op_exn; [done|]. intros []. apply wpr_ret. apply Hrest.
Qed.

Section turn.
Context (json_text : Value → bytes) (json_parse : bytes → option Value).

Lemma accept_timed fuel ready s (Q : schedule → option unit → Prop) :
  at_stage s = Accepting → Q s None → (∀ u, Q (at_ Harvesting s) (Some u)) →
  wpr timetable (loop fuel (accept_round json_text json_parse ready) tt) Q s.
Proof.
  intros Hs HN HS. apply (wpr_loop_exit timetable (λ s' _, s' = s)); [done| |by intros ? ? ->].
  intros s' [] ->. unfold accept_round. apply wpr_bind, wpr_op; [done|].
  assert (at_ Accepting s = s) as Hid by (destruct s; simpl in *; by subst).
  intros [data| |e]; cbn [next timetable tnext].
  - apply wpr_bind, rpc_stays; [apply answers_stream|done|]. intros []. by apply wpr_ret.
  - apply wpr_ret, HS.
  - apply wpr_bind, wpr_op; [done|]. intros []. apply wpr_ret, HS.
Qed.

Lemma harvest_timed fuel n s (Q : schedule → option nat → Prop) :
  at_stage s = Harvesting → Q s None → (∀ n, Q (at_ Propagating s) (Some n)) →
  wpr timetable (loop fuel harvest_round n) Q s.
Proof.
  intros Hs HN HS. apply (wpr_loop_exit timetable (λ s' _, s' = s)); [done| |by intros ? ? ->].
  intros s' k ->. unfold harvest_round. apply wpr_bind, wpr_op; [done|].
  assert (at_ Harvesting s = s) as Hid by (destruct s; simpl in *; by subst).
  intros [r|]; cbn [next timetable tnext]; [|apply wpr_ret, HS].
  apply wpr_bind, record_stays; [case_match; apply records_complete|done|]. intros []. by apply wpr_ret.
Qed.

Lemma propagate_timed s (Q : schedule → unit → Prop) :
  at_stage s = Propagating → Q (at_ Reading s) tt →
  wpr timetable propagate_outbound_cancellations Q s.
Proof.
  intros Hs HQ. unfold propagate_outbound_cancellations. apply wpr_bind, wpr_op; [done|]. intros ks.
  apply lost_stays; [|done|by intros []].
  destruct ks as [[|k ks]|]; [done|apply loses_some|done].
Qed.

(** A turn that is still in one of its inner loops when fuel runs out ends the
    run; the others end rested. *)
Lemma turn_timed fuel o s :
  match o with Some st => rested s st | None => True end →
  wpr timetable (turn json_text json_parse fuel o)
    (λ s' (r : option runtime * bool), match r.1 with Some st => rested s' st | None => True end) s.
Proof.
  destruct o as [st|]; [|intros _; by apply wpr_ret]. intros (Hs & Hwin & Hidle).
  unfold turn. apply wpr_bind, wpr_op.
  { simpl. destruct Hs as [Hs|(now & Hs & Hlt)]; [by left|right]. exists now. split; [done|lia]. }
  intros []; [|apply wpr_ret; split; [by left|done]]. apply wpr_bind. unfold tick.
  apply wpr_bind, accept_timed; [done|by apply wpr_ret, wpr_ret|]. intros [].
  apply wpr_bind, harvest_timed; [done|by apply wpr_ret, wpr_ret|]. intros n.
  apply wpr_bind, propagate_timed; [done|].
  apply wpr_bind, wpr_op; [simpl; auto|]. intros now. cbn [next timetable tnext at_stage at_].
  destruct (Z.ltb_spec now (next_pump st)) as [Hlt|Hge].
  - do 2 apply wpr_ret. split; [right; by exists now|]. split; [exact Hwin|exact Hidle].
  - apply wpr_bind. eapply wpr_mono; [apply (pump_all_timed _ _ now); [done|simpl; lia|exact Hidle]|].
    intros s' st' H'. by do 2 apply wpr_ret.
Qed.

End turn.

(** * Claims *)

(** C10: every turn of the worker goes in order: it accepts until no connection
    waits, harvests until no result waits, asks for cancellations, and then
    reads the clock; connections are answered and results recorded only in
    their part; nothing is dispatched, claimed or handed to the pool outside a
    pump, and it pumps exactly when due: never within 150 ms of the end of the
    last pump, and always once four seconds have passed. *)
Theorem turns_in_order json_text json_parse fuel w tr r :
  runs (allgres_runtime_main json_text json_parse fuel w) tr r →
  accepts timetable (Schedule Starting 0 0) tr.
Proof.
  intros Hr. apply (wpr_runs timetable _ (λ _ _, True) (Schedule Starting 0 0)) in Hr as [Ha _]; [exact Ha|].
  unfold allgres_runtime_main. apply wpr_bind, wpr_op; [done|]. intros [].
  apply wpr_bind. eapply (wpr_only timetable (λ X e, match e with Fs _ _ => True | _ => False end)).
  { by apply only_translate. }
  { intros X e He. by destruct e. }
  intros [[]|e]; [|by apply wpr_op]. apply wpr_bind, wpr_op; [done|].
  intros [[]|e]; [|by apply wpr_op]. apply wpr_bind, wpr_op; [by left|]. intros now. apply wpr_bind.
  apply (wpr_loop timetable (λ s o, match o with Some st => rested s st | None => True end)).
  - split; [by left|]. simpl. unfold PUMP_IDLE_MIN, PUMP_IDLE_MAX. lia.
  - intros s o Ho. by apply turn_timed.
  - intros s [st|] _; [by apply wpr_op|by apply wpr_ret].
  - intros s o _. by apply wpr_ret.
Qed.

Lemma turns_in_order_witness :
  length sample_run.1 = 76 ∧ accepts timetable (Schedule Starting 0 0) sample_run.1.
Proof.
  split; [vm_compute; reflexivity|].
  apply (turns_in_order (λ _, bs "{}") (λ _, Some Null) 5 here _ sample_run.2).
  apply run_with_runs.
Defined.
