(* ===== verification/RpcSocket.v ===== *)
(** The runtime worker's socket, from binding it to the last connection it
    accepts: [bind_rpc_socket] of [Config] inside the whole worker. *)
From S2P Require Import Prelude RustStr Json Effects Config Idents Worker Exec Policy RuntimeWorker Ledger Turns.

(** * Only the start touches the file system *)

Definition quiet X (e : wop X) : Prop := match e with Fs _ _ => False | _ => True end.

Lemma rpc_quiet {A} (p : worker A) : only rpc_op p → only quiet p.
Proof. apply only_mono. intros X e. by destruct e as [[] ?| | | | | | | | | | | | | | | | | | | | | | |]. Qed.

Lemma record_quiet {A} (p : worker A) : only record_op p → only quiet p.
Proof. apply only_mono. intros X e. by destruct e as [[] ?| | | | | | | | | | | | | | | | | | | | | | |]. Qed.

Lemma lost_quiet {A} (p : worker A) : only lost_op p → only quiet p.
Proof. apply only_mono. intros X e. by destruct e. Qed.

Lemma work_quiet {A} (p : worker A) : only work_op p → only quiet p.
Proof. apply only_mono. intros X e. by destruct e as [[] ?| | | | | | | | | | | | | | | | | | | | | | |]. Qed.

Lemma quiet_harvest n : only quiet (harvest_round n).
Proof.
  unfold harvest_round. apply only_bind; [by split|]. intros [r|]; [|done].
  apply only_bind; [|done]. case_match; apply record_quiet, records_complete.
Qed.

Lemma quiet_propagate : only quiet propagate_outbound_cancellations.
Proof.
  apply only_bind; [by split|]. intros [[|k ks]|]; [done| |done]. apply lost_quiet, loses_some.
Qed.

Lemma quiet_pump_all st : only quiet (pump_all st).
Proof.
  unfold pump_all.
  repeat lazymatch goal with
    | |- only _ (mbind _ _) => apply only_bind; [|intros ?]
    | |- only _ (mret _) => exact I
    | |- only _ (op _) => by split
    | |- only _ (match ?x with _ => _ end) => destruct x
    | |- only _ extension_is_installed => unfold extension_is_installed, transaction, spi_get
    | |- only _ (op_exn _) => by split
    | |- only _ (spi _ _) => by split
    | |- only _ (pump_queue _ dispatch_and_claim _ _) => apply work_quiet, works_pump_queue, works_dispatch
    | |- only _ (pump_queue _ _ _ _) => apply work_quiet, works_pump_queue; intros ?; apply works_claim
    end; apply work_quiet, works_if_ready.
  - apply local_pump_sql.
  - apply local_pump_functions.
  - apply local_pump_procedures.
Qed.

Section socket.
Context (json_text : Value → bytes) (json_parse : bytes → option Value).

Lemma quiet_accept r x : only quiet (accept_round json_text json_parse r x).
Proof.
  apply only_bind; [by split|]. intros [data| |e]; [|done|by split].
  apply only_bind; [apply rpc_quiet, answers_stream|done].
Qed.

Lemma quiet_turn fuel st : only quiet (turn json_text json_parse fuel st).
Proof.
  destruct st as [st|]; [|done]. apply only_bind; [by split|]. intros []; [|done].
  apply only_bind; [|done]. unfold tick.
  apply only_bind; [apply only_loop, quiet_accept|]. intros [[]|]; [|done].
  apply only_bind; [apply only_loop, quiet_harvest|]. intros [n|]; [|done].
  apply only_bind; [apply quiet_propagate|]. intros _. apply only_bind; [by split|].
  intros now. case_match; [done|]. by apply only_bind; [apply quiet_pump_all|].
Qed.

End socket.

(** * The claim *)

Section watch.
Context (w : world).

(** The directory is closed to group and others, and so is the socket. *)
Definition socket_closed (m : modes) : Prop :=
  private m (socket_dir w) ∧ m !! rpc_socket_path w = Some mode_600.

Definition snext (m : modes) X (e : wop X) : X → modes :=
  match e in wop X return X → modes with
  | Fs X e => fnext m X e
  | _ => λ _, m
  end.

Definition sallowed (m : modes) X (e : wop X) : Prop :=
  match e with
  | Fs X e => fallowed (socket_dir w) m X e
  | AcceptRpc => socket_closed m
  | _ => True
  end.

Definition socket_watch : monitor wop := Monitor modes sallowed snext.

End watch.

(** C24: in every run of the runtime worker, the RPC socket only appears in a
    directory already closed to group and others, and no connection is
    accepted before the directory and the socket both are. *)
Theorem runtime_socket_closed (json_text : Value → bytes) (json_parse : bytes → option Value)
    (fuel : nat) (w : world) (m : modes) tr r :
  runs (allgres_runtime_main json_text json_parse fuel w) tr r → accepts (socket_watch w) m tr.
Proof.
  intros Hr. apply (wpr_runs (socket_watch w) _ (λ _ _, True) m) in Hr as [Ha _]; [exact Ha|].
  unfold allgres_runtime_main. apply wpr_bind, wpr_op; [done|]. intros [].
  apply wpr_bind. apply (wp_translate Fs). change (pull Fs (socket_watch w)) with (privacy (socket_dir w)).
  eapply (wpr_mono (privacy (socket_dir w))); [apply bind_private|].
  intros m' [[]|e] Hm; [|by apply (wpr_op (socket_watch w))].
  apply (wpr_bind (socket_watch w)), wpr_op; [done|]. intros [[]|e]; [|by apply wpr_op].
  apply wpr_bind, wpr_op; [done|]. intros now. apply wpr_bind.
  eapply (wpr_only (socket_watch w) quiet); [apply only_loop, quiet_turn| |].
  - intros X e He. destruct e; try done. by split; [apply Hm|].
  - intros [[?|]|]; [by apply wpr_op|by apply wpr_ret..].
Qed.

Lemma runtime_socket_closed_witness :
  length sample_run.1 = 76 ∧ accepts (socket_watch here) ∅ sample_run.1.
Proof.
  split; [vm_compute; reflexivity|].
  apply (runtime_socket_closed (λ _, bs "{}") (λ _, Some Null) 5 here ∅ _ sample_run.2).
  apply run_with_runs.
Defined.
