(* ===== verification/HttpPool.v ===== *)
(** The HTTP thread pool ([spawn_http_pool] of src/src/outbound.rs) beside the
    runtime worker's program: jobs wait in a channel, pool threads run them one
    at a time, results wait in another channel until they are harvested. *)
From S2P Require Import Prelude RustStr Json Effects Config Worker Policy RuntimeWorker Ledger.

(** * The pool *)

Record hpool : Type := Pool {
  queued : list OutboundJob;        (* the job channel *)
  running : list OutboundJob;       (* one per thread in perform_http *)
  finished : list OutboundResult;   (* the result channel *)
  died : list OutboundJob           (* one per thread that panicked *)
}.

Definition pool0 : hpool := Pool [] [] [] [].

(** The threads that are left. *)
Definition idle (p : hpool) : nat := HTTP_THREADS - length (running p) - length (died p).

(** What a thread makes of a job, whatever the exchange gave. *)
Definition result_of (job : OutboundJob) (status : Z) (body : bytes) : OutboundResult :=
  mkResult (job_call_id job) (job_queue job) status body.

(** The job an operation hands to the pool, the result it takes from it. *)
Definition jobs_of (ev : event wop) : list OutboundJob :=
  match ev_op ev in wop X return X → list OutboundJob with
  | SendJob job => λ sent, if (sent : bool) then [job] else []
  | _ => λ _, []
  end (ev_val ev).

Definition results_of (ev : event wop) : list OutboundResult :=
  match ev_op ev in wop X return X → list OutboundResult with
  | TryRecv => λ r, match r with Some r => [r] | None => [] end
  | _ => λ _, []
  end (ev_val ev).

(** An operation of the runtime worker does to the pool what its answer says;
    results come out of the channel in order. *)
Inductive pool_event : hpool → event wop → hpool → Prop :=
| pool_send p job :
    pool_event p (Event _ (SendJob job) true)
      (Pool (queued p ++ [job]) (running p) (finished p) (died p))
| pool_recv p r rest :
    finished p = r :: rest →
    pool_event p (Event _ TryRecv (Some r)) (Pool (queued p) (running p) rest (died p))
| pool_other p ev :
    jobs_of ev = [] → results_of ev = [] → pool_event p ev p.

(** What the pool's threads do on their own: take the next job, finish one, or
    die in a panic, which takes the thread and its job away. How a thread comes
    to an end of its job is left to Cancel, whose threads run [perform_http] and
    refine these steps ([Cancel.cstep_refines]). *)
Inductive thread_step : hpool → hpool → Prop :=
| thread_take p job rest :
    queued p = job :: rest → 0 < idle p →
    thread_step p (Pool rest (job :: running p) (finished p) (died p))
| thread_finish p before job after status body :
    running p = before ++ job :: after →
    thread_step p (Pool (queued p) (before ++ after) (finished p ++ [result_of job status body]) (died p))
| thread_panic p before job after :
    running p = before ++ job :: after →
    thread_step p (Pool (queued p) (before ++ after) (finished p) (job :: died p)).

(** * The system *)

(** The pool, what is left of the runtime worker's program, its ledger, and the
    jobs ever submitted and results ever harvested. *)
Record psys : Type := PSys {
  the_pool : hpool;
  todo : prog wop (exn unit);
  the_books : ledger;
  submitted : list OutboundJob;
  harvested : list OutboundResult
}.

Section pool.
Context (json_text : Value → bytes) (json_parse : bytes → option Value).

Inductive pstep : psys → psys → Prop :=
| pstep_runtime s X (e : wop X) k x p' :
    todo s = Do e k → pool_event (the_pool s) (Event X e x) p' →
    pstep s (PSys p' (k x) (next (books json_parse) (the_books s) e x)
               (submitted s ++ jobs_of (Event X e x)) (harvested s ++ results_of (Event X e x)))
| pstep_thread s p' :
    thread_step (the_pool s) p' →
    pstep s (PSys p' (todo s) (the_books s) (submitted s) (harvested s)).

Inductive psteps : psys → psys → Prop :=
| psteps_refl s : psteps s s
| psteps_step s1 s2 s3 : pstep s1 s2 → psteps s2 s3 → psteps s1 s3.

Definition psys0 (fuel : nat) (w : world) : psys :=
  PSys pool0 (allgres_runtime_main json_text json_parse fuel w) ledger0 [] [].

(** * The invariant *)

Definition job_key (j : OutboundJob) : bytes * OutboundQueue := (job_call_id j, job_queue j).
Definition res_key (r : OutboundResult) : bytes * OutboundQueue := (res_call_id r, res_queue r).

(** The jobs the pool holds, and the keys of all of them. *)
Definition held (p : hpool) : nat :=
  length (queued p) + length (running p) + length (finished p) + length (died p).

Definition pool_keys (p : hpool) : list (bytes * OutboundQueue) :=
  (job_key <$> queued p) ++ (job_key <$> running p) ++ (res_key <$> finished p) ++ (job_key <$> died p).

Definition pool_ok (p : hpool) (s : psys) : Prop :=
  (job_key <$> submitted s) ≡ₚ pool_keys p ++ (res_key <$> harvested s)
  ∧ length (running p) + length (died p) ≤ HTTP_THREADS
  ∧ flying (the_books s) = held p.

Definition pool_inv (s : psys) : Prop :=
  pool_ok (the_pool s) s
  ∧ (honest (the_books s) = true → flying (the_books s) ≤ capacity)
  ∧ wp (books json_parse) (todo s) (λ _ _, True) (the_books s).

Lemma thread_step_ok p p' s : pool_ok p s → thread_step p p' → pool_ok p' s.
Proof.
  intros (Hperm & Hrun & Hfly) Hstep. unfold pool_ok, pool_keys, held in *.
  destruct Hstep as [p job rest Hq Hlt|p b job a st body Hb|p b job a Hb];
    simpl in *; rewrite ?Hq, ?Hb in *; unfold idle in *; rewrite ?length_app in *; simpl in *;
    (split_and!; [|lia|lia]); rewrite Hperm, ?fmap_app; simpl; solve_Permutation.
Qed.

Lemma books_flying_other (l : ledger) ev :
  jobs_of ev = [] → results_of ev = [] →
  flying (next (books json_parse) l (ev_op ev) (ev_val ev)) = flying l.
Proof.
  intros Hs Hr. destruct ev as [X e x]. destruct e; simpl in *; try done.
  - unfold lspi. by repeat case_match.
  - by case_match.
  - by destruct x.
  - by destruct x.
Qed.

Lemma runtime_step_ok s ev p' t :
  pool_ok (the_pool s) s → pool_event (the_pool s) ev p' →
  pool_ok p' (PSys p' t (next (books json_parse) (the_books s) (ev_op ev) (ev_val ev))
                (submitted s ++ jobs_of ev) (harvested s ++ results_of ev)).
Proof.
  intros (Hperm & Hrun & Hfly) Hev. unfold pool_ok, pool_keys, held in *.
  destruct Hev as [p job|p r rest Hf|p ev Hs Hr];
    cbn [the_pool the_books submitted harvested queued running finished died].
  - simpl. split_and!; [|done|rewrite length_app; simpl; lia].
    rewrite !fmap_app, app_nil_r, Hperm. simpl. solve_Permutation.
  - simpl. rewrite Hf in *. simpl in *. split_and!; [|done|lia].
    rewrite app_nil_r, fmap_app, Hperm. simpl. solve_Permutation.
  - rewrite (books_flying_other (the_books s) ev Hs Hr), Hs, Hr, !app_nil_r. by split_and!.
Qed.

(** The ledger never lets the pool overflow while claims keep their limits. *)
Lemma books_capacity (l : ledger) X (e : wop X) x :
  allowed (books json_parse) l e → (honest l = true → flying l ≤ capacity) →
  honest (next (books json_parse) l e x) = true →
  flying (next (books json_parse) l e x) ≤ capacity.
Proof.
  intros Ha Hc. destruct e; simpl in *; try done.
  - unfold lspi. repeat case_match; simpl in *; try done.
    rewrite andb_true_iff. intros [Hh _]. by apply Hc.
  - by case_match.
  - case_match; simpl; [|done]. intros Hh. specialize (Hc Hh). lia.
  - destruct Ha as (_ & _ & _ & Hlt). destruct x; simpl; [|done]. intros Hh. specialize (Hlt Hh). lia.
Qed.

Lemma pstep_inv s s' : pool_inv s → pstep s s' → pool_inv s'.
Proof.
  intros (Hok & Hcap & Hw) Hstep. destruct Hstep as [s X e k x p' Htodo Hev|s p' Hth].
  - rewrite Htodo in Hw. destruct Hw as [Ha Hk]. split_and!.
    + by apply (runtime_step_ok s (Event X e x)).
    + by apply books_capacity.
    + apply Hk.
  - split_and!; [|done|done]. by eapply thread_step_ok.
Qed.

Lemma psteps_inv fuel w s : psteps (psys0 fuel w) s → pool_inv s.
Proof.
  assert (pool_inv (psys0 fuel w)) as H0.
  { split_and!; [by split_and!; simpl; try lia|simpl; lia|].
    eapply wp_mono; [|apply (books_main json_text)]. done. }
  revert H0. generalize (psys0 fuel w). intros s0 H0 Hs.
  induction Hs as [|s1 s2 s3 H12 _ IH]; [done|]. by eapply IH, pstep_inv.
Qed.

Lemma psteps_trans s1 s2 s3 : psteps s1 s2 → psteps s2 s3 → psteps s1 s3.
Proof. induction 1; [done|]. intros. econstructor; eauto. Qed.

End pool.

(** * Claims *)

(** C20: however the runtime worker's program and the pool threads interleave,
    and whatever PostgreSQL and the network answer, no job is lost and none
    answered twice: the calls submitted are, with their queues, exactly those
    still queued, being run, waiting to be harvested, harvested, or gone with
    a thread that panicked; the threads are never more than four; the ledger's
    count is the number of jobs with the pool, and within the capacity unless
    a claim gave more than it was asked for. *)
Theorem pool_conserves_jobs json_text json_parse fuel w s :
  psteps json_parse (psys0 json_text json_parse fuel w) s →
  let p := the_pool s in
  (job_key <$> submitted s) ≡ₚ pool_keys p ++ (res_key <$> harvested s)
  ∧ length (running p) + length (died p) ≤ HTTP_THREADS
  ∧ flying (the_books s) = held p
  ∧ (honest (the_books s) = true → held p ≤ capacity).
Proof.
  intros Hs. apply psteps_inv in Hs as ((H1 & H2 & H3) & H4 & _). split_and!; [done..|].
  by rewrite <- H3.
Qed.

(** A schedule for the witness: the latch always wakes, nobody connects, and
    the OAuth queue has a call. *)
Definition pool_answer (p : hpool) X (e : wop X) : X :=
  match e in wop X return X with
  | WaitLatch => true
  | AcceptRpc => WouldBlock
  | TryRecv => head (finished p)
  | e => (scripted sample_answer _ e tt).1
  end.

Definition pool_drive (s : psys) : psys :=
  match todo s with
  | Done _ => s
  | Do e k =>
      let x := pool_answer (the_pool s) _ e in
      let p := the_pool s in
      let ev := Event _ e x in
      PSys (Pool (queued p ++ jobs_of ev) (running p) (drop (length (results_of ev)) (finished p)) (died p))
        (k x) (next (books (λ _, Some Null)) (the_books s) e x)
        (submitted s ++ jobs_of ev) (harvested s ++ results_of ev)
  end.

Lemma pool_drive_steps n s : psteps (λ _, Some Null) s (Nat.iter n pool_drive s).
Proof.
  induction n as [|n IH]; [constructor|]. eapply psteps_trans; [exact IH|].
  change (Nat.iter (S n) pool_drive s) with (pool_drive (Nat.iter n pool_drive s)).
  generalize (Nat.iter n pool_drive s). clear s IH. intros s. unfold pool_drive.
  destruct (todo s) as [a|X e k] eqn:Ht; [constructor|].
  eapply psteps_step; [|constructor]. apply pstep_runtime; [done|].
  destruct (the_pool s) as [q r f d]. destruct e; simpl; rewrite ?app_nil_r, ?drop_0;
    try (by apply pool_other).
  - destruct f as [|r0 f]; [by apply pool_other|]. by apply (pool_recv (Pool q r (r0 :: f) d)).
  - apply (pool_send (Pool q r f d)).
Qed.

Definition sent_one : psys := Nat.iter 36 pool_drive (psys0 (λ _, bs "{}") (λ _, Some Null) 5 here).

Lemma pool_conserves_jobs_witness :
  length (queued (the_pool sent_one)) = 1
  ∧ (job_key <$> submitted sent_one) ≡ₚ pool_keys (the_pool sent_one) ++ (res_key <$> harvested sent_one).
Proof.
  split; [vm_compute; reflexivity|].
  apply (pool_conserves_jobs (λ _, bs "{}") (λ _, Some Null) 5 here), pool_drive_steps.
Defined.
