(* ===== verification/Cancel.v ===== *)
(** The operator's stop, from the runtime worker to the threads that wait on
    the network: the cancellation flags of src/src/outbound.rs
    ([OUTBOUND_CANCEL_FLAGS], [CancelGuard], [check_cancelled]), with the pool's
    threads running [perform_http] beside the runtime worker's program. *)
From S2P Require Import Prelude RustStr Json Effects Config Outbound Transport Worker Policy.
From S2P Require Import RuntimeWorker Ledger HttpPool.

(** * The flags *)

(** The shared booleans, and the map from the calls that run to theirs. *)
Record cancel_flags : Type := CancelFlags { arcs : list bool; by_call : gmap bytes nat }.

Definition flags0 : cancel_flags := CancelFlags [] ∅.

(** [CancelGuard::register]: a new flag, not set. *)
Definition register (call_id : bytes) (f : cancel_flags) : nat * cancel_flags :=
  let n := length (arcs f) in (n, CancelFlags (arcs f ++ [false]) (<[call_id := n]> (by_call f))).

(** [CancelGuard::drop] *)
Definition drop_guard (call_id : bytes) (f : cancel_flags) : cancel_flags :=
  CancelFlags (arcs f) (delete call_id (by_call f)).

Definition check_cancelled (flag : nat) (f : cancel_flags) : result unit terr :=
  if default false (arcs f !! flag) then Err cancelled_error else Ok tt.

(** The last loop of [propagate_outbound_cancellations]. *)
Definition store_flag (f : cancel_flags) (call_id : bytes) : cancel_flags :=
  match by_call f !! call_id with
  | Some n => CancelFlags (<[n := true]> (arcs f)) (by_call f)
  | None => f
  end.

Definition store_flags (lost : list bytes) (f : cancel_flags) : cancel_flags := fold_left store_flag lost f.

(** * The threads *)

(** A pool thread with a job: its guard's flag while there is one, and what is
    left of [perform_http]. *)
Record call_thread : Type := Thread {
  t_job : OutboundJob;
  t_flag : option nat;
  t_todo : prog pop (exn (Z * bytes))
}.

Definition t_id (t : call_thread) : bytes := job_call_id (t_job t).

(** The worker, the channels, the threads and the flags. *)
Record csys : Type := CSys {
  cqueued : list OutboundJob;
  threads : list call_thread;
  cfinished : list OutboundResult;
  cdied : list OutboundJob;
  cworker : prog wop (exn unit);
  cbooks : ledger;
  csubmitted : list OutboundJob;
  charvested : list OutboundResult;
  cflags : cancel_flags
}.

(** The same system without the threads' programs. *)
Definition forget (s : csys) : psys :=
  PSys (Pool (cqueued s) (t_job <$> threads s) (cfinished s) (cdied s)) (cworker s) (cbooks s)
    (csubmitted s) (charvested s).

(** What is seen of a step: calls that begin and end, looks at a flag, and the
    calls the worker was told are lost. *)
Inductive label : Type :=
| Began (id : bytes)
| Ended (id : bytes)
| Looked (id : bytes) (answer : result unit terr)
| Told (lost : list bytes)
| Served                       (* another operation of the worker *)
| Quiet.                       (* another step of a thread *)

(** An operation of the worker on the flags. *)
Inductive flag_event (f : cancel_flags) : event wop → label → cancel_flags → Prop :=
| flag_keys ks :
    ks ≡ₚ (map_to_list (by_call f)).*1 →
    flag_event f (Event _ CancelKeys (Some ks)) Served f
| flag_set lost : flag_event f (Event _ (SetCancelFlags lost) tt) (Told lost) (store_flags lost f)
| flag_other ev :
    (match ev_op ev with CancelKeys | SetCancelFlags _ => False | _ => True end) →
    flag_event f ev Served f.

Definition with_threads (s : csys) (ts : list call_thread) (f : cancel_flags) : csys :=
  CSys (cqueued s) ts (cfinished s) (cdied s) (cworker s) (cbooks s) (csubmitted s) (charvested s) f.

Section system.
Context (json_text : Value → bytes) (json_parse : bytes → option Value).

Inductive cstep : csys → label → csys → Prop :=
| cstep_worker s X (e : wop X) k x p' l f' :
    cworker s = Do e k →
    pool_event (the_pool (forget s)) (Event X e x) p' →
    flag_event (cflags s) (Event X e x) l f' →
    cstep s l (CSys (queued p') (threads s) (finished p') (died p') (k x)
                 (next (books json_parse) (cbooks s) e x)
                 (csubmitted s ++ jobs_of (Event X e x)) (charvested s ++ results_of (Event X e x)) f')
| cstep_take s job rest :
    cqueued s = job :: rest → 0 < idle (the_pool (forget s)) →
    cstep s Quiet
      (CSys rest (Thread job None (perform_http json_parse (job_call_id job) (job_call job)) :: threads s)
         (cfinished s) (cdied s) (cworker s) (cbooks s) (csubmitted s) (charvested s) (cflags s))
| cstep_register s before t after id k n f' :
    threads s = before ++ t :: after → t_todo t = Do (Register id) k →
    register id (cflags s) = (n, f') →
    cstep s (Began id) (with_threads s (before ++ Thread (t_job t) (Some n) (k tt) :: after) f')
| cstep_unregister s before t after id k :
    threads s = before ++ t :: after → t_todo t = Do (Unregister id) k →
    cstep s (Ended id)
      (with_threads s (before ++ Thread (t_job t) None (k tt) :: after) (drop_guard id (cflags s)))
| cstep_look s before t after r k n :
    threads s = before ++ t :: after → t_todo t = Do (Send r) k → t_flag t = Some n →
    cstep s (Looked (t_id t) (check_cancelled n (cflags s))) s
| cstep_sent s before t after r k x :
    threads s = before ++ t :: after → t_todo t = Do (Send r) k →
    cstep s Quiet (with_threads s (before ++ Thread (t_job t) (t_flag t) (k x) :: after) (cflags s))
| cstep_finish s before t after status body :
    threads s = before ++ t :: after → t_todo t = Done (Returned (status, body)) →
    cstep s Quiet
      (CSys (cqueued s) (before ++ after) (cfinished s ++ [result_of (t_job t) status body]) (cdied s)
         (cworker s) (cbooks s) (csubmitted s) (charvested s) (cflags s))
| cstep_panic s before t after r k n :
    (* ureq panics: the guard is dropped, and the thread is gone *)
    threads s = before ++ t :: after → t_todo t = Do (Send r) k → t_flag t = Some n →
    cstep s (Ended (t_id t))
      (CSys (cqueued s) (before ++ after) (cfinished s) (t_job t :: cdied s)
         (cworker s) (cbooks s) (csubmitted s) (charvested s) (drop_guard (t_id t) (cflags s))).

(** Steps from a state, with what was seen. *)
Inductive csteps (s0 : csys) : list label → csys → Prop :=
| csteps_refl : csteps s0 [] s0
| csteps_step tr s l s' : csteps s0 tr s → cstep s l s' → csteps s0 (tr ++ [l]) s'.

Definition csys0 (fuel : nat) (w : world) : csys :=
  CSys [] [] [] [] (allgres_runtime_main json_text json_parse fuel w) ledger0 [] [] flags0.

(** ** The abstract pool *)

Lemma pool_event_running p ev p' : pool_event p ev p' → running p' = running p.
Proof. by intros []. Qed.

(** A step of the threads' programs is one of the pool, or none. *)
Lemma cstep_refines s l s' :
  cstep s l s' → forget s = forget s' ∨ pstep json_parse (forget s) (forget s').
Proof.
  intros Hstep. destruct Hstep as
    [s X e k x p' l f' Hw Hev Hf|s job rest Hq Hi|s b t a id k n f' Ht _ _|s b t a id k Ht _
    |s b t a r k n Ht _ _|s b t a r k x Ht _|s b t a st body Ht _|s b t a r k n Ht _ _];
    unfold forget; cbn [cqueued threads cfinished cdied cworker cbooks csubmitted charvested with_threads];
    rewrite ?Ht, ?fmap_app; cbn [fmap list_fmap t_job].
  - right. pose proof (pool_event_running _ _ _ Hev) as Hrun.
    destruct p' as [q r f d]. cbn [queued running finished died] in *. subst r.
    exact (pstep_runtime json_parse (forget s) X e k x (Pool q (running (the_pool (forget s))) f d) Hw Hev).
  - right. apply (pstep_thread json_parse (forget s)
      (Pool rest (job :: (t_job <$> threads s)) (cfinished s) (cdied s))).
    by apply (thread_take (the_pool (forget s)) job rest).
  - by left.
  - by left.
  - by left.
  - by left.
  - right. apply (pstep_thread json_parse (PSys (Pool (cqueued s) _ (cfinished s) (cdied s)) _ _ _ _)
      (Pool (cqueued s) ((t_job <$> b) ++ (t_job <$> a)) (cfinished s ++ [result_of (t_job t) st body]) (cdied s))).
    by apply (thread_finish (Pool (cqueued s) _ (cfinished s) (cdied s)) (t_job <$> b) (t_job t) (t_job <$> a)).
  - right. apply (pstep_thread json_parse (PSys (Pool (cqueued s) _ (cfinished s) (cdied s)) _ _ _ _)
      (Pool (cqueued s) ((t_job <$> b) ++ (t_job <$> a)) (cfinished s) (t_job t :: cdied s))).
    by apply (thread_panic (Pool (cqueued s) _ (cfinished s) (cdied s)) (t_job <$> b) (t_job t) (t_job <$> a)).
Qed.

Lemma csteps_refine s0 tr s :
  csteps s0 tr s → psteps json_parse (forget s0) (forget s).
Proof.
  induction 1 as [|tr s l s' _ IH Hstep]; [constructor|]. eapply psteps_trans; [exact IH|].
  destruct (cstep_refines s l s' Hstep) as [->|Hp]; [constructor|].
  eapply psteps_step; [exact Hp|constructor].
Qed.

End system.

(** * The history of a call *)

(** Whether [id] was among the lost calls since it last began. *)
Definition told (id : bytes) (b : bool) (l : label) : bool :=
  match l with
  | Began id' => if decide (id' = id) then false else b
  | Told lost => b || bool_decide (id ∈ lost)
  | _ => b
  end.

Definition told_since (id : bytes) (tr : list label) : bool := fold_left (told id) tr false.

(** Whether a call of that id is running. *)
Definition alive (id : bytes) (b : bool) (l : label) : bool :=
  match l with
  | Began id' => if decide (id' = id) then true else b
  | Ended id' => if decide (id' = id) then false else b
  | _ => b
  end.

Definition live (id : bytes) (tr : list label) : bool := fold_left (alive id) tr false.

(** No call begins while another of its id runs. *)
Definition distinct_calls (tr : list label) : Prop :=
  ∀ before id after, tr = before ++ Began id :: after → live id before = false.

Lemma distinct_snoc tr l :
  distinct_calls (tr ++ [l]) → distinct_calls tr ∧ ∀ id, l = Began id → live id tr = false.
Proof.
  intros H. split.
  - intros b id a ->. apply (H b id (a ++ [l])). by rewrite <- app_assoc.
  - intros id ->. by apply (H tr id []).
Qed.

(** * What a thread does with its guard *)

Inductive guard_phase : Type := Waiting | Guarded | Released.

#[export] Instance guard_phase_eq_dec : EqDecision guard_phase.
Proof. solve_decision. Defined.

Definition guard_allowed (id : bytes) (ph : guard_phase) X (e : pop X) : Prop :=
  match e with
  | Register i => i = id ∧ ph = Waiting
  | Unregister i => i = id ∧ ph = Guarded
  | Send _ => ph = Guarded
  end.

Definition guard_next (ph : guard_phase) X (e : pop X) (_ : X) : guard_phase :=
  match e with Register _ => Guarded | Unregister _ => Released | Send _ => ph end.

Definition guarding (id : bytes) : monitor pop := Monitor guard_phase (guard_allowed id) guard_next.

Definition sends X (e : pop X) : Prop := match e with Send _ => True | _ => False end.

Lemma perform_call_sends json_parse call : only sends (perform_call json_parse call).
Proof.
  unfold perform_call, mcp_call, mcp_direct, mcp_initialized, function_call, oauth_call, send,
    mcp_request.
  repeat lazymatch goal with
    | |- only _ (mbind _ _) => apply only_bind; [|intros ?]
    | |- only _ (mret _) => exact I
    | |- only _ (op _) => split; [exact I|intros ?; exact I]
    | |- only _ (match ?x with _ => _ end) => destruct x
    end.
Qed.

(** The guard is registered first, held through every request, and dropped. *)
Lemma perform_http_guarded json_parse id call :
  wp (guarding id) (perform_http json_parse id call) (λ ph _, ph = Released) Waiting.
Proof.
  unfold perform_http. apply wp_io_bind. split; [done|]. intros [].
  cbn [on_return]. apply wp_io_bind, wp_try.
  eapply wp_mono; [|apply (only_wp sends); [|apply perform_call_sends]].
  - intros ph r ->. cbn [on_return]. apply wp_io_bind. split; [done|]. intros []. cbn [on_return].
    by destruct r.
  - intros X e He. by destruct e.
Qed.

(** * The invariant *)

Definition thread_ok (t : call_thread) : Prop :=
  ∃ ph, wp (guarding (t_id t)) (t_todo t) (λ ph _, ph = Released) ph
    ∧ (ph = Guarded ↔ is_Some (t_flag t)).

(** The call a thread has registered. *)
Definition guard_of (t : call_thread) : option (bytes * nat) := n ← t_flag t; Some (t_id t, n).

Definition flags_ok (tr : list label) (f : cancel_flags) : Prop :=
  (∀ id n, by_call f !! id = Some n → arcs f !! n = Some (told_since id tr))
  ∧ (∀ i j n, by_call f !! i = Some n → by_call f !! j = Some n → i = j)
  ∧ (∀ id, live id tr = true ↔ is_Some (by_call f !! id)).

Definition cinv (tr : list label) (s : csys) : Prop :=
  map_to_list (by_call (cflags s)) ≡ₚ omap guard_of (threads s)
  ∧ flags_ok tr (cflags s) ∧ Forall thread_ok (threads s).

Lemma told_snoc id tr l : told_since id (tr ++ [l]) = told id (told_since id tr) l.
Proof. unfold told_since. by rewrite fold_left_app. Qed.

Lemma live_snoc id tr l : live id (tr ++ [l]) = alive id (live id tr) l.
Proof. unfold live. by rewrite fold_left_app. Qed.

(** Steps that neither begin, end nor tell. *)
Lemma flags_ok_quiet tr f l :
  (∀ id b, told id b l = b ∧ alive id b l = b) → flags_ok tr f → flags_ok (tr ++ [l]) f.
Proof.
  intros Hl (H1 & H2 & H3). split_and!; [|done|].
  - intros id n Hn. rewrite told_snoc, (proj1 (Hl _ _)). by apply H1.
  - intros id. rewrite live_snoc, (proj2 (Hl _ _)). apply H3.
Qed.

(** Setting one flag. *)
Lemma store_flag_by_call f id : by_call (store_flag f id) = by_call f.
Proof. unfold store_flag. by case_match. Qed.

Lemma store_flags_spec lost f (value : bytes → bool) :
  (∀ id n, by_call f !! id = Some n → arcs f !! n = Some (value id)) →
  (∀ i j n, by_call f !! i = Some n → by_call f !! j = Some n → i = j) →
  by_call (store_flags lost f) = by_call f
  ∧ ∀ id n, by_call f !! id = Some n →
      arcs (store_flags lost f) !! n = Some (value id || bool_decide (id ∈ lost)).
Proof.
  revert f value. induction lost as [|i lost IH]; intros f value Hv Hinj.
  { split; [done|]. intros id n Hn. change (store_flags [] f) with f. rewrite (Hv id n Hn). f_equal.
    rewrite bool_decide_eq_false_2 by set_solver. by rewrite orb_false_r. }
  destruct (IH (store_flag f i) (λ id, value id || bool_decide (id = i))) as [H1 H2].
  - intros id n. rewrite store_flag_by_call. intros Hn. unfold store_flag.
    destruct (by_call f !! i) as [m|] eqn:Hi.
    + cbn [arcs]. destruct (decide (m = n)) as [->|Hne].
      * rewrite (Hinj id i n) by done. rewrite list_lookup_insert_eq
          by (eapply lookup_lt_Some; by apply (Hv i)).
        by rewrite bool_decide_eq_true_2, orb_true_r.
      * rewrite list_lookup_insert_ne, (Hv id n Hn) by done. f_equal.
        rewrite bool_decide_eq_false_2, orb_false_r by congruence. done.
    + rewrite (Hv id n Hn). f_equal. rewrite bool_decide_eq_false_2, orb_false_r by congruence. done.
  - intros a b n. rewrite store_flag_by_call. apply Hinj.
  - rewrite store_flag_by_call in *. split; [done|]. intros id n Hn.
    change (store_flags (i :: lost) f) with (store_flags lost (store_flag f i)).
    rewrite (H2 id n Hn). f_equal. rewrite <- orb_assoc. f_equal.
    destruct (decide (id = i)) as [->|Hne].
    + rewrite (bool_decide_eq_true_2 (i = i)) by done.
      by rewrite (bool_decide_eq_true_2 (i ∈ i :: lost)) by set_solver.
    + rewrite (bool_decide_eq_false_2 (id = i)) by done. cbn [orb].
      apply bool_decide_ext. set_solver.
Qed.

Lemma flags_ok_told tr f lost : flags_ok tr f → flags_ok (tr ++ [Told lost]) (store_flags lost f).
Proof.
  intros (H1 & H2 & H3).
  destruct (store_flags_spec lost f (λ id, told_since id tr) H1 H2) as [Hb Ha].
  split_and!.
  - intros id n. rewrite Hb. intros Hn. rewrite told_snoc. by apply Ha.
  - rewrite Hb. exact H2.
  - intros id. rewrite Hb, live_snoc. apply H3.
Qed.

Lemma flags_ok_began tr f id n f' :
  flags_ok tr f → live id tr = false → register id f = (n, f') → flags_ok (tr ++ [Began id]) f'.
Proof.
  intros (H1 & H2 & H3) Hl [= <- <-]. unfold flags_ok. cbn [arcs by_call].
  assert (∀ j m, by_call f !! j = Some m → m < length (arcs f)) as Hlt
    by (intros j m Hj; eapply lookup_lt_Some; by apply (H1 j)).
  split_and!.
  - intros j m. rewrite told_snoc. cbn [told]. destruct (decide (id = j)) as [->|Hne].
    + rewrite lookup_insert_eq. intros [= <-]. by rewrite lookup_app_r, Nat.sub_diag.
    + rewrite lookup_insert_ne by done. intros Hj. rewrite lookup_app_l by eauto. by apply H1.
  - intros i j m. destruct (decide (i = id)) as [->|Hi], (decide (j = id)) as [->|Hj];
      rewrite ?lookup_insert_eq, ?lookup_insert_ne by done; try done; try apply H2.
    + intros [= <-] Hm. apply Hlt in Hm. lia.
    + intros Hm [= <-]. apply Hlt in Hm. lia.
  - intros j. rewrite live_snoc. cbn [alive]. destruct (decide (id = j)) as [->|Hne].
    + rewrite lookup_insert_eq. by split.
    + rewrite lookup_insert_ne by done. apply H3.
Qed.

Lemma flags_ok_ended tr f id : flags_ok tr f → flags_ok (tr ++ [Ended id]) (drop_guard id f).
Proof.
  intros (H1 & H2 & H3). unfold flags_ok. cbn [drop_guard arcs by_call]. split_and!.
  - intros j m. rewrite lookup_delete_Some, told_snoc. intros [_ Hm]. by apply H1.
  - intros i j m. rewrite !lookup_delete_Some. intros [_ Hi] [_ Hj]. by eapply H2.
  - intros j. rewrite live_snoc. cbn [alive]. destruct (decide (id = j)) as [->|Hne].
    + rewrite lookup_delete_eq. by split; [|intros []].
    + rewrite lookup_delete_ne by done. apply H3.
Qed.

(** A thread among the others. *)
Lemma omap_middle {A B} (f : A → option B) l1 a l2 :
  omap f (l1 ++ a :: l2) ≡ₚ option_list (f a) ++ omap f (l1 ++ l2).
Proof.
  rewrite !omap_app. cbn. destruct (f a); [|done]. simpl. by rewrite Permutation_middle.
Qed.

Lemma Forall_middle {A} (P : A → Prop) l1 a l2 : Forall P (l1 ++ a :: l2) ↔ P a ∧ Forall P (l1 ++ l2).
Proof. rewrite !Forall_app, Forall_cons. tauto. Qed.

(** The map without the call of one thread. *)
Lemma guards_drop f t n others :
  map_to_list (by_call f) ≡ₚ option_list (guard_of t) ++ others → t_flag t = Some n →
  by_call f !! t_id t = Some n ∧ map_to_list (by_call (drop_guard (t_id t) f)) ≡ₚ others.
Proof.
  unfold guard_of. intros Hp Hn. rewrite Hn in Hp. cbn in Hp.
  assert (by_call f !! t_id t = Some n) as Hl.
  { apply elem_of_map_to_list. rewrite Hp. set_solver. }
  split; [done|]. cbn [drop_guard by_call]. apply (Permutation_cons_inv (a := (t_id t, n))).
  by rewrite map_to_list_delete.
Qed.

Section invariant.
Context (json_text : Value → bytes) (json_parse : bytes → option Value).

(** A thread takes one step of its program. *)
Lemma thread_ok_step t X (e : pop X) k x flag :
  thread_ok t → t_todo t = Do e k →
  (∀ ph, guard_allowed (t_id t) ph X e → (ph = Guarded ↔ is_Some (t_flag t)) →
         guard_next ph X e x = Guarded ↔ is_Some flag) →
  thread_ok (Thread (t_job t) flag (k x)).
Proof.
  intros (ph & Hw & Hph) Ht Hflag. rewrite Ht in Hw. destruct Hw as [Ha Hk].
  exists (guard_next ph X e x). split; [apply Hk|by apply Hflag].
Qed.

(** What an operation says of the thread's guard. *)
Lemma thread_ok_allowed t X (e : pop X) k :
  thread_ok t → t_todo t = Do e k →
  ∃ ph, guard_allowed (t_id t) ph X e ∧ (ph = Guarded ↔ is_Some (t_flag t)).
Proof. intros (ph & Hw & Hph) Ht. rewrite Ht in Hw. destruct Hw. by exists ph. Qed.

Lemma no_guard ph (o : option nat) : (ph = Guarded ↔ is_Some o) → ph ≠ Guarded → o = None.
Proof. intros H Hne. apply eq_None_not_Some. by rewrite <- H. Qed.

Lemma guard_of_none t : t_flag t = None → guard_of t = None.
Proof. unfold guard_of. by intros ->. Qed.

Lemma cinv_quiet tr s s' :
  cinv tr s → cflags s' = cflags s → threads s' = threads s → cinv (tr ++ [Quiet]) s'.
Proof.
  intros (H1 & H2 & H3) Hf Ht. unfold cinv. rewrite Hf, Ht. split_and!; [done| |done].
  by apply flags_ok_quiet.
Qed.

Lemma cinv_worker tr s s' ev l :
  cinv tr s → flag_event (cflags s) ev l (cflags s') → threads s' = threads s → cinv (tr ++ [l]) s'.
Proof.
  intros (H1 & H2 & H3) Hf Ht. unfold cinv. rewrite Ht. revert Hf. generalize (cflags s').
  intros f' Hf. destruct Hf as [ks Hks|lost|ev Hev].
  - split_and!; [done|by apply flags_ok_quiet|done].
  - split_and!; [|by apply flags_ok_told|done].
    assert (by_call (store_flags lost (cflags s)) = by_call (cflags s)) as ->; [|done].
    destruct H2 as (Ha & Hb & _).
    by destruct (store_flags_spec lost (cflags s) (λ id, told_since id tr) Ha Hb).
  - split_and!; [done|by apply flags_ok_quiet|done].
Qed.

Lemma cstep_inv tr s l s' :
  cinv tr s → cstep json_parse s l s' → (∀ id, l = Began id → live id tr = false) →
  cinv (tr ++ [l]) s'.
Proof.
  intros Hinv Hstep Hfresh. pose proof Hinv as (Hmap & Hflags & Hts). destruct Hstep as
    [s X e k x p' l f' Hw Hev Hf|s job rest Hq Hi|s b t a id k n f' Ht Htodo Hreg|s b t a id k Ht Htodo
    |s b t a r k n Ht Htodo Hn|s b t a r k x Ht Htodo|s b t a st body Ht Htodo|s b t a r k n Ht Htodo Hn].
  - by eapply cinv_worker.
  - split_and!; [exact Hmap|by apply flags_ok_quiet|]. constructor; [|done]. exists Waiting.
    split; [apply perform_http_guarded|]. by split; [|intros []].
  - rewrite Ht in Hmap, Hts. apply Forall_middle in Hts as [Hok Hts].
    destruct (thread_ok_allowed _ _ _ _ Hok Htodo) as (ph & [-> ->] & Hph).
    apply no_guard in Hph as Hnone; [|done].
    unfold cinv. cbn [with_threads cflags threads]. split_and!.
    + assert (by_call (cflags s) !! t_id t = None) as Hfree.
      { apply eq_None_not_Some. destruct Hflags as (_ & _ & H3). rewrite <- H3.
        by rewrite (Hfresh (t_id t) eq_refl). }
      injection Hreg as <- <-. cbn [by_call]. rewrite map_to_list_insert by done.
      rewrite Hmap, !omap_middle, (guard_of_none t) by done. done.
    + eapply flags_ok_began; [done|by apply Hfresh|done].
    + apply Forall_middle. split; [|done]. eapply (thread_ok_step t _ (Register (t_id t))); [done..|].
      intros. by split.
  - rewrite Ht in Hmap, Hts. apply Forall_middle in Hts as [Hok Hts].
    destruct (thread_ok_allowed _ _ _ _ Hok Htodo) as (ph & [-> ->] & Hph).
    destruct (proj1 Hph eq_refl) as [n Hn]. rewrite omap_middle in Hmap.
    destruct (guards_drop _ _ _ _ Hmap Hn) as [Hl Hd].
    unfold cinv. cbn [with_threads cflags threads]. split_and!.
    + rewrite omap_middle. exact Hd.
    + by apply flags_ok_ended.
    + apply Forall_middle. split; [|done]. eapply (thread_ok_step t _ (Unregister (t_id t))); [done..|].
      intros. split; [done|by intros []].
  - split_and!; [done|by apply flags_ok_quiet|done].
  - rewrite Ht in Hmap, Hts. apply Forall_middle in Hts as [Hok Hts].
    unfold cinv. cbn [with_threads cflags threads]. split_and!.
    + rewrite Hmap, !omap_middle. done.
    + by apply flags_ok_quiet.
    + apply Forall_middle. split; [|done]. by eapply (thread_ok_step t _ (Send r)).
  - rewrite Ht in Hmap, Hts. apply Forall_middle in Hts as [Hok Hts].
    assert (t_flag t = None) as Hnone.
    { destruct Hok as (ph & Hw & Hph). rewrite Htodo in Hw. cbn in Hw. subst ph. by apply no_guard in Hph. }
    unfold cinv. cbn [cflags threads]. split_and!; [|by apply flags_ok_quiet|done].
    by rewrite Hmap, omap_middle, (guard_of_none t) by done.
  - rewrite Ht in Hmap, Hts. apply Forall_middle in Hts as [Hok Hts].
    rewrite omap_middle in Hmap. destruct (guards_drop _ _ _ _ Hmap Hn) as [Hl Hd].
    unfold cinv. cbn [cflags threads]. split_and!; [exact Hd|by apply flags_ok_ended|done].
Qed.

Lemma csteps_inv fuel w tr s :
  csteps json_parse (csys0 json_text json_parse fuel w) tr s → distinct_calls tr → cinv tr s.
Proof.
  induction 1 as [|tr s l s' _ IH Hstep]; intros Hd.
  - split_and!; [done| |constructor]. unfold flags_ok. cbn [csys0 cflags flags0 by_call]. split_and!.
    + intros id n. by rewrite lookup_empty.
    + intros i j n. by rewrite lookup_empty.
    + intros id. rewrite lookup_empty. by split; [|intros []].
  - apply distinct_snoc in Hd as [Hd Hf]. by eapply cstep_inv; [apply IH| |].
Qed.

(** A look at a running call's flag. *)
Lemma look_exact tr s before t after n :
  cinv tr s → threads s = before ++ t :: after → t_flag t = Some n →
  check_cancelled n (cflags s) = if told_since (t_id t) tr then Err cancelled_error else Ok tt.
Proof.
  intros (Hmap & (H1 & _ & _) & _) Ht Hn. rewrite Ht, omap_middle in Hmap.
  destruct (guards_drop _ _ _ _ Hmap Hn) as [Hl _]. unfold check_cancelled.
  by rewrite (H1 _ _ Hl).
Qed.

End invariant.

(** * What a thread still has to do *)

(** The program returns within [n] operations, whatever they answer. *)
Fixpoint within {A} (n : nat) (p : io pop A) {struct p} : Prop :=
  match p with
  | Done (Returned _) => True
  | Done (Raised _) => False
  | Do _ k => match n with 0 => False | S m => ∀ x, within m (k x) end
  end.

Lemma within_mono {A} n m (p : io pop A) : n ≤ m → within n p → within m p.
Proof.
  revert n m. induction p as [[a|e]|X e k IH]; intros n m Hle; [done..|].
  destruct n as [|n]; [done|]. destruct m as [|m]; [lia|]. intros H x. apply (IH x n); [lia|apply H].
Qed.

Lemma within_bind {A B} n m (p : io pop A) (f : A → io pop B) :
  within n p → (∀ a, within m (f a)) → within (n + m) (p ≫= f).
Proof.
  intros Hp Hf. revert n Hp. induction p as [[a|e]|X e k IH]; intros n Hp; [|done|].
  - apply (within_mono m); [lia|apply Hf].
  - destruct n as [|n]; [done|]. intros x. apply (IH x n), Hp.
Qed.

Lemma within_try {A B} n m (p : io pop A) (f : exn A → io pop B) :
  within n p → (∀ a, within m (f (Returned a))) → within (n + m) (try p ≫= f).
Proof.
  intros Hp Hf. revert n Hp. induction p as [[a|e]|X e k IH]; intros n Hp; [|done|].
  - apply (within_mono m); [lia|apply Hf].
  - destruct n as [|n]; [done|]. intros x. apply (IH x n), Hp.
Qed.

(** At most three requests: the two of a handshake, and the call. *)
Lemma perform_call_within json_parse call : within 3 (perform_call json_parse call).
Proof.
  unfold perform_call. destruct (get_str (bs "url") call) as [url|]; [|done].
  destruct (negb (scheme_ok url)); [done|].
  assert (∀ allow m h p, within 3 (send url allow m h p)) as Hs by (intros; by intros x).
  case_decide.
  - unfold mcp_call. apply (within_bind 1 2); [by intros x|]. intros [r|e]; [|done].
    destruct (read_response r) as [status text].
    assert (∀ hs allow body, within 2 (mcp_direct url hs allow body)) as Hd
      by (intros; by intros x).
    repeat case_match; try done.
    unfold mcp_initialized. apply (within_bind 1 1); [by intros x|]. intros [r'|e]; [|done].
    case_match; [|done]. by intros x.
  - unfold function_call, oauth_call. repeat case_match; apply Hs.
Qed.

(** And the guard before and after. *)
Lemma perform_http_within json_parse id call : within 5 (perform_http json_parse id call).
Proof.
  unfold perform_http. apply (within_bind 1 4); [by intros x|]. intros [].
  apply (within_try 3 1); [apply perform_call_within|]. intros v.
  apply (within_bind 1 0); [by intros x|]. by intros [].
Qed.

(** Steps of the threads that get on with their work. *)
Definition of_thread (l : label) : Prop :=
  match l with Began _ | Ended _ | Quiet => True | Looked _ _ | Told _ | Served => False end.

Section works.
Context (json_text : Value → bytes) (json_parse : bytes → option Value).

Inductive works : nat → csys → csys → Prop :=
| works_refl s : works 0 s s
| works_step n s1 l s2 s3 :
    cstep json_parse s1 l s2 → of_thread l → works n s2 s3 → works (S n) s1 s3.

(** Each thread with the operations left to it. *)
Definition budget (ns : list nat) (ts : list call_thread) : Prop :=
  Forall2 (λ n t, within n (t_todo t)) ns ts.

Definition cost (ns : list nat) (s : csys) : nat := 7 * length (cqueued s) + sum_list (S <$> ns).

Lemma budget_middle ns b t a :
  budget ns (b ++ t :: a) →
  ∃ nb n na, ns = nb ++ n :: na ∧ budget nb b ∧ within n (t_todo t) ∧ budget na a.
Proof.
  intros (nb & na' & Hb & Ha & ->)%Forall2_app_inv_r.
  apply Forall2_cons_inv_r in Ha as (n & na & Hn & Ha & ->). by exists nb, n, na.
Qed.

Lemma sum_middle nb n na :
  sum_list (S <$> nb ++ n :: na) = S n + sum_list (S <$> nb ++ na).
Proof.
  rewrite !fmap_app, fmap_cons, !sum_list_with_app. cbn [sum_list_with].
  change (id (S n)) with (S n). lia.
Qed.

(** One operation of a thread in the middle. *)
Lemma budget_step ns b t a X (e : pop X) k x flag :
  budget ns (b ++ t :: a) → t_todo t = Do e k →
  ∃ ns', budget ns' (b ++ Thread (t_job t) flag (k x) :: a)
    ∧ sum_list (S <$> ns') < sum_list (S <$> ns).
Proof.
  intros (nb & n & na & -> & Hb & Hn & Ha)%budget_middle Ht. rewrite Ht in Hn.
  destruct n as [|n]; [done|]. exists (nb ++ n :: na). split.
  - apply Forall2_app; [done|]. constructor; [apply Hn|done].
  - rewrite !sum_middle. lia.
Qed.

Lemma budget_drop ns b t a :
  budget ns (b ++ t :: a) →
  ∃ ns', budget ns' (b ++ a) ∧ sum_list (S <$> ns') < sum_list (S <$> ns).
Proof.
  intros (nb & n & na & -> & Hb & Hn & Ha)%budget_middle. exists (nb ++ na). split.
  - by apply Forall2_app.
  - rewrite sum_middle. lia.
Qed.

Lemma cstep_costs s l s' ns :
  cstep json_parse s l s' → of_thread l → budget ns (threads s) →
  ∃ ns', budget ns' (threads s') ∧ cost ns' s' < cost ns s.
Proof.
  intros Hstep Hl Hb. unfold cost. destruct Hstep as
    [s X e k x p' l f' Hw Hev Hf|s job rest Hq Hi|s b t a id k n f' Ht Htodo Hreg|s b t a id k Ht Htodo
    |s b t a r k n Ht Htodo Hn|s b t a r k x Ht Htodo|s b t a st body Ht Htodo|s b t a r k n Ht Htodo Hn];
    cbn [threads cqueued with_threads] in *; try (rewrite Ht in Hb).
  - by destruct Hf.
  - exists (5 :: ns). split; [constructor; [apply perform_http_within|done]|].
    rewrite Hq. cbn [length fmap list_fmap]. simpl. lia.
  - destruct (budget_step _ _ _ _ _ _ _ tt (Some n) Hb Htodo) as (ns' & H1 & H2). exists ns'. split; [done|lia].
  - destruct (budget_step _ _ _ _ _ _ _ tt None Hb Htodo) as (ns' & H1 & H2). exists ns'. split; [done|lia].
  - done.
  - destruct (budget_step _ _ _ _ _ _ _ x (t_flag t) Hb Htodo) as (ns' & H1 & H2). exists ns'. split; [done|lia].
  - destruct (budget_drop _ _ _ _ Hb) as (ns' & H1 & H2). exists ns'. split; [done|lia].
  - destruct (budget_drop _ _ _ _ Hb) as (ns' & H1 & H2). exists ns'. split; [done|lia].
Qed.

Lemma works_cost n s s' ns :
  works n s s' → budget ns (threads s) → ∃ ns', budget ns' (threads s') ∧ n + cost ns' s' ≤ cost ns s.
Proof.
  intros Hw. revert ns. induction Hw as [s|n s1 l s2 s3 Hs Hl _ IH]; intros ns Hb; [by exists ns|].
  destruct (cstep_costs _ _ _ _ Hs Hl Hb) as (ns1 & Hb1 & Hc1). destruct (IH _ Hb1) as (ns2 & Hb2 & Hc2).
  exists ns2. split; [done|lia].
Qed.

(** In every state of the system a thread has at most five operations left. *)
Lemma cstep_within s l s' :
  cstep json_parse s l s' → Forall (λ t, within 5 (t_todo t)) (threads s) →
  Forall (λ t, within 5 (t_todo t)) (threads s').
Proof.
  intros Hstep Hb.
  assert (∀ b t a X (e : pop X) k x flag, threads s = b ++ t :: a → t_todo t = Do e k →
    Forall (λ t, within 5 (t_todo t)) (b ++ Thread (t_job t) flag (k x) :: a)) as Hop.
  { intros b t a X e k x flag Ht Htodo. rewrite Ht in Hb. apply Forall_middle in Hb as [Hn Hb].
    apply Forall_middle. split; [|done]. rewrite Htodo in Hn. apply (within_mono 4); [lia|apply Hn]. }
  destruct Hstep as
    [s X e k x p' l f' Hw Hev Hf|s job rest Hq Hi|s b t a id k n f' Ht Htodo Hreg|s b t a id k Ht Htodo
    |s b t a r k n Ht Htodo Hn|s b t a r k x Ht Htodo|s b t a st body Ht Htodo|s b t a r k n Ht Htodo Hn];
    cbn [threads with_threads] in *; try done.
  - constructor; [apply perform_http_within|done].
  - by eapply (Hop _ _ _ _ (Register id)).
  - by eapply (Hop _ _ _ _ (Unregister id)).
  - by eapply (Hop _ _ _ _ (Send r)).
  - rewrite Ht in Hb. by apply Forall_middle in Hb as [_ Hb].
  - rewrite Ht in Hb. by apply Forall_middle in Hb as [_ Hb].
Qed.

Lemma csteps_within fuel w tr s :
  csteps json_parse (csys0 json_text json_parse fuel w) tr s →
  Forall (λ t, within 5 (t_todo t)) (threads s).
Proof.
  induction 1 as [|tr s l s' _ IH Hstep]; [constructor|]. by eapply cstep_within.
Qed.

Lemma budget_within ts : Forall (λ t, within 5 (t_todo t)) ts → budget (replicate (length ts) 5) ts.
Proof. induction 1; simpl; by constructor. Qed.

(** A thread with something to do can do it. *)
Lemma threads_rest s ns :
  budget ns (threads s) → (∀ l s', cstep json_parse s l s' → ¬ of_thread l) → threads s = [].
Proof.
  intros Hb Hno. destruct (threads s) as [|t a] eqn:Ht; [done|].
  apply Forall2_cons_inv_r in Hb as (n & na & Hn & _ & _).
  destruct (t_todo t) as [[[st body]|m]|X e k] eqn:Htodo; [|done|].
  - exfalso. eapply Hno; [by apply (cstep_finish _ s [] t a st body)|done].
  - exfalso. destruct e as [id|id|r].
    + eapply Hno; [by apply (cstep_register _ s [] t a id k _ _ Ht Htodo eq_refl)|done].
    + eapply Hno; [by apply (cstep_unregister _ s [] t a id k)|done].
    + eapply Hno; [by apply (cstep_sent _ s [] t a r k (Err []))|done].
Qed.

Lemma queue_rest s :
  threads s = [] → length (cdied s) < HTTP_THREADS →
  (∀ l s', cstep json_parse s l s' → ¬ of_thread l) → cqueued s = [].
Proof.
  intros Ht Hd Hno. destruct (cqueued s) as [|job rest] eqn:Hq; [done|]. exfalso.
  eapply Hno; [apply (cstep_take _ s job rest Hq)|done].
  unfold idle, forget. rewrite Ht. cbn [the_pool running died fmap list_fmap length]. lia.
Qed.

End works.

(** * Claims *)

(** C5: the operator's stop reaches the call it is for, and no other: however
    the runtime worker and the pool threads interleave, as long as no call
    begins while another of its id runs, every look a running call takes at its
    flag answers the cancellation exactly when its id was among the calls the
    worker was told are lost since the call began; and the flags the worker
    asks about are exactly those of the calls that run. *)
Theorem stop_reaches_its_call json_text json_parse fuel w tr s :
  csteps json_parse (csys0 json_text json_parse fuel w) tr s → distinct_calls tr →
  (∀ before id answer after, tr = before ++ Looked id answer :: after →
     answer = if told_since id before then Err cancelled_error else Ok tt)
  ∧ map_to_list (by_call (cflags s)) ≡ₚ omap guard_of (threads s).
Proof.
  intros Hs Hd. split; [|by apply (csteps_inv _ _ _ _ _ _ Hs)]. revert Hd.
  induction Hs as [|tr s l s' Hs IH Hstep]; intros Hd b id ans a Htr.
  { by destruct b. }
  apply distinct_snoc in Hd as [Hd _].
  destruct a as [|l' a _] using rev_ind.
  - apply app_inj_tail in Htr as [-> ->].
    inversion Hstep as [? ? ? ? ? ? ? ? ? ? Hf|  | | |? b' t' a' r k n Ht Htodo Hn| | |]; subst.
    + inversion Hf.
    + eapply look_exact; [by eapply csteps_inv|done..].
  - rewrite app_comm_cons, app_assoc in Htr. apply app_inj_tail in Htr as [-> _]. by eapply IH.
Qed.

(** the pool threads running [perform_http], with their guards and looks,
    refine the pool of the abstract system: whatever holds of all its states,
    as the conservation of jobs, holds of theirs. *)
Theorem threads_refine_pool json_text json_parse fuel w tr s :
  csteps json_parse (csys0 json_text json_parse fuel w) tr s →
  psteps json_parse (psys0 json_text json_parse fuel w) (forget s).
Proof. intros Hs. by apply csteps_refine in Hs. Qed.

(** C30: the pool works its jobs off: from any state the worker and the threads
    reach, the threads take on their own at most seven steps for each job
    queued or running -- a call is taken, sends at most three requests between
    its guard's two operations, and ends -- as long as each request returns or
    panics; and when they can take no more, and one of them is left, no job is
    queued and none is running. *)
Theorem pool_works_off json_text json_parse fuel w tr s n s' :
  csteps json_parse (csys0 json_text json_parse fuel w) tr s → works json_parse n s s' →
  n ≤ 7 * (length (cqueued s) + length (threads s))
  ∧ ((∀ l s'', cstep json_parse s' l s'' → ¬ of_thread l) → length (cdied s') < HTTP_THREADS →
     cqueued s' = [] ∧ threads s' = []).
Proof.
  intros Hs Hw. apply csteps_within, budget_within in Hs.
  destruct (works_cost _ _ _ _ _ Hw Hs) as (ns & Hb & Hc). split.
  - unfold cost at 2 in Hc. rewrite fmap_replicate, sum_list_replicate in Hc. lia.
  - intros Hno Hd. assert (threads s' = []) as Ht by by eapply threads_rest.
    split; [by eapply queue_rest|done].
Qed.

(** ** A schedule *)

(** The worker's next operation, or the first thread taking a job, registering
    its guard, looking at its flag, getting an answer, dropping its guard or
    handing in its result. *)
Inductive move : Type :=
| WorkerMoves | TakeJob | RegisterGuard | LookAtFlag | SendReturns | DropGuard | HandIn.

(** Everything succeeds, the OAuth queue has a call, and every call asked about
    is lost. *)
Definition stop_answer (s : csys) X (e : wop X) : X :=
  match e in wop X return X with
  | Spi CheckLostOutbound args => Returned (Ok (head args))
  | Spi (ClaimHttp Oauth) _ =>
      Returned (Ok (Some (obj [(bs "calls", Arr [obj [(bs "call_id", Str sample_id);
                                                       (bs "url", Str (bs "https://id.example/token"))]])])))
  | CancelKeys => Some (map_to_list (by_call (cflags s))).*1
  | e => pool_answer (the_pool (forget s)) _ e
  end.

Definition flag_effect X (e : wop X) (f : cancel_flags) : label * cancel_flags :=
  match e with
  | SetCancelFlags lost => (Told lost, store_flags lost f)
  | _ => (Served, f)
  end.

Definition cmove (m : move) (s : csys) : option (label * csys) :=
  match m with
  | WorkerMoves =>
      match cworker s with
      | Done _ => None
      | Do e k =>
          let x := stop_answer s _ e in
          let ev := Event _ e x in
          let '(l, f') := flag_effect _ e (cflags s) in
          Some (l, CSys (cqueued s ++ jobs_of ev) (threads s) (drop (length (results_of ev)) (cfinished s))
                     (cdied s) (k x) (next (books (λ _, Some Null)) (cbooks s) e x)
                     (csubmitted s ++ jobs_of ev) (charvested s ++ results_of ev) f')
      end
  | TakeJob =>
      match cqueued s with
      | job :: rest =>
          if decide (0 < idle (the_pool (forget s))) then
            Some (Quiet, CSys rest
              (Thread job None (perform_http (λ _, Some Null) (job_call_id job) (job_call job)) :: threads s)
              (cfinished s) (cdied s) (cworker s) (cbooks s) (csubmitted s) (charvested s) (cflags s))
          else None
      | [] => None
      end
  | RegisterGuard =>
      match threads s with
      | t :: after =>
          match t_todo t with
          | Do e k =>
              match e in pop X return (X → prog pop (exn (Z * bytes))) → option (label * csys) with
              | Register id => λ k,
                  let '(n, f') := register id (cflags s) in
                  Some (Began id, with_threads s (Thread (t_job t) (Some n) (k tt) :: after) f')
              | _ => λ _, None
              end k
          | Done _ => None
          end
      | [] => None
      end
  | LookAtFlag =>
      match threads s with
      | t :: _ =>
          match t_todo t, t_flag t with
          | Do (Send _) _, Some n => Some (Looked (t_id t) (check_cancelled n (cflags s)), s)
          | _, _ => None
          end
      | [] => None
      end
  | SendReturns =>
      match threads s with
      | t :: after =>
          match t_todo t with
          | Do e k =>
              match e in pop X return (X → prog pop (exn (Z * bytes))) → option (label * csys) with
              | Send _ => λ k,
                  Some (Quiet, with_threads s
                    (Thread (t_job t) (t_flag t) (k (Ok (mkResp 200 None (Ok (bs "{}"))))) :: after) (cflags s))
              | _ => λ _, None
              end k
          | Done _ => None
          end
      | [] => None
      end
  | DropGuard =>
      match threads s with
      | t :: after =>
          match t_todo t with
          | Do e k =>
              match e in pop X return (X → prog pop (exn (Z * bytes))) → option (label * csys) with
              | Unregister id => λ k,
                  Some (Ended id, with_threads s (Thread (t_job t) None (k tt) :: after) (drop_guard id (cflags s)))
              | _ => λ _, None
              end k
          | Done _ => None
          end
      | [] => None
      end
  | HandIn =>
      match threads s with
      | t :: after =>
          match t_todo t with
          | Done (Returned (status, body)) =>
              Some (Quiet, CSys (cqueued s) after (cfinished s ++ [result_of (t_job t) status body]) (cdied s)
                (cworker s) (cbooks s) (csubmitted s) (charvested s) (cflags s))
          | _ => None
          end
      | [] => None
      end
  end.

Lemma cmove_step m s l s' : cmove m s = Some (l, s') → cstep (λ _, Some Null) s l s'.
Proof.
  destruct m; simpl.
  - destruct (cworker s) as [a|X e k] eqn:Hw; [done|].
    destruct (flag_effect X e (cflags s)) as [l0 f0] eqn:Hf. intros [= <- <-].
    assert (flag_event (cflags s) (Event X e (stop_answer s X e)) l0 f0) as Hev.
    { destruct e; cbn in Hf; injection Hf as <- <-; by constructor. }
    apply (cstep_worker _ s X e k (stop_answer s X e)
      (Pool (cqueued s ++ jobs_of (Event X e (stop_answer s X e))) (t_job <$> threads s)
        (drop (length (results_of (Event X e (stop_answer s X e)))) (cfinished s)) (cdied s)));
      [done| |done].
    unfold forget. cbn [the_pool].
    destruct e as [[] ?| | | | | | | | | | | | | | | | | | | | | | | ]; simpl;
      rewrite ?app_nil_r, ?drop_0; try (by apply pool_other).
    + change (stop_answer s _ TryRecv) with (head (cfinished s)).
      destruct (cfinished s) as [|r0 f]; [by apply pool_other|].
      cbn [head results_of ev_op ev_val ev_ans length drop].
      exact (pool_recv (Pool (cqueued s) (t_job <$> threads s) (r0 :: f) (cdied s)) r0 f eq_refl).
    + exact (pool_send (Pool (cqueued s) (t_job <$> threads s) (cfinished s) (cdied s)) job).
  - destruct (cqueued s) as [|job rest] eqn:Hq; [done|]. case_decide as Hi; [|done].
    intros [= <- <-]. by apply cstep_take.
  - destruct (threads s) as [|t after] eqn:Ht; [done|].
    destruct (t_todo t) as [a|X e k] eqn:Htodo; [done|]. destruct e as [id| |]; [|done..].
    intros [= <- <-]. exact (cstep_register _ s [] t after id k _ _ Ht Htodo eq_refl).
  - destruct (threads s) as [|t after] eqn:Ht; [done|].
    destruct (t_todo t) as [a|X e k] eqn:Htodo; [done|]. destruct e as [| |r]; [done..|].
    destruct (t_flag t) as [n|] eqn:Hn; [|done]. intros [= <- <-].
    by apply (cstep_look _ s [] t after r k n).
  - destruct (threads s) as [|t after] eqn:Ht; [done|].
    destruct (t_todo t) as [a|X e k] eqn:Htodo; [done|]. destruct e as [| |r]; [done..|].
    intros [= <- <-]. by apply (cstep_sent _ s [] t after r k).
  - destruct (threads s) as [|t after] eqn:Ht; [done|].
    destruct (t_todo t) as [a|X e k] eqn:Htodo; [done|]. destruct e as [|id|]; [done| |done].
    intros [= <- <-]. by apply (cstep_unregister _ s [] t after id k).
  - destruct (threads s) as [|t after] eqn:Ht; [done|].
    destruct (t_todo t) as [[[st body]|m]|X e k] eqn:Htodo; [|done..].
    intros [= <- <-]. by apply (cstep_finish _ s [] t after st body).
Qed.

Fixpoint cmoves (ms : list move) (s : csys) : list label * csys :=
  match ms with
  | [] => ([], s)
  | m :: ms' =>
      match cmove m s with
      | Some (l, s') => let '(tr, s'') := cmoves ms' s' in (l :: tr, s'')
      | None => ([], s)
      end
  end.

Lemma csteps_cons s0 l s tr s' :
  cstep (λ _, Some Null) s0 l s → csteps (λ _, Some Null) s tr s' →
  csteps (λ _, Some Null) s0 (l :: tr) s'.
Proof.
  intros Hl Hs. induction Hs as [|tr s1 l1 s2 _ IH Hstep].
  - apply (csteps_step _ _ [] s0); [constructor|done].
  - rewrite app_comm_cons. by eapply csteps_step.
Qed.

Lemma cmoves_steps ms s : csteps (λ _, Some Null) s (cmoves ms s).1 (cmoves ms s).2.
Proof.
  revert s. induction ms as [|m ms IH]; intros s; simpl; [constructor|].
  destruct (cmove m s) as [[l s']|] eqn:Hm; [|constructor].
  specialize (IH s'). destruct (cmoves ms s') as [tr s'']. simpl in *.
  eapply csteps_cons; [by apply (cmove_step m)|done].
Qed.

Definition distinct_check (tr : list label) : bool :=
  forallb (λ n, match tr !! n with
                | Some (Began id) => negb (live id (take n tr))
                | _ => true
                end) (seq 0 (length tr)).

Lemma distinct_check_sound tr : distinct_check tr = true → distinct_calls tr.
Proof.
  intros H b id a ->. unfold distinct_check in H. rewrite forallb_forall in H.
  specialize (H (length b)). rewrite list_lookup_middle, take_app_length in H by done.
  apply negb_true_iff, H, in_seq. rewrite length_app. simpl. lia.
Qed.

(** The job is sent, a thread takes it and looks; the worker asks about the
    call, hears that it is lost, and sets its flag; the thread looks again. *)
Definition stop_run : list label * csys :=
  cmoves (replicate 36 WorkerMoves ++ [TakeJob; RegisterGuard; LookAtFlag]
          ++ replicate 40 WorkerMoves ++ [LookAtFlag])
    (csys0 (λ _, bs "{}") (λ _, Some Null) 5 here).

Lemma stop_reaches_its_call_witness :
  stop_run.1 !! 38 = Some (Looked sample_id (Ok tt))
  ∧ stop_run.1 = take 79 stop_run.1 ++ [Looked sample_id (Err cancelled_error)]
  ∧ told_since sample_id (take 79 stop_run.1) = true.
Proof.
  split; [vm_compute; reflexivity|].
  assert (stop_run.1 = take 79 stop_run.1 ++ [Looked sample_id (Err cancelled_error)]) as Hsplit
    by (vm_compute; reflexivity).
  split; [exact Hsplit|].
  destruct (stop_reaches_its_call (λ _, bs "{}") (λ _, Some Null) 5 here stop_run.1 stop_run.2) as [H _].
  - apply cmoves_steps.
  - apply distinct_check_sound. vm_compute. reflexivity.
  - specialize (H (take 79 stop_run.1) sample_id (Err cancelled_error) [] Hsplit).
    destruct (told_since sample_id (take 79 stop_run.1)); [reflexivity|discriminate H].
Defined.

(** Moves of the threads, counted. *)
Lemma cmoves_works ms s :
  forallb (λ m, match m with WorkerMoves | LookAtFlag => false | _ => true end) ms = true →
  length (cmoves ms s).1 = length ms → works (λ _, Some Null) (length ms) s (cmoves ms s).2.
Proof.
  revert s. induction ms as [|m ms IH]; intros s Hms Hl; [constructor|].
  cbn [forallb] in Hms. apply andb_true_iff in Hms as [Hm Hms]. simpl in *.
  destruct (cmove m s) as [[l s']|] eqn:E; [|done]. specialize (IH s' Hms).
  destruct (cmoves ms s') as [tr s''] eqn:E'. simpl in *. econstructor; [by apply (cmove_step m)| |apply IH; lia].
  clear - E Hm. destruct m; simpl in E, Hm; repeat case_match; simplify_eq; done.
Qed.

(** A job is queued, and worked off. *)
Definition queued_run : list label * csys :=
  cmoves (replicate 36 WorkerMoves) (csys0 (λ _, bs "{}") (λ _, Some Null) 5 here).

Definition job_moves : list move := [TakeJob; RegisterGuard; SendReturns; DropGuard; HandIn].

Lemma pool_works_off_witness :
  length (cqueued queued_run.2) = 1
  ∧ length (cfinished (cmoves job_moves queued_run.2).2) = 1
  ∧ 5 ≤ 7 * (length (cqueued queued_run.2) + length (threads queued_run.2)).
Proof.
  split; [vm_compute; reflexivity|]. split; [vm_compute; reflexivity|].
  apply (pool_works_off (λ _, bs "{}") (λ _, Some Null) 5 here queued_run.1 queued_run.2 5
    (cmoves job_moves queued_run.2).2).
  - apply cmoves_steps.
  - apply (cmoves_works job_moves); vm_compute; reflexivity.
Defined.

Lemma threads_refine_pool_witness :
  length (running (the_pool (forget stop_run.2))) = 1
  ∧ psteps (λ _, Some Null) (psys0 (λ _, bs "{}") (λ _, Some Null) 5 here) (forget stop_run.2).
Proof.
  split; [vm_compute; reflexivity|].
  apply (threads_refine_pool (λ _, bs "{}") (λ _, Some Null) 5 here stop_run.1), cmoves_steps.
Defined.
