(* ===== verification/EndToEnd.v ===== *)
(** One request across the two workers: what the web worker's [rpc] sends is
    read by the runtime worker's [handle_rpc_stream], asked of PostgreSQL, and
    what PostgreSQL answers is what [rpc] returns.

    The workers share serde_json through the interface [Codec]: what it prints
    is UTF-8 and reads back. *)
From S2P Require Import Prelude RustStr Json Net Effects Config Idents WebState HttpProtocol.
From S2P Require Import Worker Exec Policy RuntimeWorker Ledger Web.

(** * The interface *)

(** [faithful v]: printing [v] loses nothing. *)
Class Codec (json_text : Value → bytes) (json_parse : bytes → option Value)
    (faithful : Value → Prop) : Prop := {
  codec_reads v : faithful v → json_parse (json_text v) = Some v;
  codec_utf8 v : faithful v → valid_utf8 (json_text v) = true
}.

(** * What the runtime worker was asked and replied *)

Record tape : Type := Tape {
  asked : list (list Value * option Value);   (* parameters of dashboard_rpc, and its answer *)
  replied : list bytes
}.

Definition tnext (t : tape) X (e : wop X) : X → tape :=
  match e in wop X return X → tape with
  | Spi DashboardRpc args => λ r,
      match r with
      | Returned (Ok a) => Tape (asked t ++ [(args, a)]) (replied t)
      | Returned (Err _) => Tape (asked t ++ [(args, None)]) (replied t)
      | Raised _ => t
      end
  | WriteReply r => λ _, Tape (asked t) (replied t ++ [r])
  | _ => λ _, t
  end.

Definition recorder : monitor wop := Monitor tape (λ _ _ _, True) tnext.

Definition recorded (tr : list (event wop)) : tape := after recorder (Tape [] []) tr.

Lemma recorder_untracked {A} (p : worker A) (Q : tape → A → Prop) t :
  only untracked p → (∀ a, Q t a) → wpr recorder p Q t.
Proof.
  intros Hp HQ. eapply (wpr_only recorder untracked); [done| |done].
  intros X e He. split; [done|]. intros x. destruct e; try done. by destruct s.
Qed.

(** What comes of a request: refused for want of privileges, or asked once. *)
Inductive outcome_of_rpc (text : bytes) : tape → Value → Prop :=
| rpc_refused r :
    outcome_of_rpc text (Tape [] [r]) (rpc_error (bs "privilege_drop_failed"))
| rpc_answered r a :
    outcome_of_rpc text (Tape [([Str text], Some a)] [r]) a
| rpc_empty r :
    outcome_of_rpc text (Tape [([Str text], None)] [r]) (rpc_error (bs "empty_rpc_result")).

Section exchange.
Context (json_text : Value → bytes) (json_parse : bytes → option Value) (faithful : Value → Prop).
Context `{!Codec json_text json_parse faithful}.

(** The reply and the value it stands for. *)
Definition replies_with (text : bytes) (t : tape) : Prop :=
  ∃ j, outcome_of_rpc text t j ∧ replied t = [json_text j].

Lemma dashboard_rpc_records text (Q : tape → bytes → Prop) :
  (∀ reply q, replies_with text (Tape q [reply]) → Q (Tape q []) reply) →
  wpr recorder (dashboard_rpc json_text text) Q (Tape [] []).
Proof.
  intros HQ. unfold dashboard_rpc, transaction.
  apply wpr_bind, wpr_op; [done|]. intros []. apply wpr_bind. cbn [next recorder tnext].
  apply wpr_bind, recorder_untracked; [by apply only_drop, session_untracked|]. intros [].
  - unfold spi_get. apply wpr_bind, wpr_bind, wpr_op_exn; [done|]. cbn [next recorder tnext app asked replied].
    intros r. apply wpr_ret, wpr_ret, wpr_bind, wpr_op_exn; [done|]. intros [].
    apply wpr_ret. destruct r as [[a|]|e]; apply HQ; (eexists; split; [|done]); constructor.
  - apply wpr_ret, wpr_bind, wpr_op_exn; [done|]. intros [].
    apply wpr_ret, HQ. eexists. split; [constructor|done].
Qed.

Lemma handle_records v t0 tr :
  faithful v → length (json_text v) ≤ MAX_REQUEST_BYTES →
  runs (handle_rpc_stream json_text json_parse (Some (json_text v)) true) tr t0 →
  t0 = Returned tt → replies_with (json_text v) (recorded tr).
Proof using Type*.
  intros Hv Hl Hr ->.
  eapply (wpr_runs recorder _ (λ t _, replies_with (json_text v) t)) in Hr as [_ Hr]; [exact Hr|].
  cbn [handle_rpc_stream]. rewrite take_ge, codec_utf8, codec_reads by done. cbn [andb].
  rewrite bool_decide_true by done. apply wpr_bind, dashboard_rpc_records.
  intros reply q Hj. apply wpr_op; [done|]. by intros [].
Qed.

(** The web worker's side of the exchange. *)
Lemma rpc_reads cfg v j :
  faithful j →
  runs (rpc json_text json_parse cfg v)
    [Event _ (HRpc (socket cfg) (json_text v)) (Answer (json_text j))] (Returned j).
Proof using Type*.
  intros Hj. unfold rpc. constructor. simpl. rewrite codec_utf8, codec_reads by done. constructor.
Qed.

End exchange.

(** * The claim *)

(** C12: across the two workers: a request the web worker forwards, if it is
    within the size limit, reaches PostgreSQL's dashboard function exactly
    once, as the text that was sent, unless privileges cannot be dropped; the
    runtime worker replies exactly once; and the value the web worker gets is
    PostgreSQL's answer, or the error that says why there is none. *)
Theorem rpc_end_to_end (json_text : Value → bytes) (json_parse : bytes → option Value)
    (faithful : Value → Prop) `{!Codec json_text json_parse faithful}
    (cfg : WebConfig) (v : Value) tr :
  faithful v → length (json_text v) ≤ MAX_REQUEST_BYTES →
  runs (handle_rpc_stream json_text json_parse (Some (json_text v)) true) tr (Returned tt) →
  ∃ j reply, outcome_of_rpc (json_text v) (recorded tr) j ∧ replied (recorded tr) = [reply]
    ∧ (faithful j →
       runs (rpc json_text json_parse cfg v)
         [Event _ (HRpc (socket cfg) (json_text v)) (Answer reply)] (Returned j)).
Proof.
  intros Hv Hl Hr. eapply handle_records in Hr as (j & Ho & Hrep); [|done..].
  exists j, (json_text j). split_and!; [done|done|]. intros Hj. by eapply rpc_reads.
Qed.

(** A codec that knows two texts. *)
Definition ping : Value := obj [(bs "action", Str (bs "ping"))].
Definition small_text (v : Value) : bytes := match v with Bool true => bs "true" | _ => bs "{}" end.
Definition small_parse (t : bytes) : option Value :=
  if decide (t = bs "true") then Some (Bool true) else if decide (t = bs "{}") then Some ping else None.
Definition small (v : Value) : Prop := v = Bool true ∨ v = ping.

#[export] Instance small_codec : Codec small_text small_parse small.
Proof. split; intros v [-> | ->]; reflexivity. Qed.

(** PostgreSQL drops privileges and answers true to the request. *)
Definition ponging (st : stmt) : exn (result (option Value) bytes) :=
  match st with
  | AssumeWorkerRole | DashboardRpc => Returned (Ok (Some (Bool true)))
  | _ => Returned (Ok None)
  end.

Definition ping_run : list (event wop) * exn unit :=
  run_with (scripted ponging) (handle_rpc_stream small_text small_parse (Some (small_text ping)) true) tt.

Lemma rpc_end_to_end_witness :
  recorded ping_run.1 = Tape [([Str (bs "{}")], Some (Bool true))] [bs "true"]
  ∧ ∃ j reply, outcome_of_rpc (small_text ping) (recorded ping_run.1) j
      ∧ replied (recorded ping_run.1) = [reply]
      ∧ (small j → runs (rpc small_text small_parse (mkConfig [] [] false) ping)
           [Event _ (HRpc [] (small_text ping)) (Answer reply)] (Returned j)).
Proof.
  assert (recorded ping_run.1 = Tape [([Str (bs "{}")], Some (Bool true))] [bs "true"]) as Hrec.
  { vm_compute. reflexivity. }
  split; [exact Hrec|].
  apply (rpc_end_to_end small_text small_parse small (mkConfig [] [] false) ping ping_run.1).
  - by right.
  - pose proof MAX_REQUEST_BYTES_N. change (length (small_text ping)) with 2. lia.
  - apply (run_with_runs (scripted ponging)
      (handle_rpc_stream small_text small_parse (Some (small_text ping)) true) tt).
Defined.
